(** * cx_ColorLines: the colour-line fill and blur engine

    A shallow embedding of [src/plugins/cx_ColorLines/ColorLines.cpp]
    (with the declarations of [ColorLines.h]) and the properties the
    specification states about it.

    Numeric model.
    - [PF_FpLong] (C [double]) is Rocq's primitive binary64 [float]; every
      arithmetic operation and comparison is the IEEE 754 one, evaluated in
      source order without contraction.  Facts about these operations are
      derived from the library's specification [FloatAxioms] over
      [SpecFloat].
    - [PF_FpShort] (C [float]) is a binary64 value that went through the
      binary32 rounding [to_FpShort].
    - [A_u_char] and [A_u_short] channels are [Z]; the narrowing casts are
      written out as [mod].
    - [A_long] is [Z].  Where channel data enter 32-bit arithmetic
      ([IsTargetColor8Fast]) the wrap-around is written out with [wrap32].
      Coordinates, radii and table indices are far below [2^31] (radii are
      at most 50 and the host limits frames to 30000 x 30000), so their
      arithmetic is plain [Z] arithmetic.
    - [exp] of the C library is a parameter of the model. *)

From Stdlib Require Import ZArith Bool List Lia Floats Uint63.
From stdpp Require Import base list.
From Stdlib Require Import QArith Qabs Qpower Lqa.

Set Warnings "-inexact-float".
Local Open Scope Z_scope.

(* ===================================================================== *)
(** ** Machine numbers                                                    *)
(* ===================================================================== *)

(** 32-bit two's complement wrap-around of [A_long]. *)
Definition wrap32 (z : Z) : Z := (z + 2 ^ 31) mod 2 ^ 32 - 2 ^ 31.

(** [(A_u_char) z] and [(A_u_short) z] for an integer [z]. *)
Definition A_u_char_of (z : Z) : Z := z mod 256.
Definition A_u_short_of (z : Z) : Z := z mod 65536.

(** [(PF_FpLong) z] for an integer below [2^63] in magnitude. *)
Definition FpLong_of_Z (z : Z) : float :=
  if z <? 0 then PrimFloat.opp (of_uint63 (Uint63.of_Z (- z)))
  else of_uint63 (Uint63.of_Z z).

(** [(A_long) x]: truncation toward zero.  C leaves the conversion of NaN
    and of the infinities undefined; the model returns 0 there. *)
Definition FpLong_to_Z (x : float) : Z :=
  match Prim2SF x with
  | S754_finite s m e =>
      let a := match e with
               | Z0 => Zpos m
               | Zpos _ => Zpos m * 2 ^ e
               | Zneg _ => Zpos m / 2 ^ (- e)
               end in
      if s then - a else a
  | _ => 0
  end.

(** [(PF_FpShort) x]: rounding to binary32 (24-bit mantissa, [emax] 128),
    nearest-even, kept as the binary64 value it denotes. *)
Definition to_FpShort (x : float) : float :=
  match Prim2SF x with
  | S754_finite s m e => SF2Prim (binary_round 24 128 s m e)
  | _ => x
  end.

(** Modelled from the spec: [PF_MAX_CHAN16] comes from the host SDK header
    [AE_Effect.h], which is not part of the repository; the specification
    gives the 16-bit native range as 0..32768 and the source comments say
    [PF_MAX_CHAN16 / 255.0 = 32768 / 255.0]. *)
Definition PF_MAX_CHAN16 : Z := 32768.

Definition MAX_WEIGHT_TABLE_RADIUS : Z := 50.
Definition WEIGHT_TABLE_SIZE : Z :=
  (MAX_WEIGHT_TABLE_RADIUS * 2 + 1) * (MAX_WEIGHT_TABLE_RADIUS * 2 + 1).

Definition FILL_MODE_NEAREST : Z := 1.
Definition FILL_MODE_AVERAGE : Z := 2.
Definition FILL_MODE_WEIGHTED : Z := 3.

Definition OUTPUT_MODE_FULL : Z := 1.
Definition OUTPUT_MODE_LINE_ONLY : Z := 2.
Definition OUTPUT_MODE_BG_ONLY : Z := 3.

(* ===================================================================== *)
(** ** Clamping                                                           *)
(* ===================================================================== *)

Definition ClampByte (value : float) : Z :=
  A_u_char_of (FpLong_to_Z
    (if value <? 0 then 0 else if 255 <? value then 255 else value)%float).

Definition Clamp16 (value : float) : Z :=
  A_u_short_of (FpLong_to_Z
    (if value <? 0 then 0
     else if FpLong_of_Z PF_MAX_CHAN16 <? value then FpLong_of_Z PF_MAX_CHAN16
     else value)%float).

Definition Clamp01 (value : float) : float :=
  (if value <? 0 then 0 else if 1 <? value then 1 else value)%float.

(* ===================================================================== *)
(** ** Pixels, frames and the line mask                                   *)
(* ===================================================================== *)

(** [PF_Pixel8], [PF_Pixel16] and [PF_PixelFloat] have the same four
    fields and differ in the channel type. *)
Record PF_Pixel (C : Type) : Type := mkPixel
  { alpha : C; red : C; green : C; blue : C }.
Arguments mkPixel {C} _ _ _ _.
Arguments alpha {C} _.
Arguments red {C} _.
Arguments green {C} _.
Arguments blue {C} _.

Definition PF_Pixel8 : Type := PF_Pixel Z.
Definition PF_Pixel16 : Type := PF_Pixel Z.
Definition PF_PixelFloat : Type := PF_Pixel float.

(** A frame buffer, row-major; the row stride is the width. *)
Record PF_EffectWorld (C : Type) : Type := mkWorld
  { world_width : Z; world_height : Z; world_data : list (PF_Pixel C) }.
Arguments mkWorld {C} _ _ _.
Arguments world_width {C} _.
Arguments world_height {C} _.
Arguments world_data {C} _.

(** [a[i]] for a C array held in a list; [d] stands for what an access
    outside the array would read. *)
Definition array_get {A : Type} (d : A) (a : list A) (i : Z) : A :=
  if i <? 0 then d else default d (a !! Z.to_nat i).

(** [a[i] = v]; an index outside the array leaves the model unchanged. *)
Definition array_set {A : Type} (a : list A) (i : Z) (v : A) : list A :=
  if i <? 0 then a else <[Z.to_nat i := v]> a.

(** [GetRow8(world, y)[x]] and its 16-bit and float twins. *)
Definition pixel_at {C : Type} (d : PF_Pixel C) (world : PF_EffectWorld C)
    (x y : Z) : PF_Pixel C :=
  array_get d (world_data world) (y * world_width world + x).

(** [for (i = lo; i <= hi; i++)]. *)
Definition range (lo hi : Z) : list Z := seqZ lo (hi - lo + 1).

Definition for_range {S : Type} (lo hi : Z) (body : Z -> S -> S) (s : S) : S :=
  fold_left (fun s i => body i s) (range lo hi) s.

(** Loops that can be left early ([break], [goto], or a loop condition
    on the state). *)
Inductive ctl (S : Type) : Type :=
  | Go (s : S)
  | Stop (s : S).
Arguments Go {S} _.
Arguments Stop {S} _.

Definition ctl_state {S : Type} (c : ctl S) : S :=
  match c with Go s => s | Stop s => s end.

Fixpoint for_ctl {S : Type} (l : list Z) (body : Z -> S -> ctl S) (s : S)
    : ctl S :=
  match l with
  | [] => Go s
  | i :: l' =>
      match body i s with
      | Go s' => for_ctl l' body s'
      | Stop s' => Stop s'
      end
  end.

(* ===================================================================== *)
(** ** Processing info and the line mask                                  *)
(* ===================================================================== *)

(** [ColorLinesInfo].  [in_data], [x_offset] and [y_offset] are never read
    by the engine and are left out.  [targetColor] is an 8-bit pixel. *)
Record ColorLinesInfo (C : Type) : Type := mkInfo
  { targetColor : PF_Pixel Z;
    tolerance : float;
    fillMode : Z;
    searchRadius : Z;
    ignoreTransparent : bool;
    sampleBlur : float;
    brightness : float;
    contrast : float;
    saturation : float;
    outputMode : Z;
    srcWorld : PF_EffectWorld C;
    lineMask : list Z;
    maskWidth : Z;
    maskHeight : Z;
    maskRowBytes : Z }.
Arguments mkInfo {C} _ _ _ _ _ _ _ _ _ _ _ _ _ _ _.
Arguments targetColor {C} _.
Arguments tolerance {C} _.
Arguments fillMode {C} _.
Arguments searchRadius {C} _.
Arguments ignoreTransparent {C} _.
Arguments sampleBlur {C} _.
Arguments brightness {C} _.
Arguments contrast {C} _.
Arguments saturation {C} _.
Arguments outputMode {C} _.
Arguments srcWorld {C} _.
Arguments lineMask {C} _.
Arguments maskWidth {C} _.
Arguments maskHeight {C} _.
Arguments maskRowBytes {C} _.

(** [info->lineMask = m]. *)
Definition set_lineMask {C : Type} (info : ColorLinesInfo C) (m : list Z)
    : ColorLinesInfo C :=
  mkInfo (targetColor info) (tolerance info) (fillMode info)
    (searchRadius info) (ignoreTransparent info) (sampleBlur info)
    (brightness info) (contrast info) (saturation info) (outputMode info)
    (srcWorld info) m (maskWidth info) (maskHeight info) (maskRowBytes info).

Definition GetMaskAtFast {C : Type} (info : ColorLinesInfo C) (x y : Z) : Z :=
  array_get 0 (lineMask info) (y * maskRowBytes info + x).

Definition SetMaskAtFast {C : Type} (info : ColorLinesInfo C) (x y : Z)
    (value : Z) : ColorLinesInfo C :=
  set_lineMask info (array_set (lineMask info) (y * maskRowBytes info + x) value).

Definition GetMaskAt {C : Type} (info : ColorLinesInfo C) (x y : Z) : Z :=
  if (x <? 0) || (x >=? maskWidth info) || (y <? 0) || (y >=? maskHeight info)
  then 0
  else array_get 0 (lineMask info) (y * maskRowBytes info + x).

(* ===================================================================== *)
(** ** RGB <-> HSL                                                        *)
(* ===================================================================== *)

Definition HueToRGB (p q t : float) : float :=
  (let t := if t <? 0 then t + 1 else if 1 <? t then t - 1 else t in
   if t <? 0.166666667 then p + (q - p) * 6 * t
   else if t <? 0.5 then q
   else if t <? 0.666666667 then p + (q - p) * (0.666666667 - t) * 6
   else p)%float.

(** Returns [(h, s, l)]. *)
Definition RGBtoHSL (r g b : float) : float * float * float :=
  (let maxVal := if g <? r then (if b <? r then r else b)
                 else (if b <? g then g else b) in
   let minVal := if r <? g then (if r <? b then r else b)
                 else (if g <? b then g else b) in
   let delta := maxVal - minVal in
   let l := (maxVal + minVal) * 0.5 in
   if delta <? 0.00001 then (0, 0, l)
   else
     let s := if 0.5 <? l then delta / (2 - maxVal - minVal)
              else delta / (maxVal + minVal) in
     let h := if maxVal =? r then (g - b) / delta + (if g <? b then 6 else 0)
              else if maxVal =? g then (b - r) / delta + 2
              else (r - g) / delta + 4 in
     (h * 0.166666667, s, l))%float.

(** Returns [(r, g, b)]. *)
Definition HSLtoRGB (h s l : float) : float * float * float :=
  (if s <? 0.00001 then (l, l, l)
   else
     let q := if l <? 0.5 then l * (1 + s) else l + s - l * s in
     let p := 2 * l - q in
     (HueToRGB p q (h + 0.333333333), HueToRGB p q h,
      HueToRGB p q (h - 0.333333333)))%float.

(* ===================================================================== *)
(** ** Colour matching                                                    *)
(* ===================================================================== *)

(** The squared distance as [IsTargetColor8Fast] computes it, in [A_long]
    arithmetic. *)
Definition distSq8 (pixel : PF_Pixel8) (targetR targetG targetB : Z) : Z :=
  let dr := wrap32 (red pixel - targetR) in
  let dg := wrap32 (green pixel - targetG) in
  let db := wrap32 (blue pixel - targetB) in
  wrap32 (wrap32 (wrap32 (dr * dr) + wrap32 (dg * dg)) + wrap32 (db * db)).

Definition IsTargetColor8Fast (pixel : PF_Pixel8)
    (targetR targetG targetB : Z) (toleranceSq : float) : bool :=
  (FpLong_of_Z (distSq8 pixel targetR targetG targetB) <=? toleranceSq)%float.

(** The squared distance of the 16-bit and float matchers, in [PF_FpLong]
    arithmetic; [r], [g], [b] are the promoted channels. *)
Definition distSqFp (r g b targetR targetG targetB : float) : float :=
  (let dr := r - targetR in
   let dg := g - targetG in
   let db := b - targetB in
   dr * dr + dg * dg + db * db)%float.

Definition IsTargetColor16Fast (pixel : PF_Pixel16)
    (targetR targetG targetB toleranceSq : float) : bool :=
  (distSqFp (FpLong_of_Z (red pixel)) (FpLong_of_Z (green pixel))
     (FpLong_of_Z (blue pixel)) targetR targetG targetB <=? toleranceSq)%float.

Definition IsTargetColorFloatFast (pixel : PF_PixelFloat)
    (targetR targetG targetB toleranceSq : float) : bool :=
  (distSqFp (red pixel) (green pixel) (blue pixel) targetR targetG targetB
     <=? toleranceSq)%float.

(* ===================================================================== *)
(** ** Colour adjustment                                                  *)
(* ===================================================================== *)

Record ColorAdjustParams : Type := mkAdj
  { needsAdjustment : bool;
    needsBrightness : bool;
    needsContrast : bool;
    needsSaturation : bool;
    brightnessFactor : float;
    contrastFactor : float;
    saturationFactor : float }.

(** A factor whose flag is off is left unset by the source and never read;
    the model stores 0 there. *)
Definition InitColorAdjustParams {C : Type} (info : ColorLinesInfo C)
    : ColorAdjustParams :=
  let nb := negb (brightness info =? 0)%float in
  let nc := negb (contrast info =? 0)%float in
  let ns := negb (saturation info =? 0)%float in
  mkAdj (nb || nc || ns) nb nc ns
    (if nb then brightness info / 100 else 0)%float
    (if nc then (let k := (100 + contrast info) / 100 in k * k) else 0)%float
    (if ns then (100 + saturation info) / 100 else 0)%float.

(** The brightness, contrast and saturation stages of the 8-bit and 16-bit
    adjusters, on normalised channels [(r, g, b)]. *)
Definition brightness_stage (adj : ColorAdjustParams)
    (c : float * float * float) : float * float * float :=
  let '(r, g, b) := c in
  if needsBrightness adj then
    (Clamp01 (r + brightnessFactor adj), Clamp01 (g + brightnessFactor adj),
     Clamp01 (b + brightnessFactor adj))%float
  else c.

Definition contrast_stage (adj : ColorAdjustParams)
    (c : float * float * float) : float * float * float :=
  let '(r, g, b) := c in
  if needsContrast adj then
    (Clamp01 (0.5 + (r - 0.5) * contrastFactor adj),
     Clamp01 (0.5 + (g - 0.5) * contrastFactor adj),
     Clamp01 (0.5 + (b - 0.5) * contrastFactor adj))%float
  else c.

Definition saturation_stage (adj : ColorAdjustParams)
    (c : float * float * float) : float * float * float :=
  let '(r, g, b) := c in
  if needsSaturation adj then
    let '(h, s, l) := RGBtoHSL r g b in
    let s := Clamp01 (s * saturationFactor adj)%float in
    HSLtoRGB h s l
  else c.

Definition ApplyColorAdjustments8Fast (pixel : PF_Pixel8)
    (adj : ColorAdjustParams) : PF_Pixel8 :=
  if negb (needsAdjustment adj) then pixel
  else
    let c := (FpLong_of_Z (red pixel) * 0.00392156863,
              FpLong_of_Z (green pixel) * 0.00392156863,
              FpLong_of_Z (blue pixel) * 0.00392156863)%float in
    let '(r, g, b) :=
      saturation_stage adj (contrast_stage adj (brightness_stage adj c)) in
    mkPixel (alpha pixel) (ClampByte (r * 255)%float)
      (ClampByte (g * 255)%float) (ClampByte (b * 255)%float).

Definition ApplyColorAdjustments16Fast (pixel : PF_Pixel16)
    (adj : ColorAdjustParams) : PF_Pixel16 :=
  if negb (needsAdjustment adj) then pixel
  else
    let invMax := (1 / FpLong_of_Z PF_MAX_CHAN16)%float in
    let c := (FpLong_of_Z (red pixel) * invMax,
              FpLong_of_Z (green pixel) * invMax,
              FpLong_of_Z (blue pixel) * invMax)%float in
    let '(r, g, b) :=
      saturation_stage adj (contrast_stage adj (brightness_stage adj c)) in
    mkPixel (alpha pixel) (Clamp16 (r * FpLong_of_Z PF_MAX_CHAN16)%float)
      (Clamp16 (g * FpLong_of_Z PF_MAX_CHAN16)%float)
      (Clamp16 (b * FpLong_of_Z PF_MAX_CHAN16)%float).

(** The float adjuster clamps nothing but the arguments of [RGBtoHSL]. *)
Definition ApplyColorAdjustmentsFloatFast (pixel : PF_PixelFloat)
    (adj : ColorAdjustParams) : PF_PixelFloat :=
  if negb (needsAdjustment adj) then pixel
  else
    let '(r, g, b) := (red pixel, green pixel, blue pixel) in
    let '(r, g, b) :=
      if needsBrightness adj then
        (r + brightnessFactor adj, g + brightnessFactor adj,
         b + brightnessFactor adj)%float
      else (r, g, b) in
    let '(r, g, b) :=
      if needsContrast adj then
        (0.5 + (r - 0.5) * contrastFactor adj,
         0.5 + (g - 0.5) * contrastFactor adj,
         0.5 + (b - 0.5) * contrastFactor adj)%float
      else (r, g, b) in
    let '(r, g, b) :=
      if needsSaturation adj then
        let '(h, s, l) := RGBtoHSL (Clamp01 r) (Clamp01 g) (Clamp01 b) in
        let s := Clamp01 (s * saturationFactor adj)%float in
        HSLtoRGB h s l
      else (r, g, b) in
    mkPixel (alpha pixel) (to_FpShort r) (to_FpShort g) (to_FpShort b).

(* ===================================================================== *)
(** ** Weight tables (process-wide state)                                 *)
(* ===================================================================== *)

(** The four file-scope statics: two tables and the radius each was last
    built for. *)
Record WeightTables : Type := mkTables
  { g_invDistWeights : list float;
    g_gaussianWeights : list float;
    g_currentWeightRadius : Z;
    g_currentBlurRadius : Z }.

(** Static storage is zero-initialised. *)
Definition initial_tables : WeightTables :=
  mkTables (replicate (Z.to_nat WEIGHT_TABLE_SIZE) 0%float)
    (replicate (Z.to_nat WEIGHT_TABLE_SIZE) 0%float) 0 0.

Definition weight_index (radius dx dy : Z) : Z :=
  (dy + radius) * (radius * 2 + 1) + (dx + radius).

Definition invDist_weight (dx dy : Z) : float :=
  if (dx =? 0) && (dy =? 0) then 0%float
  else
    let dist := PrimFloat.sqrt (FpLong_of_Z (dx * dx + dy * dy)) in
    (1 / (dist + 0.1))%float.

Definition PrecomputeInvDistWeights (radius : Z) (g : WeightTables)
    : WeightTables :=
  if radius =? g_currentWeightRadius g then g
  else
    let radius :=
      if MAX_WEIGHT_TABLE_RADIUS <? radius then MAX_WEIGHT_TABLE_RADIUS
      else radius in
    let tbl :=
      for_range (- radius) radius (fun dy tbl =>
        for_range (- radius) radius (fun dx tbl =>
          array_set tbl (weight_index radius dx dy) (invDist_weight dx dy))
          tbl) (g_invDistWeights g) in
    mkTables tbl (g_gaussianWeights g) radius (g_currentBlurRadius g).

Section Gaussian.

(** [exp] of [<math.h>]. *)
Variable exp : float -> float.

Definition gaussian_weight (blurRadius dx dy : Z) : float :=
  let sigma2 := (2 * FpLong_of_Z blurRadius * FpLong_of_Z blurRadius)%float in
  let distSq := dx * dx + dy * dy in
  exp (- FpLong_of_Z distSq / sigma2)%float.

Definition PrecomputeGaussianWeights (blurRadius : Z) (g : WeightTables)
    : WeightTables :=
  if blurRadius =? g_currentBlurRadius g then g
  else
    let blurRadius :=
      if MAX_WEIGHT_TABLE_RADIUS <? blurRadius then MAX_WEIGHT_TABLE_RADIUS
      else blurRadius in
    let tbl :=
      for_range (- blurRadius) blurRadius (fun dy tbl =>
        for_range (- blurRadius) blurRadius (fun dx tbl =>
          array_set tbl (weight_index blurRadius dx dy)
            (gaussian_weight blurRadius dx dy))
          tbl) (g_gaussianWeights g) in
    mkTables (g_invDistWeights g) tbl (g_currentWeightRadius g) blurRadius.

End Gaussian.

(* ===================================================================== *)
(** ** Per-frame context                                                  *)
(* ===================================================================== *)

(** [ProcessingContext] without its [info] pointer: the one
    [ColorLinesInfo] of the render is passed next to the context, and a
    callback that writes the mask returns the updated info. *)
Record ProcessingContext : Type := mkCtx
  { targetR8 : Z; targetG8 : Z; targetB8 : Z;
    targetR16 : float; targetG16 : float; targetB16 : float;
    targetRF : float; targetGF : float; targetBF : float;
    toleranceSq8 : float; toleranceSq16 : float; toleranceSqF : float;
    colorAdj : ColorAdjustParams;
    edgeMargin : Z;
    width : Z; height : Z }.

Definition InitProcessingContext {C : Type} (g : WeightTables)
    (info : ColorLinesInfo C) : WeightTables * ProcessingContext :=
  let tc := targetColor info in
  let maxDist8 := (tolerance info * 4.4167)%float in
  let scale8to16 := (FpLong_of_Z PF_MAX_CHAN16 / 255)%float in
  let maxDist16 := (tolerance info * 4.4167 * scale8to16)%float in
  let scale8toFloat := (1 / 255)%float in
  let maxDistF := (tolerance info * 4.4167 * scale8toFloat)%float in
  let ctx :=
    mkCtx (red tc) (green tc) (blue tc)
      (FpLong_of_Z (red tc) * scale8to16)%float
      (FpLong_of_Z (green tc) * scale8to16)%float
      (FpLong_of_Z (blue tc) * scale8to16)%float
      (FpLong_of_Z (red tc) * scale8toFloat)%float
      (FpLong_of_Z (green tc) * scale8toFloat)%float
      (FpLong_of_Z (blue tc) * scale8toFloat)%float
      (maxDist8 * maxDist8)%float (maxDist16 * maxDist16)%float
      (maxDistF * maxDistF)%float
      (InitColorAdjustParams info)
      (searchRadius info)
      (world_width (srcWorld info)) (world_height (srcWorld info)) in
  let g' :=
    if fillMode info =? FILL_MODE_WEIGHTED
    then PrecomputeInvDistWeights (searchRadius info) g else g in
  (g', ctx).

(* ===================================================================== *)
(** ** What differs between the three bit depths                          *)
(* ===================================================================== *)

(** The 8-bit, 16-bit and float copies of the fill, mask and blur
    functions are the same text up to: the channel type, the value of an
    opaque alpha, the promotion of a channel to [PF_FpLong], the test
    [alpha < max] of the ignore-transparent filter, and the conversion
    that stores a [PF_FpLong] into a channel. *)
Record DepthOps (C : Type) : Type := mkOps
  { chan_zero : C;
    chan_max : C;
    chan_fp : C -> float;
    alpha_below_max : C -> bool;
    chan_store : float -> C }.
Arguments mkOps {C} _ _ _ _ _.
Arguments chan_zero {C} _.
Arguments chan_max {C} _.
Arguments chan_fp {C} _ _.
Arguments alpha_below_max {C} _ _.
Arguments chan_store {C} _ _.

Definition ops8 : DepthOps Z :=
  mkOps 0 255 FpLong_of_Z (fun a => a <? 255) ClampByte.

Definition ops16 : DepthOps Z :=
  mkOps 0 PF_MAX_CHAN16 FpLong_of_Z (fun a => a <? PF_MAX_CHAN16) Clamp16.

Definition opsFloat : DepthOps float :=
  mkOps 0%float 1%float (fun c => c) (fun a => (a <? 1)%float) to_FpShort.

Definition zero_pixel {C : Type} (ops : DepthOps C) : PF_Pixel C :=
  mkPixel (chan_zero ops) (chan_zero ops) (chan_zero ops) (chan_zero ops).

(** Running sums of the average, weighted and blur loops. *)
Record Acc : Type := mkAcc
  { sumR : float; sumG : float; sumB : float; sumA : float;
    totalWeight : float }.

Definition acc_zero : Acc := mkAcc 0 0 0 0 0.

(** [sumR += neighbor->red * weight; ...; totalWeight += weight;] *)
Definition acc_add {C : Type} (ops : DepthOps C) (acc : Acc)
    (neighbor : PF_Pixel C) (weight : float) : Acc :=
  mkAcc (sumR acc + chan_fp ops (red neighbor) * weight)%float
    (sumG acc + chan_fp ops (green neighbor) * weight)%float
    (sumB acc + chan_fp ops (blue neighbor) * weight)%float
    (sumA acc + chan_fp ops (alpha neighbor) * weight)%float
    (totalWeight acc + weight)%float.

(** [if (totalWeight > 0) { out = sums * (1 / totalWeight) } else
    { *outP = *inP; }] *)
Definition acc_result {C : Type} (ops : DepthOps C) (acc : Acc)
    (inP : PF_Pixel C) : PF_Pixel C :=
  if (0 <? totalWeight acc)%float then
    let invWeight := (1 / totalWeight acc)%float in
    mkPixel (chan_store ops (sumA acc * invWeight)%float)
      (chan_store ops (sumR acc * invWeight)%float)
      (chan_store ops (sumG acc * invWeight)%float)
      (chan_store ops (sumB acc * invWeight)%float)
  else inP.

(* ===================================================================== *)
(** ** Line fill                                                          *)
(* ===================================================================== *)

Section Fill.

Context {C : Type}.
Variable ops : DepthOps C.
(** The matcher applied to the frame's target and tolerance, and the
    adjuster applied to the frame's factors. *)
Variable isTarget : PF_Pixel C -> bool.
Variable adjust : PF_Pixel C -> PF_Pixel C.
Variable g : WeightTables.
Variable info : ColorLinesInfo C.
Variables x y : Z.

(** A neighbour the fill may not use. *)
Definition disqualified (nx ny : Z) : bool :=
  let neighbor := pixel_at (zero_pixel ops) (srcWorld info) nx ny in
  (ignoreTransparent info && alpha_below_max ops (alpha neighbor))
  || isTarget neighbor.

(** State of the nearest search: [nearestDistSq] and [nearestPixel]. *)
Definition nearest_tap (ring dy ny dx : Z) (st : Z * option (PF_Pixel C))
    : ctl (Z * option (PF_Pixel C)) :=
  if negb (dy =? - ring) && negb (dy =? ring)
     && negb (dx =? - ring) && negb (dx =? ring) then Go st
  else
    let nx := x + dx in
    if (nx <? 0) || (nx >=? world_width (srcWorld info)) then Go st
    else if disqualified nx ny then Go st
    else
      let distSq := dx * dx + dy * dy in
      if distSq <? fst st then
        let st' := (distSq, Some (pixel_at (zero_pixel ops) (srcWorld info) nx ny)) in
        if distSq =? 1 then Stop st' else Go st'
      else Go st.

Definition nearest_row (ring dy : Z) (st : Z * option (PF_Pixel C))
    : ctl (Z * option (PF_Pixel C)) :=
  let ny := y + dy in
  if (ny <? 0) || (ny >=? world_height (srcWorld info)) then Go st
  else for_ctl (range (- ring) ring) (nearest_tap ring dy ny) st.

Definition nearest_ring (ring : Z) (st : Z * option (PF_Pixel C))
    : ctl (Z * option (PF_Pixel C)) :=
  if negb (1 <? fst st) then Stop st
  else if ring * ring >=? fst st then Stop st
  else for_ctl (range (- ring) ring) (nearest_row ring) st.

Definition nearest_fill (inP : PF_Pixel C) : PF_Pixel C :=
  let st :=
    ctl_state (for_ctl (range 1 (searchRadius info)) nearest_ring (999999, None)) in
  match snd st with
  | Some nearestPixel => nearestPixel
  | None => inP
  end.

Definition fill_tap (isAverage : bool) (dy ny dx : Z) (acc : Acc) : Acc :=
  if (dx =? 0) && (dy =? 0) then acc
  else
    let nx := x + dx in
    if (nx <? 0) || (nx >=? world_width (srcWorld info)) then acc
    else if disqualified nx ny then acc
    else
      let radius := searchRadius info in
      let weightRowOffset := (dy + radius) * (radius * 2 + 1) in
      let weight :=
        if isAverage then 1%float
        else array_get 0%float (g_invDistWeights g) (weightRowOffset + dx + radius) in
      acc_add ops acc (pixel_at (zero_pixel ops) (srcWorld info) nx ny) weight.

Definition fill_row (isAverage : bool) (dy : Z) (acc : Acc) : Acc :=
  let ny := y + dy in
  if (ny <? 0) || (ny >=? world_height (srcWorld info)) then acc
  else
    for_range (- searchRadius info) (searchRadius info)
      (fill_tap isAverage dy ny) acc.

Definition fill_accumulate : Acc :=
  let isAverage := fillMode info =? FILL_MODE_AVERAGE in
  for_range (- searchRadius info) (searchRadius info) (fill_row isAverage)
    acc_zero.

(** The value before the colour adjustment. *)
Definition raw_fill (inP : PF_Pixel C) : PF_Pixel C :=
  if fillMode info =? FILL_MODE_NEAREST then nearest_fill inP
  else acc_result ops fill_accumulate inP.

Definition FillLinePixel (inP : PF_Pixel C) : PF_Pixel C :=
  adjust (raw_fill inP).

End Fill.

Definition FillLinePixel8 (g : WeightTables) (info : ColorLinesInfo Z)
    (x y : Z) (inP : PF_Pixel8) (targetR targetG targetB : Z)
    (toleranceSq : float) (adj : ColorAdjustParams) : PF_Pixel8 :=
  FillLinePixel ops8
    (fun p => IsTargetColor8Fast p targetR targetG targetB toleranceSq)
    (fun p => ApplyColorAdjustments8Fast p adj) g info x y inP.

Definition FillLinePixel16 (g : WeightTables) (info : ColorLinesInfo Z)
    (x y : Z) (inP : PF_Pixel16) (targetR targetG targetB : float)
    (toleranceSq : float) (adj : ColorAdjustParams) : PF_Pixel16 :=
  FillLinePixel ops16
    (fun p => IsTargetColor16Fast p targetR targetG targetB toleranceSq)
    (fun p => ApplyColorAdjustments16Fast p adj) g info x y inP.

Definition FillLinePixelFloat (g : WeightTables) (info : ColorLinesInfo float)
    (x y : Z) (inP : PF_PixelFloat) (targetR targetG targetB : float)
    (toleranceSq : float) (adj : ColorAdjustParams) : PF_PixelFloat :=
  FillLinePixel opsFloat
    (fun p => IsTargetColorFloatFast p targetR targetG targetB toleranceSq)
    (fun p => ApplyColorAdjustmentsFloatFast p adj) g info x y inP.

(* ===================================================================== *)
(** ** Pass 1: match, mask and fill                                       *)
(* ===================================================================== *)

Section Pass1.

Context {C : Type}.
Variable ops : DepthOps C.
Variable isLineColor : ProcessingContext -> PF_Pixel C -> bool.
Variable fillLine :
  WeightTables -> ColorLinesInfo C -> Z -> Z -> PF_Pixel C ->
  ProcessingContext -> PF_Pixel C.

Definition in_edge_margin (ctx : ProcessingContext) (xL yL : Z) : bool :=
  (xL <? edgeMargin ctx) || (yL <? edgeMargin ctx)
  || (xL >=? width ctx - edgeMargin ctx)
  || (yL >=? height ctx - edgeMargin ctx).

(** Returns the pixel written to [outP] and the info with its mask
    updated. *)
Definition FillAndMask (g : WeightTables) (ctx : ProcessingContext)
    (info : ColorLinesInfo C) (xL yL : Z) (inP : PF_Pixel C)
    : PF_Pixel C * ColorLinesInfo C :=
  if in_edge_margin ctx xL yL then (inP, SetMaskAtFast info xL yL 0)
  else
    let isLine := isLineColor ctx inP in
    let info := SetMaskAtFast info xL yL (if isLine then 255 else 0) in
    let outP :=
      if outputMode info =? OUTPUT_MODE_FULL then
        if isLine then fillLine g info xL yL inP ctx else inP
      else if outputMode info =? OUTPUT_MODE_LINE_ONLY then
        if isLine then
          let o := fillLine g info xL yL inP ctx in
          mkPixel (chan_max ops) (red o) (green o) (blue o)
        else zero_pixel ops
      else if outputMode info =? OUTPUT_MODE_BG_ONLY then
        if isLine then zero_pixel ops else inP
      else inP in
    (outP, info).

End Pass1.

Definition isLine8 (ctx : ProcessingContext) (p : PF_Pixel8) : bool :=
  IsTargetColor8Fast p (targetR8 ctx) (targetG8 ctx) (targetB8 ctx)
    (toleranceSq8 ctx).

Definition isLine16 (ctx : ProcessingContext) (p : PF_Pixel16) : bool :=
  IsTargetColor16Fast p (targetR16 ctx) (targetG16 ctx) (targetB16 ctx)
    (toleranceSq16 ctx).

Definition isLineFloat (ctx : ProcessingContext) (p : PF_PixelFloat) : bool :=
  IsTargetColorFloatFast p (targetRF ctx) (targetGF ctx) (targetBF ctx)
    (toleranceSqF ctx).

Definition FillAndMask8_Optimized :=
  FillAndMask ops8 isLine8
    (fun g info x y inP ctx =>
       FillLinePixel8 g info x y inP (targetR8 ctx) (targetG8 ctx)
         (targetB8 ctx) (toleranceSq8 ctx) (colorAdj ctx)).

Definition FillAndMask16_Optimized :=
  FillAndMask ops16 isLine16
    (fun g info x y inP ctx =>
       FillLinePixel16 g info x y inP (targetR16 ctx) (targetG16 ctx)
         (targetB16 ctx) (toleranceSq16 ctx) (colorAdj ctx)).

Definition FillAndMaskFloat_Optimized :=
  FillAndMask opsFloat isLineFloat
    (fun g info x y inP ctx =>
       FillLinePixelFloat g info x y inP (targetRF ctx) (targetGF ctx)
         (targetBF ctx) (toleranceSqF ctx) (colorAdj ctx)).

(* ===================================================================== *)
(** ** Pass 2: blur confined to the mask                                  *)
(* ===================================================================== *)

(** [BlurContext]; pass 2 only reads the info, so the context holds it. *)
Record BlurContext (C : Type) : Type := mkBlurCtx
  { blur_info : ColorLinesInfo C;
    tempWorld : PF_EffectWorld C;
    blurRadius : Z;
    blurSize : Z }.
Arguments mkBlurCtx {C} _ _ _ _.
Arguments blur_info {C} _.
Arguments tempWorld {C} _.
Arguments blurRadius {C} _.
Arguments blurSize {C} _.

Section Blur.

Context {C : Type}.
Variable ops : DepthOps C.
Variable g : WeightTables.
Variable ctx : BlurContext C.
Variables xL yL : Z.

(** Body of the inner loop over [dx], shared by the three depths. *)
Definition blur_tap (dy ny dx : Z) (acc : Acc) : Acc :=
  let info := blur_info ctx in
  let nx := xL + dx in
  if (nx <? 0) || (nx >=? maskWidth info) then acc
  else if GetMaskAt info nx ny =? 0 then acc
  else
    let weightRowOffset := (dy + blurRadius ctx) * blurSize ctx in
    let weight :=
      array_get 0%float (g_gaussianWeights g)
        (weightRowOffset + dx + blurRadius ctx) in
    acc_add ops acc (pixel_at (zero_pixel ops) (tempWorld ctx) nx ny) weight.

(** Body of the loop over [dy] in the 16-bit and float callbacks. *)
Definition blur_row (dy : Z) (acc : Acc) : Acc :=
  let ny := yL + dy in
  if (ny <? 0) || (ny >=? maskHeight (blur_info ctx)) then acc
  else for_range (- blurRadius ctx) (blurRadius ctx) (blur_tap dy ny) acc.

(** The scan [hasAnyMask] of the 8-bit callback: the loop stops at the
    first masked pixel of the row, which is what [existsb] computes. *)
Definition hasAnyMask (ny : Z) : bool :=
  existsb (fun dx => negb (GetMaskAt (blur_info ctx) (xL + dx) ny =? 0))
    (range (- blurRadius ctx) (blurRadius ctx)).

(** Body of the loop over [dy] in the 8-bit callback, with the row skip. *)
Definition blur_row_skip (dy : Z) (acc : Acc) : Acc :=
  let ny := yL + dy in
  if (ny <? 0) || (ny >=? maskHeight (blur_info ctx)) then acc
  else if (GetMaskAt (blur_info ctx) xL ny =? 0) && negb (hasAnyMask ny)
  then acc
  else for_range (- blurRadius ctx) (blurRadius ctx) (blur_tap dy ny) acc.

Definition blur_accumulate : Acc :=
  for_range (- blurRadius ctx) (blurRadius ctx) blur_row acc_zero.

Definition blur_accumulate_skip : Acc :=
  for_range (- blurRadius ctx) (blurRadius ctx) blur_row_skip acc_zero.

(** The blur callback without the row skip (16-bit and float). *)
Definition BlurPass (inP : PF_Pixel C) : PF_Pixel C :=
  if GetMaskAt (blur_info ctx) xL yL =? 0 then inP
  else acc_result ops blur_accumulate inP.

(** The blur callback with the row skip (8-bit). *)
Definition BlurPass_skip (inP : PF_Pixel C) : PF_Pixel C :=
  if GetMaskAt (blur_info ctx) xL yL =? 0 then inP
  else acc_result ops blur_accumulate_skip inP.

End Blur.

Definition BlurPass8_Optimized := @BlurPass_skip Z ops8.
Definition BlurPass16_Optimized := @BlurPass Z ops16.
Definition BlurPassFloat_Optimized := @BlurPass float opsFloat.

(** The accumulation of [BlurPass16_Optimized] and
    [BlurPassFloat_Optimized], which have no row skip, run on 8-bit
    pixels. *)
Definition BlurPass8_unoptimized := @BlurPass Z ops8.

(* ===================================================================== *)
(** ** The render call                                                    *)
(* ===================================================================== *)

(** The host's iterate suite: the callback once per pixel, here in
    row-major order; [S] is the state the callback updates. *)
Definition iterate {C S : Type} (d : PF_Pixel C) (src : PF_EffectWorld C)
    (f : Z -> Z -> PF_Pixel C -> S -> PF_Pixel C * S) (s : S)
    : list (PF_Pixel C) * S :=
  for_range 0 (world_height src - 1) (fun yL st =>
    for_range 0 (world_width src - 1) (fun xL st =>
      let '(p, s') := f xL yL (pixel_at d src xL yL) (snd st) in
      (fst st ++ [p], s')) st) ([], s).

(** [(A_long)(infoP->sampleBlur / 10.0)]. *)
Definition effective_blur_radius (sampleBlur : float) : Z :=
  wrap32 (FpLong_to_Z (sampleBlur / 10)%float).

Section Render.

Context {C : Type}.
Variable exp : float -> float.
Variable ops : DepthOps C.
Variable fillAndMask :
  WeightTables -> ProcessingContext -> ColorLinesInfo C -> Z -> Z ->
  PF_Pixel C -> PF_Pixel C * ColorLinesInfo C.
Variable blurPass :
  WeightTables -> BlurContext C -> Z -> Z -> PF_Pixel C -> PF_Pixel C.

(** [infoP] as [SmartRender] sets it up: the source frame and a zeroed
    mask of the output's size (the host hands out input and output
    worlds of one size). *)
Definition setup_info (info : ColorLinesInfo C) (input : PF_EffectWorld C)
    : ColorLinesInfo C :=
  mkInfo (targetColor info) (tolerance info) (fillMode info)
    (searchRadius info) (ignoreTransparent info) (sampleBlur info)
    (brightness info) (contrast info) (saturation info) (outputMode info)
    input
    (replicate (Z.to_nat (world_width input * world_height input)) 0)
    (world_width input) (world_height input) (world_width input).

(** First pass: the output frame, the info with the finished mask and the
    weight tables. *)
Definition pass1 (g : WeightTables) (info : ColorLinesInfo C)
    (input : PF_EffectWorld C)
    : WeightTables * PF_EffectWorld C * ColorLinesInfo C :=
  let info := setup_info info input in
  let '(g, ctx) := InitProcessingContext g info in
  let '(out, info) :=
    iterate (zero_pixel ops) input
      (fun xL yL inP info => fillAndMask g ctx info xL yL inP) info in
  (g, mkWorld (world_width input) (world_height input) out, info).

(** Second pass over the snapshot [tempWorld] of the first pass's
    output. *)
Definition pass2 (g : WeightTables) (info : ColorLinesInfo C)
    (output : PF_EffectWorld C) (radius : Z)
    : WeightTables * PF_EffectWorld C :=
  let g := PrecomputeGaussianWeights exp radius g in
  let temp := output in
  let blurCtx := mkBlurCtx info temp radius (radius * 2 + 1) in
  let '(out, _) :=
    iterate (zero_pixel ops) temp
      (fun xL yL inP (_ : unit) => (blurPass g blurCtx xL yL inP, tt)) tt in
  (g, mkWorld (world_width output) (world_height output) out).

(** [SmartRender] for one pixel format, with the checkouts, the mask
    allocation and the iterate calls succeeding. *)
Definition SmartRender (g : WeightTables) (info : ColorLinesInfo C)
    (input : PF_EffectWorld C) : WeightTables * PF_EffectWorld C :=
  let '(g1, output, info1) := pass1 g info input in
  let radius := effective_blur_radius (sampleBlur info1) in
  if 1 <=? radius then pass2 g1 info1 output radius
  else (g1, output).

End Render.

Definition SmartRender8 (exp : float -> float) :=
  SmartRender exp ops8 FillAndMask8_Optimized BlurPass8_Optimized.
Definition SmartRender16 (exp : float -> float) :=
  SmartRender exp ops16 FillAndMask16_Optimized BlurPass16_Optimized.
Definition SmartRenderFloat (exp : float -> float) :=
  SmartRender exp opsFloat FillAndMaskFloat_Optimized BlurPassFloat_Optimized.

(* ===================================================================== *)
(** ** Dispatch on the pixel format                                       *)
(* ===================================================================== *)

(** The three formats [SmartRender] accepts in its [switch (format)];
    any other format ends the render with [PF_Err_BAD_CALLBACK_PARAM]. *)
Inductive PF_PixelFormat : Type :=
  | PF_PixelFormat_ARGB32
  | PF_PixelFormat_ARGB64
  | PF_PixelFormat_ARGB128.

Definition channel (format : PF_PixelFormat) : Type :=
  match format with
  | PF_PixelFormat_ARGB32 => Z
  | PF_PixelFormat_ARGB64 => Z
  | PF_PixelFormat_ARGB128 => float
  end.

Definition format_ops (format : PF_PixelFormat) : DepthOps (channel format) :=
  match format with
  | PF_PixelFormat_ARGB32 => ops8
  | PF_PixelFormat_ARGB64 => ops16
  | PF_PixelFormat_ARGB128 => opsFloat
  end.

Definition FillAndMask_Optimized (format : PF_PixelFormat)
    : WeightTables -> ProcessingContext -> ColorLinesInfo (channel format) ->
      Z -> Z -> PF_Pixel (channel format) ->
      PF_Pixel (channel format) * ColorLinesInfo (channel format) :=
  match format with
  | PF_PixelFormat_ARGB32 => FillAndMask8_Optimized
  | PF_PixelFormat_ARGB64 => FillAndMask16_Optimized
  | PF_PixelFormat_ARGB128 => FillAndMaskFloat_Optimized
  end.

Definition BlurPass_Optimized (format : PF_PixelFormat)
    : WeightTables -> BlurContext (channel format) -> Z -> Z ->
      PF_Pixel (channel format) -> PF_Pixel (channel format) :=
  match format with
  | PF_PixelFormat_ARGB32 => BlurPass8_Optimized
  | PF_PixelFormat_ARGB64 => BlurPass16_Optimized
  | PF_PixelFormat_ARGB128 => BlurPassFloat_Optimized
  end.

Definition SmartRender_format (exp : float -> float) (format : PF_PixelFormat)
    : WeightTables -> ColorLinesInfo (channel format) ->
      PF_EffectWorld (channel format) ->
      WeightTables * PF_EffectWorld (channel format) :=
  SmartRender exp (format_ops format) (FillAndMask_Optimized format)
    (BlurPass_Optimized format).

(** The first pass alone, as [SmartRender] runs it. *)
Definition pass1_format (format : PF_PixelFormat)
    : WeightTables -> ColorLinesInfo (channel format) ->
      PF_EffectWorld (channel format) ->
      WeightTables * PF_EffectWorld (channel format) *
      ColorLinesInfo (channel format) :=
  pass1 (format_ops format) (FillAndMask_Optimized format).

(** The matcher of a format on the frame's scaled target and tolerance. *)
Definition isLine_format (format : PF_PixelFormat)
    : ProcessingContext -> PF_Pixel (channel format) -> bool :=
  match format with
  | PF_PixelFormat_ARGB32 => isLine8
  | PF_PixelFormat_ARGB64 => isLine16
  | PF_PixelFormat_ARGB128 => isLineFloat
  end.

(** The colour adjuster of a format. *)
Definition ApplyColorAdjustmentsFast (format : PF_PixelFormat)
    : PF_Pixel (channel format) -> ColorAdjustParams ->
      PF_Pixel (channel format) :=
  match format with
  | PF_PixelFormat_ARGB32 => ApplyColorAdjustments8Fast
  | PF_PixelFormat_ARGB64 => ApplyColorAdjustments16Fast
  | PF_PixelFormat_ARGB128 => ApplyColorAdjustmentsFloatFast
  end.

(** [FillLinePixel8/16/Float] called with the context's target, tolerance
    and adjustment factors, as the first-pass callbacks call them. *)
Definition FillLinePixel_format (format : PF_PixelFormat)
    : WeightTables -> ColorLinesInfo (channel format) -> Z -> Z ->
      PF_Pixel (channel format) -> ProcessingContext ->
      PF_Pixel (channel format) :=
  match format with
  | PF_PixelFormat_ARGB32 => fun g info x y inP ctx =>
      FillLinePixel8 g info x y inP (targetR8 ctx) (targetG8 ctx)
        (targetB8 ctx) (toleranceSq8 ctx) (colorAdj ctx)
  | PF_PixelFormat_ARGB64 => fun g info x y inP ctx =>
      FillLinePixel16 g info x y inP (targetR16 ctx) (targetG16 ctx)
        (targetB16 ctx) (toleranceSq16 ctx) (colorAdj ctx)
  | PF_PixelFormat_ARGB128 => fun g info x y inP ctx =>
      FillLinePixelFloat g info x y inP (targetRF ctx) (targetGF ctx)
        (targetBF ctx) (toleranceSqF ctx) (colorAdj ctx)
  end.

(** The mask is a [maskWidth] x [maskHeight] byte grid of stride
    [maskWidth], as [SmartRender] allocates it. *)
Definition mask_wf {C : Type} (info : ColorLinesInfo C) : Prop :=
  maskRowBytes info = maskWidth info
  /\ length (lineMask info) = Z.to_nat (maskWidth info * maskHeight info).

Definition in_frame {C : Type} (info : ColorLinesInfo C) (x y : Z) : Prop :=
  0 <= x < maskWidth info /\ 0 <= y < maskHeight info.

(* ===================================================================== *)
(** ** Notions used to state the properties                               *)
(* ===================================================================== *)

(** The channels of an 8-bit pixel are bytes. *)
Definition byte_range (p : PF_Pixel Z) : Prop :=
  0 <= red p <= 255 /\ 0 <= green p <= 255 /\ 0 <= blue p <= 255.

Definition channels_in_range (format : PF_PixelFormat)
    : PF_Pixel (channel format) -> Prop :=
  match format with
  | PF_PixelFormat_ARGB32 => byte_range
  | _ => fun _ => True
  end.

(** Scale from the 8-bit space of the target colour and of the tolerance
    to a format's native range. *)
Definition native_scale (format : PF_PixelFormat) : float :=
  match format with
  | PF_PixelFormat_ARGB32 => 1%float
  | PF_PixelFormat_ARGB64 => (FpLong_of_Z PF_MAX_CHAN16 / 255)%float
  | PF_PixelFormat_ARGB128 => (1 / 255)%float
  end.

(** The square of the difference of two doubles, each of the two
    operations rounded to binary64. *)
Definition sq_difference (x y : float) : float :=
  ((x - y) * (x - y))%float.

(** Squared Euclidean RGB distance between a pixel and the scaled target
    in the native numbers of the format: an exact integer for 8-bit
    pixels; for the other two formats the three squared differences of
    the promoted channels, summed from red to blue in binary64. *)
Definition sq_distance_to_target (format : PF_PixelFormat)
    (target : PF_Pixel Z) : PF_Pixel (channel format) -> float :=
  match format with
  | PF_PixelFormat_ARGB32 => fun pixel =>
      FpLong_of_Z ((red pixel - red target) ^ 2
                   + (green pixel - green target) ^ 2
                   + (blue pixel - blue target) ^ 2)
  | PF_PixelFormat_ARGB64 => fun pixel =>
      let k := native_scale PF_PixelFormat_ARGB64 in
      (sq_difference (FpLong_of_Z (red pixel)) (FpLong_of_Z (red target) * k)
       + sq_difference (FpLong_of_Z (green pixel))
           (FpLong_of_Z (green target) * k)
       + sq_difference (FpLong_of_Z (blue pixel))
           (FpLong_of_Z (blue target) * k))%float
  | PF_PixelFormat_ARGB128 => fun pixel =>
      let k := native_scale PF_PixelFormat_ARGB128 in
      (sq_difference (red pixel) (FpLong_of_Z (red target) * k)
       + sq_difference (green pixel) (FpLong_of_Z (green target) * k)
       + sq_difference (blue pixel) (FpLong_of_Z (blue target) * k))%float
  end.

(** The rational number a finite binary64 number stands for; 0 for the
    infinities and NaN. *)
Definition SF2Q (x : spec_float) : Q :=
  match x with
  | S754_finite s m e => (inject_Z (cond_Zopp s (Zpos m)) * 2 ^ e)%Q
  | _ => 0%Q
  end.

Definition FpLong_value (x : float) : Q := SF2Q (Prim2SF x).

(** A zero, or a finite number of 53 mantissa digits whose exponent lies
    between [lo] and [hi]. *)
Definition SFcanon (lo hi : Z) (x : spec_float) : Prop :=
  match x with
  | S754_zero _ => True
  | S754_finite _ m e => Zpos (digits2_pos m) = 53 /\ lo <= e <= hi
  | _ => False
  end.

Definition SFcanonb (lo hi : Z) (x : spec_float) : bool :=
  match x with
  | S754_zero _ => true
  | S754_finite _ m e =>
      (Zpos (digits2_pos m) =? 53) && (lo <=? e) && (e <=? hi)
  | _ => false
  end.

(** The relative error bound of one binary64 operation used below,
    [2^-52], and that of the squared distance, [2^-49]. *)
Definition rounding_unit : Q := 1 # 4503599627370496.
Definition distance_accuracy : Q := 1 # 562949953421312.

(** A channel of a pixel, and a channel of the target scaled to the
    format, as rational numbers. *)
Definition channel_value (format : PF_PixelFormat) : channel format -> Q :=
  match format with
  | PF_PixelFormat_ARGB32 => inject_Z
  | PF_PixelFormat_ARGB64 => inject_Z
  | PF_PixelFormat_ARGB128 => FpLong_value
  end.

Definition target_value (format : PF_PixelFormat) (t : Z) : Q :=
  match format with
  | PF_PixelFormat_ARGB32 => inject_Z t
  | _ => FpLong_value (FpLong_of_Z t * native_scale format)
  end.

(** The squared Euclidean RGB distance between a pixel and the scaled
    target, without rounding. *)
Definition exact_sq_distance (format : PF_PixelFormat) (target : PF_Pixel Z)
    (pixel : PF_Pixel (channel format)) : Q :=
  let dr := (channel_value format (red pixel)
             - target_value format (red target))%Q in
  let dg := (channel_value format (green pixel)
             - target_value format (green target))%Q in
  let db := (channel_value format (blue pixel)
             - target_value format (blue target))%Q in
  (dr * dr + dg * dg + db * db)%Q.

(** The values a colour channel can hold: an [A_u_char], an [A_u_short],
    and for float pixels a finite [PF_FpShort] promoted to [PF_FpLong]
    (zero, or a magnitude from [2^-149] to below [2^128]). *)
Definition channel_representable (format : PF_PixelFormat)
    : channel format -> Prop :=
  match format with
  | PF_PixelFormat_ARGB32 => fun c => 0 <= c <= 255
  | PF_PixelFormat_ARGB64 => fun c => 0 <= c <= 65535
  | PF_PixelFormat_ARGB128 => fun c => SFcanon (-201) 75 (Prim2SF c)
  end.

Definition rgb_representable (format : PF_PixelFormat)
    (pixel : PF_Pixel (channel format)) : Prop :=
  channel_representable format (red pixel)
  /\ channel_representable format (green pixel)
  /\ channel_representable format (blue pixel).

(** The tolerance (0..100) as a squared distance in the native range. *)
Definition tolerance_squared (format : PF_PixelFormat) (tolerance : float)
    : float :=
  match format with
  | PF_PixelFormat_ARGB32 =>
      (tolerance * 4.4167 * (tolerance * 4.4167))%float
  | _ =>
      (tolerance * 4.4167 * native_scale format
       * (tolerance * 4.4167 * native_scale format))%float
  end.

(** *** Notions for the round trip through HSL *)

(** A double of the interval [0, 1]. *)
Definition in_unit_interval (x : float) : Prop :=
  (0 <=? x)%float = true /\ (x <=? 1)%float = true.

(** The larger and the smaller of two doubles, and the largest and the
    smallest of three channels. *)
Definition larger (x y : float) : float := if (y <? x)%float then x else y.
Definition smaller (x y : float) : float := if (x <? y)%float then x else y.

Definition largest_channel (r g b : float) : float :=
  larger (larger r g) b.

Definition smallest_channel (r g b : float) : float :=
  smaller (smaller r g) b.

(** *** Doubles against the rational numbers they stand for *)

(** A zero or a finite number. *)
Definition SFfin (x : spec_float) : Prop :=
  match x with
  | S754_zero _ | S754_finite _ _ _ => True
  | _ => False
  end.

Definition FpLong_finite (x : float) : Prop := SFfin (Prim2SF x).

(** [2^-47]: the error of one binary64 operation whose exact result is
    16 at most in magnitude stays below this. *)
Definition operation_error : Q := 1 # 140737488355328.

(** The double [x] is finite and within [e] of the number [X]. *)
Definition approx (x : float) (X e : Q) : Prop :=
  FpLong_finite x /\ (Qabs (FpLong_value x - X) <= e)%Q.

(** The share of [q - p] that the exact hue-to-channel function adds to
    [p] at hue [t], for [t] between -1/3 and 4/3: a trapezoid of period
    1. *)
Definition hue_weight (t : Q) : Q :=
  if Qlt_le_dec t 0 then 0
  else if Qlt_le_dec t (1 # 6) then 6 * t
  else if Qlt_le_dec t (1 # 2) then 1
  else if Qlt_le_dec t (2 # 3) then 4 - 6 * t
  else if Qlt_le_dec t 1 then 0
  else if Qlt_le_dec t (7 # 6) then 6 * t - 6
  else 1.

(** The hue after the wrap into [0, 1]: [t'] stands for [t + 1], [t - 1]
    or [t]. *)
Definition wrapped (t t' : Q) : Prop :=
  ((t' == t + 1)%Q /\ (t <= 3 # 10000000)%Q)
  \/ ((t' == t - 1)%Q /\ (1 - (3 # 10000000) <= t)%Q)
  \/ ((t' == t)%Q /\ (- (3 # 10000000) <= t)%Q /\ (t <= 1 + (3 # 10000000))%Q).

(** The three doubles of [c] are within [e] of the numbers [R], [G] and
    [B]. *)
Definition close_triple (c : float * float * float) (R G B e : Q) : Prop :=
  approx (fst (fst c)) R e /\ approx (snd (fst c)) G e /\ approx (snd c) B e.

(** Statement about one pixel of the first pass: in LineOnly mode a mask
    value of 0 comes with an output alpha of 0. *)
Definition line_only_unmasked_is_transparent (format : PF_PixelFormat)
    (g : WeightTables) (info : ColorLinesInfo (channel format)) (xL yL : Z)
    (inP : PF_Pixel (channel format)) : Prop :=
  let ctx := snd (InitProcessingContext g info) in
  let r := FillAndMask_Optimized format g ctx info xL yL inP in
  outputMode info = OUTPUT_MODE_LINE_ONLY ->
  GetMaskAtFast (snd r) xL yL = 0 ->
  alpha (fst r) = chan_zero (format_ops format).

(** Statement about one pixel of the first pass: in BackgroundOnly mode a
    mask value of 255 comes with an output alpha of 0. *)
Definition bg_only_masked_is_transparent (format : PF_PixelFormat)
    (g : WeightTables) (info : ColorLinesInfo (channel format)) (xL yL : Z)
    (inP : PF_Pixel (channel format)) : Prop :=
  let ctx := snd (InitProcessingContext g info) in
  let r := FillAndMask_Optimized format g ctx info xL yL inP in
  outputMode info = OUTPUT_MODE_BG_ONLY ->
  GetMaskAtFast (snd r) xL yL = 255 ->
  alpha (fst r) = chan_zero (format_ops format).

(** A neighbour the average and weighted fills skip: outside the frame,
    below full alpha under the ignore-transparent filter, or itself of the
    target colour. *)
Definition unusable {C : Type} (ops : DepthOps C)
    (isTarget : PF_Pixel C -> bool) (info : ColorLinesInfo C) (nx ny : Z)
    : bool :=
  (nx <? 0) || (nx >=? world_width (srcWorld info))
  || (ny <? 0) || (ny >=? world_height (srcWorld info))
  || disqualified ops isTarget info nx ny.

Definition neighbor_unusable (format : PF_PixelFormat)
    (ctx : ProcessingContext) (info : ColorLinesInfo (channel format))
    (nx ny : Z) : bool :=
  unusable (format_ops format) (isLine_format format ctx) info nx ny.

(** Every neighbour of [(x, y)] in the window of the search radius is
    skipped. *)
Definition all_neighbors_unusable (format : PF_PixelFormat)
    (ctx : ProcessingContext) (info : ColorLinesInfo (channel format))
    (x y : Z) : Prop :=
  forall dx dy,
    - searchRadius info <= dx <= searchRadius info ->
    - searchRadius info <= dy <= searchRadius info ->
    (dx, dy) <> (0, 0) ->
    neighbor_unusable format ctx info (x + dx) (y + dy) = true.

(** Statement about the zero-weight fallback: the written pixel is the
    input pixel. *)
Definition zero_weight_output_is_input (format : PF_PixelFormat)
    (g : WeightTables) (ctx : ProcessingContext)
    (info : ColorLinesInfo (channel format)) (x y : Z)
    (inP : PF_Pixel (channel format)) : Prop :=
  fillMode info = FILL_MODE_AVERAGE \/ fillMode info = FILL_MODE_WEIGHTED ->
  all_neighbors_unusable format ctx info x y ->
  FillLinePixel_format format g info x y inP ctx = inP.

(** A normalised value that is neither below 0 nor above 1. *)
Definition within01 (v : float) : Prop :=
  (v <? 0)%float = false /\ (1 <? v)%float = false.

Definition all_within01 (c : float * float * float) : Prop :=
  within01 (fst (fst c)) /\ within01 (snd (fst c)) /\ within01 (snd c).

(** Statement about the float adjuster: the three channels it writes lie
    in the native range [0, 1]. *)
Definition float_write_clamped (pixel : PF_PixelFloat)
    (adj : ColorAdjustParams) : Prop :=
  let p := ApplyColorAdjustmentsFloatFast pixel adj in
  (0 <=? red p)%float && (red p <=? 1)%float
  && (0 <=? green p)%float && (green p <=? 1)%float
  && (0 <=? blue p)%float && (blue p <=? 1)%float = true.

(** What the float adjuster does to one channel when the saturation stage
    is off: the brightness offset and the contrast map, nothing clamped. *)
Definition float_linear_stages (adj : ColorAdjustParams) (c : float) : float :=
  let c := if needsBrightness adj then (c + brightnessFactor adj)%float else c in
  if needsContrast adj then (0.5 + (c - 0.5) * contrastFactor adj)%float else c.

(** What the model needs of the C library's [exp]: [exp(-0) = 1], and a
    result that is at least 0 for an argument that is at most 0. *)
Definition exp_sound (exp : float -> float) : Prop :=
  exp (-0)%float = 1%float
  /\ forall x, (x <=? 0)%float = true -> (0 <=? exp x)%float = true.

(** The Gaussian table holds the weights of radius [radius]. *)
Definition gaussian_table_for (exp : float -> float) (radius : Z)
    (tbl : list float) : Prop :=
  forall dx dy, - radius <= dx <= radius -> - radius <= dy <= radius ->
    array_get 0%float tbl (weight_index radius dx dy)
    = gaussian_weight exp radius dx dy.

(** State of the Gaussian cache between render calls: still untouched, or
    built for the radius it records. *)
Definition gaussian_cache_ok (exp : float -> float) (g : WeightTables) : Prop :=
  length (g_gaussianWeights g) = Z.to_nat WEIGHT_TABLE_SIZE
  /\ (g_currentBlurRadius g = 0
      \/ (1 <= g_currentBlurRadius g <= MAX_WEIGHT_TABLE_RADIUS
          /\ gaussian_table_for exp (g_currentBlurRadius g)
               (g_gaussianWeights g))).

(** Argument of [exp] in [PrecomputeGaussianWeights]. *)
Definition gaussian_arg (blurRadius distSq : Z) : float :=
  (- FpLong_of_Z distSq
   / (2 * FpLong_of_Z blurRadius * FpLong_of_Z blurRadius))%float.

Definition weight_nonneg (acc : Acc) : Prop :=
  (0 <=? totalWeight acc)%float = true.

Definition weight_ge1 (acc : Acc) : Prop :=
  (1 <=? totalWeight acc)%float = true.

(** A run of array writes; the last write to a cell decides its value. *)
Definition apply_writes {A : Type} (ws : list (Z * A)) (a : list A) : list A :=
  fold_left (fun t w => array_set t (fst w) (snd w)) ws a.

(** The writes of the two nested loops that fill a weight table. *)
Definition table_writes (radius : Z) (f : Z -> Z -> float) : list (Z * float) :=
  flat_map (fun dy =>
    map (fun dx => (weight_index radius dx dy, f dx dy))
      (range (- radius) radius)) (range (- radius) radius).

(** Shapes of the binary64 numbers that are at least 0. *)
Inductive SFnonneg : spec_float -> Prop :=
  | SFnonneg_zero s : SFnonneg (S754_zero s)
  | SFnonneg_inf : SFnonneg (S754_infinity false)
  | SFnonneg_finite m e : SFnonneg (S754_finite false m e).

(** A positive binary64 number, finite or [+inf]; [mag] bounds the
    magnitude (number of mantissa digits plus exponent) from below. *)
Definition SFpositive_from (mag : Z) (x : spec_float) : Prop :=
  x = S754_infinity false
  \/ exists (m : positive) (e : Z),
       x = S754_finite false m e /\ mag <= Zpos (digits2_pos m) + e.

(* ===================================================================== *)
(** ** Closed examples                                                    *)
(* ===================================================================== *)

(** A truncated series standing in for the C library's [exp] where a
    closed example needs one. *)
Fixpoint exp_terms (n : nat) (t term sum k : float) : float :=
  match n with
  | O => sum
  | S n' =>
      let term' := (term * t / k)%float in
      exp_terms n' t term' (sum + term')%float (k + 1)%float
  end.

Definition exp_series (x : float) : float :=
  let y := if (x <=? 0)%float then (1 / exp_terms 30 (- x) 1 1 1)%float
           else exp_terms 30 x 1 1 1 in
  if (0 <=? y)%float then y else 0%float.

Definition opaque_green : PF_Pixel8 := mkPixel 255 0 255 0.
Definition opaque_red : PF_Pixel8 := mkPixel 255 200 0 0.

Definition frame_green : PF_EffectWorld Z :=
  mkWorld 3 3 (replicate 9 opaque_green).

Definition frame_red : PF_EffectWorld Z :=
  mkWorld 3 3 (replicate 9 opaque_red).

(** Target colour (200,0,0), tolerance 10, radius 1, ignore-transparent
    on, no blur; the brightness, fill mode and output mode vary. *)
Definition example_info (mode omode : Z) (bright : float)
    (frame : PF_EffectWorld Z) : ColorLinesInfo Z :=
  mkInfo (mkPixel 255 200 0 0) 10 mode 1 true 0 bright 0 0 omode frame
    (replicate 9 0) 3 3 3.

Definition info_line_only : ColorLinesInfo Z :=
  example_info FILL_MODE_AVERAGE OUTPUT_MODE_LINE_ONLY 0 frame_green.

Definition info_average_bright : ColorLinesInfo Z :=
  example_info FILL_MODE_AVERAGE OUTPUT_MODE_FULL 50 frame_red.

Definition info_average_plain : ColorLinesInfo Z :=
  example_info FILL_MODE_AVERAGE OUTPUT_MODE_FULL 0 frame_red.

(** A blur context of radius 1 over [frame_red] whose mask marks the
    centre pixel only. *)
Definition example_blur_ctx : BlurContext Z :=
  mkBlurCtx
    (mkInfo (mkPixel 255 200 0 0) 10 FILL_MODE_AVERAGE 1 true 10 0 0 0
       OUTPUT_MODE_FULL frame_red [0; 0; 0; 0; 255; 0; 0; 0; 0] 3 3 3)
    frame_red 1 3.

Definition bright_float_pixel : PF_PixelFloat :=
  mkPixel 1%float 0.75%float 0.5%float 0.25%float.

(** The settings of [example_info] over a float frame of one pixel. *)
Definition info_float_plain : ColorLinesInfo float :=
  mkInfo (mkPixel 255 200 0 0) 10 FILL_MODE_AVERAGE 1 true 0 0 0 0
    OUTPUT_MODE_FULL (mkWorld 1 1 [bright_float_pixel]) [0] 1 1 1.

Definition brightness_only : ColorAdjustParams :=
  InitColorAdjustParams
    (mkInfo (mkPixel 255 200 0 0) 10 FILL_MODE_AVERAGE 1 true 0 50 0 0
       OUTPUT_MODE_FULL (mkWorld 0 0 (@nil PF_PixelFloat)) [] 0 0 0).

(* ===================================================================== *)
(** ** The rest of the engine                                             *)
(* ===================================================================== *)

(** [PF_LRect] of the host SDK: a rectangle by its four edges. *)
Module LRect.
Record t : Type := mk { left : Z; top : Z; right : Z; bottom : Z }.
End LRect.

(** Returns the updated [*dst]. *)
Definition UnionLRect (src dst : LRect.t) : LRect.t :=
  let dst :=
    if LRect.left src <? LRect.left dst
    then LRect.mk (LRect.left src) (LRect.top dst) (LRect.right dst)
           (LRect.bottom dst)
    else dst in
  let dst :=
    if LRect.top src <? LRect.top dst
    then LRect.mk (LRect.left dst) (LRect.top src) (LRect.right dst)
           (LRect.bottom dst)
    else dst in
  let dst :=
    if LRect.right dst <? LRect.right src
    then LRect.mk (LRect.left dst) (LRect.top dst) (LRect.right src)
           (LRect.bottom dst)
    else dst in
  if LRect.bottom dst <? LRect.bottom src
  then LRect.mk (LRect.left dst) (LRect.top dst) (LRect.right dst)
         (LRect.bottom src)
  else dst.

(** The "legacy" matchers, which scale the target and the tolerance on
    every call. *)
Definition IsTargetColor8 (pixel : PF_Pixel8) (targetColor : PF_Pixel Z)
    (tolerance : float) : bool :=
  let maxDist := (tolerance * 4.4167)%float in
  IsTargetColor8Fast pixel (red targetColor) (green targetColor)
    (blue targetColor) (maxDist * maxDist)%float.

Definition IsTargetColor16 (pixel : PF_Pixel16) (targetColor : PF_Pixel Z)
    (tolerance : float) : bool :=
  let scale8to16 := (FpLong_of_Z PF_MAX_CHAN16 / 255)%float in
  let targetR := (FpLong_of_Z (red targetColor) * scale8to16)%float in
  let targetG := (FpLong_of_Z (green targetColor) * scale8to16)%float in
  let targetB := (FpLong_of_Z (blue targetColor) * scale8to16)%float in
  let maxDist := (tolerance * 4.4167 * scale8to16)%float in
  IsTargetColor16Fast pixel targetR targetG targetB (maxDist * maxDist)%float.

Definition IsTargetColorFloat (pixel : PF_PixelFloat) (targetColor : PF_Pixel Z)
    (tolerance : float) : bool :=
  let scale8toFloat := (1 / 255)%float in
  let targetR := (FpLong_of_Z (red targetColor) * scale8toFloat)%float in
  let targetG := (FpLong_of_Z (green targetColor) * scale8toFloat)%float in
  let targetB := (FpLong_of_Z (blue targetColor) * scale8toFloat)%float in
  let maxDist := (tolerance * 4.4167 * scale8toFloat)%float in
  IsTargetColorFloatFast pixel targetR targetG targetB (maxDist * maxDist)%float.

(** The "legacy" adjusters, which compute the factors on every call. *)
Definition ApplyColorAdjustments8 (pixel : PF_Pixel8) (info : ColorLinesInfo Z)
    : PF_Pixel8 :=
  ApplyColorAdjustments8Fast pixel (InitColorAdjustParams info).

Definition ApplyColorAdjustments16 (pixel : PF_Pixel16)
    (info : ColorLinesInfo Z) : PF_Pixel16 :=
  ApplyColorAdjustments16Fast pixel (InitColorAdjustParams info).

Definition ApplyColorAdjustmentsFloat (pixel : PF_PixelFloat)
    (info : ColorLinesInfo float) : PF_PixelFloat :=
  ApplyColorAdjustmentsFloatFast pixel (InitColorAdjustParams info).

(** The legacy matcher and adjuster of a format. *)
Definition IsTargetColor_format (format : PF_PixelFormat)
    : PF_Pixel (channel format) -> PF_Pixel Z -> float -> bool :=
  match format with
  | PF_PixelFormat_ARGB32 => IsTargetColor8
  | PF_PixelFormat_ARGB64 => IsTargetColor16
  | PF_PixelFormat_ARGB128 => IsTargetColorFloat
  end.

Definition ApplyColorAdjustments_format (format : PF_PixelFormat)
    : PF_Pixel (channel format) -> ColorLinesInfo (channel format) ->
      PF_Pixel (channel format) :=
  match format with
  | PF_PixelFormat_ARGB32 => ApplyColorAdjustments8
  | PF_PixelFormat_ARGB64 => ApplyColorAdjustments16
  | PF_PixelFormat_ARGB128 => ApplyColorAdjustmentsFloat
  end.

(* ===================================================================== *)
(** ** Notions about whole frames                                         *)
(* ===================================================================== *)

(** The pixels of a [W] x [H] frame in the order [iterate] visits them. *)
Definition frame_coords (W H : Z) : list (Z * Z) :=
  flat_map (fun y => map (fun x => (x, y)) (range 0 (W - 1))) (range 0 (H - 1)).

(** The value the first-pass callback stores in the mask cell of its
    pixel. *)
Definition mask_value {C : Type}
    (isLineColor : ProcessingContext -> PF_Pixel C -> bool)
    (ctx : ProcessingContext) (xL yL : Z) (inP : PF_Pixel C) : Z :=
  if in_edge_margin ctx xL yL then 0
  else if isLineColor ctx inP then 255 else 0.

(** The pixel the first-pass callback writes at the pixel [c] of the
    frame [src], and its write to the mask. *)
Definition pass1_pixel {C : Type} (ops : DepthOps C)
    (isLineColor : ProcessingContext -> PF_Pixel C -> bool)
    (fillLine : WeightTables -> ColorLinesInfo C -> Z -> Z -> PF_Pixel C ->
                ProcessingContext -> PF_Pixel C)
    (g : WeightTables) (ctx : ProcessingContext) (info : ColorLinesInfo C)
    (src : PF_EffectWorld C) (c : Z * Z) : PF_Pixel C :=
  fst (FillAndMask ops isLineColor fillLine g ctx info (fst c) (snd c)
         (pixel_at (zero_pixel ops) src (fst c) (snd c))).

Definition pass1_write {C : Type} (ops : DepthOps C)
    (isLineColor : ProcessingContext -> PF_Pixel C -> bool)
    (ctx : ProcessingContext) (info : ColorLinesInfo C)
    (src : PF_EffectWorld C) (c : Z * Z) : Z * Z :=
  (snd c * maskRowBytes info + fst c,
   mask_value isLineColor ctx (fst c) (snd c)
     (pixel_at (zero_pixel ops) src (fst c) (snd c))).

(** The weight tables and the context the first pass works with. *)
Definition pass1_tables {C : Type} (g : WeightTables)
    (info : ColorLinesInfo C) (input : PF_EffectWorld C) : WeightTables :=
  fst (InitProcessingContext g (setup_info info input)).

Definition pass1_ctx {C : Type} (g : WeightTables)
    (info : ColorLinesInfo C) (input : PF_EffectWorld C) : ProcessingContext :=
  snd (InitProcessingContext g (setup_info info input)).

(** The first pass read pixel by pixel: every pixel of the output is the
    callback's pixel there, and the mask is the zeroed mask after the
    callbacks' writes. *)
Definition pass1_frame {C : Type} (ops : DepthOps C)
    (isLineColor : ProcessingContext -> PF_Pixel C -> bool)
    (fillLine : WeightTables -> ColorLinesInfo C -> Z -> Z -> PF_Pixel C ->
                ProcessingContext -> PF_Pixel C)
    (g : WeightTables) (info : ColorLinesInfo C) (input : PF_EffectWorld C)
    : WeightTables * PF_EffectWorld C * ColorLinesInfo C :=
  let info0 := setup_info info input in
  let coords := frame_coords (world_width input) (world_height input) in
  (pass1_tables g info input,
   mkWorld (world_width input) (world_height input)
     (map (pass1_pixel ops isLineColor fillLine (pass1_tables g info input)
             (pass1_ctx g info input) info0 input) coords),
   set_lineMask info0
     (apply_writes
        (map (pass1_write ops isLineColor (pass1_ctx g info input) info0 input)
           coords)
        (lineMask info0))).

(** A pixel of the frame [input]. *)
Definition in_world {C : Type} (input : PF_EffectWorld C) (x y : Z) : Prop :=
  0 <= x < world_width input /\ 0 <= y < world_height input.

(** [P] on every integer of [base * 2^k, (base + 1) * 2^k), by halving:
    the exhaustive checks of the channel conversions run through it. *)
Fixpoint all_below (k : nat) (base : Z) (P : Z -> bool) : bool :=
  match k with
  | O => P base
  | S k' => all_below k' (2 * base) P && all_below k' (2 * base + 1) P
  end.

(** The inverse-distance table holds the weights of radius [radius]. *)
Definition invDist_table_for (radius : Z) (tbl : list float) : Prop :=
  forall dx dy, - radius <= dx <= radius -> - radius <= dy <= radius ->
    array_get 0%float tbl (weight_index radius dx dy) = invDist_weight dx dy.

(** State of the inverse-distance cache between render calls: still
    untouched, or built for the radius it records. *)
Definition invDist_cache_ok (g : WeightTables) : Prop :=
  length (g_invDistWeights g) = Z.to_nat WEIGHT_TABLE_SIZE
  /\ (g_currentWeightRadius g = 0
      \/ (1 <= g_currentWeightRadius g <= MAX_WEIGHT_TABLE_RADIUS
          /\ invDist_table_for (g_currentWeightRadius g) (g_invDistWeights g))).

(** Shapes of the binary64 numbers that are above 0. *)
Definition SFpositive (x : spec_float) : Prop :=
  match x with
  | S754_infinity false | S754_finite false _ _ => True
  | _ => False
  end.

Definition weight_positive (acc : Acc) : Prop :=
  (0 <? totalWeight acc)%float = true.

(** A 3x3 frame with one pixel of the target colour in the middle of
    green pixels, and the settings of [example_info] over it. *)
Definition frame_dot : PF_EffectWorld Z :=
  mkWorld 3 3
    [opaque_green; opaque_green; opaque_green;
     opaque_green; opaque_red; opaque_green;
     opaque_green; opaque_green; opaque_green].

Definition info_dot (mode : Z) : ColorLinesInfo Z :=
  example_info mode OUTPUT_MODE_FULL 0 frame_dot.

(** The neighbours the nearest search may take: the offsets of the
    window other than the centre whose pixel lies in the frame and passes
    the filters of the fill. *)
Definition fill_candidate {C : Type} (ops : DepthOps C)
    (isTarget : PF_Pixel C -> bool) (info : ColorLinesInfo C) (x y dx dy : Z)
    : Prop :=
  - searchRadius info <= dx <= searchRadius info
  /\ - searchRadius info <= dy <= searchRadius info
  /\ (dx, dy) <> (0, 0)
  /\ unusable ops isTarget info (x + dx) (y + dy) = false.

(** The state [(nearestDistSq, nearestPixel)] of the nearest search holds
    a candidate nearest among the candidates of [S], or nothing yet when
    [S] holds no candidate. *)
Definition nearest_among {C : Type} (ops : DepthOps C)
    (isTarget : PF_Pixel C -> bool) (info : ColorLinesInfo C) (x y : Z)
    (S : Z -> Z -> Prop) (st : Z * option (PF_Pixel C)) : Prop :=
  (fst st = 999999 /\ snd st = None
   /\ forall dx dy, fill_candidate ops isTarget info x y dx dy -> ~ S dx dy)
  \/ exists dx0 dy0,
       fill_candidate ops isTarget info x y dx0 dy0
       /\ fst st = dx0 * dx0 + dy0 * dy0
       /\ snd st
          = Some (pixel_at (zero_pixel ops) (srcWorld info) (x + dx0) (y + dy0))
       /\ forall dx dy, fill_candidate ops isTarget info x y dx dy -> S dx dy ->
            dx0 * dx0 + dy0 * dy0 <= dx * dx + dy * dy.

(** The ring of the window an offset lies on. *)
Definition ring_of (dx dy : Z) : Z := Z.max (Z.abs dx) (Z.abs dy).

(** The offsets the nearest search has been through when it reaches the
    tap [(i, j)] of ring [k]: the rings below [k], and of ring [k] the
    rows below [j] and the taps of row [j] before [i]. *)
Definition ring_seen (k j i : Z) (a b : Z) : Prop :=
  ring_of a b < k \/ (ring_of a b = k /\ (b < j \/ (b = j /\ a < i))).

(** An 8-bit or 16-bit pixel whose four channels lie in the native range
    of its format; no float pixel counts. *)
Definition integer_pixel_in_range (format : PF_PixelFormat)
    : PF_Pixel (channel format) -> Prop :=
  match format with
  | PF_PixelFormat_ARGB32 => fun p =>
      0 <= alpha p <= 255 /\ 0 <= red p <= 255 /\ 0 <= green p <= 255
      /\ 0 <= blue p <= 255
  | PF_PixelFormat_ARGB64 => fun p =>
      0 <= alpha p <= PF_MAX_CHAN16 /\ 0 <= red p <= PF_MAX_CHAN16
      /\ 0 <= green p <= PF_MAX_CHAN16 /\ 0 <= blue p <= PF_MAX_CHAN16
  | PF_PixelFormat_ARGB128 => fun _ => False
  end.

(** The other line pixels of the blur window of [(xL, yL)]: there are
    none. *)
Definition alone_in_window {C : Type} (ctx : BlurContext C) (xL yL : Z)
    : Prop :=
  forall dx dy,
    - blurRadius ctx <= dx <= blurRadius ctx ->
    - blurRadius ctx <= dy <= blurRadius ctx ->
    (dx, dy) <> (0, 0) ->
    GetMaskAt (blur_info ctx) (xL + dx) (yL + dy) = 0.
(** The red, green and blue of a 16-bit pixel as values of [A_u_short]. *)
Definition ushort_rgb (p : PF_Pixel16) : Prop :=
  0 <= red p <= 65535 /\ 0 <= green p <= 65535 /\ 0 <= blue p <= 65535.

(** A 16-bit channel value on an 8-bit target value that the scaling by
    [PF_MAX_CHAN16 / 255.0] sends to that value: 0 on 0 and 32768 on
    255. *)
Definition exact16b (p t : Z) : bool :=
  ((t =? 0) && (p =? 0)) || ((t =? 255) && (p =? PF_MAX_CHAN16)).

(** A binary64 number other than the zeros and NaN; [mag] bounds the
    magnitude (number of mantissa digits plus exponent) from below. *)
Definition SFnonzero_from (mag : Z) (x : spec_float) : Prop :=
  (exists s : bool, x = S754_infinity s)
  \/ exists (s : bool) (m : positive) (e : Z),
       x = S754_finite s m e /\ mag <= Zpos (digits2_pos m) + e.

(** The binary64 number of the positive whole number [n], below [2^53],
    times [2^j]: the mantissa is [n] shifted to 53 digits. *)
Definition SFdyadic (n : positive) (j : Z) : spec_float :=
  let d := Zpos (digits2_pos n) in
  S754_finite false (Z.to_pos (Zpos n * 2 ^ (53 - d))) (d - 53 + j).

(** The finite number of mantissa [m] and exponent [e] is a whole
    number. *)
Definition whole_shape (m : positive) (e : Z) : bool :=
  (0 <=? e) || (Zpos m mod 2 ^ (- e) =? 0).

(** The squared difference of one channel as [IsTargetColor16Fast]
    computes it on the scaled target. *)
Definition channel_sq16 (p t : Z) : float :=
  (let d := FpLong_of_Z p - FpLong_of_Z t * (FpLong_of_Z PF_MAX_CHAN16 / 255) in
   d * d)%float.
(* ===================================================================== *)
(** ** The shared matchers of CXCommon.h                                  *)
(* ===================================================================== *)

(** Modelled from the spec: [PF_MAX_CHAN8] comes from the host SDK header
    [AE_Effect.h], which is not part of the repository; the specification
    gives the 8-bit native range as 0..255. *)
Definition PF_MAX_CHAN8 : Z := 255.

Definition CX_TOLERANCE_SCALE : float := 4.4167%float.

(** [CX_IsTargetColor8]: the distance of [IsTargetColor8Fast], compared
    in [A_long] with a whole-number threshold. *)
Definition CX_IsTargetColor8 (pixel : PF_Pixel8)
    (targetR targetG targetB toleranceSq : Z) : bool :=
  distSq8 pixel targetR targetG targetB <=? toleranceSq.

(** A 16-bit channel in 8-bit space, as [CX_IsTargetColor16] computes
    [r8], [g8] and [b8]. *)
Definition CX_channel16_to_8 (c : Z) : Z :=
  wrap32 (FpLong_to_Z
    (FpLong_of_Z c / FpLong_of_Z PF_MAX_CHAN16 * FpLong_of_Z PF_MAX_CHAN8
     + 0.5)%float).

Definition CX_IsTargetColor16 (pixel : PF_Pixel16)
    (targetR8 targetG8 targetB8 toleranceSq8 : Z) : bool :=
  let r8 := CX_channel16_to_8 (red pixel) in
  let g8 := CX_channel16_to_8 (green pixel) in
  let b8 := CX_channel16_to_8 (blue pixel) in
  let dr := wrap32 (r8 - targetR8) in
  let dg := wrap32 (g8 - targetG8) in
  let db := wrap32 (b8 - targetB8) in
  let distSq :=
    wrap32 (wrap32 (wrap32 (dr * dr) + wrap32 (dg * dg)) + wrap32 (db * db)) in
  distSq <=? toleranceSq8.

Definition CX_ToleranceToDistSq (tolerance : float) : Z :=
  let maxDist :=
    wrap32 (FpLong_to_Z (tolerance * CX_TOLERANCE_SCALE + 0.5)%float) in
  wrap32 (maxDist * maxDist).

(* ===================================================================== *)
(** ** Lists, loops and arrays                                            *)
(* ===================================================================== *)

Lemma fold_left_id {A B : Type} (f : A -> B -> A) (l : list B) (a : A) :
  (forall b s, In b l -> f s b = s) -> fold_left f l a = a.
Proof.
  induction l as [|b l IH]; intros H; simpl; [reflexivity|].
  rewrite H by (left; reflexivity). apply IH.
  intros b' s Hb. apply H. right. exact Hb.
Qed.

Lemma fold_left_ext_in {A B : Type} (f f' : A -> B -> A) (l : list B) (a : A) :
  (forall b s, In b l -> f s b = f' s b) -> fold_left f l a = fold_left f' l a.
Proof.
  revert a. induction l as [|b l IH]; intros a H; simpl; [reflexivity|].
  rewrite H by (left; reflexivity). apply IH.
  intros b' s Hb. apply H. right. exact Hb.
Qed.

Lemma fold_left_preserves {A B : Type} (P : A -> Prop) (f : A -> B -> A)
    (l : list B) (a : A) :
  (forall b s, In b l -> P s -> P (f s b)) -> P a -> P (fold_left f l a).
Proof.
  revert a. induction l as [|b l IH]; intros a Hf Ha; simpl; [exact Ha|].
  apply IH.
  - intros b' s Hb. apply Hf. right. exact Hb.
  - apply Hf; [left; reflexivity|exact Ha].
Qed.

(** A fold that keeps [P], keeps [Q], and turns [P] into [Q] at one
    element of the list, ends in [Q]. *)
Lemma fold_left_reaches {A B : Type} (P Q : A -> Prop) (f : A -> B -> A)
    (l : list B) (c : B) (a : A) :
  (forall b s, In b l -> P s -> P (f s b)) ->
  (forall b s, In b l -> Q s -> Q (f s b)) ->
  (forall s, P s -> Q (f s c)) ->
  In c l -> P a -> Q (fold_left f l a).
Proof.
  revert a. induction l as [|b l IH]; intros a HP HQ Hc Hin Ha; [destruct Hin|].
  simpl. destruct Hin as [->|Hin].
  - apply fold_left_preserves.
    + intros b' s Hb. apply HQ. right. exact Hb.
    + apply Hc. exact Ha.
  - apply IH; auto.
    + intros b' s Hb. apply HP. right. exact Hb.
    + intros b' s Hb. apply HQ. right. exact Hb.
    + apply HP; [left; reflexivity|exact Ha].
Qed.

Lemma In_range (lo hi i : Z) : In i (range lo hi) <-> lo <= i <= hi.
Proof.
  unfold range. rewrite <- list_elem_of_In, elem_of_seqZ. lia.
Qed.

Lemma array_get_set_eq {A : Type} (d v : A) (a : list A) (i : Z) :
  0 <= i < Z.of_nat (length a) -> array_get d (array_set a i v) i = v.
Proof.
  intros Hi. unfold array_get, array_set.
  destruct (i <? 0) eqn:E; [lia|].
  rewrite list_lookup_insert_eq by lia. reflexivity.
Qed.

Lemma array_get_set_ne {A : Type} (d v : A) (a : list A) (i j : Z) :
  i <> j -> 0 <= j -> array_get d (array_set a i v) j = array_get d a j.
Proof.
  intros Hne Hj. unfold array_get, array_set.
  destruct (j <? 0) eqn:Ej; [lia|].
  destruct (i <? 0) eqn:Ei; [reflexivity|].
  rewrite list_lookup_insert_ne by lia. reflexivity.
Qed.

Lemma length_array_set {A : Type} (a : list A) (i : Z) (v : A) :
  length (array_set a i v) = length a.
Proof.
  unfold array_set. destruct (i <? 0); [reflexivity|apply length_insert].
Qed.

Lemma length_apply_writes {A : Type} (ws : list (Z * A)) (a : list A) :
  length (apply_writes ws a) = length a.
Proof.
  revert a. induction ws as [|w ws IH]; intros a; simpl; [reflexivity|].
  unfold apply_writes in *. simpl. rewrite IH. apply length_array_set.
Qed.

Lemma apply_writes_get {A : Type} (d : A) (ws : list (Z * A)) (a : list A)
    (i : Z) (v : A) :
  In (i, v) ws -> (forall v', In (i, v') ws -> v' = v) ->
  0 <= i < Z.of_nat (length a) ->
  array_get d (apply_writes ws a) i = v.
Proof.
  induction ws as [|w ws IH] using rev_ind; intros Hin Huniq Hi; [destruct Hin|].
  unfold apply_writes in *. rewrite fold_left_app. cbn [fold_left].
  destruct w as [j u]. cbn [fst snd].
  destruct (Z.eq_dec j i) as [->|Hne].
  - rewrite array_get_set_eq.
    + apply Huniq. apply in_or_app. right. left. reflexivity.
    + fold (apply_writes ws a). rewrite length_apply_writes. exact Hi.
  - rewrite array_get_set_ne by lia. apply IH.
    + apply in_app_or in Hin as [Hin|[Heq|[]]]; [exact Hin|].
      inversion Heq. contradiction.
    + intros v' Hv'. apply Huniq. apply in_or_app. left. exact Hv'.
    + exact Hi.
Qed.

Lemma fold_left_map_writes {A B : Type} (k : B -> Z * A) (l : list B)
    (a : list A) :
  fold_left (fun t b => array_set t (fst (k b)) (snd (k b))) l a
  = apply_writes (map k l) a.
Proof.
  revert a. induction l as [|b l IH]; intros a; simpl; [reflexivity|].
  rewrite IH. reflexivity.
Qed.

Lemma nested_writes {A : Type} (k : Z -> Z -> Z * A) (rows cols : list Z)
    (a : list A) :
  fold_left (fun t dy =>
    fold_left (fun t dx => array_set t (fst (k dx dy)) (snd (k dx dy))) cols t)
    rows a
  = apply_writes (flat_map (fun dy => map (fun dx => k dx dy) cols) rows) a.
Proof.
  revert a. induction rows as [|dy rows IH]; intros a;
    cbn [fold_left flat_map]; [reflexivity|].
  rewrite IH. unfold apply_writes at 2. rewrite fold_left_app.
  f_equal. apply (fold_left_map_writes (fun dx => k dx dy)).
Qed.

Lemma fill_loops_as_writes (radius : Z) (f : Z -> Z -> float) (tbl : list float) :
  for_range (- radius) radius (fun dy tbl =>
    for_range (- radius) radius (fun dx tbl =>
      array_set tbl (weight_index radius dx dy) (f dx dy)) tbl) tbl
  = apply_writes (table_writes radius f) tbl.
Proof.
  unfold for_range, table_writes.
  apply (nested_writes (fun dx dy => (weight_index radius dx dy, f dx dy))).
Qed.

Lemma weight_index_inj (radius dx dy dx' dy' : Z) :
  - radius <= dx <= radius -> - radius <= dx' <= radius ->
  weight_index radius dx dy = weight_index radius dx' dy' ->
  dx = dx' /\ dy = dy'.
Proof.
  unfold weight_index. intros Hx Hx' H.
  assert (H1 : (dy - dy') * (radius * 2 + 1) = dx' - dx) by lia.
  assert (Hy : dy = dy').
  { destruct (Z.lt_trichotomy dy dy') as [Hlt|[Heq|Hgt]]; [|exact Heq|].
    - assert ((dy' - dy) * (radius * 2 + 1) >= 1 * (radius * 2 + 1)).
      { apply Z.le_ge. apply Z.mul_le_mono_nonneg_r; lia. }
      lia.
    - assert ((dy - dy') * (radius * 2 + 1) >= 1 * (radius * 2 + 1)).
      { apply Z.le_ge. apply Z.mul_le_mono_nonneg_r; lia. }
      lia. }
  subst dy'. split; [lia|reflexivity].
Qed.

Lemma weight_index_bound (radius dx dy : Z) :
  0 <= radius <= MAX_WEIGHT_TABLE_RADIUS ->
  - radius <= dx <= radius -> - radius <= dy <= radius ->
  0 <= weight_index radius dx dy < WEIGHT_TABLE_SIZE.
Proof.
  unfold weight_index, WEIGHT_TABLE_SIZE, MAX_WEIGHT_TABLE_RADIUS.
  intros Hr Hx Hy.
  assert (0 <= (dy + radius) * (radius * 2 + 1)) by (apply Z.mul_nonneg_nonneg; lia).
  assert ((dy + radius) * (radius * 2 + 1) <= (2 * radius) * (radius * 2 + 1)).
  { apply Z.mul_le_mono_nonneg_r; lia. }
  assert ((2 * radius) * (radius * 2 + 1) <= 100 * 101).
  { apply Z.mul_le_mono_nonneg; lia. }
  lia.
Qed.

Lemma In_table_writes (radius : Z) (f : Z -> Z -> float) (i : Z) (v : float) :
  In (i, v) (table_writes radius f) <->
  exists dx dy, - radius <= dx <= radius /\ - radius <= dy <= radius
                /\ i = weight_index radius dx dy /\ v = f dx dy.
Proof.
  unfold table_writes. rewrite in_flat_map. split.
  - intros (dy & Hdy & Hin). apply in_map_iff in Hin as (dx & Heq & Hdx).
    apply In_range in Hdy, Hdx. inversion Heq. eauto 10.
  - intros (dx & dy & Hdx & Hdy & -> & ->). exists dy.
    split; [now apply In_range|]. apply in_map_iff. exists dx.
    split; [reflexivity|now apply In_range].
Qed.

Lemma filled_table_get (radius : Z) (f : Z -> Z -> float) (tbl : list float)
    (dx dy : Z) :
  0 <= radius <= MAX_WEIGHT_TABLE_RADIUS ->
  length tbl = Z.to_nat WEIGHT_TABLE_SIZE ->
  - radius <= dx <= radius -> - radius <= dy <= radius ->
  array_get 0%float (apply_writes (table_writes radius f) tbl)
    (weight_index radius dx dy) = f dx dy.
Proof.
  intros Hr Hlen Hdx Hdy. apply apply_writes_get.
  - apply In_table_writes. eauto 10.
  - intros v' Hv'. apply In_table_writes in Hv' as (dx' & dy' & Hx' & Hy' & Hi & ->).
    apply weight_index_inj in Hi as [-> ->]; auto.
  - rewrite Hlen. pose proof (weight_index_bound radius dx dy Hr Hdx Hdy).
    rewrite Z2Nat.id; [lia|]. unfold WEIGHT_TABLE_SIZE, MAX_WEIGHT_TABLE_RADIUS. lia.
Qed.

(* ===================================================================== *)
(** ** 32-bit integers                                                    *)
(* ===================================================================== *)

Lemma wrap32_small (z : Z) : - 2 ^ 31 <= z < 2 ^ 31 -> wrap32 z = z.
Proof. intros H. unfold wrap32. rewrite Z.mod_small; lia. Qed.

Lemma sq_bound (d : Z) : - 255 <= d <= 255 -> 0 <= d * d <= 65025.
Proof.
  intros H. split; [apply Z.square_nonneg|].
  pose proof (Z.mul_nonneg_nonneg (255 - d) (255 + d) ltac:(lia) ltac:(lia)).
  lia.
Qed.

Lemma distSq8_exact (pixel : PF_Pixel8) (tR tG tB : Z) :
  byte_range pixel -> 0 <= tR <= 255 -> 0 <= tG <= 255 -> 0 <= tB <= 255 ->
  distSq8 pixel tR tG tB
  = (red pixel - tR) ^ 2 + (green pixel - tG) ^ 2 + (blue pixel - tB) ^ 2.
Proof.
  intros (Hr & Hg & Hb) HR HG HB. unfold distSq8.
  rewrite (wrap32_small (red pixel - tR)) by lia.
  rewrite (wrap32_small (green pixel - tG)) by lia.
  rewrite (wrap32_small (blue pixel - tB)) by lia.
  rewrite !Z.pow_2_r.
  pose proof (sq_bound (red pixel - tR) ltac:(lia)).
  pose proof (sq_bound (green pixel - tG) ltac:(lia)).
  pose proof (sq_bound (blue pixel - tB) ltac:(lia)).
  set (r2 := (red pixel - tR) * (red pixel - tR)) in *.
  set (g2 := (green pixel - tG) * (green pixel - tG)) in *.
  set (b2 := (blue pixel - tB) * (blue pixel - tB)) in *.
  rewrite (wrap32_small r2), (wrap32_small g2), (wrap32_small b2) by lia.
  rewrite (wrap32_small (r2 + g2)) by lia.
  apply wrap32_small. lia.
Qed.

(* ===================================================================== *)
(** ** Binary64 facts, from the library's specification of the floats     *)
(* ===================================================================== *)

Lemma digits2_pos_bounds (p : positive) :
  2 ^ (Zpos (digits2_pos p) - 1) <= Zpos p < 2 ^ Zpos (digits2_pos p).
Proof.
  induction p as [p IH|p IH|]; simpl digits2_pos.
  - rewrite Pos2Z.inj_succ. replace (Z.succ (Zpos (digits2_pos p)) - 1)
      with (Z.succ (Zpos (digits2_pos p) - 1)) by lia.
    rewrite !Z.pow_succ_r by lia. lia.
  - rewrite Pos2Z.inj_succ. replace (Z.succ (Zpos (digits2_pos p)) - 1)
      with (Z.succ (Zpos (digits2_pos p) - 1)) by lia.
    rewrite !Z.pow_succ_r by lia. lia.
  - simpl. lia.
Qed.

Lemma digits2_pos_unique (p : positive) (k : Z) :
  2 ^ (k - 1) <= Zpos p < 2 ^ k -> Zpos (digits2_pos p) = k.
Proof.
  intros [Hl Hu]. pose proof (digits2_pos_bounds p) as [Hl' Hu'].
  assert (0 < k).
  { destruct (Z_lt_le_dec 0 k); [assumption|].
    exfalso. destruct (Z.eq_dec k 0) as [->|]; [simpl in Hu; lia|].
    rewrite Z.pow_neg_r in Hu by lia. lia. }
  assert (k - 1 < Zpos (digits2_pos p)).
  { apply (Z.pow_lt_mono_r_iff 2); lia. }
  assert (Zpos (digits2_pos p) - 1 < k).
  { apply (Z.pow_lt_mono_r_iff 2); lia. }
  lia.
Qed.

Lemma digits2_pos_mono (p q : positive) :
  (p <= q)%positive -> Zpos (digits2_pos p) <= Zpos (digits2_pos q).
Proof.
  intros H. pose proof (digits2_pos_bounds p) as [Hl _].
  pose proof (digits2_pos_bounds q) as [_ Hu].
  assert (Zpos (digits2_pos p) - 1 < Zpos (digits2_pos q)).
  { apply (Z.pow_lt_mono_r_iff 2); lia. }
  lia.
Qed.

Lemma digits2_pos_iter_xO (m d : positive) :
  Zpos (digits2_pos (Pos.iter xO m d)) = Zpos (digits2_pos m) + Zpos d.
Proof.
  induction d as [|d IH] using Pos.peano_ind.
  - simpl. lia.
  - rewrite Pos.iter_succ. simpl digits2_pos. lia.
Qed.

Lemma shr_m_shr_1 (mrs : shr_record) :
  0 <= shr_m mrs -> shr_m (shr_1 mrs) = shr_m mrs / 2.
Proof.
  destruct mrs as [m r s]. simpl. intros Hm.
  destruct m as [|[p|p|]|p]; cbn [shr_m]; try lia;
    first [ reflexivity
          | apply Z.div_unique with 1; lia
          | apply Z.div_unique with 0; lia ].
Qed.

Lemma shr_m_iter_pos (p : positive) (mrs : shr_record) :
  0 <= shr_m mrs ->
  shr_m (SpecFloat.iter_pos shr_1 p mrs) = shr_m mrs / 2 ^ Zpos p.
Proof.
  revert mrs. induction p as [p IH|p IH|]; intros mrs Hm; simpl SpecFloat.iter_pos.
  - assert (H1 : 0 <= shr_m (shr_1 mrs)).
    { rewrite shr_m_shr_1 by assumption. apply Z.div_pos; lia. }
    assert (H2 : 0 <= shr_m (SpecFloat.iter_pos shr_1 p (shr_1 mrs))).
    { rewrite IH by assumption. apply Z.div_pos; [lia|].
      apply Z.pow_pos_nonneg; lia. }
    rewrite IH, IH, shr_m_shr_1 by assumption.
    assert (0 < 2 ^ Zpos p) by (apply Z.pow_pos_nonneg; lia).
    rewrite !Z.div_div by lia. f_equal.
    replace (Zpos p~1) with (1 + Zpos p + Zpos p) by lia.
    rewrite !Z.pow_add_r by lia. change (2 ^ 1) with 2. lia.
  - assert (H2 : 0 <= shr_m (SpecFloat.iter_pos shr_1 p mrs)).
    { rewrite IH by assumption. apply Z.div_pos; [lia|].
      apply Z.pow_pos_nonneg; lia. }
    rewrite IH, IH by assumption.
    assert (0 < 2 ^ Zpos p) by (apply Z.pow_pos_nonneg; lia).
    rewrite !Z.div_div by lia. f_equal.
    replace (Zpos p~0) with (Zpos p + Zpos p) by lia.
    rewrite !Z.pow_add_r by lia. reflexivity.
  - rewrite shr_m_shr_1 by assumption. reflexivity.
Qed.

Lemma shr_m_shr_record_of_loc (m : Z) (l : location) :
  shr_m (shr_record_of_loc m l) = m.
Proof. destruct l as [|[| |]]; reflexivity. Qed.

Lemma digits2_pos_div (m n : positive) :
  Zpos n < Zpos (digits2_pos m) ->
  exists q : positive,
    Zpos m / 2 ^ Zpos n = Zpos q
    /\ Zpos (digits2_pos q) = Zpos (digits2_pos m) - Zpos n.
Proof.
  intros Hn. pose proof (digits2_pos_bounds m) as [Hl Hu].
  set (d := Zpos (digits2_pos m)) in *.
  assert (Hp : 0 < 2 ^ Zpos n) by (apply Z.pow_pos_nonneg; lia).
  assert (Hq1 : 2 ^ (d - Zpos n - 1) <= Zpos m / 2 ^ Zpos n).
  { apply Z.div_le_lower_bound; [exact Hp|].
    rewrite <- Z.pow_add_r by lia.
    replace (Zpos n + (d - Zpos n - 1)) with (d - 1) by lia. exact Hl. }
  assert (Hq2 : Zpos m / 2 ^ Zpos n < 2 ^ (d - Zpos n)).
  { apply Z.div_lt_upper_bound; [exact Hp|].
    rewrite <- Z.pow_add_r by lia.
    replace (Zpos n + (d - Zpos n)) with d by lia. exact Hu. }
  assert (Hq0 : 0 < Zpos m / 2 ^ Zpos n).
  { eapply Z.lt_le_trans; [|exact Hq1]. apply Z.pow_pos_nonneg; lia. }
  destruct (Zpos m / 2 ^ Zpos n) as [|q|q] eqn:E; try lia.
  exists q. split; [reflexivity|].
  apply digits2_pos_unique. split; assumption.
Qed.

(** One right shift to the canonical exponent keeps the mantissa positive
    and the magnitude [digits + exponent] unchanged, as long as the
    magnitude is above the subnormal floor. *)
Lemma shr_fexp_positive (m : positive) (e : Z) (l : location) :
  -1074 < Zpos (digits2_pos m) + e ->
  exists (m' : positive) (r s : bool) (e' : Z),
    shr_fexp prec emax (Zpos m) e l = (Build_shr_record (Zpos m') r s, e')
    /\ Zpos (digits2_pos m') + e' = Zpos (digits2_pos m) + e.
Proof.
  intros Hmag. unfold shr_fexp, shr. cbn [Zdigits2].
  set (d := Zpos (digits2_pos m)) in *.
  destruct (fexp prec emax (d + e) - e) as [|n|n] eqn:En.
  - destruct l as [|[| |]]; cbn; eauto 10.
  - assert (Hn : Zpos n < d).
    { unfold fexp, SpecFloat.emin, prec, emax in En. lia. }
    destruct (digits2_pos_div m n Hn) as (q & Hq & Hdq).
    pose proof (shr_m_iter_pos n (shr_record_of_loc (Zpos m) l)) as Hs.
    rewrite shr_m_shr_record_of_loc in Hs. specialize (Hs ltac:(lia)).
    destruct (SpecFloat.iter_pos shr_1 n (shr_record_of_loc (Zpos m) l))
      as [m1 r1 s1]. cbn [shr_m] in Hs. subst m1.
    exists q, r1, s1, (e + Zpos n). rewrite Hq. split; [reflexivity|].
    fold d in Hdq. lia.
  - destruct l as [|[| |]]; cbn; eauto 10.
Qed.

Lemma round_nearest_even_positive (m : positive) (l : location) :
  exists m2 : positive,
    round_nearest_even (Zpos m) l = Zpos m2 /\ (m <= m2)%positive.
Proof.
  destruct l as [|[| |]]; cbn [round_nearest_even].
  - exists m. split; [reflexivity|lia].
  - destruct (Z.even (Zpos m)).
    + exists m. split; [reflexivity|lia].
    + exists (m + 1)%positive. split; [reflexivity|lia].
  - exists m. split; [reflexivity|lia].
  - exists (m + 1)%positive. split; [reflexivity|lia].
Qed.

Lemma binary_round_aux_positive (m : positive) (e : Z) (l : location) :
  -1074 < Zpos (digits2_pos m) + e ->
  SFpositive_from (Zpos (digits2_pos m) + e)
    (binary_round_aux prec emax false (Zpos m) e l).
Proof.
  intros Hmag. unfold binary_round_aux.
  destruct (shr_fexp_positive m e l Hmag) as (m1 & r1 & s1 & e1 & H1 & Hd1).
  rewrite H1. cbn [shr_m].
  destruct (round_nearest_even_positive m1
              (loc_of_shr_record (Build_shr_record (Zpos m1) r1 s1)))
    as (m2 & H2 & Hle).
  rewrite H2. pose proof (digits2_pos_mono m1 m2 Hle) as Hd2.
  destruct (shr_fexp_positive m2 e1 loc_Exact ltac:(lia))
    as (m3 & r3 & s3 & e3 & H3 & Hd3).
  rewrite H3. cbn [shr_m].
  destruct (e3 <=? emax - prec).
  - right. exists m3, e3. split; [reflexivity|lia].
  - left. reflexivity.
Qed.

Lemma shl_align_magnitude (m : positive) (e e' : Z) :
  Zpos (digits2_pos (fst (shl_align m e e'))) + snd (shl_align m e e')
  = Zpos (digits2_pos m) + e.
Proof.
  unfold shl_align. destruct (e' - e) as [|d|d] eqn:E; cbn [fst snd];
    try reflexivity.
  rewrite digits2_pos_iter_xO. lia.
Qed.

Lemma shl_align_exponent (m : positive) (e e' : Z) :
  e' <= e -> snd (shl_align m e e') = e'.
Proof.
  intros H. unfold shl_align. destruct (e' - e) as [|d|d] eqn:E;
    cbn [snd]; lia.
Qed.

Lemma binary_round_positive (m : positive) (e : Z) :
  -1074 < Zpos (digits2_pos m) + e ->
  SFpositive_from (Zpos (digits2_pos m) + e) (binary_round prec emax false m e).
Proof.
  intros Hmag. unfold binary_round.
  pose proof (shl_align_magnitude m e
                (fexp prec emax (Zpos (digits2_pos m) + e))) as Hs.
  destruct (shl_align m e (fexp prec emax (Zpos (digits2_pos m) + e)))
    as [mz ez]. cbn [fst snd] in Hs. rewrite <- Hs.
  apply binary_round_aux_positive. lia.
Qed.

(** Sum of two positive finite numbers of canonical exponents. *)
Lemma SFadd_finite_positive (m1 : positive) (e1 : Z) (m2 : positive) (e2 : Z) :
  -1074 <= e1 -> -1074 <= e2 ->
  SFpositive_from (Z.max (Zpos (digits2_pos m1) + e1) (Zpos (digits2_pos m2) + e2))
    (SF64add (S754_finite false m1 e1) (S754_finite false m2 e2)).
Proof.
  intros He1 He2. unfold SF64add, SFadd. cbn [cond_Zopp].
  set (ez := Z.min e1 e2).
  pose proof (shl_align_magnitude m1 e1 ez) as Ha.
  pose proof (shl_align_magnitude m2 e2 ez) as Hb.
  rewrite (shl_align_exponent m1 e1 ez) in Ha by (subst ez; lia).
  rewrite (shl_align_exponent m2 e2 ez) in Hb by (subst ez; lia).
  set (a := fst (shl_align m1 e1 ez)) in *.
  set (b := fst (shl_align m2 e2 ez)) in *.
  change (Zpos a + Zpos b) with (Zpos (a + b)). cbn [binary_normalize].
  pose proof (digits2_pos_mono a (a + b) ltac:(lia)) as Hda.
  pose proof (digits2_pos_mono b (a + b) ltac:(lia)) as Hdb.
  assert (Hmag : -1074 < Zpos (digits2_pos (a + b)) + ez) by (subst ez; lia).
  destruct (binary_round_positive (a + b) ez Hmag) as [H|(m & e & H & Hm)].
  - left. exact H.
  - right. exists m, e. split; [exact H|]. lia.
Qed.

Lemma bounded_canonical (m : positive) (e : Z) :
  bounded prec emax m e = true ->
  e = Z.max (Zpos (digits2_pos m) + e - 53) (-1074) /\ e <= 971.
Proof.
  unfold bounded, canonical_mantissa, fexp, SpecFloat.emin, prec, emax.
  rewrite andb_true_iff, Z.eqb_eq, Z.leb_le. lia.
Qed.

Lemma bounded_mantissa_lt (m : positive) (e : Z) :
  bounded prec emax m e = true -> Zpos m < 2 ^ 53.
Proof.
  intros H. apply bounded_canonical in H as [H _].
  pose proof (digits2_pos_bounds m) as [_ Hd].
  eapply Z.lt_le_trans; [exact Hd|].
  apply Z.pow_le_mono_r; lia.
Qed.

Lemma leb_zero_shape (x : float) :
  (0 <=? x)%float = true <-> SFnonneg (Prim2SF x).
Proof.
  rewrite FloatAxioms.leb_spec.
  change (Prim2SF 0) with (S754_zero false).
  destruct (Prim2SF x) as [s|[|]| |[|] m e]; cbn; split; intros H;
    try discriminate; try reflexivity; try constructor; inversion H.
Qed.

Lemma leb_one_finite (m : positive) (e : Z) :
  bounded prec emax m e = true ->
  SFleb (S754_finite false 4503599627370496 (-52)) (S754_finite false m e) = true
  <-> 1 <= Zpos (digits2_pos m) + e.
Proof.
  intros Hv. apply bounded_canonical in Hv as [Hc _].
  pose proof (digits2_pos_bounds m) as [Hl Hu].
  unfold SFleb, SFcompare.
  change (Pos.compare_cont Eq 4503599627370496 m)
    with (Z.compare (2 ^ 52) (Zpos m)).
  destruct (Z.compare_spec (-52) e) as [He|He|He].
  - subst e.
    destruct (Z.compare_spec (2 ^ 52) (Zpos m)) as [Hm|Hm|Hm].
    + split; [intros _|reflexivity].
      assert (52 < Zpos (digits2_pos m)).
      { apply (Z.pow_lt_mono_r_iff 2); lia. }
      lia.
    + split; [intros _|reflexivity].
      assert (52 < Zpos (digits2_pos m)).
      { apply (Z.pow_lt_mono_r_iff 2); lia. }
      lia.
    + split; [discriminate|]. intros Hmag. exfalso.
      assert (2 ^ 52 <= 2 ^ (Zpos (digits2_pos m) - 1)).
      { apply Z.pow_le_mono_r; lia. }
      lia.
  - split; [lia|reflexivity].
  - split; [discriminate|lia].
Qed.

Lemma leb_one_shape (x : float) :
  (1 <=? x)%float = true <-> SFpositive_from 1 (Prim2SF x).
Proof.
  rewrite FloatAxioms.leb_spec. pose proof (Prim2SF_valid x) as Hv.
  change (Prim2SF 1) with (S754_finite false 4503599627370496 (-52)).
  destruct (Prim2SF x) as [s|[|]| |[|] m e].
  - split; [discriminate|]. intros [H|(m' & e' & H & _)]; discriminate H.
  - split; [discriminate|]. intros [H|(m' & e' & H & _)]; discriminate H.
  - split; [left|]; reflexivity.
  - split; [discriminate|]. intros [H|(m' & e' & H & _)]; discriminate H.
  - split; [discriminate|]. intros [H|(m' & e' & H & _)]; discriminate H.
  - cbn in Hv. rewrite (leb_one_finite m e Hv). split.
    + intros H. right. exists m, e. split; [reflexivity|exact H].
    + intros [H|(m' & e' & H & Hm)]; [discriminate H|].
      injection H as <- <-. exact Hm.
Qed.

Lemma valid_exponent_floor (x : float) (s : bool) (m : positive) (e : Z) :
  Prim2SF x = S754_finite s m e -> -1074 <= e.
Proof.
  intros H. pose proof (Prim2SF_valid x) as Hv. rewrite H in Hv.
  cbn in Hv. apply bounded_canonical in Hv as [Hc _]. lia.
Qed.

Lemma SFpositive_from_weaken (a b : Z) (x : spec_float) :
  b <= a -> SFpositive_from a x -> SFpositive_from b x.
Proof.
  intros Hab [H|(m & e & H & Hm)]; [left; exact H|].
  right. exists m, e. split; [exact H|lia].
Qed.

Lemma SFpositive_from_nonneg (a : Z) (x : spec_float) :
  SFpositive_from a x -> SFnonneg x.
Proof. intros [->|(m & e & -> & _)]; constructor. Qed.

(** Sum of two numbers that are at least 0, in [SpecFloat] terms. *)
Lemma SFadd_nonneg (x w : float) :
  SFnonneg (Prim2SF x) -> SFnonneg (Prim2SF w) ->
  SFnonneg (SF64add (Prim2SF x) (Prim2SF w)).
Proof.
  intros Hx Hw.
  pose proof (valid_exponent_floor x) as Vx.
  pose proof (valid_exponent_floor w) as Vw.
  destruct Hx as [sx| |mx ex]; destruct Hw as [sw| |mw ew];
    try (destruct sx); try (destruct sw); try (cbn; constructor).
  eapply SFpositive_from_nonneg. apply SFadd_finite_positive; eauto.
Qed.

Lemma SFadd_ge1_l (x w : float) :
  SFpositive_from 1 (Prim2SF x) -> SFnonneg (Prim2SF w) ->
  SFpositive_from 1 (SF64add (Prim2SF x) (Prim2SF w)).
Proof.
  intros Hx Hw.
  pose proof (valid_exponent_floor x) as Vx.
  pose proof (valid_exponent_floor w) as Vw.
  destruct Hx as [Hx|(mx & ex & Hx & Hmag)]; rewrite Hx in *.
  - destruct Hw as [sw| |mw ew]; left; reflexivity.
  - destruct Hw as [sw| |mw ew].
    + right. exists mx, ex. split; [destruct sw; reflexivity|exact Hmag].
    + left. reflexivity.
    + eapply SFpositive_from_weaken;
        [|apply SFadd_finite_positive; eauto]. lia.
Qed.

Lemma SFadd_ge1_r (x w : float) :
  SFnonneg (Prim2SF x) -> SFpositive_from 1 (Prim2SF w) ->
  SFpositive_from 1 (SF64add (Prim2SF x) (Prim2SF w)).
Proof.
  intros Hx Hw.
  pose proof (valid_exponent_floor x) as Vx.
  pose proof (valid_exponent_floor w) as Vw.
  destruct Hw as [Hw|(mw & ew & Hw & Hmag)]; rewrite Hw in *.
  - destruct Hx as [sx| |mx ex]; left; reflexivity.
  - destruct Hx as [sx| |mx ex].
    + right. exists mw, ew. split; [destruct sx; reflexivity|exact Hmag].
    + left. reflexivity.
    + eapply SFpositive_from_weaken;
        [|apply SFadd_finite_positive; eauto]. lia.
Qed.

Lemma float_add_nonneg (x w : float) :
  (0 <=? x)%float = true -> (0 <=? w)%float = true ->
  (0 <=? x + w)%float = true.
Proof. rewrite !leb_zero_shape, FloatAxioms.add_spec. apply SFadd_nonneg. Qed.

Lemma float_add_ge1_l (x w : float) :
  (1 <=? x)%float = true -> (0 <=? w)%float = true ->
  (1 <=? x + w)%float = true.
Proof. rewrite !leb_one_shape, leb_zero_shape, FloatAxioms.add_spec. apply SFadd_ge1_l. Qed.

Lemma float_add_ge1_r (x w : float) :
  (0 <=? x)%float = true -> (1 <=? w)%float = true ->
  (1 <=? x + w)%float = true.
Proof. rewrite !leb_one_shape, leb_zero_shape, FloatAxioms.add_spec. apply SFadd_ge1_r. Qed.

Lemma float_ge1_positive (x : float) :
  (1 <=? x)%float = true -> (0 <? x)%float = true.
Proof.
  rewrite leb_one_shape, FloatAxioms.ltb_spec.
  change (Prim2SF 0) with (S754_zero false).
  intros [->|(m & e & -> & _)]; reflexivity.
Qed.

Lemma float_eqb_leb (x y : float) :
  (x =? y)%float = true -> (x <=? y)%float = true.
Proof.
  rewrite FloatAxioms.eqb_spec, FloatAxioms.leb_spec. unfold SFeqb, SFleb.
  destruct (SFcompare (Prim2SF x) (Prim2SF y)) as [[| |]|]; congruence.
Qed.

(** [v] is neither below 0 nor above the finite positive [hi]. *)
Lemma FpLong_to_Z_between (v hi : float) (mh : positive) (p : positive) :
  Prim2SF hi = S754_finite false mh (Zneg p) -> Zpos p <= 52 ->
  (v <? 0)%float = false -> (hi <? v)%float = false ->
  0 <= FpLong_to_Z v <= Zpos mh / 2 ^ Zpos p \/ 0 <= FpLong_to_Z v < 2 ^ (53 - Zpos p - 1).
Proof.
  intros Hhi Hp Hlo Hup.
  rewrite FloatAxioms.ltb_spec in Hlo, Hup. rewrite Hhi in Hup.
  pose proof (Prim2SF_valid v) as Hv.
  unfold FpLong_to_Z.
  destruct (Prim2SF v) as [s|s| |s m e]; try (left; split; [lia|apply Z.div_pos; lia]).
  destruct s; [discriminate Hlo|].
  simpl in Hv. pose proof (bounded_mantissa_lt m e Hv) as Hm.
  unfold SFltb, SFcompare in Hup.
  destruct (Z.compare_spec (Zneg p) e) as [He|He|He]; try discriminate Hup.
  - subst e. left. split; [apply Z.div_pos; lia|].
    apply Z.div_le_mono; [lia|].
    change (Pos.compare_cont Eq mh m) with (Pos.compare mh m) in Hup.
    destruct (Pos.compare_spec mh m); try discriminate Hup; lia.
  - right. destruct e as [|e|e]; try lia.
    assert (0 < 2 ^ (- Z.neg e)) by (apply Z.pow_pos_nonneg; lia).
    split; [apply Z.div_pos; [apply Pos2Z.is_nonneg|exact H]|].
    apply Z.div_lt_upper_bound; [exact H|].
    rewrite <- Z.pow_add_r by lia.
    eapply Z.lt_le_trans; [exact Hm|]. apply Z.pow_le_mono_r; lia.
Qed.

Lemma ClampByte_range (v : float) : 0 <= ClampByte v <= 255.
Proof.
  unfold ClampByte, A_u_char_of.
  destruct (v <? 0)%float eqn:E0; [vm_compute; split; discriminate|].
  destruct (255 <? v)%float eqn:E1; [vm_compute; split; discriminate|].
  destruct (FpLong_to_Z_between v 255 8972014882652160 45 eq_refl ltac:(lia) E0 E1) as [H|H].
  - change (8972014882652160 / 2 ^ 45) with 255 in H.
    rewrite Z.mod_small; lia.
  - change (2 ^ (53 - 45 - 1)) with 128 in H. rewrite Z.mod_small; lia.
Qed.

Lemma Clamp16_range (v : float) : 0 <= Clamp16 v <= PF_MAX_CHAN16.
Proof.
  unfold Clamp16, A_u_short_of.
  change (FpLong_of_Z PF_MAX_CHAN16) with 32768%float.
  destruct (v <? 0)%float eqn:E0; [vm_compute; split; discriminate|].
  destruct (32768 <? v)%float eqn:E1; [vm_compute; split; discriminate|].
  unfold PF_MAX_CHAN16.
  destruct (FpLong_to_Z_between v 32768 4503599627370496 37 eq_refl ltac:(lia) E0 E1) as [H|H].
  - change (4503599627370496 / 2 ^ 37) with 32768 in H.
    rewrite Z.mod_small; lia.
  - change (2 ^ (53 - 37 - 1)) with 32768 in H. rewrite Z.mod_small; lia.
Qed.

Lemma Clamp01_within01 (v : float) : within01 (Clamp01 v).
Proof.
  unfold within01, Clamp01.
  destruct (v <? 0)%float eqn:E0; [split; reflexivity|].
  destruct (1 <? v)%float eqn:E1; [split; reflexivity|].
  split; assumption.
Qed.

(* ===================================================================== *)
(** ** The line mask                                                      *)
(* ===================================================================== *)

Lemma mask_index_bound {C : Type} (info : ColorLinesInfo C) (x y : Z) :
  mask_wf info -> in_frame info x y ->
  0 <= y * maskRowBytes info + x < Z.of_nat (length (lineMask info)).
Proof.
  intros [Hs Hl] [Hx Hy]. rewrite Hs, Hl. split; [nia|].
  rewrite Z2Nat.id by nia. nia.
Qed.

Lemma GetMaskAtFast_SetMaskAtFast {C : Type} (info : ColorLinesInfo C)
    (x y v : Z) :
  mask_wf info -> in_frame info x y ->
  GetMaskAtFast (SetMaskAtFast info x y v) x y = v.
Proof.
  intros Hwf Hin. unfold GetMaskAtFast, SetMaskAtFast. simpl.
  apply array_get_set_eq. now apply mask_index_bound.
Qed.

Lemma GetMaskAt_nonzero_in_frame {C : Type} (info : ColorLinesInfo C) (x y : Z) :
  GetMaskAt info x y <> 0 ->
  (x <? 0) || (x >=? maskWidth info) = false
  /\ (y <? 0) || (y >=? maskHeight info) = false.
Proof.
  unfold GetMaskAt. intros H.
  destruct (x <? 0); [contradiction|].
  destruct (x >=? maskWidth info); [contradiction|].
  destruct (y <? 0); [contradiction|].
  destruct (y >=? maskHeight info); [contradiction|].
  split; reflexivity.
Qed.

Lemma example_mask_wf (mode omode : Z) (bright : float)
    (frame : PF_EffectWorld Z) :
  mask_wf (example_info mode omode bright frame).
Proof. split; reflexivity. Qed.

(* ===================================================================== *)
(** ** Binary64 arithmetic against exact arithmetic                       *)
(* ===================================================================== *)

(** *** Whole numbers promoted to [PF_FpLong] *)

Lemma iter_xO_value (m d : positive) :
  Zpos (Pos.iter xO m d) = Zpos m * 2 ^ Zpos d.
Proof.
  induction d as [|d IH] using Pos.peano_ind.
  - simpl. lia.
  - rewrite Pos.iter_succ, Pos2Z.inj_succ, Z.pow_succ_r by lia.
    rewrite Pos2Z.inj_xO, IH. lia.
Qed.

Lemma shl_align_value (m : positive) (e e' : Z) :
  e' <= e -> Zpos (fst (shl_align m e e')) = Zpos m * 2 ^ (e - e').
Proof.
  intros H. unfold shl_align. destruct (e' - e) as [|d|d] eqn:E; cbn [fst].
  - replace (e - e') with 0 by lia. lia.
  - lia.
  - rewrite iter_xO_value. replace (e - e') with (Zpos d) by lia.
    reflexivity.
Qed.

Lemma fexp_normal (e : Z) :
  -1074 <= e -> fexp prec emax (53 + e) = e.
Proof.
  intros H. unfold fexp, SpecFloat.emin, prec, emax.
  change (IntDef.Z.max (53 + e - 53) (3 - 1024 - 53))
    with (Z.max (53 + e - 53) (3 - 1024 - 53)). lia.
Qed.

Lemma shr_1_even (m : Z) :
  0 <= m ->
  shr_1 (Build_shr_record (m * 2) false false) = Build_shr_record m false false.
Proof.
  intros H. destruct m as [|q|q]; [reflexivity| |lia].
  replace (Zpos q * 2) with (Zpos q~0) by lia. reflexivity.
Qed.

(** Shifting out zeros leaves no rounding bit behind. *)
Lemma iter_shr_1_exact (p : positive) (m : Z) :
  0 <= m ->
  SpecFloat.iter_pos shr_1 p (Build_shr_record (m * 2 ^ Zpos p) false false)
  = Build_shr_record m false false.
Proof.
  revert m. induction p as [p IH|p IH|]; intros m Hm;
    cbn [SpecFloat.iter_pos].
  - assert (Hp : 0 < 2 ^ Zpos p) by (apply Z.pow_pos_nonneg; lia).
    replace (m * 2 ^ Zpos p~1) with (m * 2 ^ Zpos p * 2 ^ Zpos p * 2).
    2:{ replace (Zpos p~1) with (Zpos p + Zpos p + 1) by lia.
        rewrite !Z.pow_add_r by lia. change (2 ^ 1) with 2. lia. }
    rewrite shr_1_even by nia. rewrite IH by nia. apply IH. exact Hm.
  - assert (Hp : 0 < 2 ^ Zpos p) by (apply Z.pow_pos_nonneg; lia).
    replace (m * 2 ^ Zpos p~0) with (m * 2 ^ Zpos p * 2 ^ Zpos p).
    2:{ replace (Zpos p~0) with (Zpos p + Zpos p) by lia.
        rewrite !Z.pow_add_r by lia. lia. }
    rewrite IH by nia. apply IH. exact Hm.
  - change (2 ^ 1) with 2. apply shr_1_even. exact Hm.
Qed.

(** Rounding changes nothing in a mantissa of 53 digits at an exponent
    of the format. *)
Lemma binary_round_aux_exact (s : bool) (m : positive) (e : Z) :
  Zpos (digits2_pos m) = 53 -> -1074 <= e <= 971 ->
  binary_round_aux prec emax s (Zpos m) e loc_Exact = S754_finite s m e.
Proof.
  intros Hd He.
  assert (Hf : fexp prec emax (53 + e) - e = 0)
    by (rewrite fexp_normal; lia).
  unfold binary_round_aux, shr_fexp.
  cbn [Zdigits2 shr_record_of_loc]. rewrite Hd, Hf.
  cbn [shr shr_m loc_of_shr_record round_nearest_even Zdigits2
       shr_record_of_loc shr_r shr_s].
  rewrite Hd, Hf. cbn [shr shr_m].
  destruct (e <=? emax - prec) eqn:E; [reflexivity|].
  apply Z.leb_gt in E. unfold emax, prec in E. lia.
Qed.

(** Rounding a mantissa of 53 digits followed by [s] zeros gives the 53
    digits at the exponent raised by [s]. *)
Lemma binary_round_aux_shift (sg : bool) (M K : positive) (E s : Z) :
  Zpos (digits2_pos K) = 53 -> 0 <= s -> Zpos M = Zpos K * 2 ^ s ->
  -1074 <= E + s <= 971 ->
  binary_round_aux prec emax sg (Zpos M) E loc_Exact
  = S754_finite sg K (E + s).
Proof.
  intros HK Hs HM HF.
  destruct s as [|p|p]; [| |lia].
  - rewrite Z.add_0_r in *. rewrite Z.pow_0_r, Z.mul_1_r in HM.
    injection HM as ->. apply binary_round_aux_exact; assumption.
  - assert (HdM : Zpos (digits2_pos M) = 53 + Zpos p).
    { apply digits2_pos_unique. rewrite HM.
      pose proof (digits2_pos_bounds K) as [Hl Hu]. rewrite HK in Hl, Hu.
      assert (Hp : 0 < 2 ^ Zpos p) by (apply Z.pow_pos_nonneg; lia).
      replace (53 + Zpos p - 1) with (53 - 1 + Zpos p) by lia.
      rewrite !Z.pow_add_r by lia. nia. }
    assert (Hf : fexp prec emax (53 + Zpos p + E) - E = Zpos p).
    { replace (53 + Zpos p + E) with (53 + (E + Zpos p)) by lia.
      rewrite fexp_normal; lia. }
    assert (Hf2 : fexp prec emax (53 + (E + Zpos p)) - (E + Zpos p) = 0)
      by (rewrite fexp_normal; lia).
    unfold binary_round_aux, shr_fexp.
    cbn [Zdigits2 shr_record_of_loc]. rewrite HdM, Hf. cbn [shr].
    rewrite HM, iter_shr_1_exact by lia.
    cbn [shr_m loc_of_shr_record round_nearest_even Zdigits2
         shr_record_of_loc shr_r shr_s].
    rewrite HK, Hf2. cbn [shr shr_m].
    destruct (E + Zpos p <=? emax - prec) eqn:El; [reflexivity|].
    apply Z.leb_gt in El. unfold emax, prec in El. lia.
Qed.

(** The mantissa of [SFdyadic]. *)
Lemma dyadic_mantissa (n : positive) :
  Zpos n < 2 ^ 53 ->
  let d := Zpos (digits2_pos n) in
  1 <= d <= 53
  /\ Zpos (Z.to_pos (Zpos n * 2 ^ (53 - d))) = Zpos n * 2 ^ (53 - d)
  /\ Zpos (digits2_pos (Z.to_pos (Zpos n * 2 ^ (53 - d)))) = 53.
Proof.
  intros Hn d. pose proof (digits2_pos_bounds n) as [Hl Hu]. fold d in Hl, Hu.
  assert (Hd : 1 <= d <= 53).
  { split; [subst d; lia|].
    assert (d - 1 < 53) by (apply (Z.pow_lt_mono_r_iff 2); lia). lia. }
  assert (Hp : 0 < 2 ^ (53 - d)) by (apply Z.pow_pos_nonneg; lia).
  assert (Hv : Zpos (Z.to_pos (Zpos n * 2 ^ (53 - d)))
               = Zpos n * 2 ^ (53 - d)) by (apply Z2Pos.id; nia).
  split; [exact Hd|]. split; [exact Hv|].
  apply digits2_pos_unique. rewrite Hv.
  replace (2 ^ (53 - 1)) with (2 ^ (d - 1) * 2 ^ (53 - d))
    by (rewrite <- Z.pow_add_r by lia; f_equal; lia).
  replace (2 ^ 53) with (2 ^ d * 2 ^ (53 - d))
    by (rewrite <- Z.pow_add_r by lia; f_equal; lia).
  nia.
Qed.

(** A positive whole number below [2^53] promoted to [PF_FpLong]. *)
Lemma FpLong_of_Z_dyadic (n : positive) :
  Zpos n < 2 ^ 53 -> Prim2SF (FpLong_of_Z (Zpos n)) = SFdyadic n 0.
Proof.
  intros Hn. unfold FpLong_of_Z. change (Zpos n <? 0) with false. cbv iota.
  rewrite FloatAxioms.of_uint63_spec, Uint63.of_Z_spec.
  rewrite Z.mod_small by (change wB with (2 ^ 63); lia).
  cbn [binary_normalize]. unfold binary_round, SFdyadic.
  destruct (dyadic_mantissa n Hn) as (Hd & Hv & H53). cbv zeta in *.
  set (d := Zpos (digits2_pos n)) in *.
  set (K := Z.to_pos (Zpos n * 2 ^ (53 - d))) in *.
  replace (d + 0) with (53 + (d - 53)) by lia.
  rewrite fexp_normal by lia.
  pose proof (shl_align_value n 0 (d - 53) ltac:(lia)) as Ha.
  pose proof (shl_align_exponent n 0 (d - 53) ltac:(lia)) as He.
  destruct (shl_align n 0 (d - 53)) as [mz ez]. cbn [fst snd] in Ha, He.
  subst ez. replace (0 - (d - 53)) with (53 - d) in Ha by lia.
  assert (mz = K) by lia. subst mz.
  rewrite Z.add_0_r. apply binary_round_aux_exact; lia.
Qed.

Lemma all_below_spec (k : nat) (base : Z) (P : Z -> bool) :
  all_below k base P = true ->
  forall n, base * 2 ^ Z.of_nat k <= n < (base + 1) * 2 ^ Z.of_nat k ->
  P n = true.
Proof.
  revert base. induction k as [|k IH]; intros base H n Hn.
  - cbn in H. change (2 ^ Z.of_nat 0) with 1 in Hn.
    replace n with base by lia. exact H.
  - cbn [all_below] in H. apply andb_true_iff in H as [H0 H1].
    rewrite Nat2Z.inj_succ, Z.pow_succ_r in Hn by lia.
    destruct (Z_lt_le_dec n ((2 * base + 1) * 2 ^ Z.of_nat k)) as [Hlt|Hge].
    + apply (IH _ H0). lia.
    + apply (IH _ H1). lia.
Qed.

(** *** Rounding error of the binary64 operations *)

Lemma Qpow2_pos (e : Z) : (0 < 2 ^ e)%Q.
Proof. apply Qpower_0_lt. reflexivity. Qed.

Lemma Qpow2_add (a b : Z) : (2 ^ (a + b) == 2 ^ a * 2 ^ b)%Q.
Proof. apply Qpower_plus. discriminate. Qed.

Lemma Qpow2_Z (n : Z) : 0 <= n -> (2 ^ n == inject_Z (2 ^ n))%Q.
Proof. intros H. rewrite Zpower_Qpower by exact H. reflexivity. Qed.

(** A mantissa [k] at exponent [e + n] is [k * 2^n] at exponent [e]. *)
Lemma Qpow2_shift (k : Z) (e n : Z) :
  0 <= n -> (inject_Z k * 2 ^ (e + n) == inject_Z (k * 2 ^ n) * 2 ^ e)%Q.
Proof.
  intros H. rewrite Qpow2_add, (Qpow2_Z n H), inject_Z_mult. ring.
Qed.

Lemma round_nearest_even_bounds (m : positive) (l : location) :
  exists m2 : positive,
    round_nearest_even (Zpos m) l = Zpos m2 /\ Zpos m <= Zpos m2 <= Zpos m + 1.
Proof.
  unfold round_nearest_even. destruct l as [|[| |]].
  - exists m. lia.
  - destruct (IntDef.Z.even (Zpos m)).
    + exists m. lia.
    + exists (m + 1)%positive. lia.
  - exists m. lia.
  - exists (m + 1)%positive. lia.
Qed.

(** Rounding a mantissa of [53 + n] digits: the result is the mantissa
    shifted by [n] digits or the next number, so it is off by at most
    [2^-52] of the value. *)
Lemma binary_round_aux_error (sg : bool) (M : positive) (E n : Z) :
  Zpos (digits2_pos M) = 53 + n -> 0 <= n -> -1074 <= E + n <= 970 ->
  exists (m' : positive) (e' : Z),
    binary_round_aux prec emax sg (Zpos M) E loc_Exact = S754_finite sg m' e'
    /\ Zpos (digits2_pos m') = 53 /\ E + n <= e' <= E + n + 1
    /\ Z.abs (Zpos m' * 2 ^ (e' - E) - Zpos M) * 2 ^ 52 <= Zpos M.
Proof.
  intros Hd Hn Hr.
  destruct n as [|p|p]; [| |lia].
  - exists M, E. rewrite binary_round_aux_exact by lia.
    split; [reflexivity|]. split; [lia|]. split; [lia|].
    rewrite Z.sub_diag, Z.pow_0_r, Z.mul_1_r, Z.sub_diag. simpl. lia.
  - assert (Hp : 0 < 2 ^ Zpos p) by (apply Z.pow_pos_nonneg; lia).
    destruct (digits2_pos_div M p ltac:(lia)) as (m1 & Hm1 & Hd1).
    rewrite Hd in Hd1. replace (53 + Zpos p - Zpos p) with 53 in Hd1 by lia.
    pose proof (digits2_pos_bounds m1) as [Hl1 Hu1]. rewrite Hd1 in Hl1, Hu1.
    change (2 ^ (53 - 1)) with 4503599627370496 in Hl1.
    change (2 ^ 53) with 9007199254740992 in Hu1.
    pose proof (Z.div_mod (Zpos M) (2 ^ Zpos p) ltac:(lia)) as Hdm.
    pose proof (Z.mod_pos_bound (Zpos M) (2 ^ Zpos p) Hp) as Hmod.
    rewrite Hm1 in Hdm.
    assert (Hf : fexp prec emax (53 + Zpos p + E) - E = Zpos p).
    { replace (53 + Zpos p + E) with (53 + (E + Zpos p)) by lia.
      rewrite fexp_normal; lia. }
    unfold binary_round_aux, shr_fexp.
    cbn [Zdigits2 shr_record_of_loc]. rewrite Hd, Hf. cbn [shr].
    pose proof (shr_m_iter_pos p (Build_shr_record (Zpos M) false false)
                  ltac:(cbn; lia)) as Hs.
    cbn [shr_m] in Hs. rewrite Hm1 in Hs.
    destruct (SpecFloat.iter_pos shr_1 p (Build_shr_record (Zpos M) false false))
      as [mz r1 s1]. cbn [shr_m] in Hs. subst mz. cbn [shr_m].
    destruct (round_nearest_even_bounds m1
                (loc_of_shr_record (Build_shr_record (Zpos m1) r1 s1)))
      as (m2 & H2 & Hb2).
    rewrite H2.
    destruct (Z.eq_dec (Zpos m2) 9007199254740992) as [Htop|Hntop].
    + (* rounded up to 2^53: one more shift *)
      injection Htop as ->.
      cbn [Zdigits2 shr_record_of_loc].
      change (Zpos (digits2_pos 9007199254740992)) with 54.
      assert (Hf2 : fexp prec emax (54 + (E + Zpos p)) - (E + Zpos p) = 1).
      { replace (54 + (E + Zpos p)) with (53 + (E + Zpos p + 1)) by lia.
        rewrite fexp_normal; lia. }
      rewrite Hf2. cbn [shr SpecFloat.iter_pos shr_1 shr_m orb].
      destruct (E + Zpos p + 1 <=? emax - prec) eqn:El.
      2:{ apply Z.leb_gt in El. unfold emax, prec in El. lia. }
      exists 4503599627370496%positive, (E + Zpos p + 1).
      split; [reflexivity|]. split; [reflexivity|]. split; [lia|].
      replace (E + Zpos p + 1 - E) with (Zpos p + 1) by lia.
      rewrite Z.pow_add_r by lia. change (2 ^ 1) with 2.
      change (2 ^ 52) with 4503599627370496.
      rewrite Z.abs_eq by nia. nia.
    + assert (Hd2 : Zpos (digits2_pos m2) = 53).
      { apply digits2_pos_unique.
        change (2 ^ (53 - 1)) with 4503599627370496.
        change (2 ^ 53) with 9007199254740992. lia. }
      cbn [Zdigits2 shr_record_of_loc]. rewrite Hd2.
      assert (Hf2 : fexp prec emax (53 + (E + Zpos p)) - (E + Zpos p) = 0)
        by (rewrite fexp_normal; lia).
      rewrite Hf2. cbn [shr shr_m].
      destruct (E + Zpos p <=? emax - prec) eqn:El.
      2:{ apply Z.leb_gt in El. unfold emax, prec in El. lia. }
      exists m2, (E + Zpos p).
      split; [reflexivity|]. split; [exact Hd2|]. split; [lia|].
      replace (E + Zpos p - E) with (Zpos p) by lia.
      change (2 ^ 52) with 4503599627370496.
      assert (Z.abs (Zpos m2 * 2 ^ Zpos p - Zpos M) <= 2 ^ Zpos p)
        by (apply Z.abs_le; nia).
      nia.
Qed.

Lemma SF2Q_finite (s : bool) (m : positive) (e : Z) :
  (SF2Q (S754_finite s m e)
   == inject_Z (cond_Zopp s (Zpos m)) * 2 ^ e)%Q.
Proof. reflexivity. Qed.

Lemma inject_cond_Zopp (s : bool) (k : Z) :
  (inject_Z (cond_Zopp s k) == (if s then - inject_Z k else inject_Z k))%Q.
Proof. destruct s; cbn [cond_Zopp]; [rewrite inject_Z_opp|]; reflexivity. Qed.

Lemma binary_round_aux_error_Q (sg : bool) (M : positive) (E n : Z) :
  Zpos (digits2_pos M) = 53 + n -> 0 <= n -> -1074 <= E + n <= 970 ->
  exists (m' : positive) (e' : Z),
    binary_round_aux prec emax sg (Zpos M) E loc_Exact = S754_finite sg m' e'
    /\ Zpos (digits2_pos m') = 53 /\ E + n <= e' <= E + n + 1
    /\ (Qabs (inject_Z (Zpos m') * 2 ^ e' - inject_Z (Zpos M) * 2 ^ E)
        <= rounding_unit * (inject_Z (Zpos M) * 2 ^ E))%Q.
Proof.
  intros Hd Hn Hr.
  destruct (binary_round_aux_error sg M E n Hd Hn Hr)
    as (m' & e' & Hre & Hd' & He' & Herr).
  exists m', e'. split; [exact Hre|]. split; [exact Hd'|]. split; [exact He'|].
  replace e' with (E + (e' - E)) at 1 by lia.
  rewrite (Qpow2_shift (Zpos m') E (e' - E)) by lia.
  pose proof (Qpow2_pos E) as HpE.
  set (k := Zpos m' * 2 ^ (e' - E)) in *.
  assert (Hdiff : (inject_Z k * 2 ^ E - inject_Z (Zpos M) * 2 ^ E
                   == inject_Z (k - Zpos M) * 2 ^ E)%Q).
  { unfold Z.sub. rewrite inject_Z_plus, inject_Z_opp. ring. }
  rewrite Hdiff, Qabs_Qmult, (Qabs_pos (2 ^ E)) by (apply Qlt_le_weak; exact HpE).
  assert (Habs : (Qabs (inject_Z (k - Zpos M))
                  <= rounding_unit * inject_Z (Zpos M))%Q).
  { unfold rounding_unit.
    assert (Hq : (Qabs (inject_Z (k - Zpos M)) == inject_Z (Z.abs (k - Zpos M)))%Q).
    { unfold Qabs, inject_Z. reflexivity. }
    rewrite Hq. unfold Qle, Qmult, inject_Z. cbn [Qnum Qden].
    change (2 ^ 52) with 4503599627370496 in Herr. lia. }
  assert (HM : (0 <= inject_Z (Zpos M))%Q) by (unfold Qle; cbn; lia).
  revert Habs HpE HM. unfold rounding_unit.
  generalize (Qabs (inject_Z (k - Zpos M))) (2 ^ E)%Q (inject_Z (Zpos M)).
  intros a P V Habs HpE HM. nra.
Qed.

(** Rounding the mantissa [M] at exponent [E] to binary64, in the range
    of the normal numbers: a mantissa of 53 digits, off by at most
    [2^-52] of the value. *)
Lemma binary_round_error (sg : bool) (M : positive) (E : Z) :
  -1021 <= Zpos (digits2_pos M) + E <= 1023 ->
  exists (m' : positive) (e' : Z),
    binary_round prec emax sg M E = S754_finite sg m' e'
    /\ Zpos (digits2_pos m') = 53
    /\ Zpos (digits2_pos M) + E - 53 <= e' <= Zpos (digits2_pos M) + E - 52
    /\ (Qabs (inject_Z (Zpos m') * 2 ^ e' - inject_Z (Zpos M) * 2 ^ E)
        <= rounding_unit * (inject_Z (Zpos M) * 2 ^ E))%Q.
Proof.
  intros Hr. unfold binary_round.
  set (d := Zpos (digits2_pos M)) in *.
  replace (d + E) with (53 + (d + E - 53)) by lia.
  rewrite fexp_normal by lia.
  assert (Hd1 : 1 <= d) by (subst d; lia).
  destruct (Z_lt_le_dec d 53) as [Hlt|Hge].
  - (* fewer than 53 digits: the mantissa is shifted left, nothing is lost *)
    pose proof (shl_align_value M E (d + E - 53) ltac:(lia)) as Ha.
    pose proof (shl_align_exponent M E (d + E - 53) ltac:(lia)) as He.
    pose proof (shl_align_magnitude M E (d + E - 53)) as Hm.
    destruct (shl_align M E (d + E - 53)) as [mz ez]. cbn [fst snd] in *.
    subst ez. fold d in Hm.
    assert (Hdz : Zpos (digits2_pos mz) = 53) by lia.
    exists mz, (d + E - 53).
    rewrite binary_round_aux_exact by lia.
    split; [reflexivity|]. split; [exact Hdz|]. split; [lia|].
    replace (E - (d + E - 53)) with (53 - d) in Ha by lia.
    assert (Heq : (inject_Z (Zpos mz) * 2 ^ (d + E - 53)
                   == inject_Z (Zpos M) * 2 ^ E)%Q).
    { rewrite Ha. replace E with ((d + E - 53) + (53 - d)) at 2 by lia.
      rewrite (Qpow2_shift (Zpos M) (d + E - 53) (53 - d)) by lia.
      reflexivity. }
    rewrite Heq.
    assert (Hz : (inject_Z (Zpos M) * 2 ^ E - inject_Z (Zpos M) * 2 ^ E == 0)%Q)
      by ring.
    rewrite Hz. change (Qabs 0) with 0%Q.
    assert (HV : (0 < inject_Z (Zpos M) * 2 ^ E)%Q).
    { apply Qmult_lt_0_compat; [reflexivity|apply Qpow2_pos]. }
    unfold rounding_unit. revert HV.
    generalize (inject_Z (Zpos M) * 2 ^ E)%Q. intros V HV. lra.
  - (* at least 53 digits: no shift, then the rounding *)
    unfold shl_align.
    assert (Hsame : match d + E - 53 - E with
                    | Zneg p => (Pos.iter xO M p, d + E - 53)
                    | _ => (M, E)
                    end = (M, E))
      by (destruct (d + E - 53 - E) eqn:Ep; [reflexivity|reflexivity|lia]).
    rewrite Hsame.
    destruct (binary_round_aux_error_Q sg M E (d - 53) ltac:(fold d; lia)
                ltac:(lia) ltac:(lia)) as (m' & e' & Hre & Hd' & He' & Herr).
    exists m', e'. split; [exact Hre|]. split; [exact Hd'|].
    split; [lia|exact Herr].
Qed.
Lemma digits2_pos_below (M : positive) (B : Z) :
  0 <= B -> Zpos M < 2 ^ B -> Zpos (digits2_pos M) <= B.
Proof.
  intros HB H. pose proof (digits2_pos_bounds M) as [Hl _].
  assert (Zpos (digits2_pos M) - 1 < B)
    by (apply (Z.pow_lt_mono_r_iff 2); lia).
  lia.
Qed.

(** The sum or difference [D] of two aligned mantissas at exponent [ez],
    as [SFadd] and [SFsub] round it. *)
Lemma binary_normalize_error (D ez B : Z) :
  -1022 <= ez -> 0 <= B -> Z.abs D < 2 ^ B -> B + ez <= 1023 ->
  SFcanon (ez - 52) (B + ez - 52) (binary_normalize prec emax D ez false)
  /\ (Qabs (SF2Q (binary_normalize prec emax D ez false) - inject_Z D * 2 ^ ez)
      <= rounding_unit * Qabs (inject_Z D * 2 ^ ez))%Q.
Proof.
  intros Hez HB HD Hhi. pose proof (Qpow2_pos ez) as HP.
  destruct D as [|M|M]; cbn [binary_normalize].
  - split; [exact I|]. cbn [SF2Q]. revert HP. generalize (2 ^ ez)%Q.
    intros P HP.
    assert (Hz : (0 - inject_Z 0 * P == 0)%Q) by (unfold inject_Z; ring).
    assert (Hz' : (inject_Z 0 * P == 0)%Q) by (unfold inject_Z; ring).
    rewrite Hz, Hz'. change (Qabs 0) with 0%Q. unfold rounding_unit. lra.
  - pose proof (digits2_pos_below M B HB ltac:(lia)) as Hd.
    destruct (binary_round_error false M ez ltac:(lia))
      as (m' & e' & Hre & Hd' & He' & Herr).
    rewrite Hre. split; [cbn; lia|].
    rewrite SF2Q_finite. cbn [cond_Zopp].
    rewrite (Qabs_pos (inject_Z (Zpos M) * 2 ^ ez)); [exact Herr|].
    apply Qmult_le_0_compat; [unfold Qle; cbn; lia|apply Qlt_le_weak, HP].
  - pose proof (digits2_pos_below M B HB ltac:(lia)) as Hd.
    destruct (binary_round_error true M ez ltac:(lia))
      as (m' & e' & Hre & Hd' & He' & Herr).
    rewrite Hre. split; [cbn; lia|].
    rewrite SF2Q_finite. cbn [cond_Zopp].
    change (Zneg m') with (- Zpos m'). change (Zneg M) with (- Zpos M).
    rewrite !inject_Z_opp.
    assert (H1 : (- inject_Z (Zpos m') * 2 ^ e' - - inject_Z (Zpos M) * 2 ^ ez
                  == - (inject_Z (Zpos m') * 2 ^ e' - inject_Z (Zpos M) * 2 ^ ez))%Q)
      by ring.
    assert (H2 : (- inject_Z (Zpos M) * 2 ^ ez
                  == - (inject_Z (Zpos M) * 2 ^ ez))%Q) by ring.
    rewrite H1, H2, !Qabs_opp.
    rewrite (Qabs_pos (inject_Z (Zpos M) * 2 ^ ez)); [exact Herr|].
    apply Qmult_le_0_compat; [unfold Qle; cbn; lia|apply Qlt_le_weak, HP].
Qed.
(** Aligning a mantissa to a smaller exponent keeps the value. *)
Lemma aligned_value (s : bool) (m : positive) (e ez : Z) :
  ez <= e ->
  (inject_Z (cond_Zopp s (Zpos m)) * 2 ^ e
   == inject_Z (cond_Zopp s (Zpos (fst (shl_align m e ez)))) * 2 ^ ez)%Q.
Proof.
  intros H. rewrite (shl_align_value m e ez H).
  replace e with (ez + (e - ez)) at 1 by lia.
  rewrite (Qpow2_shift _ ez (e - ez)) by lia.
  destruct s; cbn [cond_Zopp]; [|reflexivity].
  rewrite Z.mul_opp_l. reflexivity.
Qed.

Lemma aligned_bound (m : positive) (e ez : Z) :
  Zpos (digits2_pos m) = 53 -> ez <= e ->
  Zpos (fst (shl_align m e ez)) < 2 ^ (53 + (e - ez)).
Proof.
  intros Hd H. rewrite (shl_align_value m e ez H).
  pose proof (digits2_pos_bounds m) as [_ Hu]. rewrite Hd in Hu.
  rewrite Z.pow_add_r by lia.
  assert (0 < 2 ^ (e - ez)) by (apply Z.pow_pos_nonneg; lia). nia.
Qed.

Lemma cond_Zopp_abs (s : bool) (k : Z) : Z.abs (cond_Zopp s k) = Z.abs k.
Proof. destruct s; cbn [cond_Zopp]; lia. Qed.

(** The sum and the difference of two finite numbers. *)
Lemma finite_sum_error (lo hi : Z) (minus : bool) (sx : bool) (mx : positive)
    (ex : Z) (sy : bool) (my : positive) (ey : Z) :
  -1022 <= lo -> hi <= 960 ->
  SFcanon lo hi (S754_finite sx mx ex) -> SFcanon lo hi (S754_finite sy my ey) ->
  let ez := Z.min ex ey in
  let X := cond_Zopp sx (Zpos (fst (shl_align mx ex ez))) in
  let Y := cond_Zopp sy (Zpos (fst (shl_align my ey ez))) in
  let D := if minus then X - Y else X + Y in
  let exact := (if minus
                then SF2Q (S754_finite sx mx ex) - SF2Q (S754_finite sy my ey)
                else SF2Q (S754_finite sx mx ex) + SF2Q (S754_finite sy my ey))%Q in
  SFcanon (lo - 52) (hi + 2) (binary_normalize prec emax D ez false)
  /\ (Qabs (SF2Q (binary_normalize prec emax D ez false) - exact)
      <= rounding_unit * Qabs exact)%Q.
Proof.
  intros Hlo Hhi [Hdx Hex] [Hdy Hey] ez X Y D exact.
  assert (Hzx : ez <= ex) by (subst ez; lia).
  assert (Hzy : ez <= ey) by (subst ez; lia).
  pose proof (aligned_bound mx ex ez Hdx Hzx) as Bx.
  pose proof (aligned_bound my ey ez Hdy Hzy) as By.
  set (B := 54 + (Z.max ex ey - ez)).
  assert (HB : Z.abs D < 2 ^ B).
  { assert (Hx : Zpos (fst (shl_align mx ex ez)) < 2 ^ (B - 1)).
    { eapply Z.lt_le_trans; [exact Bx|]. apply Z.pow_le_mono_r; subst B; lia. }
    assert (Hy : Zpos (fst (shl_align my ey ez)) < 2 ^ (B - 1)).
    { eapply Z.lt_le_trans; [exact By|]. apply Z.pow_le_mono_r; subst B; lia. }
    replace B with (B - 1 + 1) by lia. rewrite Z.pow_add_r by (subst B; lia).
    change (2 ^ 1) with 2.
    pose proof (cond_Zopp_abs sx (Zpos (fst (shl_align mx ex ez)))).
    pose proof (cond_Zopp_abs sy (Zpos (fst (shl_align my ey ez)))).
    subst D X Y. destruct minus; lia. }
  destruct (binary_normalize_error D ez B ltac:(subst ez; lia)
              ltac:(subst B ez; lia) HB ltac:(subst B ez; lia)) as [Hc Herr].
  assert (Hex' : (exact == inject_Z D * 2 ^ ez)%Q).
  { subst exact D. cbn [SF2Q]. destruct minus.
    - rewrite (aligned_value sx mx ex ez Hzx), (aligned_value sy my ey ez Hzy).
      fold X Y. unfold Z.sub. rewrite inject_Z_plus, inject_Z_opp. ring.
    - rewrite (aligned_value sx mx ex ez Hzx), (aligned_value sy my ey ez Hzy).
      fold X Y. rewrite inject_Z_plus. ring. }
  split.
  - destruct (binary_normalize prec emax D ez false) as [s|s| |s m e];
      cbn in Hc |- *; try exact Hc. subst B ez. lia.
  - rewrite Hex'. exact Herr.
Qed.
Lemma SFcanon_weaken (lo hi lo' hi' : Z) (x : spec_float) :
  lo' <= lo -> hi <= hi' -> SFcanon lo hi x -> SFcanon lo' hi' x.
Proof.
  intros Hl Hh. destruct x as [s|s| |s m e]; cbn; try tauto. lia.
Qed.

Lemma Qabs_zero_le (c v : Q) : (0 <= c -> Qabs (v - v) <= c * Qabs v)%Q.
Proof.
  intros Hc. assert (Hz : (v - v == 0)%Q) by ring. rewrite Hz.
  change (Qabs 0) with 0%Q. pose proof (Qabs_nonneg v). nra.
Qed.

Lemma rounding_unit_nonneg : (0 <= rounding_unit)%Q.
Proof. unfold rounding_unit. lra. Qed.

(** [x - y] in binary64: off by at most [2^-52] of the exact
    difference. *)
Lemma SFsub_error (lo hi : Z) (x y : spec_float) :
  -1022 <= lo -> hi <= 960 -> SFcanon lo hi x -> SFcanon lo hi y ->
  SFcanon (lo - 52) (hi + 2) (SF64sub x y)
  /\ (Qabs (SF2Q (SF64sub x y) - (SF2Q x - SF2Q y))
      <= rounding_unit * Qabs (SF2Q x - SF2Q y))%Q.
Proof.
  intros Hlo Hhi Hx Hy.
  destruct x as [sx|sx| |sx mx ex]; try contradiction;
    destruct y as [sy|sy| |sy my ey]; try contradiction.
  - split; [destruct sx, sy; exact I|].
    assert (E : SF2Q (SF64sub (S754_zero sx) (S754_zero sy)) = 0%Q)
      by (destruct sx, sy; reflexivity).
    rewrite E. cbn [SF2Q]. apply (Qabs_zero_le rounding_unit (0 - 0)).
    exact rounding_unit_nonneg.
  - split.
    { cbn. cbn in Hy. lia. }
    change (SF64sub (S754_zero sx) (S754_finite sy my ey))
      with (S754_finite (negb sy) my ey).
    cbn [SF2Q].
    assert (E : (inject_Z (cond_Zopp (negb sy) (Zpos my)) * 2 ^ ey
                 == 0 - inject_Z (cond_Zopp sy (Zpos my)) * 2 ^ ey)%Q).
    { destruct sy; cbn [negb cond_Zopp].
      - change (Zneg my) with (- Zpos my). rewrite inject_Z_opp. ring.
      - change (Zneg my) with (- Zpos my). rewrite inject_Z_opp. ring. }
    rewrite E. apply Qabs_zero_le. exact rounding_unit_nonneg.
  - split.
    { cbn. cbn in Hx. lia. }
    change (SF64sub (S754_finite sx mx ex) (S754_zero sy))
      with (S754_finite sx mx ex).
    cbn [SF2Q].
    assert (E : (inject_Z (cond_Zopp sx (Zpos mx)) * 2 ^ ex
                 == inject_Z (cond_Zopp sx (Zpos mx)) * 2 ^ ex - 0)%Q) by ring.
    rewrite E at 1. apply Qabs_zero_le. exact rounding_unit_nonneg.
  - exact (finite_sum_error lo hi true sx mx ex sy my ey Hlo Hhi Hx Hy).
Qed.

(** [x + y] in binary64. *)
Lemma SFadd_error (lo hi : Z) (x y : spec_float) :
  -1022 <= lo -> hi <= 960 -> SFcanon lo hi x -> SFcanon lo hi y ->
  SFcanon (lo - 52) (hi + 2) (SF64add x y)
  /\ (Qabs (SF2Q (SF64add x y) - (SF2Q x + SF2Q y))
      <= rounding_unit * Qabs (SF2Q x + SF2Q y))%Q.
Proof.
  intros Hlo Hhi Hx Hy.
  destruct x as [sx|sx| |sx mx ex]; try contradiction;
    destruct y as [sy|sy| |sy my ey]; try contradiction.
  - split; [destruct sx, sy; exact I|].
    assert (E : SF2Q (SF64add (S754_zero sx) (S754_zero sy)) = 0%Q)
      by (destruct sx, sy; reflexivity).
    rewrite E. cbn [SF2Q].
    assert (E' : (0 == (0 + 0) - 0)%Q) by ring.
    assert (E2 : (0 - (0 + 0) == (0 + 0) - (0 + 0))%Q) by ring.
    rewrite E2. apply Qabs_zero_le. exact rounding_unit_nonneg.
  - split.
    { cbn. cbn in Hy. lia. }
    change (SF64add (S754_zero sx) (S754_finite sy my ey))
      with (S754_finite sy my ey).
    cbn [SF2Q].
    assert (E : (inject_Z (cond_Zopp sy (Zpos my)) * 2 ^ ey
                 == 0 + inject_Z (cond_Zopp sy (Zpos my)) * 2 ^ ey)%Q) by ring.
    rewrite E at 1. apply Qabs_zero_le. exact rounding_unit_nonneg.
  - split.
    { cbn. cbn in Hx. lia. }
    change (SF64add (S754_finite sx mx ex) (S754_zero sy))
      with (S754_finite sx mx ex).
    cbn [SF2Q].
    assert (E : (inject_Z (cond_Zopp sx (Zpos mx)) * 2 ^ ex
                 == inject_Z (cond_Zopp sx (Zpos mx)) * 2 ^ ex + 0)%Q) by ring.
    rewrite E at 1. apply Qabs_zero_le. exact rounding_unit_nonneg.
  - exact (finite_sum_error lo hi false sx mx ex sy my ey Hlo Hhi Hx Hy).
Qed.

(** [x * y] in binary64. *)
Lemma SFmul_error (lo hi : Z) (x y : spec_float) :
  -510 <= lo -> hi <= 450 -> SFcanon lo hi x -> SFcanon lo hi y ->
  SFcanon (lo + lo + 52) (hi + hi + 54) (SF64mul x y)
  /\ (Qabs (SF2Q (SF64mul x y) - SF2Q x * SF2Q y)
      <= rounding_unit * Qabs (SF2Q x * SF2Q y))%Q.
Proof.
  intros Hlo Hhi Hx Hy.
  assert (Hzero : forall v : Q, (Qabs (0 - v * 0) <= rounding_unit * Qabs (v * 0))%Q).
  { intros v. assert (E : (0 - v * 0 == v * 0 - v * 0)%Q) by ring.
    rewrite E. apply Qabs_zero_le. exact rounding_unit_nonneg. }
  assert (Hzero' : forall v : Q, (Qabs (0 - 0 * v) <= rounding_unit * Qabs (0 * v))%Q).
  { intros v. assert (E : (0 - 0 * v == 0 * v - 0 * v)%Q) by ring.
    rewrite E. apply Qabs_zero_le. exact rounding_unit_nonneg. }
  destruct x as [sx|sx| |sx mx ex]; try contradiction;
    destruct y as [sy|sy| |sy my ey]; try contradiction.
  - split; [exact I|]. cbn [SF64mul SFmul SF2Q]. apply Hzero.
  - split; [exact I|]. apply Hzero'.
  - split; [exact I|]. apply Hzero.
  - destruct Hx as [Hdx Hex]. destruct Hy as [Hdy Hey].
    unfold SF64mul, SFmul.
    pose proof (digits2_pos_bounds mx) as [Hlx Hux]. rewrite Hdx in Hlx, Hux.
    pose proof (digits2_pos_bounds my) as [Hly Huy]. rewrite Hdy in Hly, Huy.
    change (2 ^ (53 - 1)) with 4503599627370496 in Hlx, Hly.
    change (2 ^ 53) with 9007199254740992 in Hux, Huy.
    assert (Hdp : 105 <= Zpos (digits2_pos (mx * my)) <= 106).
    { pose proof (digits2_pos_bounds (mx * my)) as [Hl Hu].
      rewrite Pos2Z.inj_mul in Hl, Hu.
      split.
      - assert (104 < Zpos (digits2_pos (mx * my))).
        { apply (Z.pow_lt_mono_r_iff 2); [lia|lia|].
          eapply Z.le_lt_trans; [|exact Hu].
          change (2 ^ 104) with (4503599627370496 * 4503599627370496). nia. }
        lia.
      - assert (Zpos (digits2_pos (mx * my)) - 1 < 106).
        { apply (Z.pow_lt_mono_r_iff 2); [lia|lia|].
          eapply Z.le_lt_trans; [exact Hl|].
          change (2 ^ 106) with (9007199254740992 * 9007199254740992). nia. }
        lia. }
    destruct (binary_round_aux_error_Q (xorb sx sy) (mx * my) (ex + ey)
                (Zpos (digits2_pos (mx * my)) - 53) ltac:(lia) ltac:(lia)
                ltac:(lia)) as (m' & e' & Hre & Hd' & He' & Herr).
    rewrite Hre. split; [cbn; lia|].
    cbn [SF2Q].
    assert (Hprod : (inject_Z (cond_Zopp sx (Zpos mx)) * 2 ^ ex
                   * (inject_Z (cond_Zopp sy (Zpos my)) * 2 ^ ey)
                   == inject_Z (cond_Zopp (xorb sx sy) (Zpos (mx * my)))
                      * 2 ^ (ex + ey))%Q).
    { rewrite Qpow2_add.
      assert (Hs : cond_Zopp (xorb sx sy) (Zpos (mx * my))
                   = cond_Zopp sx (Zpos mx) * cond_Zopp sy (Zpos my))
        by (destruct sx, sy; cbn; reflexivity).
      rewrite Hs, inject_Z_mult. ring. }
    rewrite Hprod.
    pose proof (Qpow2_pos (ex + ey)) as HP.
    assert (HM : (0 <= inject_Z (Zpos (mx * my)))%Q) by (unfold Qle; cbn; lia).
    destruct (xorb sx sy); cbn [cond_Zopp].
    + change (Zneg m') with (- Zpos m').
      change (Zneg (mx * my)) with (- Zpos (mx * my)).
      rewrite !inject_Z_opp.
      assert (H1 : (- inject_Z (Zpos m') * 2 ^ e'
                    - - inject_Z (Zpos (mx * my)) * 2 ^ (ex + ey)
                    == - (inject_Z (Zpos m') * 2 ^ e'
                          - inject_Z (Zpos (mx * my)) * 2 ^ (ex + ey)))%Q) by ring.
      assert (H2 : (- inject_Z (Zpos (mx * my)) * 2 ^ (ex + ey)
                    == - (inject_Z (Zpos (mx * my)) * 2 ^ (ex + ey)))%Q) by ring.
      rewrite H1, H2, !Qabs_opp.
      rewrite (Qabs_pos (inject_Z (Zpos (mx * my)) * 2 ^ (ex + ey)));
        [exact Herr|].
      apply Qmult_le_0_compat; [exact HM|apply Qlt_le_weak, HP].
    + rewrite (Qabs_pos (inject_Z (Zpos (mx * my)) * 2 ^ (ex + ey)));
        [exact Herr|].
      apply Qmult_le_0_compat; [exact HM|apply Qlt_le_weak, HP].
Qed.

(** *** Rounding to binary64, for every finite result *)

Lemma fexp_eq (e : Z) : fexp prec emax e = Z.max (e - 53) (-1074).
Proof. reflexivity. Qed.

Lemma Zdigits2_nonneg (m : Z) : 0 <= Zdigits2 m.
Proof. destruct m; cbn; lia. Qed.

Lemma Zdigits2_upper (m : Z) : 0 <= m -> m < 2 ^ Zdigits2 m.
Proof.
  destruct m as [|p|p]; [cbn; lia| |lia]. intros _.
  cbn [Zdigits2]. apply digits2_pos_bounds.
Qed.

Lemma Zdigits2_lower (m : Z) : 0 < m -> 2 ^ (Zdigits2 m - 1) <= m.
Proof.
  destruct m as [|p|p]; [lia| |lia]. intros _.
  cbn [Zdigits2]. apply digits2_pos_bounds.
Qed.

Lemma Zdigits2_le (m k : Z) : 0 <= k -> 0 <= m < 2 ^ k -> Zdigits2 m <= k.
Proof.
  intros Hk [H0 Hm]. destruct m as [|p|p]; [cbn; lia| |lia].
  pose proof (Zdigits2_lower (Zpos p) ltac:(lia)) as Hl.
  assert (Zdigits2 (Zpos p) - 1 < k).
  { apply (Z.pow_lt_mono_r_iff 2); [lia|lia|]. lia. }
  lia.
Qed.

Lemma Zdigits2_ge (m k : Z) : 0 <= k -> 2 ^ k <= m -> k + 1 <= Zdigits2 m.
Proof.
  intros Hk Hm.
  assert (0 < 2 ^ k) by (apply Z.pow_pos_nonneg; lia).
  pose proof (Zdigits2_upper m ltac:(lia)) as Hu.
  pose proof (Zdigits2_nonneg m).
  assert (k < Zdigits2 m).
  { apply (Z.pow_lt_mono_r_iff 2); [lia|lia|]. lia. }
  lia.
Qed.

(** The first step of a rounding: the mantissa loses the digits below
    the exponent the result can have. *)
Lemma shr_fexp_spec (mx ex : Z) (lx : location) :
  0 <= mx ->
  let E := Z.max ex (fexp prec emax (Zdigits2 mx + ex)) in
  exists mrs : shr_record,
    shr_fexp prec emax mx ex lx = (mrs, E)
    /\ shr_m mrs = mx / 2 ^ (E - ex).
Proof.
  intros Hm E. unfold shr_fexp, shr. subst E.
  destruct (fexp prec emax (Zdigits2 mx + ex) - ex) as [|p|p] eqn:En.
  - exists (shr_record_of_loc mx lx).
    replace (Z.max ex (fexp prec emax (Zdigits2 mx + ex))) with ex by lia.
    rewrite Z.sub_diag, Z.pow_0_r, Z.div_1_r, shr_m_shr_record_of_loc.
    split; reflexivity.
  - exists (SpecFloat.iter_pos shr_1 p (shr_record_of_loc mx lx)).
    replace (Z.max ex (fexp prec emax (Zdigits2 mx + ex))) with (ex + Zpos p)
      by lia.
    split; [reflexivity|].
    rewrite shr_m_iter_pos by (rewrite shr_m_shr_record_of_loc; exact Hm).
    rewrite shr_m_shr_record_of_loc. f_equal. f_equal. lia.
  - exists (shr_record_of_loc mx lx).
    replace (Z.max ex (fexp prec emax (Zdigits2 mx + ex))) with ex by lia.
    rewrite Z.sub_diag, Z.pow_0_r, Z.div_1_r, shr_m_shr_record_of_loc.
    split; reflexivity.
Qed.

Lemma round_nearest_even_near (m : Z) (l : location) :
  m <= round_nearest_even m l <= m + 1.
Proof.
  unfold round_nearest_even. destruct l as [|[| |]]; try lia.
  destruct (IntDef.Z.even m); lia.
Qed.

(** Rounding the mantissa [mx] at exponent [ex]: the result is a zero or
    a finite number [k * 2^e], two units of [2^E] away from the shifted
    mantissa at most, where [E] is the exponent the result can have. *)
Lemma binary_round_aux_near (sx : bool) (mx ex : Z) (lx : location) :
  0 <= mx ->
  let E := Z.max ex (fexp prec emax (Zdigits2 mx + ex)) in
  E <= 970 ->
  exists k e : Z,
    (k = 0 /\ binary_round_aux prec emax sx mx ex lx = S754_zero sx
     \/ exists m : positive,
          k = Zpos m
          /\ binary_round_aux prec emax sx mx ex lx = S754_finite sx m e)
    /\ E <= e <= E + 1
    /\ mx / 2 ^ (E - ex) - 1 <= k * 2 ^ (e - E) <= mx / 2 ^ (E - ex) + 1.
Proof.
  intros Hm E HE.
  destruct (shr_fexp_spec mx ex lx Hm) as (mrs1 & Hs1 & Hm1). fold E in Hs1, Hm1.
  unfold binary_round_aux. rewrite Hs1.
  set (m1 := mx / 2 ^ (E - ex)) in *.
  assert (HEex : 0 <= E - ex) by lia.
  assert (Hp1 : 0 < 2 ^ (E - ex)) by (apply Z.pow_pos_nonneg; lia).
  assert (Hm1' : 0 <= m1) by (apply Z.div_pos; lia).
  pose proof (round_nearest_even_near (shr_m mrs1) (loc_of_shr_record mrs1)) as Hr.
  set (m2 := round_nearest_even (shr_m mrs1) (loc_of_shr_record mrs1)) in *.
  rewrite Hm1 in Hr.
  assert (Hm2 : 0 <= m2) by lia.
  (* the exponent of the second step *)
  assert (Hd1 : Zdigits2 m1 + E <= Z.max (Zdigits2 mx + ex) E).
  { pose proof (Zdigits2_nonneg mx) as Hdn.
    pose proof (Zdigits2_upper mx Hm) as Hdu.
    destruct (Z_le_gt_dec (E - ex) (Zdigits2 mx)) as [Hle|Hgt].
    - assert (Zdigits2 m1 <= Zdigits2 mx - (E - ex)).
      { apply Zdigits2_le; [lia|]. split; [exact Hm1'|].
        apply Z.div_lt_upper_bound; [exact Hp1|].
        rewrite <- Z.pow_add_r by lia.
        replace (E - ex + (Zdigits2 mx - (E - ex))) with (Zdigits2 mx) by lia.
        exact Hdu. }
      lia.
    - assert (m1 = 0).
      { apply Z.div_small. split; [exact Hm|].
        eapply Z.lt_le_trans; [exact Hdu|]. apply Z.pow_le_mono_r; lia. }
      rewrite H. cbn [Zdigits2]. lia. }
  assert (Hd2 : Zdigits2 m2 <= Zdigits2 m1 + 1).
  { pose proof (Zdigits2_nonneg m1) as Hdn.
    pose proof (Zdigits2_upper m1 Hm1') as Hdu.
    apply Zdigits2_le; [lia|]. split; [exact Hm2|].
    rewrite Z.pow_add_r by lia. change (2 ^ 1) with 2.
    assert (0 < 2 ^ Zdigits2 m1) by (apply Z.pow_pos_nonneg; lia). lia. }
  assert (Hf2 : fexp prec emax (Zdigits2 m2 + E) <= E + 1).
  { pose proof (fexp_eq (Zdigits2 mx + ex)) as F0. fold E in F0.
    rewrite fexp_eq. subst E.
    rewrite fexp_eq in *. lia. }
  destruct (shr_fexp_spec m2 E loc_Exact Hm2) as (mrs2 & Hs2 & Hm2').
  rewrite Hs2.
  set (E2 := Z.max E (fexp prec emax (Zdigits2 m2 + E))) in *.
  assert (HE2 : E <= E2 <= E + 1) by lia.
  set (k := m2 / 2 ^ (E2 - E)) in *.
  assert (Hk : m2 - 1 <= k * 2 ^ (E2 - E) <= m2).
  { destruct (Z.eq_dec E2 E) as [Heq|Hne].
    - subst k. rewrite Heq, Z.sub_diag, Z.pow_0_r, Z.div_1_r. lia.
    - assert (Heq : E2 - E = 1) by lia. subst k. rewrite Heq.
      change (2 ^ 1) with 2.
      pose proof (Z.div_mod m2 2 ltac:(lia)).
      pose proof (Z.mod_pos_bound m2 2 ltac:(lia)). lia. }
  exists k, E2. split; [|split; [exact HE2|lia]].
  rewrite Hm2'. fold k.
  assert (Hk0 : 0 <= k) by (apply Z.div_pos; [lia|apply Z.pow_pos_nonneg; lia]).
  destruct k as [|p|p]; [left; split; reflexivity| |lia].
  right. exists p. split; [reflexivity|].
  destruct (E2 <=? emax - prec) eqn:El; [reflexivity|].
  apply Z.leb_gt in El. unfold emax, prec in El. lia.
Qed.
Lemma Qpow2_le (a b : Z) : a <= b -> (2 ^ a <= 2 ^ b)%Q.
Proof.
  intros H. replace b with (a + (b - a)) by lia.
  rewrite Qpow2_add, (Qpow2_Z (b - a)) by lia.
  pose proof (Qpow2_pos a) as Ha.
  assert (H1 : 1 <= 2 ^ (b - a)) by (apply (Z.pow_le_mono_r 2 0); lia).
  assert (H2 : (1 <= inject_Z (2 ^ (b - a)))%Q).
  { change 1%Q with (inject_Z 1). rewrite <- Zle_Qle. exact H1. }
  revert Ha H2. generalize (2 ^ a)%Q (inject_Z (2 ^ (b - a))). intros x y Hx Hy.
  nra.
Qed.

Lemma Qpow2_lt (a b : Z) : a < b -> (2 ^ a < 2 ^ b)%Q.
Proof.
  intros H. replace b with (a + (b - a)) by lia.
  rewrite Qpow2_add, (Qpow2_Z (b - a)) by lia.
  pose proof (Qpow2_pos a) as Ha.
  assert (H1 : 2 <= 2 ^ (b - a)) by (apply (Z.pow_le_mono_r 2 1); lia).
  assert (H2 : (2 <= inject_Z (2 ^ (b - a)))%Q).
  { change 2%Q with (inject_Z 2). rewrite <- Zle_Qle. exact H1. }
  revert Ha H2. generalize (2 ^ a)%Q (inject_Z (2 ^ (b - a))). intros x y Hx Hy.
  nra.
Qed.

Lemma Qpow2_le_inv (a b : Z) : (2 ^ a <= 2 ^ b)%Q -> a <= b.
Proof.
  intros H. destruct (Z_le_gt_dec a b) as [Hle|Hgt]; [exact Hle|].
  pose proof (Qpow2_lt b a ltac:(lia)) as Hlt.
  exfalso. apply (Qlt_not_le _ _ Hlt H).
Qed.

Lemma Qpow2_lt_inv (a b : Z) : (2 ^ a < 2 ^ b)%Q -> a < b.
Proof.
  intros H. destruct (Z_lt_ge_dec a b) as [Hlt|Hge]; [exact Hlt|].
  pose proof (Qpow2_le b a ltac:(lia)) as Hle.
  exfalso. apply (Qlt_not_le _ _ H Hle).
Qed.

(** The magnitude of a mantissa of [d] digits at exponent [e]. *)
Lemma mantissa_magnitude (m : Z) (e : Z) :
  0 < m ->
  (2 ^ (Zdigits2 m - 1 + e) <= inject_Z m * 2 ^ e
   /\ inject_Z m * 2 ^ e < 2 ^ (Zdigits2 m + e))%Q.
Proof.
  intros Hm. pose proof (Zdigits2_lower m Hm) as Hl.
  pose proof (Zdigits2_upper m ltac:(lia)) as Hu.
  pose proof (Zdigits2_nonneg m) as Hn.
  assert (Hd : 1 <= Zdigits2 m).
  { destruct (Z_le_gt_dec 1 (Zdigits2 m)); [assumption|].
    replace (Zdigits2 m) with 0 in Hu by lia. simpl in Hu. lia. }
  rewrite !Qpow2_add.
  rewrite (Qpow2_Z (Zdigits2 m - 1)), (Qpow2_Z (Zdigits2 m)) by lia.
  pose proof (Qpow2_pos e) as He.
  rewrite Zle_Qle in Hl. rewrite Zlt_Qlt in Hu.
  revert He Hl Hu.
  generalize (2 ^ e)%Q (inject_Z (2 ^ (Zdigits2 m - 1))) (inject_Z m)
    (inject_Z (2 ^ Zdigits2 m)).
  intros P a b c HP Hab Hbc. split; nra.
Qed.

(** The value of the rounded number against any number between the
    mantissa and the next one. *)
Lemma binary_round_aux_near_Q (sx : bool) (mx ex : Z) (lx : location) (T : Q) :
  0 <= mx ->
  let E := Z.max ex (fexp prec emax (Zdigits2 mx + ex)) in
  E <= 970 ->
  (inject_Z mx * 2 ^ ex <= T)%Q -> (T <= (inject_Z mx + 1) * 2 ^ ex)%Q ->
  let z := binary_round_aux prec emax sx mx ex lx in
  SFfin z
  /\ (Qabs (SF2Q z - (if sx then - T else T)) <= 2 * 2 ^ E)%Q.
Proof.
  intros Hm E HE HT1 HT2 z.
  destruct (binary_round_aux_near sx mx ex lx Hm HE) as (k & e & Hz & He & Hk).
  fold E in He, Hk. fold z in Hz.
  assert (Hv : (SF2Q z == inject_Z (cond_Zopp sx k) * 2 ^ e)%Q /\ SFfin z).
  { destruct Hz as [[-> ->]|(m & -> & ->)].
    - split; [|exact I]. cbn [SF2Q].
      assert (cond_Zopp sx 0 = 0) by (destruct sx; reflexivity).
      rewrite H. unfold inject_Z. ring.
    - split; [reflexivity|exact I]. }
  destruct Hv as [Hv Hfin]. split; [exact Hfin|]. rewrite Hv.
  set (m1 := mx / 2 ^ (E - ex)) in *.
  assert (HEex : 0 <= E - ex) by lia.
  assert (Hp1 : 0 < 2 ^ (E - ex)) by (apply Z.pow_pos_nonneg; lia).
  pose proof (Z.div_mod mx (2 ^ (E - ex)) ltac:(lia)) as Hdm.
  pose proof (Z.mod_pos_bound mx (2 ^ (E - ex)) Hp1) as Hmod.
  fold m1 in Hdm.
  assert (Hlow : m1 * 2 ^ (E - ex) <= mx) by lia.
  assert (Hup : mx + 1 <= (m1 + 1) * 2 ^ (E - ex)) by lia.
  (* everything in units of [2^E] *)
  assert (HK : (inject_Z (cond_Zopp sx k) * 2 ^ e
                == inject_Z (cond_Zopp sx (k * 2 ^ (e - E))) * 2 ^ E)%Q).
  { replace e with (E + (e - E)) at 1 by lia.
    rewrite Qpow2_shift by lia.
    destruct sx; cbn [cond_Zopp]; [rewrite Z.mul_opp_l|]; reflexivity. }
  rewrite HK.
  assert (HT1' : (inject_Z m1 * 2 ^ E <= T)%Q).
  { eapply Qle_trans; [|exact HT1].
    replace E with (ex + (E - ex)) at 1 by lia.
    rewrite Qpow2_shift by lia.
    apply Qmult_le_compat_r; [|apply Qlt_le_weak, Qpow2_pos].
    rewrite <- Zle_Qle. lia. }
  assert (HT2' : (T <= (inject_Z m1 + 1) * 2 ^ E)%Q).
  { eapply Qle_trans; [exact HT2|].
    assert (Hi : ((inject_Z m1 + 1) * 2 ^ E
                  == inject_Z ((m1 + 1) * 2 ^ (E - ex)) * 2 ^ ex)%Q).
    { replace E with (ex + (E - ex)) at 1 by lia.
      rewrite <- (Qpow2_shift (m1 + 1) ex (E - ex)) by lia.
      rewrite inject_Z_plus. reflexivity. }
    rewrite Hi.
    apply Qmult_le_compat_r; [|apply Qlt_le_weak, Qpow2_pos].
    change 1%Q with (inject_Z 1). rewrite <- inject_Z_plus, <- Zle_Qle. lia. }
  set (K := k * 2 ^ (e - E)) in *.
  assert (HK1 : (inject_Z m1 <= inject_Z K + 1)%Q).
  { change 1%Q with (inject_Z 1). rewrite <- inject_Z_plus, <- Zle_Qle. lia. }
  assert (HK2 : (inject_Z K <= inject_Z m1 + 1)%Q).
  { change 1%Q with (inject_Z 1). rewrite <- inject_Z_plus, <- Zle_Qle. lia. }
  pose proof (Qpow2_pos E) as HPE.
  rewrite inject_cond_Zopp.
  revert HPE HT1' HT2' HK1 HK2.
  generalize (2 ^ E)%Q (inject_Z m1) (inject_Z K). intros P a b HP H1 H2 H3 H4.
  apply Qabs_Qle_condition. destruct sx; split; nra.
Qed.
Lemma operation_error_pow : (2 * 2 ^ (-48) == operation_error)%Q.
Proof. reflexivity. Qed.

Lemma near_from_exponent (E : Z) (v w : Q) :
  E <= -48 -> (Qabs (v - w) <= 2 * 2 ^ E)%Q ->
  (Qabs (v - w) <= operation_error)%Q.
Proof.
  intros HE H. eapply Qle_trans; [exact H|].
  rewrite <- operation_error_pow.
  pose proof (Qpow2_le E (-48) HE). lra.
Qed.

(** A valid finite number: its exponent is the one its magnitude calls
    for. *)
Lemma valid_finite (s : bool) (m : positive) (e : Z) :
  valid_binary (S754_finite s m e) = true ->
  e = Z.max (Zpos (digits2_pos m) + e - 53) (-1074) /\ e <= 971.
Proof. intros H. apply bounded_canonical. exact H. Qed.

Lemma digits2_pos_mul_lower (a b : positive) :
  Zpos (digits2_pos a) + Zpos (digits2_pos b) - 1
  <= Zpos (digits2_pos (a * b)).
Proof.
  pose proof (digits2_pos_bounds a) as [Ha _].
  pose proof (digits2_pos_bounds b) as [Hb _].
  set (da := Zpos (digits2_pos a)) in *. set (db := Zpos (digits2_pos b)) in *.
  assert (Hda : 1 <= da) by (subst da; lia).
  assert (Hdb : 1 <= db) by (subst db; lia).
  pose proof (Zdigits2_ge (Zpos (a * b)) (da + db - 2) ltac:(lia)) as H.
  cbn [Zdigits2] in H.
  assert (2 ^ (da + db - 2) <= Zpos (a * b)).
  { replace (da + db - 2) with ((da - 1) + (db - 1)) by lia.
    rewrite Z.pow_add_r by lia. rewrite Pos2Z.inj_mul.
    assert (0 < 2 ^ (da - 1)) by (apply Z.pow_pos_nonneg; lia).
    assert (0 < 2 ^ (db - 1)) by (apply Z.pow_pos_nonneg; lia). nia. }
  specialize (H H0). lia.
Qed.

Lemma Qabs_cond_opp (s : bool) (x : Q) :
  (Qabs (if s then - x else x) == Qabs x)%Q.
Proof. destruct s; [apply Qabs_opp|reflexivity]. Qed.

Lemma SF2Q_abs (s : bool) (m : positive) (e : Z) :
  (Qabs (SF2Q (S754_finite s m e)) == inject_Z (Zpos m) * 2 ^ e)%Q.
Proof.
  cbn [SF2Q]. rewrite inject_cond_Zopp.
  assert (H : ((if s then - inject_Z (Zpos m) else inject_Z (Zpos m)) * 2 ^ e
               == (if s then - (inject_Z (Zpos m) * 2 ^ e)
                   else inject_Z (Zpos m) * 2 ^ e))%Q)
    by (destruct s; ring).
  rewrite H, Qabs_cond_opp. apply Qabs_pos.
  apply Qmult_le_0_compat; [|apply Qlt_le_weak, Qpow2_pos].
  change 0%Q with (inject_Z 0). rewrite <- Zle_Qle. lia.
Qed.

(** From a bound of 16 on the value to the exponent of the result. *)
Lemma small_magnitude (m : positive) (e : Z) :
  (inject_Z (Zpos m) * 2 ^ e <= 16)%Q -> Zpos (digits2_pos m) + e <= 5.
Proof.
  intros H. pose proof (mantissa_magnitude (Zpos m) e ltac:(lia)) as [Hl _].
  cbn [Zdigits2] in Hl.
  assert (H4 : (2 ^ (Zpos (digits2_pos m) - 1 + e) <= 2 ^ 4)%Q).
  { eapply Qle_trans; [exact Hl|]. eapply Qle_trans; [exact H|].
    apply Qle_bool_imp_le. reflexivity. }
  apply Qpow2_le_inv in H4. lia.
Qed.

(** The product of two finite numbers, 16 at most in magnitude. *)
Lemma SFmul_near (x y : spec_float) :
  SFfin x -> SFfin y ->
  valid_binary x = true -> valid_binary y = true ->
  (Qabs (SF2Q x * SF2Q y) <= 16)%Q ->
  SFfin (SF64mul x y)
  /\ (Qabs (SF2Q (SF64mul x y) - SF2Q x * SF2Q y) <= operation_error)%Q.
Proof.
  intros Fx Fy Vx Vy Hb.
  assert (Hzero : forall v : Q, (Qabs (0 - v * 0) <= operation_error)%Q).
  { intros v. assert (E : (0 - v * 0 == 0)%Q) by ring. rewrite E.
    apply Qle_bool_imp_le. reflexivity. }
  assert (Hzero' : forall v : Q, (Qabs (0 - 0 * v) <= operation_error)%Q).
  { intros v. assert (E : (0 - 0 * v == 0)%Q) by ring. rewrite E.
    apply Qle_bool_imp_le. reflexivity. }
  destruct x as [sx|sx| |sx mx ex]; try contradiction;
    destruct y as [sy|sy| |sy my ey]; try contradiction.
  - split; [exact I|]. apply Hzero.
  - split; [exact I|]. apply Hzero'.
  - split; [exact I|]. apply Hzero.
  - apply valid_finite in Vx as [Vx _]. apply valid_finite in Vy as [Vy _].
    pose proof (digits2_pos_mul_lower mx my) as HD.
    assert (Hprod : (SF2Q (S754_finite sx mx ex) * SF2Q (S754_finite sy my ey)
                     == (if xorb sx sy
                         then - (inject_Z (Zpos (mx * my)) * 2 ^ (ex + ey))
                         else inject_Z (Zpos (mx * my)) * 2 ^ (ex + ey)))%Q).
    { cbn [SF2Q].
      destruct sx, sy; cbn [xorb cond_Zopp];
        rewrite Qpow2_add, Pos2Z.inj_mul, inject_Z_mult;
        change (Zneg mx) with (- Zpos mx); change (Zneg my) with (- Zpos my);
        rewrite ?inject_Z_opp; ring. }
    rewrite Hprod in Hb |- *. rewrite Qabs_cond_opp in Hb.
    rewrite Qabs_pos in Hb.
    2:{ apply Qmult_le_0_compat; [|apply Qlt_le_weak, Qpow2_pos].
        change 0%Q with (inject_Z 0). rewrite <- Zle_Qle. lia. }
    pose proof (small_magnitude (mx * my) (ex + ey) Hb) as Hmag.
    unfold SF64mul, SFmul.
    pose proof (fexp_eq (Zdigits2 (Zpos (mx * my)) + (ex + ey))) as Hf.
    cbn [Zdigits2] in Hf.
    assert (HE : Z.max (ex + ey)
                   (fexp prec emax (Zdigits2 (Zpos (mx * my)) + (ex + ey)))
                 <= -48).
    { cbn [Zdigits2]. rewrite Hf.
      pose proof (Pos2Z.is_pos (digits2_pos mx)).
      pose proof (Pos2Z.is_pos (digits2_pos my)). lia. }
    destruct (binary_round_aux_near_Q (xorb sx sy) (Zpos (mx * my)) (ex + ey)
                loc_Exact (inject_Z (Zpos (mx * my)) * 2 ^ (ex + ey))
                ltac:(lia) ltac:(lia)) as [Hfin Herr].
    + apply Qle_refl.
    + apply Qmult_le_compat_r; [|apply Qlt_le_weak, Qpow2_pos]. lra.
    + split; [exact Hfin|]. exact (near_from_exponent _ _ _ HE Herr).
Qed.
Lemma binary_round_near (s : bool) (M : positive) (e : Z) :
  (inject_Z (Zpos M) * 2 ^ e <= 16)%Q ->
  SFfin (binary_round prec emax s M e)
  /\ (Qabs (SF2Q (binary_round prec emax s M e)
            - (if s then - (inject_Z (Zpos M) * 2 ^ e)
               else inject_Z (Zpos M) * 2 ^ e))
      <= operation_error)%Q.
Proof.
  intros Hb. pose proof (small_magnitude M e Hb) as Hmag.
  unfold binary_round.
  set (f := fexp prec emax (Zpos (digits2_pos M) + e)).
  pose proof (shl_align_magnitude M e f) as Hd.
  assert (Hv : (inject_Z (Zpos (fst (shl_align M e f))) * 2 ^ snd (shl_align M e f)
                == inject_Z (Zpos M) * 2 ^ e)%Q
               /\ snd (shl_align M e f) <= f).
  { destruct (Z_le_gt_dec f e) as [Hle|Hgt].
    - rewrite (shl_align_exponent M e f Hle), (shl_align_value M e f Hle).
      split; [|lia].
      replace e with (f + (e - f)) at 2 by lia.
      rewrite (Qpow2_shift (Zpos M) f (e - f)) by lia. reflexivity.
    - unfold shl_align. destruct (f - e) as [|p|p] eqn:Ef; try lia.
      cbn [fst snd]. split; [reflexivity|lia]. }
  destruct Hv as [Hv Hez].
  destruct (shl_align M e f) as [mz ez]. cbn [fst snd] in *.
  assert (Hf : fexp prec emax (Zdigits2 (Zpos mz) + ez) = f).
  { cbn [Zdigits2]. rewrite Hd. reflexivity. }
  assert (HE : Z.max ez (fexp prec emax (Zdigits2 (Zpos mz) + ez)) <= -48).
  { rewrite Hf. subst f. rewrite fexp_eq in *. lia. }
  destruct (binary_round_aux_near_Q s (Zpos mz) ez loc_Exact
              (inject_Z (Zpos mz) * 2 ^ ez) ltac:(lia) ltac:(lia)) as [Hfin Herr].
  - apply Qle_refl.
  - apply Qmult_le_compat_r; [|apply Qlt_le_weak, Qpow2_pos]. lra.
  - split; [exact Hfin|].
    pose proof (near_from_exponent _ _ _ HE Herr) as H.
    destruct s.
    + assert (Hs : (- (inject_Z (Zpos M) * 2 ^ e)
                    == - (inject_Z (Zpos mz) * 2 ^ ez))%Q) by (rewrite Hv; reflexivity).
      rewrite Hs. exact H.
    + rewrite <- Hv. exact H.
Qed.

(** The sum or difference [D] of two aligned mantissas at exponent [ez],
    as [SFadd] and [SFsub] round it, when it is 16 at most. *)
Lemma binary_normalize_near (D ez : Z) :
  (Qabs (inject_Z D * 2 ^ ez) <= 16)%Q ->
  SFfin (binary_normalize prec emax D ez false)
  /\ (Qabs (SF2Q (binary_normalize prec emax D ez false) - inject_Z D * 2 ^ ez)
      <= operation_error)%Q.
Proof.
  intros Hb. pose proof (Qpow2_pos ez) as HP.
  destruct D as [|M|M]; cbn [binary_normalize].
  - split; [exact I|]. cbn [SF2Q].
    assert (Hz : (0 - inject_Z 0 * 2 ^ ez == 0)%Q) by (unfold inject_Z; ring).
    rewrite Hz. apply Qle_bool_imp_le. reflexivity.
  - rewrite Qabs_pos in Hb.
    2:{ apply Qmult_le_0_compat; [|lra].
        change 0%Q with (inject_Z 0). rewrite <- Zle_Qle. lia. }
    exact (binary_round_near false M ez Hb).
  - assert (Hn : (inject_Z (Zneg M) * 2 ^ ez
                  == - (inject_Z (Zpos M) * 2 ^ ez))%Q).
    { change (Zneg M) with (- Zpos M). rewrite inject_Z_opp. ring. }
    rewrite Hn in Hb |- *. rewrite Qabs_opp, Qabs_pos in Hb.
    2:{ apply Qmult_le_0_compat; [|lra].
        change 0%Q with (inject_Z 0). rewrite <- Zle_Qle. lia. }
    exact (binary_round_near true M ez Hb).
Qed.

Lemma near_exact (v : Q) : (Qabs (v - v) <= operation_error)%Q.
Proof.
  assert (Hz : (v - v == 0)%Q) by ring. rewrite Hz.
  apply Qle_bool_imp_le. reflexivity.
Qed.

Lemma near_proper (v w w' : Q) :
  (w == w')%Q -> (Qabs (v - w) <= operation_error)%Q ->
  (Qabs (v - w') <= operation_error)%Q.
Proof. intros H. rewrite H. tauto. Qed.

(** The sum of two finite numbers, 16 at most in magnitude. *)
Lemma SFadd_near (x y : spec_float) :
  SFfin x -> SFfin y -> (Qabs (SF2Q x + SF2Q y) <= 16)%Q ->
  SFfin (SF64add x y)
  /\ (Qabs (SF2Q (SF64add x y) - (SF2Q x + SF2Q y)) <= operation_error)%Q.
Proof.
  intros Fx Fy Hb.
  destruct x as [sx|sx| |sx mx ex]; try contradiction;
    destruct y as [sy|sy| |sy my ey]; try contradiction.
  - split; [destruct sx, sy; exact I|].
    assert (E : SF2Q (SF64add (S754_zero sx) (S754_zero sy)) = 0%Q)
      by (destruct sx, sy; reflexivity).
    rewrite E. cbn [SF2Q]. apply (near_proper 0 0); [ring|apply near_exact].
  - split; [exact I|].
    change (SF64add (S754_zero sx) (S754_finite sy my ey))
      with (S754_finite sy my ey).
    eapply near_proper; [|apply near_exact]. cbn [SF2Q]. ring.
  - split; [exact I|].
    change (SF64add (S754_finite sx mx ex) (S754_zero sy))
      with (S754_finite sx mx ex).
    eapply near_proper; [|apply near_exact]. cbn [SF2Q]. ring.
  - unfold SF64add, SFadd.
    change (IntDef.Z.min ex ey) with (Z.min ex ey).
    set (ez := Z.min ex ey).
    assert (Hex : (SF2Q (S754_finite sx mx ex) + SF2Q (S754_finite sy my ey)
                   == inject_Z (cond_Zopp sx (Zpos (fst (shl_align mx ex ez)))
                                + cond_Zopp sy (Zpos (fst (shl_align my ey ez))))
                      * 2 ^ ez)%Q).
    { cbn [SF2Q].
      rewrite (aligned_value sx mx ex ez), (aligned_value sy my ey ez)
        by (subst ez; lia).
      rewrite inject_Z_plus. ring. }
    rewrite Hex in Hb |- *.
    exact (binary_normalize_near _ ez Hb).
Qed.

(** The difference of two finite numbers, 16 at most in magnitude. *)
Lemma SFsub_near (x y : spec_float) :
  SFfin x -> SFfin y -> (Qabs (SF2Q x - SF2Q y) <= 16)%Q ->
  SFfin (SF64sub x y)
  /\ (Qabs (SF2Q (SF64sub x y) - (SF2Q x - SF2Q y)) <= operation_error)%Q.
Proof.
  intros Fx Fy Hb.
  destruct x as [sx|sx| |sx mx ex]; try contradiction;
    destruct y as [sy|sy| |sy my ey]; try contradiction.
  - split; [destruct sx, sy; exact I|].
    assert (E : SF2Q (SF64sub (S754_zero sx) (S754_zero sy)) = 0%Q)
      by (destruct sx, sy; reflexivity).
    rewrite E. cbn [SF2Q]. apply (near_proper 0 0); [ring|apply near_exact].
  - split; [exact I|].
    change (SF64sub (S754_zero sx) (S754_finite sy my ey))
      with (S754_finite (negb sy) my ey).
    eapply near_proper; [|apply near_exact]. cbn [SF2Q].
    destruct sy; cbn [negb cond_Zopp]; change (Zneg my) with (- Zpos my);
      rewrite ?inject_Z_opp; ring.
  - split; [exact I|].
    change (SF64sub (S754_finite sx mx ex) (S754_zero sy))
      with (S754_finite sx mx ex).
    eapply near_proper; [|apply near_exact]. cbn [SF2Q]. ring.
  - unfold SF64sub, SFsub.
    change (IntDef.Z.min ex ey) with (Z.min ex ey).
    set (ez := Z.min ex ey).
    assert (Hex : (SF2Q (S754_finite sx mx ex) - SF2Q (S754_finite sy my ey)
                   == inject_Z (cond_Zopp sx (Zpos (fst (shl_align mx ex ez)))
                                - cond_Zopp sy (Zpos (fst (shl_align my ey ez))))
                      * 2 ^ ez)%Q).
    { cbn [SF2Q].
      rewrite (aligned_value sx mx ex ez), (aligned_value sy my ey ez)
        by (subst ez; lia).
      unfold Z.sub. rewrite inject_Z_plus, inject_Z_opp. ring. }
    rewrite Hex in Hb |- *.
    exact (binary_normalize_near _ ez Hb).
Qed.
(** The quotient of two mantissas as [SFdiv] prepares it for rounding:
    the integer part [q] of the quotient at exponent [e]. *)
Lemma SFdiv_core_spec (mx my : positive) (ex ey : Z) :
  let X := Zpos (digits2_pos mx) + ex - (Zpos (digits2_pos my) + ey) in
  exists (q e : Z) (l : location),
    SFdiv_core_binary prec emax (Zpos mx) ex (Zpos my) ey = (q, e, l)
    /\ 0 <= q
    /\ e <= ex - ey /\ e <= fexp prec emax X
    /\ q * Zpos my <= Zpos mx * 2 ^ (ex - ey - e) < (q + 1) * Zpos my
    /\ Zdigits2 q + e <= Z.max (X + 1) e.
Proof.
  intros X. unfold SFdiv_core_binary. cbn [Zdigits2]. fold X.
  change (IntDef.Z.min (fexp prec emax X) (ex - ey))
    with (Z.min (fexp prec emax X) (ex - ey)).
  set (e := Z.min (fexp prec emax X) (ex - ey)).
  set (s := ex - ey - e).
  assert (Hs : 0 <= s) by (subst s e; lia).
  set (m' := match s with
             | 0 => Zpos mx
             | Zpos _ => Z.shiftl (Zpos mx) s
             | Zneg _ => 0
             end).
  assert (Hm' : m' = Zpos mx * 2 ^ s).
  { subst m'. destruct s as [|p|p] eqn:Es; [simpl; lia| |lia].
    rewrite Z.shiftl_mul_pow2 by lia. reflexivity. }
  assert (Hps : 0 < 2 ^ s) by (apply Z.pow_pos_nonneg; lia).
  pose proof (Z_div_mod m' (Zpos my) ltac:(lia)) as Hdm.
  destruct (Z.div_eucl m' (Zpos my)) as [q r]. destruct Hdm as [Hdm Hr].
  exists q, e, (new_location (Zpos my) r).
  split; [reflexivity|].
  assert (Hq : 0 <= q) by nia.
  split; [exact Hq|]. split; [subst e; lia|]. split; [subst e; lia|].
  fold s. rewrite <- Hm'. split; [nia|].
  (* the digits of the quotient *)
  pose proof (digits2_pos_bounds mx) as [_ Hux].
  pose proof (digits2_pos_bounds my) as [Hly _].
  set (dx := Zpos (digits2_pos mx)) in *. set (dy := Zpos (digits2_pos my)) in *.
  assert (Hdy : 1 <= dy) by (subst dy; lia).
  assert (Hdx : 1 <= dx) by (subst dx; lia).
  destruct (Z_le_gt_dec 0 (dx + s - dy + 1)) as [Hk|Hk].
  - assert (Zdigits2 q <= dx + s - dy + 1).
    { apply Zdigits2_le; [exact Hk|]. split; [exact Hq|].
      assert (Hy : 0 < 2 ^ (dy - 1)) by (apply Z.pow_pos_nonneg; lia).
      assert (Hqm : q * 2 ^ (dy - 1) < 2 ^ (dx + s)).
      { rewrite Z.pow_add_r by lia. nia. }
      replace (dx + s) with ((dx + s - dy + 1) + (dy - 1)) in Hqm by lia.
      rewrite Z.pow_add_r in Hqm by lia. nia. }
    subst X s. lia.
  - assert (q = 0).
    { assert (m' < Zpos my).
      { rewrite Hm'. eapply Z.lt_le_trans; [|exact Hly].
        replace (dy - 1) with (dx + s + (dy - 1 - dx - s)) by lia.
        rewrite Z.pow_add_r, Z.pow_add_r by lia.
        assert (1 <= 2 ^ (dy - 1 - dx - s))
          by (apply (Z.pow_le_mono_r 2 0); lia).
        assert (0 < 2 ^ dx) by (apply Z.pow_pos_nonneg; lia).
        assert (HA : Zpos mx * 2 ^ s < 2 ^ dx * 2 ^ s) by nia.
        assert (HP : 0 < 2 ^ dx * 2 ^ s) by nia.
        revert HA HP H. generalize (2 ^ dx * 2 ^ s) (Zpos mx * 2 ^ s)
          (2 ^ (dy - 1 - dx - s)). intros P a K HA HP HK. nia. }
      nia. }
    subst q. cbn [Zdigits2]. lia.
Qed.

(** The quotient [W] of two finite numbers, 16 at most in magnitude. *)
Lemma SFdiv_near (x : spec_float) (sy : bool) (my : positive) (ey : Z) (W : Q) :
  SFfin x ->
  (W * SF2Q (S754_finite sy my ey) == SF2Q x)%Q -> (Qabs W <= 16)%Q ->
  SFfin (SF64div x (S754_finite sy my ey))
  /\ (Qabs (SF2Q (SF64div x (S754_finite sy my ey)) - W) <= operation_error)%Q.
Proof.
  intros Fx HW Hb.
  pose proof (Qpow2_pos ey) as HPy.
  assert (Hb0 : (0 < inject_Z (Zpos my) * 2 ^ ey)%Q).
  { apply Qmult_lt_0_compat; [|exact HPy].
    change 0%Q with (inject_Z 0). rewrite <- Zlt_Qlt. lia. }
  destruct x as [sx|sx| |sx mx ex]; try contradiction.
  - split; [exact I|].
    change (SF64div (S754_zero sx) (S754_finite sy my ey))
      with (S754_zero (xorb sx sy)).
    cbn [SF2Q] in HW |- *.
    assert (HW0 : (W == 0)%Q).
    { revert Hb0 HW.
      destruct sy; cbn [cond_Zopp]; change (Zneg my) with (- Zpos my);
        rewrite ?inject_Z_opp;
        generalize (2 ^ ey)%Q (inject_Z (Zpos my)); intros P b Hb0 HW; nra. }
    rewrite HW0. apply near_exact.
  - pose proof (Qpow2_pos ex) as HPx.
    assert (Ha0 : (0 < inject_Z (Zpos mx) * 2 ^ ex)%Q).
    { apply Qmult_lt_0_compat; [|exact HPx].
      change 0%Q with (inject_Z 0). rewrite <- Zlt_Qlt. lia. }
    set (T := (if xorb sx sy then - W else W)%Q).
    assert (HT : (T * (inject_Z (Zpos my) * 2 ^ ey)
                  == inject_Z (Zpos mx) * 2 ^ ex)%Q).
    { cbn [SF2Q] in HW. subst T. revert HW.
      destruct sx, sy; cbn [xorb cond_Zopp];
        change (Zneg mx) with (- Zpos mx); change (Zneg my) with (- Zpos my);
        rewrite ?inject_Z_opp;
        generalize (inject_Z (Zpos my)) (2 ^ ey)%Q (inject_Z (Zpos mx))
          (2 ^ ex)%Q; intros b Py a Px HW; nra. }
    assert (HTW : ((if xorb sx sy then - T else T) == W)%Q)
      by (subst T; destruct (xorb sx sy); ring).
    assert (HTb : (Qabs W == T)%Q).
    { assert (HT0 : (0 <= T)%Q).
      { destruct (Qlt_le_dec T 0) as [Hn|Hp]; [|exact Hp]. exfalso.
        revert HT Hb0 Ha0 Hn.
        generalize (inject_Z (Zpos my) * 2 ^ ey)%Q
          (inject_Z (Zpos mx) * 2 ^ ex)%Q. intros b a HT Hb0 Ha0 Hn. nra. }
      rewrite <- HTW. rewrite Qabs_cond_opp. apply Qabs_pos. exact HT0. }
    rewrite HTb in Hb.
    destruct (SFdiv_core_spec mx my ex ey)
      as (q & e & l & Hcore & Hq & He1 & He2 & [Hq1 Hq2] & Hdig).
    set (X := Zpos (digits2_pos mx) + ex - (Zpos (digits2_pos my) + ey)) in *.
    unfold SF64div, SFdiv. rewrite Hcore.
    (* the magnitude of the quotient *)
    assert (HX : X <= 4).
    { pose proof (mantissa_magnitude (Zpos mx) ex ltac:(lia)) as [Hlx _].
      pose proof (mantissa_magnitude (Zpos my) ey ltac:(lia)) as [_ Huy].
      cbn [Zdigits2] in Hlx, Huy.
      assert (H : (2 ^ (Zpos (digits2_pos mx) - 1 + ex)
                   < 2 ^ (4 + (Zpos (digits2_pos my) + ey)))%Q).
      { rewrite (Qpow2_add 4). change (2 ^ 4)%Q with 16%Q.
        revert Hlx Huy HT Hb Hb0.
        generalize (2 ^ (Zpos (digits2_pos mx) - 1 + ex))%Q
          (2 ^ (Zpos (digits2_pos my) + ey))%Q
          (inject_Z (Zpos my) * 2 ^ ey)%Q (inject_Z (Zpos mx) * 2 ^ ex)%Q.
        intros lo hi b a Hlx Huy HT Hb Hb0. nra. }
      apply Qpow2_lt_inv in H. subst X. lia. }
    assert (HE : Z.max e (fexp prec emax (Zdigits2 q + e)) <= -48).
    { rewrite fexp_eq in *. lia. }
    (* the quotient lies between [q] and [q + 1] at exponent [e] *)
    set (s := ex - ey - e) in *.
    assert (Hs : 0 <= s) by (subst s; lia).
    assert (Hshift : (inject_Z (Zpos mx) * 2 ^ ex
                      == inject_Z (Zpos mx * 2 ^ s) * 2 ^ e * 2 ^ ey)%Q).
    { replace ex with (e + s + ey) at 1 by (subst s; lia).
      rewrite (Qpow2_add (e + s) ey), <- (Qpow2_shift (Zpos mx) e s Hs).
      ring. }
    assert (Hlo : (inject_Z q * 2 ^ e <= T)%Q).
    { assert (H1 : (inject_Z (q * Zpos my) <= inject_Z (Zpos mx * 2 ^ s))%Q)
        by (rewrite <- Zle_Qle; exact Hq1).
      rewrite inject_Z_mult in H1.
      pose proof (Qpow2_pos e) as HPe.
      rewrite Hshift in HT. revert H1 HT Hb0 HPe HPy.
      generalize (inject_Z (Zpos mx * 2 ^ s)) (2 ^ e)%Q (2 ^ ey)%Q
        (inject_Z (Zpos my)) (inject_Z q).
      intros a Pe Py b qq H1 HT Hb0 HPe HPy.
      assert (Hpp : (0 < Pe * Py)%Q) by (apply Qmult_lt_0_compat; assumption).
      assert (Hb1 : (0 < b)%Q) by nra.
      assert (H2 : (qq * Pe * (b * Py) <= T * (b * Py))%Q).
      { rewrite HT.
        assert (E1 : (qq * Pe * (b * Py) == (qq * b) * (Pe * Py))%Q) by ring.
        assert (E2 : (a * Pe * Py == a * (Pe * Py))%Q) by ring.
        rewrite E1, E2. apply Qmult_le_compat_r; [exact H1|lra]. }
      apply Qmult_lt_0_le_reg_r with (b * Py)%Q; assumption. }
    assert (Hhi : (T <= (inject_Z q + 1) * 2 ^ e)%Q).
    { assert (H1 : (inject_Z (Zpos mx * 2 ^ s) <= inject_Z ((q + 1) * Zpos my))%Q)
        by (rewrite <- Zle_Qle; lia).
      rewrite (inject_Z_mult (q + 1)), (inject_Z_plus q 1) in H1.
      change (inject_Z 1) with 1%Q in H1.
      pose proof (Qpow2_pos e) as HPe.
      rewrite Hshift in HT. revert H1 HT Hb0 HPe HPy.
      generalize (inject_Z (Zpos mx * 2 ^ s)) (2 ^ e)%Q (2 ^ ey)%Q
        (inject_Z (Zpos my)) (inject_Z q).
      intros a Pe Py b qq H1 HT Hb0 HPe HPy.
      assert (Hpp : (0 < Pe * Py)%Q) by (apply Qmult_lt_0_compat; assumption).
      assert (H2 : (T * (b * Py) <= (qq + 1) * Pe * (b * Py))%Q).
      { rewrite HT.
        assert (E1 : ((qq + 1) * Pe * (b * Py) == ((qq + 1) * b) * (Pe * Py))%Q)
          by ring.
        assert (E2 : (a * Pe * Py == a * (Pe * Py))%Q) by ring.
        rewrite E1, E2. apply Qmult_le_compat_r; [exact H1|lra]. }
      apply Qmult_lt_0_le_reg_r with (b * Py)%Q; assumption. }
    destruct (binary_round_aux_near_Q (xorb sx sy) q e l T Hq ltac:(lia)
                Hlo Hhi) as [Hfin Herr].
    split; [exact Hfin|].
    pose proof (near_from_exponent _ _ _ HE Herr) as H.
    exact (near_proper _ _ _ HTW H).
Qed.
(** *** Comparisons of finite numbers *)

Lemma canonical_lt (s1 : bool) (m1 : positive) (e1 : Z) (s2 : bool)
    (m2 : positive) (e2 : Z) :
  valid_binary (S754_finite s1 m1 e1) = true ->
  valid_binary (S754_finite s2 m2 e2) = true ->
  e1 < e2 -> (inject_Z (Zpos m1) * 2 ^ e1 < inject_Z (Zpos m2) * 2 ^ e2)%Q.
Proof.
  intros V1 V2 He. apply valid_finite in V1 as [V1 _].
  apply valid_finite in V2 as [V2 _].
  pose proof (mantissa_magnitude (Zpos m1) e1 ltac:(lia)) as [_ Hu].
  pose proof (mantissa_magnitude (Zpos m2) e2 ltac:(lia)) as [Hl _].
  cbn [Zdigits2] in Hu, Hl.
  eapply Qlt_le_trans; [exact Hu|]. eapply Qle_trans; [|exact Hl].
  apply Qpow2_le. lia.
Qed.

Lemma Qcompare_Lt (x y : Q) : (x < y)%Q -> (x ?= y)%Q = Lt.
Proof. intros H. exact (proj1 (Qlt_alt x y) H). Qed.

Lemma Qcompare_Gt (x y : Q) : (y < x)%Q -> (x ?= y)%Q = Gt.
Proof. intros H. exact (proj1 (Qgt_alt x y) H). Qed.

Lemma Qcompare_Eq (x y : Q) : (x == y)%Q -> (x ?= y)%Q = Eq.
Proof. intros H. exact (proj1 (Qeq_alt x y) H). Qed.

Lemma Qcompare_cases (x y : Q) :
  match (x ?= y)%Q with
  | Eq => (x == y)%Q
  | Lt => (x < y)%Q
  | Gt => (y < x)%Q
  end.
Proof.
  destruct (x ?= y)%Q eqn:E.
  - exact (proj2 (Qeq_alt x y) E).
  - exact (proj2 (Qlt_alt x y) E).
  - exact (proj2 (Qgt_alt x y) E).
Qed.

Lemma same_exponent_compare (m1 m2 : positive) (e : Z) :
  (inject_Z (Zpos m1) * 2 ^ e ?= inject_Z (Zpos m2) * 2 ^ e)%Q
  = Pos.compare m1 m2.
Proof.
  pose proof (Qpow2_pos e) as HP.
  destruct (Pos.compare_spec m1 m2) as [H|H|H].
  - subst m2. apply Qcompare_Eq. reflexivity.
  - apply Qcompare_Lt. apply Qmult_lt_compat_r; [exact HP|].
    rewrite <- Zlt_Qlt. lia.
  - apply Qcompare_Gt. apply Qmult_lt_compat_r; [exact HP|].
    rewrite <- Zlt_Qlt. lia.
Qed.

Lemma Qcompare_opp (x y : Q) : (- x ?= - y)%Q = CompOpp (x ?= y)%Q.
Proof.
  pose proof (Qcompare_cases x y) as E.
  destruct (x ?= y)%Q; cbn [CompOpp].
  - apply Qcompare_Eq. rewrite E. reflexivity.
  - apply Qcompare_Gt. lra.
  - apply Qcompare_Lt. lra.
Qed.

Lemma positive_value (m : positive) (e : Z) : (0 < inject_Z (Zpos m) * 2 ^ e)%Q.
Proof.
  apply Qmult_lt_0_compat; [|apply Qpow2_pos].
  change 0%Q with (inject_Z 0). rewrite <- Zlt_Qlt. lia.
Qed.

Lemma SF2Q_signed (s : bool) (m : positive) (e : Z) :
  (SF2Q (S754_finite s m e)
   == (if s then - (inject_Z (Zpos m) * 2 ^ e) else inject_Z (Zpos m) * 2 ^ e))%Q.
Proof.
  cbn [SF2Q]. destruct s; cbn [cond_Zopp]; [|reflexivity].
  change (Zneg m) with (- Zpos m). rewrite inject_Z_opp. ring.
Qed.

(** [SFcompare] on valid finite numbers is the comparison of their
    values. *)
Lemma SFcompare_Q (x y : spec_float) :
  SFfin x -> SFfin y -> valid_binary x = true -> valid_binary y = true ->
  SFcompare x y = Some (SF2Q x ?= SF2Q y)%Q.
Proof.
  intros Fx Fy Vx Vy.
  destruct x as [sx|sx| |sx mx ex]; try contradiction;
    destruct y as [sy|sy| |sy my ey]; try contradiction; cbn [SFcompare].
  - reflexivity.
  - f_equal. symmetry.
    rewrite (Qcompare_comp _ _ (Qeq_refl _) _ _ (SF2Q_signed sy my ey)).
    pose proof (positive_value my ey) as Hp. cbn [SF2Q].
    destruct sy; [apply Qcompare_Gt|apply Qcompare_Lt]; lra.
  - f_equal. symmetry.
    rewrite (Qcompare_comp _ _ (SF2Q_signed sx mx ex) _ _ (Qeq_refl _)).
    pose proof (positive_value mx ex) as Hp. cbn [SF2Q].
    destruct sx; [apply Qcompare_Lt|apply Qcompare_Gt]; lra.
  - f_equal. symmetry.
    rewrite (Qcompare_comp _ _ (SF2Q_signed sx mx ex) _ _ (SF2Q_signed sy my ey)).
    pose proof (positive_value mx ex) as Hpx.
    pose proof (positive_value my ey) as Hpy.
    destruct sx, sy.
    + rewrite Qcompare_opp.
      destruct (Z.compare_spec ex ey) as [He|He|He].
      * subst ey. rewrite same_exponent_compare. reflexivity.
      * rewrite (Qcompare_Lt _ _ (canonical_lt true mx ex true my ey Vx Vy He)).
        reflexivity.
      * rewrite (Qcompare_Gt _ _ (canonical_lt true my ey true mx ex Vy Vx He)).
        reflexivity.
    + apply Qcompare_Lt. lra.
    + apply Qcompare_Gt. lra.
    + destruct (Z.compare_spec ex ey) as [He|He|He].
      * subst ey. rewrite same_exponent_compare. reflexivity.
      * exact (Qcompare_Lt _ _ (canonical_lt false mx ex false my ey Vx Vy He)).
      * exact (Qcompare_Gt _ _ (canonical_lt false my ey false mx ex Vy Vx He)).
Qed.

Lemma FpLong_ltb_Q (x y : float) :
  FpLong_finite x -> FpLong_finite y ->
  if (x <? y)%float then (FpLong_value x < FpLong_value y)%Q
  else (FpLong_value y <= FpLong_value x)%Q.
Proof.
  intros Fx Fy. rewrite FloatAxioms.ltb_spec. unfold SFltb.
  rewrite (SFcompare_Q _ _ Fx Fy (Prim2SF_valid x) (Prim2SF_valid y)).
  unfold FpLong_value.
  pose proof (Qcompare_cases (SF2Q (Prim2SF x)) (SF2Q (Prim2SF y))) as E.
  destruct (SF2Q (Prim2SF x) ?= SF2Q (Prim2SF y))%Q.
  - rewrite E. apply Qle_refl.
  - exact E.
  - apply Qlt_le_weak. exact E.
Qed.

Lemma FpLong_leb_Q (x y : float) :
  FpLong_finite x -> FpLong_finite y ->
  if (x <=? y)%float then (FpLong_value x <= FpLong_value y)%Q
  else (FpLong_value y < FpLong_value x)%Q.
Proof.
  intros Fx Fy. rewrite FloatAxioms.leb_spec. unfold SFleb.
  rewrite (SFcompare_Q _ _ Fx Fy (Prim2SF_valid x) (Prim2SF_valid y)).
  unfold FpLong_value.
  pose proof (Qcompare_cases (SF2Q (Prim2SF x)) (SF2Q (Prim2SF y))) as E.
  destruct (SF2Q (Prim2SF x) ?= SF2Q (Prim2SF y))%Q.
  - rewrite E. apply Qle_refl.
  - apply Qlt_le_weak. exact E.
  - exact E.
Qed.

Lemma FpLong_eqb_Q (x y : float) :
  FpLong_finite x -> FpLong_finite y ->
  if (x =? y)%float then (FpLong_value x == FpLong_value y)%Q
  else ~ (FpLong_value x == FpLong_value y)%Q.
Proof.
  intros Fx Fy. rewrite FloatAxioms.eqb_spec. unfold SFeqb.
  rewrite (SFcompare_Q _ _ Fx Fy (Prim2SF_valid x) (Prim2SF_valid y)).
  unfold FpLong_value.
  pose proof (Qcompare_cases (SF2Q (Prim2SF x)) (SF2Q (Prim2SF y))) as E.
  destruct (SF2Q (Prim2SF x) ?= SF2Q (Prim2SF y))%Q.
  - exact E.
  - intros H. rewrite H in E. apply (Qlt_irrefl _ E).
  - intros H. rewrite H in E. apply (Qlt_irrefl _ E).
Qed.

(** *** Doubles against the numbers they stand for *)

Lemma unit_interval_value (x : float) :
  in_unit_interval x ->
  FpLong_finite x /\ (0 <= FpLong_value x)%Q /\ (FpLong_value x <= 1)%Q.
Proof.
  intros [H0 H1].
  assert (Fx : FpLong_finite x).
  { unfold FpLong_finite. rewrite FloatAxioms.leb_spec in H0, H1.
    unfold SFleb in H0, H1.
    change (Prim2SF 0) with (S754_zero false) in H0.
    change (Prim2SF 1) with (S754_finite false 4503599627370496 (-52)) in H1.
    destruct (Prim2SF x) as [s|s| |s m e]; try exact I.
    - destruct s; cbn in H0, H1; discriminate.
    - cbn in H0. discriminate. }
  split; [exact Fx|].
  assert (F0 : FpLong_finite 0) by exact I.
  assert (F1 : FpLong_finite 1) by exact I.
  pose proof (FpLong_leb_Q 0 x F0 Fx) as L0. rewrite H0 in L0.
  pose proof (FpLong_leb_Q x 1 Fx F1) as L1. rewrite H1 in L1.
  split; [exact L0|].
  assert (E1 : (FpLong_value 1 == 1)%Q) by (vm_compute; reflexivity).
  rewrite <- E1. exact L1.
Qed.

Lemma approx_exact (x : float) : FpLong_finite x -> approx x (FpLong_value x) 0.
Proof.
  intros F. split; [exact F|].
  assert (H : (FpLong_value x - FpLong_value x == 0)%Q) by ring.
  rewrite H. apply Qle_refl.
Qed.

Lemma approx_weaken (x : float) (X e e' : Q) :
  approx x X e -> (e <= e')%Q -> approx x X e'.
Proof. intros [F H] He. split; [exact F|]. eapply Qle_trans; eassumption. Qed.

Lemma approx_proper (x : float) (X X' e : Q) :
  (X == X')%Q -> approx x X e -> approx x X' e.
Proof. intros HX [F H]. split; [exact F|]. rewrite <- HX. exact H. Qed.

Lemma approx_bounds (x : float) (X e : Q) :
  approx x X e -> (X - e <= FpLong_value x)%Q /\ (FpLong_value x <= X + e)%Q.
Proof.
  intros [_ H]. apply Qabs_Qle_condition in H. destruct H. split; lra.
Qed.

Lemma Qabs_le_of_bounds (v lo hi b : Q) :
  (lo <= v)%Q -> (v <= hi)%Q -> (- b <= lo)%Q -> (hi <= b)%Q -> (Qabs v <= b)%Q.
Proof. intros. apply Qabs_Qle_condition. split; lra. Qed.

Lemma Qabs_near (v w X e e' : Q) :
  (Qabs (v - w) <= e)%Q -> (Qabs (w - X) <= e')%Q ->
  (Qabs (v - X) <= e' + e)%Q.
Proof.
  intros H1 H2. apply Qabs_Qle_condition in H1, H2.
  apply Qabs_Qle_condition. destruct H1, H2. split; lra.
Qed.

Lemma approx_add (x y : float) (X Y ex ey : Q) :
  approx x X ex -> approx y Y ey ->
  (-16 <= X + Y - (ex + ey))%Q -> (X + Y + (ex + ey) <= 16)%Q ->
  approx (x + y) (X + Y) (ex + ey + operation_error).
Proof.
  intros Hx Hy Hlo Hhi.
  pose proof (approx_bounds _ _ _ Hx) as [Bx1 Bx2].
  pose proof (approx_bounds _ _ _ Hy) as [By1 By2].
  destruct Hx as [Fx _]. destruct Hy as [Fy _].
  unfold approx, FpLong_finite, FpLong_value in *.
  rewrite FloatAxioms.add_spec.
  destruct (SFadd_near _ _ Fx Fy) as [F H].
  { apply Qabs_Qle_condition. split; lra. }
  split; [exact F|].
  apply (Qabs_near _ _ _ _ _ H). apply Qabs_Qle_condition. split; lra.
Qed.

Lemma approx_sub (x y : float) (X Y ex ey : Q) :
  approx x X ex -> approx y Y ey ->
  (-16 <= X - Y - (ex + ey))%Q -> (X - Y + (ex + ey) <= 16)%Q ->
  approx (x - y) (X - Y) (ex + ey + operation_error).
Proof.
  intros Hx Hy Hlo Hhi.
  pose proof (approx_bounds _ _ _ Hx) as [Bx1 Bx2].
  pose proof (approx_bounds _ _ _ Hy) as [By1 By2].
  destruct Hx as [Fx _]. destruct Hy as [Fy _].
  unfold approx, FpLong_finite, FpLong_value in *.
  rewrite FloatAxioms.sub_spec.
  destruct (SFsub_near _ _ Fx Fy) as [F H].
  { apply Qabs_Qle_condition. split; lra. }
  split; [exact F|].
  apply (Qabs_near _ _ _ _ _ H). apply Qabs_Qle_condition. split; lra.
Qed.

Lemma product_near (v w X Y bx by' ex ey : Q) :
  (0 <= ex)%Q -> (0 <= ey)%Q ->
  (X - ex <= v)%Q -> (v <= X + ex)%Q -> (Y - ey <= w)%Q -> (w <= Y + ey)%Q ->
  (- bx <= X)%Q -> (X <= bx)%Q -> (- by' <= Y)%Q -> (Y <= by')%Q ->
  (Qabs (v * w - X * Y) <= bx * ey + by' * ex + ex * ey)%Q
  /\ (Qabs (v * w) <= (bx + ex) * (by' + ey))%Q.
Proof.
  intros Hex Hey Hv1 Hv2 Hw1 Hw2 HX1 HX2 HY1 HY2.
  set (a := (v - X)%Q). set (b := (w - Y)%Q).
  assert (Ha : (- ex <= a)%Q /\ (a <= ex)%Q) by (subst a; split; lra).
  assert (Hb : (- ey <= b)%Q /\ (b <= ey)%Q) by (subst b; split; lra).
  assert (Hv : (v == X + a)%Q) by (subst a; ring).
  assert (Hw : (w == Y + b)%Q) by (subst b; ring).
  destruct Ha as [Ha1 Ha2]. destruct Hb as [Hb1 Hb2].
  assert (Hbx : (0 <= bx)%Q) by lra. assert (Hby : (0 <= by')%Q) by lra.
  assert (P1 : (- (bx * ey) <= X * b)%Q /\ (X * b <= bx * ey)%Q) by (split; nra).
  assert (P2 : (- (by' * ex) <= Y * a)%Q /\ (Y * a <= by' * ex)%Q) by (split; nra).
  assert (P3 : (- (ex * ey) <= a * b)%Q /\ (a * b <= ex * ey)%Q) by (split; nra).
  assert (P4 : (- (bx * by') <= X * Y)%Q /\ (X * Y <= bx * by')%Q) by (split; nra).
  assert (E : (v * w == X * Y + X * b + Y * a + a * b)%Q)
    by (rewrite Hv, Hw; ring).
  destruct P1, P2, P3, P4.
  split; apply Qabs_Qle_condition; rewrite E; split; lra.
Qed.

Lemma approx_mul (x y : float) (X Y bx by' ex ey : Q) :
  approx x X ex -> approx y Y ey ->
  (- bx <= X)%Q -> (X <= bx)%Q -> (- by' <= Y)%Q -> (Y <= by')%Q ->
  ((bx + ex) * (by' + ey) <= 16)%Q ->
  approx (x * y) (X * Y) (bx * ey + by' * ex + ex * ey + operation_error).
Proof.
  intros Hx Hy HX1 HX2 HY1 HY2 Hmag.
  pose proof (approx_bounds _ _ _ Hx) as [Bx1 Bx2].
  pose proof (approx_bounds _ _ _ Hy) as [By1 By2].
  assert (Hex : (0 <= ex)%Q).
  { destruct Hx as [_ H]. eapply Qle_trans; [apply Qabs_nonneg|exact H]. }
  assert (Hey : (0 <= ey)%Q).
  { destruct Hy as [_ H]. eapply Qle_trans; [apply Qabs_nonneg|exact H]. }
  destruct Hx as [Fx _]. destruct Hy as [Fy _].
  destruct (product_near _ _ X Y bx by' ex ey Hex Hey Bx1 Bx2 By1 By2
              HX1 HX2 HY1 HY2) as [Hp Hm].
  unfold approx, FpLong_finite, FpLong_value in *.
  rewrite FloatAxioms.mul_spec.
  destruct (SFmul_near _ _ Fx Fy (Prim2SF_valid x) (Prim2SF_valid y)) as [F H].
  { eapply Qle_trans; [exact Hm|exact Hmag]. }
  split; [exact F|]. exact (Qabs_near _ _ _ _ _ H Hp).
Qed.
Lemma quotient_near (vx vy X Y W y0 c ex ey e' : Q) :
  (X - ex <= vx)%Q -> (vx <= X + ex)%Q -> (Y - ey <= vy)%Q -> (vy <= Y + ey)%Q ->
  (0 <= ex)%Q -> (0 <= ey)%Q ->
  (W * Y == X)%Q -> (ey < y0)%Q -> (y0 <= Y)%Q -> (- c <= W)%Q -> (W <= c)%Q ->
  (ex + c * ey <= e' * (y0 - ey))%Q ->
  forall V : Q, (V * vy == vx)%Q -> (Qabs (V - W) <= e')%Q.
Proof.
  intros Hx1 Hx2 Hy1 Hy2 Hex Hey HW Hy0 HY Hc1 Hc2 He V HV.
  assert (Hvy : (0 < vy)%Q) by lra.
  assert (Hc : (0 <= c)%Q) by lra.
  set (b := (vy - Y)%Q).
  assert (Hb : (- ey <= b)%Q /\ (b <= ey)%Q) by (subst b; split; lra).
  destruct Hb as [Hb1 Hb2].
  assert (P : (- (c * ey) <= W * b)%Q /\ (W * b <= c * ey)%Q) by (split; nra).
  destruct P as [P1 P2].
  assert (E : ((V - W) * vy == (vx - X) - W * b)%Q).
  { subst b. rewrite <- HW.
    assert (E1 : ((V - W) * vy == V * vy - W * vy)%Q) by ring.
    rewrite E1, HV. ring. }
  assert (He0 : (0 <= e')%Q).
  { destruct (Qlt_le_dec e' 0) as [Hn|Hp]; [|exact Hp]. exfalso.
    assert (0 < y0 - ey)%Q by lra. nra. }
  assert (K1 : ((V - W) * vy <= e' * vy)%Q).
  { rewrite E. assert (e' * (y0 - ey) <= e' * vy)%Q by nra. lra. }
  assert (K2 : (- (e' * vy) <= (V - W) * vy)%Q).
  { rewrite E. assert (e' * (y0 - ey) <= e' * vy)%Q by nra. lra. }
  apply Qabs_Qle_condition. split.
  - apply Qmult_lt_0_le_reg_r with vy; [exact Hvy|]. lra.
  - apply Qmult_lt_0_le_reg_r with vy; [exact Hvy|]. lra.
Qed.

Lemma approx_div (x y : float) (X Y W y0 c ex ey e' : Q) :
  approx x X ex -> approx y Y ey ->
  (W * Y == X)%Q -> (ey < y0)%Q -> (y0 <= Y)%Q -> (- c <= W)%Q -> (W <= c)%Q ->
  (ex + c * ey <= e' * (y0 - ey))%Q -> (c + e' <= 16)%Q ->
  approx (x / y) W (e' + operation_error).
Proof.
  intros Hx Hy HW Hy0 HY Hc1 Hc2 He Hmag.
  pose proof (approx_bounds _ _ _ Hx) as [Bx1 Bx2].
  pose proof (approx_bounds _ _ _ Hy) as [By1 By2].
  assert (Hex : (0 <= ex)%Q).
  { destruct Hx as [_ H]. eapply Qle_trans; [apply Qabs_nonneg|exact H]. }
  assert (Hey : (0 <= ey)%Q).
  { destruct Hy as [_ H]. eapply Qle_trans; [apply Qabs_nonneg|exact H]. }
  destruct Hx as [Fx _]. destruct Hy as [Fy _].
  unfold approx, FpLong_finite, FpLong_value in *.
  rewrite FloatAxioms.div_spec.
  assert (Hvy : (0 < SF2Q (Prim2SF y))%Q) by lra.
  destruct (Prim2SF y) as [sy|sy| |sy my ey'] eqn:Ey; try contradiction.
  { cbn [SF2Q] in Hvy. exfalso. apply (Qlt_irrefl _ Hvy). }
  set (vx := SF2Q (Prim2SF x)) in *.
  set (vy := SF2Q (S754_finite sy my ey')) in *.
  set (V := (vx / vy)%Q).
  assert (HV : (V * vy == vx)%Q).
  { subst V. field. intros H0. rewrite H0 in Hvy. apply (Qlt_irrefl _ Hvy). }
  pose proof (quotient_near vx vy X Y W y0 c ex ey e' Bx1 Bx2 By1 By2 Hex Hey
                HW Hy0 HY Hc1 Hc2 He V HV) as Hq.
  destruct (SFdiv_near (Prim2SF x) sy my ey' V Fx HV) as [F H].
  { apply Qabs_Qle_condition in Hq. destruct Hq.
    apply Qabs_Qle_condition. split; lra. }
  split; [exact F|]. exact (Qabs_near _ _ _ _ _ H Hq).
Qed.

Lemma abs_value (x : float) :
  FpLong_finite x ->
  FpLong_finite (abs x)
  /\ (FpLong_value (abs x) == Qabs (FpLong_value x))%Q.
Proof.
  intros Fx.
  unfold FpLong_finite, FpLong_value in *. rewrite FloatAxioms.abs_spec.
  destruct (Prim2SF x) as [s|s| |s m e']; try contradiction.
  - split; [exact I|reflexivity].
  - split; [exact I|]. cbn [SFabs]. rewrite SF2Q_abs. reflexivity.
Qed.

(** The test [abs x <=? c] of a double close enough to 0. *)
Lemma abs_leb_true (x c : float) (e : Q) :
  approx x 0 e -> FpLong_finite c -> (e <= FpLong_value c)%Q ->
  (abs x <=? c)%float = true.
Proof.
  intros [Fx Hx] Fc Hc. destruct (abs_value x Fx) as [Fa Va].
  pose proof (FpLong_leb_Q (abs x) c Fa Fc) as H.
  destruct (abs x <=? c)%float; [reflexivity|]. exfalso.
  rewrite Va in H.
  assert (E : (FpLong_value x - 0 == FpLong_value x)%Q) by ring.
  rewrite E in Hx. lra.
Qed.

(* ===================================================================== *)
(** ** Colour matcher                                                     *)
(* ===================================================================== *)

Lemma example_target_in_bytes : byte_range (mkPixel 255 200 0 0).
Proof. unfold byte_range. simpl. lia. Qed.

(** *** Relative error of the squared distance *)

Lemma rel_interval (u x y : Q) :
  (0 <= y -> Qabs (x - y) <= u * Qabs y ->
   (1 - u) * y <= x /\ x <= (1 + u) * y)%Q.
Proof.
  intros Hy H. rewrite (Qabs_pos y Hy) in H.
  apply Qabs_Qle_condition in H. destruct H as [H1 H2]. split; lra.
Qed.

Lemma square_interval (u a a' : Q) :
  (0 <= u -> u <= 1 -> Qabs (a' - a) <= u * Qabs a ->
   (1 - u) * (1 - u) * (a * a) <= a' * a'
   /\ a' * a' <= (1 + u) * (1 + u) * (a * a))%Q.
Proof.
  intros H0 H1 H.
  apply Qabs_Qle_condition in H. destruct H as [Hl Hu].
  destruct (Qlt_le_dec a 0) as [Hneg|Hpos].
  - rewrite (Qabs_neg a) in Hl, Hu by lra.
    assert (Ha : (0 <= - a)%Q) by lra.
    assert (B1 : ((1 - u) * - a <= - a')%Q) by lra.
    assert (B2 : (- a' <= (1 + u) * - a)%Q) by lra.
    assert (B0 : (0 <= (1 - u) * - a)%Q) by (apply Qmult_le_0_compat; lra).
    split; nra.
  - rewrite (Qabs_pos a Hpos) in Hl, Hu.
    assert (B1 : ((1 - u) * a <= a')%Q) by lra.
    assert (B2 : (a' <= (1 + u) * a)%Q) by lra.
    assert (B0 : (0 <= (1 - u) * a)%Q) by (apply Qmult_le_0_compat; lra).
    split; nra.
Qed.

Lemma scaled_interval (l u l' u' x y z : Q) :
  (0 <= l -> 0 <= l' -> 0 <= u' -> 0 <= z ->
   l * y <= x /\ x <= u * y ->
   l' * z <= y /\ y <= u' * z ->
   0 <= u ->
   l * l' * z <= x /\ x <= u * u' * z)%Q.
Proof.
  intros Hl Hl' Hu' Hz [H1 H2] [H3 H4] Hu. split.
  - apply Qle_trans with (l * y)%Q; [|exact H1]. nra.
  - apply Qle_trans with (u * y)%Q; [exact H2|]. nra.
Qed.
Lemma Qsquare_nonneg (x : Q) : (0 <= x * x)%Q.
Proof. nra. Qed.

Lemma Qadd_nonneg (x y : Q) : (0 <= x -> 0 <= y -> 0 <= x + y)%Q.
Proof. intros. lra. Qed.

Lemma accuracy_from_bounds (e L5 U5 D s : Q) :
  (0 <= D -> 1 - e <= L5 -> U5 <= 1 + e -> L5 * D <= s -> s <= U5 * D ->
   Qabs (s - D) <= e * D)%Q.
Proof.
  intros HD HL HU H1 H2. apply Qabs_Qle_condition. split.
  - assert ((1 - e) * D <= L5 * D)%Q by (apply Qmult_le_compat_r; assumption).
    lra.
  - assert (U5 * D <= (1 + e) * D)%Q by (apply Qmult_le_compat_r; assumption).
    lra.
Qed.

Lemma sum_chain (L U A B C p q r s1 s2 : Q) :
  (0 <= L -> L <= 1 -> 1 <= U -> 0 <= A -> 0 <= B -> 0 <= C ->
   L * (L * L) * A <= p /\ p <= U * (U * U) * A ->
   L * (L * L) * B <= q /\ q <= U * (U * U) * B ->
   L * (L * L) * C <= r /\ r <= U * (U * U) * C ->
   L * (p + q) <= s1 /\ s1 <= U * (p + q) ->
   L * (s1 + r) <= s2 /\ s2 <= U * (s1 + r) ->
   L * L * L * L * L * (A + B + C) <= s2
   /\ s2 <= U * U * U * U * U * (A + B + C))%Q.
Proof.
  intros HL0 HL1 HU1 HA HB HC [Hp1 Hp2] [Hq1 Hq2] [Hr1 Hr2] [Hs1 Hs2] [Ht1 Ht2].
  set (L3 := (L * (L * L))%Q) in *. set (U3 := (U * (U * U))%Q) in *.
  assert (HL3 : (0 <= L3)%Q)
    by (unfold L3; repeat apply Qmult_le_0_compat; assumption).
  assert (HU3 : (1 <= U3)%Q) by (unfold U3; nra).
  assert (HL3C : (0 <= L3 * C)%Q) by (apply Qmult_le_0_compat; assumption).
  assert (HU3C : (0 <= U3 * C)%Q) by (apply Qmult_le_0_compat; lra).
  split.
  - assert (E1 : (L * (L3 * A + L3 * B) <= s1)%Q) by nra.
    assert (E2 : (L * (L * (L3 * A + L3 * B) + L3 * C) <= s2)%Q) by nra.
    assert (E3 : (L * (L3 * C) <= L3 * C)%Q) by nra.
    assert (E4 : (L * L * L * L * L * (A + B + C)
                  == L * (L * (L3 * A + L3 * B) + L * (L3 * C)))%Q)
      by (unfold L3; ring).
    rewrite E4. eapply Qle_trans; [|exact E2].
    assert ((0 <= L * (L3 * A + L3 * B))%Q)
      by (repeat apply Qmult_le_0_compat; nra).
    nra.
  - assert (E1 : (s1 <= U * (U3 * A + U3 * B))%Q) by nra.
    assert (E2 : (s2 <= U * (U * (U3 * A + U3 * B) + U3 * C))%Q) by nra.
    assert (E3 : (U3 * C <= U * (U3 * C))%Q) by nra.
    assert (E4 : (U * U * U * U * U * (A + B + C)
                  == U * (U * (U3 * A + U3 * B) + U * (U3 * C)))%Q)
      by (unfold U3; ring).
    rewrite E4. eapply Qle_trans; [exact E2|]. nra.
Qed.

Lemma five_roundings :
  (1 - distance_accuracy
   <= (1 - rounding_unit) * (1 - rounding_unit) * (1 - rounding_unit)
      * (1 - rounding_unit) * (1 - rounding_unit)
   /\ (1 + rounding_unit) * (1 + rounding_unit) * (1 + rounding_unit)
      * (1 + rounding_unit) * (1 + rounding_unit)
      <= 1 + distance_accuracy)%Q.
Proof. split; apply Qle_bool_imp_le; vm_compute; reflexivity. Qed.

(** The square of a difference: three roundings at most. *)
Lemma sq_difference_error (x y : spec_float) :
  SFcanon (-458) 448 x -> SFcanon (-458) 448 y ->
  let a := (SF2Q x - SF2Q y)%Q in
  let p := SF2Q (SF64mul (SF64sub x y) (SF64sub x y)) in
  SFcanon (-968) 954 (SF64mul (SF64sub x y) (SF64sub x y))
  /\ ((1 - rounding_unit) * ((1 - rounding_unit) * (1 - rounding_unit))
      * (a * a) <= p
      /\ p <= (1 + rounding_unit) * ((1 + rounding_unit) * (1 + rounding_unit))
              * (a * a))%Q.
Proof.
  intros Hx Hy a p.
  destruct (SFsub_error (-458) 448 x y ltac:(lia) ltac:(lia) Hx Hy)
    as [Hcd Hed].
  change (-458 - 52) with (-510) in Hcd. change (448 + 2) with 450 in Hcd.
  destruct (SFmul_error (-510) 450 _ _ ltac:(lia) ltac:(lia) Hcd Hcd)
    as [Hcp Hep].
  split; [exact Hcp|]. fold p in Hep. fold a in Hed.
  set (d := SF2Q (SF64sub x y)) in *.
  assert (Hu0 : (0 <= rounding_unit)%Q) by exact rounding_unit_nonneg.
  assert (Hu1 : (rounding_unit <= 1)%Q) by (unfold rounding_unit; lra).
  assert (Hdd : (0 <= d * d)%Q) by apply Qsquare_nonneg.
  assert (Haa : (0 <= a * a)%Q) by apply Qsquare_nonneg.
  pose proof (rel_interval rounding_unit p (d * d) Hdd Hep) as Hp.
  pose proof (square_interval rounding_unit a d Hu0 Hu1 Hed) as Hd.
  apply (scaled_interval _ _ _ _ p (d * d) (a * a)); try assumption;
    try lra; apply Qmult_le_0_compat; lra.
Qed.

(** The squared distance of two RGB triples computed in binary64, red to
    blue, is within [2^-49] of the exact one, relatively. *)
Lemma SF_sq_distance_error (r g b tr tg tb : spec_float) :
  SFcanon (-458) 448 r -> SFcanon (-458) 448 g -> SFcanon (-458) 448 b ->
  SFcanon (-458) 448 tr -> SFcanon (-458) 448 tg -> SFcanon (-458) 448 tb ->
  let sq x y := SF64mul (SF64sub x y) (SF64sub x y) in
  let d2 := SF64add (SF64add (sq r tr) (sq g tg)) (sq b tb) in
  let D := ((SF2Q r - SF2Q tr) * (SF2Q r - SF2Q tr)
            + (SF2Q g - SF2Q tg) * (SF2Q g - SF2Q tg)
            + (SF2Q b - SF2Q tb) * (SF2Q b - SF2Q tb))%Q in
  SFcanon (-1072) 958 d2
  /\ (Qabs (SF2Q d2 - D) <= distance_accuracy * D)%Q.
Proof.
  intros Hr Hg Hb Htr Htg Htb sq d2 D.
  destruct (sq_difference_error r tr Hr Htr) as [Hc1 Hi1].
  destruct (sq_difference_error g tg Hg Htg) as [Hc2 Hi2].
  destruct (sq_difference_error b tb Hb Htb) as [Hc3 Hi3].
  cbv zeta in Hi1, Hi2, Hi3. fold (sq r tr) in *. fold (sq g tg) in *.
  fold (sq b tb) in *.
  set (A := ((SF2Q r - SF2Q tr) * (SF2Q r - SF2Q tr))%Q) in *.
  set (B := ((SF2Q g - SF2Q tg) * (SF2Q g - SF2Q tg))%Q) in *.
  set (C := ((SF2Q b - SF2Q tb) * (SF2Q b - SF2Q tb))%Q) in *.
  assert (HA : (0 <= A)%Q) by apply Qsquare_nonneg.
  assert (HB : (0 <= B)%Q) by apply Qsquare_nonneg.
  assert (HC : (0 <= C)%Q) by apply Qsquare_nonneg.
  assert (Hu0 : (0 <= rounding_unit)%Q) by exact rounding_unit_nonneg.
  assert (Hu1 : (rounding_unit <= 1)%Q) by (unfold rounding_unit; lra).
  set (L := (1 - rounding_unit)%Q) in *. set (U := (1 + rounding_unit)%Q) in *.
  assert (HL0 : (0 <= L)%Q) by (unfold L; lra).
  assert (HL1 : (L <= 1)%Q) by (unfold L; lra).
  assert (HU1 : (1 <= U)%Q) by (unfold U; lra).
  assert (HL3 : (0 <= L * (L * L))%Q)
    by (repeat apply Qmult_le_0_compat; assumption).
  assert (Hp : (0 <= SF2Q (sq r tr))%Q).
  { eapply Qle_trans; [|exact (proj1 Hi1)]. apply Qmult_le_0_compat; assumption. }
  assert (Hq : (0 <= SF2Q (sq g tg))%Q).
  { eapply Qle_trans; [|exact (proj1 Hi2)]. apply Qmult_le_0_compat; assumption. }
  assert (Hrr : (0 <= SF2Q (sq b tb))%Q).
  { eapply Qle_trans; [|exact (proj1 Hi3)]. apply Qmult_le_0_compat; assumption. }
  destruct (SFadd_error (-968) 954 _ _ ltac:(lia) ltac:(lia) Hc1 Hc2)
    as [Hc4 He4].
  change (-968 - 52) with (-1020) in Hc4. change (954 + 2) with 956 in Hc4.
  assert (Hpq : (0 <= SF2Q (sq r tr) + SF2Q (sq g tg))%Q)
    by (apply Qadd_nonneg; assumption).
  pose proof (rel_interval rounding_unit _ _ Hpq He4) as Hi4.
  fold L U in Hi4.
  assert (Hs1 : (0 <= SF2Q (SF64add (sq r tr) (sq g tg)))%Q).
  { eapply Qle_trans; [|exact (proj1 Hi4)]. apply Qmult_le_0_compat; assumption. }
  destruct (SFadd_error (-1020) 956 _ _ ltac:(lia) ltac:(lia) Hc4
              (SFcanon_weaken (-968) 954 (-1020) 956 _ ltac:(lia) ltac:(lia) Hc3))
    as [Hc5 He5].
  change (-1020 - 52) with (-1072) in Hc5. change (956 + 2) with 958 in Hc5.
  split; [exact Hc5|].
  assert (Hsr : (0 <= SF2Q (SF64add (sq r tr) (sq g tg)) + SF2Q (sq b tb))%Q)
    by (apply Qadd_nonneg; assumption).
  pose proof (rel_interval rounding_unit _ _ Hsr He5) as Hi5.
  fold L U in Hi5. fold d2 in Hi5.
  pose proof (sum_chain L U A B C _ _ _ _ _ HL0 HL1 HU1 HA HB HC
                Hi1 Hi2 Hi3 Hi4 Hi5) as [Hlow Hup].
  destruct five_roundings as [F1 F2]. fold L in F1. fold U in F2.
  assert (HD : (0 <= A + B + C)%Q)
    by (repeat apply Qadd_nonneg; assumption).
  exact (accuracy_from_bounds _ _ _ _ _ HD F1 F2 Hlow Hup).
Qed.
(** *** The numbers the matchers work on *)

Lemma SFcanonb_spec (lo hi : Z) (x : spec_float) :
  SFcanonb lo hi x = true -> SFcanon lo hi x.
Proof.
  destruct x as [s|s| |s m e]; cbn [SFcanonb SFcanon]; try discriminate;
    try tauto.
  intros H. apply andb_true_iff in H as [H H3].
  apply andb_true_iff in H as [H1 H2].
  apply Z.eqb_eq in H1. apply Z.leb_le in H2, H3. tauto.
Qed.

(** A whole number of [0 .. 2^53 - 1] promoted to [PF_FpLong] is that
    number. *)
Lemma FpLong_of_Z_value (n : Z) :
  0 <= n < 2 ^ 53 ->
  SFcanon (-52) 0 (Prim2SF (FpLong_of_Z n))
  /\ (FpLong_value (FpLong_of_Z n) == inject_Z n)%Q.
Proof.
  intros Hn. destruct n as [|p|p]; [| |lia].
  - split; [exact I|reflexivity].
  - unfold FpLong_value. rewrite (FpLong_of_Z_dyadic p) by lia.
    destruct (dyadic_mantissa p ltac:(lia)) as (Hd & Hv & H53).
    cbv zeta in *. unfold SFdyadic. set (d := Zpos (digits2_pos p)) in *.
    split; [cbn [SFcanon]; lia|].
    cbn [SF2Q cond_Zopp]. rewrite Hv.
    rewrite <- (Qpow2_shift (Zpos p) (d - 53 + 0) (53 - d)) by lia.
    replace (d - 53 + 0 + (53 - d)) with 0 by lia.
    change (2 ^ 0)%Q with 1%Q. ring.
Qed.

Lemma scaled_targets_checked :
  all_below 8 0
    (fun t =>
       SFcanonb (-458) 448
         (Prim2SF (FpLong_of_Z t * native_scale PF_PixelFormat_ARGB64))
       && SFcanonb (-458) 448
            (Prim2SF (FpLong_of_Z t * native_scale PF_PixelFormat_ARGB128)))
  = true.
Proof. vm_compute. reflexivity. Qed.

(** The targets scaled to the 16-bit and to the float range are zero or
    normal numbers. *)
Lemma scaled_target_canon (t : Z) :
  0 <= t <= 255 ->
  SFcanon (-458) 448
    (Prim2SF (FpLong_of_Z t * native_scale PF_PixelFormat_ARGB64))
  /\ SFcanon (-458) 448
       (Prim2SF (FpLong_of_Z t * native_scale PF_PixelFormat_ARGB128)).
Proof.
  intros Ht.
  pose proof (all_below_spec 8 0 _ scaled_targets_checked t
                ltac:(change (2 ^ Z.of_nat 8) with 256; lia)) as H.
  cbv beta in H. apply andb_true_iff in H as [H1 H2].
  split; apply SFcanonb_spec; assumption.
Qed.

(** The squared distance of the 16-bit and float matchers against the
    exact squared distance of the same six numbers. *)
Lemma sq_distance_error (r g b tr tg tb : float) :
  SFcanon (-458) 448 (Prim2SF r) -> SFcanon (-458) 448 (Prim2SF g) ->
  SFcanon (-458) 448 (Prim2SF b) -> SFcanon (-458) 448 (Prim2SF tr) ->
  SFcanon (-458) 448 (Prim2SF tg) -> SFcanon (-458) 448 (Prim2SF tb) ->
  let d2 := (sq_difference r tr + sq_difference g tg
             + sq_difference b tb)%float in
  let D := ((FpLong_value r - FpLong_value tr) * (FpLong_value r - FpLong_value tr)
            + (FpLong_value g - FpLong_value tg) * (FpLong_value g - FpLong_value tg)
            + (FpLong_value b - FpLong_value tb) * (FpLong_value b - FpLong_value tb))%Q in
  SFcanon (-1072) 958 (Prim2SF d2)
  /\ (Qabs (FpLong_value d2 - D) <= distance_accuracy * D)%Q.
Proof.
  intros Hr Hg Hb Htr Htg Htb d2 D. subst d2 D.
  unfold FpLong_value at 1. unfold sq_difference.
  rewrite !FloatAxioms.add_spec, !FloatAxioms.mul_spec, !FloatAxioms.sub_spec.
  exact (SF_sq_distance_error _ _ _ _ _ _ Hr Hg Hb Htr Htg Htb).
Qed.

Lemma exact_distance_8bit (pr pg pb tr tg tb : Z) :
  (inject_Z ((pr - tr) ^ 2 + (pg - tg) ^ 2 + (pb - tb) ^ 2)
   == (inject_Z pr - inject_Z tr) * (inject_Z pr - inject_Z tr)
      + (inject_Z pg - inject_Z tg) * (inject_Z pg - inject_Z tg)
      + (inject_Z pb - inject_Z tb) * (inject_Z pb - inject_Z tb))%Q.
Proof.
  rewrite !Z.pow_2_r, !inject_Z_plus, !inject_Z_mult.
  unfold Z.sub. rewrite !inject_Z_plus, !inject_Z_opp. ring.
Qed.

Lemma Qabs_self_le (c v : Q) : (0 <= c -> 0 <= v -> Qabs (v - v) <= c * v)%Q.
Proof.
  intros Hc Hv. assert (Hz : (v - v == 0)%Q) by ring. rewrite Hz.
  change (Qabs 0) with 0%Q. apply Qmult_le_0_compat; assumption.
Qed.

Lemma byte_sq_difference_bound (p t : Z) :
  0 <= p <= 255 -> 0 <= t <= 255 -> 0 <= (p - t) ^ 2 <= 65025.
Proof.
  intros Hp Ht. rewrite Z.pow_2_r.
  assert (-255 <= p - t <= 255) by lia.
  generalize dependent (p - t). intros d Hd. nia.
Qed.

Lemma SFcanon_fin (lo hi : Z) (x : spec_float) : SFcanon lo hi x -> SFfin x.
Proof. destruct x; cbn; tauto. Qed.

(** The squared distance the matchers compare: finite, and equal to or
    near the exact squared distance. *)
Lemma sq_distance_accuracy (format : PF_PixelFormat) (target : PF_Pixel Z)
    (pixel : PF_Pixel (channel format)) :
  byte_range target -> rgb_representable format pixel ->
  let d2 := sq_distance_to_target format target pixel in
  let D := exact_sq_distance format target pixel in
  FpLong_finite d2 /\ (0 <= D)%Q
  /\ (Qabs (FpLong_value d2 - D) <= distance_accuracy * D)%Q.
Proof.
  intros Ht Hrep d2 D. subst d2 D. unfold exact_sq_distance. cbv zeta.
  destruct Ht as (Htr & Htg & Htb). destruct Hrep as (Hr & Hg & Hb).
  split; [|split].
  2:{ repeat apply Qadd_nonneg; apply Qsquare_nonneg. }
  all: destruct format;
    cbn [sq_distance_to_target channel_value target_value
         channel_representable channel] in *.
  - assert (HN : 0 <= (red pixel - red target) ^ 2
                      + (green pixel - green target) ^ 2
                      + (blue pixel - blue target) ^ 2 < 2 ^ 53).
    { change (2 ^ 53) with 9007199254740992.
      pose proof (byte_sq_difference_bound _ _ Hr Htr).
      pose proof (byte_sq_difference_bound _ _ Hg Htg).
      pose proof (byte_sq_difference_bound _ _ Hb Htb). lia. }
    destruct (FpLong_of_Z_value _ HN) as [Hc _].
    exact (SFcanon_fin _ _ _ Hc).
  - destruct (FpLong_of_Z_value (red pixel)
                ltac:(change (2 ^ 53) with 9007199254740992; lia)) as [Cr Vr].
    destruct (FpLong_of_Z_value (green pixel)
                ltac:(change (2 ^ 53) with 9007199254740992; lia)) as [Cg Vg].
    destruct (FpLong_of_Z_value (blue pixel)
                ltac:(change (2 ^ 53) with 9007199254740992; lia)) as [Cb Vb].
    cbv zeta. apply (SFcanon_fin (-1072) 958).
    apply sq_distance_error;
      try (apply (SFcanon_weaken (-52) 0); [lia|lia|assumption]);
      apply scaled_target_canon; assumption.
  - cbv zeta. apply (SFcanon_fin (-1072) 958).
    apply sq_distance_error;
      try (apply (SFcanon_weaken (-201) 75); [lia|lia|assumption]);
      apply scaled_target_canon; assumption.
  - set (N := (red pixel - red target) ^ 2
              + (green pixel - green target) ^ 2
              + (blue pixel - blue target) ^ 2).
    assert (HN : 0 <= N < 2 ^ 53).
    { change (2 ^ 53) with 9007199254740992. subst N.
      pose proof (byte_sq_difference_bound _ _ Hr Htr).
      pose proof (byte_sq_difference_bound _ _ Hg Htg).
      pose proof (byte_sq_difference_bound _ _ Hb Htb). lia. }
    destruct (FpLong_of_Z_value N HN) as [_ Hv].
    rewrite Hv. subst N. rewrite exact_distance_8bit.
    apply Qabs_self_le; [unfold distance_accuracy; lra|].
    repeat apply Qadd_nonneg; apply Qsquare_nonneg.
  - destruct (FpLong_of_Z_value (red pixel)
                ltac:(change (2 ^ 53) with 9007199254740992; lia)) as [Cr Vr].
    destruct (FpLong_of_Z_value (green pixel)
                ltac:(change (2 ^ 53) with 9007199254740992; lia)) as [Cg Vg].
    destruct (FpLong_of_Z_value (blue pixel)
                ltac:(change (2 ^ 53) with 9007199254740992; lia)) as [Cb Vb].
    rewrite <- Vr, <- Vg, <- Vb. cbv zeta.
    apply sq_distance_error;
      try (apply (SFcanon_weaken (-52) 0); [lia|lia|assumption]);
      apply scaled_target_canon; assumption.
  - cbv zeta.
    apply sq_distance_error;
      try (apply (SFcanon_weaken (-201) 75); [lia|lia|assumption]);
      apply scaled_target_canon; assumption.
Qed.

(** Claim C1.  For each pixel format the matcher, run on the target and
    tolerance that [InitProcessingContext] scales to the format, answers
    true exactly when the squared Euclidean RGB distance between the pixel
    and the scaled target, taken in the native numbers of the format, is
    at most the squared tolerance; a distance equal to the squared
    tolerance is a match.  That distance is the exact squared Euclidean
    distance for 8-bit pixels, and within [2^-49] of it, relatively, for
    16-bit and float pixels; so, against the exact distance [D] and a
    finite squared tolerance, a match has [D] at most the squared
    tolerance up to that margin, and a [D] below the squared tolerance by
    that margin is a match. *)
Theorem target_match_iff_within_tolerance (format : PF_PixelFormat)
    (g : WeightTables) (info : ColorLinesInfo (channel format))
    (pixel : PF_Pixel (channel format)) :
  byte_range (targetColor info) -> channels_in_range format pixel ->
  let ctx := snd (InitProcessingContext g info) in
  let d2 := sq_distance_to_target format (targetColor info) pixel in
  let tol2 := tolerance_squared format (tolerance info) in
  (isLine_format format ctx pixel = true <-> (d2 <=? tol2)%float = true)
  /\ ((d2 =? tol2)%float = true -> isLine_format format ctx pixel = true)
  /\ (rgb_representable format pixel ->
      let D := exact_sq_distance format (targetColor info) pixel in
      (Qabs (FpLong_value d2 - D) <= distance_accuracy * D)%Q
      /\ (FpLong_finite tol2 ->
          (isLine_format format ctx pixel = true ->
           ((1 - distance_accuracy) * D <= FpLong_value tol2)%Q)
          /\ (((1 + distance_accuracy) * D <= FpLong_value tol2)%Q ->
              isLine_format format ctx pixel = true))).
Proof.
  intros Ht Hp ctx d2 tol2.
  assert (Heq : isLine_format format ctx pixel = (d2 <=? tol2)%float).
  { subst ctx d2 tol2. destruct format; simpl in *.
    - unfold isLine8, IsTargetColor8Fast. simpl.
      destruct Ht as (? & ? & ?).
      rewrite distSq8_exact by assumption. reflexivity.
    - reflexivity.
    - reflexivity. }
  rewrite Heq. split; [reflexivity|]. split; [apply float_eqb_leb|].
  intros Hrep D.
  destruct (sq_distance_accuracy format (targetColor info) pixel Ht Hrep)
    as (Fd & HD & Hacc).
  fold d2 D in Fd, HD, Hacc. split; [exact Hacc|].
  intros Ftol. apply Qabs_Qle_condition in Hacc. destruct Hacc as [Hlo Hhi].
  pose proof (FpLong_leb_Q d2 tol2 Fd Ftol) as C.
  destruct (d2 <=? tol2)%float.
  - split; [intros _; lra|reflexivity].
  - split; [discriminate|]. intros Hle. exfalso. lra.
Qed.

(** An 8-bit pixel at distance exactly 10 from the target, with the
    tolerance squared standing at 100: a match.  A 16-bit and a float
    pixel within the tolerance of the scaled target: matches, the second
    one through its exact squared distance; both with a computed squared
    distance within [2^-49] of the exact one. *)
Lemma target_match_witness :
  let info := info_average_plain in
  let pixel : PF_Pixel8 := mkPixel 255 190 0 0 in
  let pixel16 : PF_Pixel16 := mkPixel 32768 25000 300 100 in
  let pixelF : PF_PixelFloat := mkPixel 1%float 0.75%float 0.125%float 0%float in
  (byte_range (targetColor info) /\ byte_range pixel
   /\ sq_distance_to_target PF_PixelFormat_ARGB32 (targetColor info) pixel
      = 100%float
   /\ (isLine_format PF_PixelFormat_ARGB32
         (snd (InitProcessingContext initial_tables info)) pixel = true
       <-> (100 <=? tolerance_squared PF_PixelFormat_ARGB32 (tolerance info))%float
           = true))
  /\ (rgb_representable PF_PixelFormat_ARGB64 pixel16
      /\ isLine_format PF_PixelFormat_ARGB64
           (snd (InitProcessingContext initial_tables info)) pixel16 = true
      /\ (Qabs (FpLong_value
                  (sq_distance_to_target PF_PixelFormat_ARGB64
                     (targetColor info) pixel16)
                - exact_sq_distance PF_PixelFormat_ARGB64 (targetColor info)
                    pixel16)
          <= distance_accuracy
             * exact_sq_distance PF_PixelFormat_ARGB64 (targetColor info)
                 pixel16)%Q)
  /\ (rgb_representable PF_PixelFormat_ARGB128 pixelF
      /\ ((1 + distance_accuracy)
          * exact_sq_distance PF_PixelFormat_ARGB128
              (targetColor info_float_plain) pixelF
          <= FpLong_value
               (tolerance_squared PF_PixelFormat_ARGB128
                  (tolerance info_float_plain)))%Q
      /\ isLine_format PF_PixelFormat_ARGB128
           (snd (InitProcessingContext initial_tables info_float_plain))
           pixelF = true
      /\ (Qabs (FpLong_value
                  (sq_distance_to_target PF_PixelFormat_ARGB128
                     (targetColor info_float_plain) pixelF)
                - exact_sq_distance PF_PixelFormat_ARGB128
                    (targetColor info_float_plain) pixelF)
          <= distance_accuracy
             * exact_sq_distance PF_PixelFormat_ARGB128
                 (targetColor info_float_plain) pixelF)%Q).
Proof.
  cbv zeta.
  assert (Hp : byte_range (mkPixel 255 190 0 0)).
  { unfold byte_range. simpl. lia. }
  assert (H16 : rgb_representable PF_PixelFormat_ARGB64
                  (mkPixel 32768 25000 300 100)).
  { unfold rgb_representable. simpl. lia. }
  assert (HF : rgb_representable PF_PixelFormat_ARGB128
                 (mkPixel 1%float 0.75%float 0.125%float 0%float)).
  { unfold rgb_representable. cbn [red green blue channel_representable].
    split; [|split]; apply SFcanonb_spec; vm_compute; reflexivity. }
  assert (HD : ((1 + distance_accuracy)
                * exact_sq_distance PF_PixelFormat_ARGB128
                    (targetColor info_float_plain)
                    (mkPixel 1%float 0.75%float 0.125%float 0%float)
                <= FpLong_value
                     (tolerance_squared PF_PixelFormat_ARGB128
                        (tolerance info_float_plain)))%Q).
  { apply Qle_bool_imp_le. vm_compute. reflexivity. }
  split; [|split].
  - split; [exact example_target_in_bytes|]. split; [exact Hp|].
    split; [reflexivity|].
    exact (proj1 (target_match_iff_within_tolerance PF_PixelFormat_ARGB32
                    initial_tables info_average_plain (mkPixel 255 190 0 0)
                    example_target_in_bytes Hp)).
  - destruct (target_match_iff_within_tolerance PF_PixelFormat_ARGB64
                initial_tables info_average_plain
                (mkPixel 32768 25000 300 100) example_target_in_bytes I)
      as (Hiff & _ & Hacc).
    split; [exact H16|]. split; [|exact (proj1 (Hacc H16))].
    apply Hiff. vm_compute. reflexivity.
  - destruct (target_match_iff_within_tolerance PF_PixelFormat_ARGB128
                initial_tables info_float_plain
                (mkPixel 1%float 0.75%float 0.125%float 0%float)
                example_target_in_bytes I)
      as (_ & _ & Hacc).
    destruct (Hacc HF) as [Hnear Hverdict].
    split; [exact HF|]. split; [exact HD|]. split; [|exact Hnear].
    exact (proj2 (Hverdict I) HD).
Defined.

(* ===================================================================== *)
(** ** First pass                                                         *)
(* ===================================================================== *)

Lemma in_edge_margin_true (ctx : ProcessingContext) (xL yL : Z) :
  in_edge_margin ctx xL yL = true <->
  xL < edgeMargin ctx \/ yL < edgeMargin ctx
  \/ xL >= width ctx - edgeMargin ctx \/ yL >= height ctx - edgeMargin ctx.
Proof.
  unfold in_edge_margin. rewrite !orb_true_iff.
  rewrite !Z.ltb_lt, !Z.geb_le. lia.
Qed.

Lemma FillAndMask_Optimized_unfold (format : PF_PixelFormat) :
  FillAndMask_Optimized format
  = FillAndMask (format_ops format) (isLine_format format)
      (FillLinePixel_format format).
Proof.
  destruct format;
    cbn [FillAndMask_Optimized format_ops isLine_format FillLinePixel_format];
    reflexivity.
Qed.

Section Pass1Facts.

Context {C : Type}.
Variable ops : DepthOps C.
Variable isLineColor : ProcessingContext -> PF_Pixel C -> bool.
Variable fillLine :
  WeightTables -> ColorLinesInfo C -> Z -> Z -> PF_Pixel C ->
  ProcessingContext -> PF_Pixel C.
Variable g : WeightTables.
Variable ctx : ProcessingContext.
Variable info : ColorLinesInfo C.
Variables xL yL : Z.
Variable inP : PF_Pixel C.
Hypothesis Hwf : mask_wf info.
Hypothesis Hin : in_frame info xL yL.

Lemma FillAndMask_edge :
  in_edge_margin ctx xL yL = true ->
  let r := FillAndMask ops isLineColor fillLine g ctx info xL yL inP in
  fst r = inP /\ GetMaskAtFast (snd r) xL yL = 0.
Proof.
  intros He. cbv zeta. unfold FillAndMask. rewrite He. simpl.
  split; [reflexivity|]. now apply GetMaskAtFast_SetMaskAtFast.
Qed.

Lemma FillAndMask_mask_value :
  in_edge_margin ctx xL yL = false ->
  GetMaskAtFast
    (snd (FillAndMask ops isLineColor fillLine g ctx info xL yL inP)) xL yL
  = if isLineColor ctx inP then 255 else 0.
Proof.
  intros He. unfold FillAndMask. rewrite He. simpl.
  now apply GetMaskAtFast_SetMaskAtFast.
Qed.

Lemma FillAndMask_line_only_unmasked :
  in_edge_margin ctx xL yL = false ->
  outputMode info = OUTPUT_MODE_LINE_ONLY ->
  let r := FillAndMask ops isLineColor fillLine g ctx info xL yL inP in
  GetMaskAtFast (snd r) xL yL = 0 -> fst r = zero_pixel ops.
Proof.
  intros He Hm r Hz. subst r. rewrite (FillAndMask_mask_value He) in Hz.
  unfold FillAndMask. rewrite He. simpl. rewrite Hm. simpl.
  destruct (isLineColor ctx inP); [discriminate|reflexivity].
Qed.

Lemma FillAndMask_bg_only_masked :
  outputMode info = OUTPUT_MODE_BG_ONLY ->
  let r := FillAndMask ops isLineColor fillLine g ctx info xL yL inP in
  GetMaskAtFast (snd r) xL yL = 255 -> fst r = zero_pixel ops.
Proof.
  intros Hm r Hz. subst r. destruct (in_edge_margin ctx xL yL) eqn:He.
  - destruct (FillAndMask_edge He) as [_ H0]. rewrite H0 in Hz. discriminate.
  - rewrite (FillAndMask_mask_value He) in Hz.
    unfold FillAndMask. rewrite He. simpl. rewrite Hm. simpl.
    destruct (isLineColor ctx inP); [reflexivity|discriminate].
Qed.

End Pass1Facts.

(** Claim C2.  For a pixel within [searchRadius] of a border of the
    frame, the first-pass callback of every format writes the input pixel
    to the output and 0 to the pixel's mask cell, whatever the colour. *)
Theorem edge_margin_passes_through (format : PF_PixelFormat)
    (g : WeightTables) (info : ColorLinesInfo (channel format))
    (xL yL : Z) (inP : PF_Pixel (channel format)) :
  mask_wf info -> in_frame info xL yL ->
  xL < searchRadius info \/ yL < searchRadius info
  \/ xL >= world_width (srcWorld info) - searchRadius info
  \/ yL >= world_height (srcWorld info) - searchRadius info ->
  let ctx := snd (InitProcessingContext g info) in
  let r := FillAndMask_Optimized format g ctx info xL yL inP in
  fst r = inP /\ GetMaskAtFast (snd r) xL yL = 0.
Proof.
  intros Hwf Hin Hedge ctx r. subst r.
  rewrite FillAndMask_Optimized_unfold.
  apply FillAndMask_edge; [exact Hwf|exact Hin|].
  apply in_edge_margin_true. exact Hedge.
Qed.

(** The corner pixel of a 3x3 frame under radius 1, itself of the target
    colour. *)
Lemma edge_margin_witness :
  let info := info_average_plain in
  let r := FillAndMask_Optimized PF_PixelFormat_ARGB32 initial_tables
             (snd (InitProcessingContext initial_tables info)) info 0 0
             opaque_red in
  0 < searchRadius info /\ fst r = opaque_red /\ GetMaskAtFast (snd r) 0 0 = 0.
Proof.
  cbv zeta. split; [reflexivity|].
  apply (edge_margin_passes_through PF_PixelFormat_ARGB32 initial_tables
           info_average_plain 0 0 opaque_red).
  - apply example_mask_wf.
  - unfold in_frame. simpl. lia.
  - left. simpl. lia.
Defined.

(** Against claim C3 as stated: in LineOnly mode the corner pixel of a
    3x3 frame has mask value 0 and keeps its input alpha of 255. *)
Lemma line_only_edge_pixel_stays_opaque :
  ~ line_only_unmasked_is_transparent PF_PixelFormat_ARGB32 initial_tables
      info_line_only 0 0 opaque_green.
Proof.
  unfold line_only_unmasked_is_transparent. intros H.
  specialize (H eq_refl eq_refl). vm_compute in H. discriminate H.
Qed.

(** Claim C3, amended.  In LineOnly mode a pixel outside the edge margin
    whose mask value is 0 after its first-pass callback has output alpha
    0; in BackgroundOnly mode a pixel whose mask value is 255 has output
    alpha 0; both in every format.  (Pixels of the edge margin have mask
    value 0 and keep their input alpha in every mode.) *)
Theorem output_mode_transparency (format : PF_PixelFormat)
    (g : WeightTables) (info : ColorLinesInfo (channel format)) (xL yL : Z)
    (inP : PF_Pixel (channel format)) :
  mask_wf info -> in_frame info xL yL ->
  (in_edge_margin (snd (InitProcessingContext g info)) xL yL = false ->
   line_only_unmasked_is_transparent format g info xL yL inP)
  /\ bg_only_masked_is_transparent format g info xL yL inP.
Proof.
  intros Hwf Hin.
  unfold line_only_unmasked_is_transparent, bg_only_masked_is_transparent.
  rewrite FillAndMask_Optimized_unfold. split.
  - intros He Hm Hz.
    rewrite (FillAndMask_line_only_unmasked _ _ _ _ _ _ _ _ _ Hwf Hin He Hm Hz).
    reflexivity.
  - intros Hm Hz.
    rewrite (FillAndMask_bg_only_masked _ _ _ _ _ _ _ _ _ Hwf Hin Hm Hz).
    reflexivity.
Qed.

(** The centre pixel of the 3x3 green frame in LineOnly mode: outside the
    margin, not of the target colour, written transparent. *)
Lemma output_mode_transparency_witness :
  in_edge_margin (snd (InitProcessingContext initial_tables info_line_only))
    1 1 = false
  /\ line_only_unmasked_is_transparent PF_PixelFormat_ARGB32 initial_tables
       info_line_only 1 1 opaque_green
  /\ alpha (fst (FillAndMask_Optimized PF_PixelFormat_ARGB32 initial_tables
                   (snd (InitProcessingContext initial_tables info_line_only))
                   info_line_only 1 1 opaque_green)) = 0.
Proof.
  assert (Hin : in_frame info_line_only 1 1).
  { unfold in_frame. simpl. lia. }
  pose proof (proj1 (output_mode_transparency PF_PixelFormat_ARGB32
                       initial_tables info_line_only 1 1 opaque_green
                       (example_mask_wf _ _ _ _) Hin) eq_refl) as H.
  split; [reflexivity|]. split; [exact H|].
  apply H; reflexivity.
Defined.

(* ===================================================================== *)
(** ** Line fill                                                          *)
(* ===================================================================== *)

Section FillFacts.

Context {C : Type}.
Variable ops : DepthOps C.
Variable isTarget : PF_Pixel C -> bool.
Variable g : WeightTables.
Variable info : ColorLinesInfo C.
Variables x y : Z.

Hypothesis all_unusable :
  forall dx dy,
    - searchRadius info <= dx <= searchRadius info ->
    - searchRadius info <= dy <= searchRadius info ->
    (dx, dy) <> (0, 0) -> unusable ops isTarget info (x + dx) (y + dy) = true.

Lemma fill_tap_unusable (isAverage : bool) (dy dx : Z) (acc : Acc) :
  - searchRadius info <= dx <= searchRadius info ->
  - searchRadius info <= dy <= searchRadius info ->
  (y + dy <? 0) || (y + dy >=? world_height (srcWorld info)) = false ->
  fill_tap ops isTarget g info x isAverage dy (y + dy) dx acc = acc.
Proof.
  intros Hdx Hdy Hrow. unfold fill_tap.
  destruct ((dx =? 0) && (dy =? 0)) eqn:E0; [reflexivity|].
  assert (Hne : (dx, dy) <> (0, 0)).
  { intros Heq. inversion Heq; subst. discriminate. }
  pose proof (all_unusable dx dy Hdx Hdy Hne) as Hu. unfold unusable in Hu.
  apply orb_false_elim in Hrow as [Ey1 Ey2].
  rewrite <- !orb_assoc, Ey1, Ey2 in Hu. simpl in Hu.
  rewrite orb_assoc in Hu.
  destruct ((x + dx <? 0) || (x + dx >=? world_width (srcWorld info)));
    [reflexivity|].
  simpl in Hu. now rewrite Hu.
Qed.

Lemma fill_accumulate_unusable :
  fill_accumulate ops isTarget g info x y = acc_zero.
Proof.
  unfold fill_accumulate, for_range. apply fold_left_id.
  intros dy s Hdy. apply In_range in Hdy. unfold fill_row.
  destruct ((y + dy <? 0) || (y + dy >=? world_height (srcWorld info))) eqn:Ey;
    [reflexivity|].
  unfold for_range. apply fold_left_id.
  intros dx s' Hdx. apply In_range in Hdx.
  now apply fill_tap_unusable.
Qed.

Lemma raw_fill_unusable (inP : PF_Pixel C) :
  fillMode info <> FILL_MODE_NEAREST ->
  raw_fill ops isTarget g info x y inP = inP.
Proof.
  intros Hmode. unfold raw_fill.
  destruct (fillMode info =? FILL_MODE_NEAREST) eqn:E.
  - apply Z.eqb_eq in E. contradiction.
  - rewrite fill_accumulate_unusable. reflexivity.
Qed.

End FillFacts.

Lemma FillLinePixel_format_unfold (format : PF_PixelFormat)
    (g : WeightTables) (info : ColorLinesInfo (channel format)) (x y : Z)
    (inP : PF_Pixel (channel format)) (ctx : ProcessingContext) :
  FillLinePixel_format format g info x y inP ctx
  = ApplyColorAdjustmentsFast format
      (raw_fill (format_ops format) (isLine_format format ctx) g info x y inP)
      (colorAdj ctx).
Proof.
  destruct format;
    cbn [FillLinePixel_format ApplyColorAdjustmentsFast format_ops
         isLine_format];
    unfold FillLinePixel8, FillLinePixel16, FillLinePixelFloat, FillLinePixel,
      isLine8, isLine16, isLineFloat;
    reflexivity.
Qed.

Lemma ApplyColorAdjustmentsFast_off (format : PF_PixelFormat)
    (p : PF_Pixel (channel format)) (adj : ColorAdjustParams) :
  needsAdjustment adj = false -> ApplyColorAdjustmentsFast format p adj = p.
Proof.
  intros H. destruct format; cbn [ApplyColorAdjustmentsFast];
    unfold ApplyColorAdjustments8Fast, ApplyColorAdjustments16Fast,
      ApplyColorAdjustmentsFloatFast; rewrite H; reflexivity.
Qed.

(** Claim C4, amended.  In the Average and Weighted fill modes, when every
    neighbour of the window is skipped, the fill value is the input pixel
    and the pixel written is the colour adjuster applied to the input
    pixel; it is the input pixel itself when no adjustment is active. *)
Theorem zero_weight_fill_is_adjusted_input (format : PF_PixelFormat)
    (g : WeightTables) (ctx : ProcessingContext)
    (info : ColorLinesInfo (channel format)) (x y : Z)
    (inP : PF_Pixel (channel format)) :
  fillMode info = FILL_MODE_AVERAGE \/ fillMode info = FILL_MODE_WEIGHTED ->
  all_neighbors_unusable format ctx info x y ->
  raw_fill (format_ops format) (isLine_format format ctx) g info x y inP = inP
  /\ FillLinePixel_format format g info x y inP ctx
     = ApplyColorAdjustmentsFast format inP (colorAdj ctx)
  /\ (needsAdjustment (colorAdj ctx) = false ->
      FillLinePixel_format format g info x y inP ctx = inP).
Proof.
  intros Hmode Hall.
  assert (Hm : fillMode info <> FILL_MODE_NEAREST).
  { unfold FILL_MODE_NEAREST, FILL_MODE_AVERAGE, FILL_MODE_WEIGHTED in *. lia. }
  assert (Hraw : raw_fill (format_ops format) (isLine_format format ctx) g
                   info x y inP = inP).
  { apply raw_fill_unusable; [exact Hall|exact Hm]. }
  rewrite FillLinePixel_format_unfold, Hraw.
  split; [reflexivity|]. split; [reflexivity|].
  apply ApplyColorAdjustmentsFast_off.
Qed.

(** The 3x3 frame whose nine pixels are of the target colour: all eight
    neighbours of the centre are skipped. *)
Lemma frame_red_all_unusable (info : ColorLinesInfo Z) :
  searchRadius info = 1 -> srcWorld info = frame_red ->
  ignoreTransparent info = true -> targetColor info = mkPixel 255 200 0 0 ->
  tolerance info = 10%float ->
  all_neighbors_unusable PF_PixelFormat_ARGB32
    (snd (InitProcessingContext initial_tables info)) info 1 1.
Proof.
  intros Hr Hw Hi Ht Htol. unfold all_neighbors_unusable. cbn [channel].
  intros dx dy Hdx Hdy Hne. rewrite Hr in Hdx, Hdy.
  unfold neighbor_unusable, unusable, disqualified.
  cbn [format_ops isLine_format InitProcessingContext snd channel].
  unfold isLine8. cbn [targetR8 targetG8 targetB8 toleranceSq8].
  rewrite Hw, Hi, Ht, Htol.
  assert (Hx : dx = -1 \/ dx = 0 \/ dx = 1) by lia.
  assert (Hy : dy = -1 \/ dy = 0 \/ dy = 1) by lia.
  destruct Hx as [->|[->| ->]]; destruct Hy as [->|[->| ->]]; reflexivity.
Qed.

(** Against claim C4 as stated: with brightness 50 the centre pixel
    (200,0,0) of that frame is written as (255,127,127). *)
Lemma zero_weight_fill_is_brightened :
  ~ zero_weight_output_is_input PF_PixelFormat_ARGB32 initial_tables
      (snd (InitProcessingContext initial_tables info_average_bright))
      info_average_bright 1 1 opaque_red.
Proof.
  unfold zero_weight_output_is_input. intros H.
  specialize (H (or_introl eq_refl)
                (frame_red_all_unusable info_average_bright eq_refl eq_refl
                   eq_refl eq_refl eq_refl)).
  vm_compute in H. discriminate H.
Qed.

Lemma zero_weight_fill_witness :
  let info := info_average_plain in
  let ctx := snd (InitProcessingContext initial_tables info) in
  all_neighbors_unusable PF_PixelFormat_ARGB32 ctx info 1 1
  /\ FillLinePixel_format PF_PixelFormat_ARGB32 initial_tables info 1 1
       opaque_red ctx = opaque_red.
Proof.
  cbv zeta.
  pose proof (frame_red_all_unusable info_average_plain eq_refl eq_refl
                eq_refl eq_refl eq_refl) as Hall.
  split; [exact Hall|].
  apply (zero_weight_fill_is_adjusted_input PF_PixelFormat_ARGB32
           initial_tables _ info_average_plain 1 1 opaque_red
           (or_introl eq_refl) Hall).
  reflexivity.
Defined.

(* ===================================================================== *)
(** ** Blur pass                                                          *)
(* ===================================================================== *)

Section BlurFacts.

Context {C : Type}.
Variable ops : DepthOps C.
Variable g : WeightTables.
Variable ctx : BlurContext C.
Variables xL yL : Z.

Lemma blur_tap_unmasked (dy ny dx : Z) (acc : Acc) :
  GetMaskAt (blur_info ctx) (xL + dx) ny = 0 ->
  blur_tap ops g ctx xL dy ny dx acc = acc.
Proof.
  intros H. unfold blur_tap.
  destruct ((xL + dx <? 0) || (xL + dx >=? maskWidth (blur_info ctx)));
    [reflexivity|].
  rewrite H. reflexivity.
Qed.

Lemma hasAnyMask_false (ny dx : Z) :
  hasAnyMask ctx xL ny = false ->
  In dx (range (- blurRadius ctx) (blurRadius ctx)) ->
  GetMaskAt (blur_info ctx) (xL + dx) ny = 0.
Proof.
  unfold hasAnyMask. intros H Hin.
  destruct (GetMaskAt (blur_info ctx) (xL + dx) ny =? 0) eqn:E.
  - now apply Z.eqb_eq.
  - exfalso. apply not_true_iff_false in H. apply H.
    apply existsb_exists. exists dx. split; [exact Hin|]. now rewrite E.
Qed.

(** A row the 8-bit callback skips adds nothing in the other callbacks. *)
Lemma blur_row_skip_eq (dy : Z) (acc : Acc) :
  blur_row_skip ops g ctx xL yL dy acc = blur_row ops g ctx xL yL dy acc.
Proof.
  unfold blur_row_skip, blur_row.
  destruct ((yL + dy <? 0) || (yL + dy >=? maskHeight (blur_info ctx)));
    [reflexivity|].
  destruct (GetMaskAt (blur_info ctx) xL (yL + dy) =? 0); simpl;
    [|reflexivity].
  destruct (hasAnyMask ctx xL (yL + dy)) eqn:E; simpl; [reflexivity|].
  symmetry. unfold for_range. apply fold_left_id.
  intros dx s Hin. apply blur_tap_unmasked.
  now apply hasAnyMask_false.
Qed.

Lemma blur_accumulate_skip_eq :
  blur_accumulate_skip ops g ctx xL yL = blur_accumulate ops g ctx xL yL.
Proof.
  unfold blur_accumulate_skip, blur_accumulate, for_range.
  apply fold_left_ext_in. intros dy s _. apply blur_row_skip_eq.
Qed.

Lemma BlurPass_skip_eq (inP : PF_Pixel C) :
  BlurPass_skip ops g ctx xL yL inP = BlurPass ops g ctx xL yL inP.
Proof.
  unfold BlurPass_skip, BlurPass. now rewrite blur_accumulate_skip_eq.
Qed.

Lemma BlurPass_unmasked (inP : PF_Pixel C) :
  GetMaskAt (blur_info ctx) xL yL = 0 -> BlurPass ops g ctx xL yL inP = inP.
Proof. intros H. unfold BlurPass. now rewrite H. Qed.

End BlurFacts.

(** In every format the blur callback is the accumulation without the
    row skip. *)
Lemma BlurPass_Optimized_unfold (format : PF_PixelFormat) (g : WeightTables)
    (ctx : BlurContext (channel format)) (xL yL : Z)
    (inP : PF_Pixel (channel format)) :
  BlurPass_Optimized format g ctx xL yL inP
  = BlurPass (format_ops format) g ctx xL yL inP.
Proof.
  destruct format; cbn [BlurPass_Optimized format_ops].
  - unfold BlurPass8_Optimized. apply BlurPass_skip_eq.
  - reflexivity.
  - reflexivity.
Qed.

(** Claim C5.  In every format the blur callback returns its input pixel,
    the pixel of the first pass's output, when the pixel's mask value
    is 0. *)
Theorem blur_leaves_unmasked_pixels (format : PF_PixelFormat)
    (g : WeightTables) (ctx : BlurContext (channel format)) (xL yL : Z)
    (inP : PF_Pixel (channel format)) :
  GetMaskAt (blur_info ctx) xL yL = 0 ->
  BlurPass_Optimized format g ctx xL yL inP = inP.
Proof.
  intros H. rewrite BlurPass_Optimized_unfold. now apply BlurPass_unmasked.
Qed.

Lemma blur_leaves_unmasked_witness :
  GetMaskAt (blur_info example_blur_ctx) 0 1 = 0
  /\ BlurPass_Optimized PF_PixelFormat_ARGB32 initial_tables example_blur_ctx
       0 1 opaque_red = opaque_red.
Proof.
  split; [reflexivity|].
  apply (blur_leaves_unmasked_pixels PF_PixelFormat_ARGB32 initial_tables
           example_blur_ctx 0 1 opaque_red).
  reflexivity.
Defined.

(** Claim C7.  The row skip of the 8-bit blur callback changes no result:
    on the same mask, snapshot and weight table its running sums and its
    output pixel are those of the accumulation without the skip, the one
    of the 16-bit and float callbacks. *)
Theorem row_skip_preserves_blur (g : WeightTables) (ctx : BlurContext Z)
    (xL yL : Z) (inP : PF_Pixel8) :
  blur_accumulate_skip ops8 g ctx xL yL = blur_accumulate ops8 g ctx xL yL
  /\ BlurPass8_Optimized g ctx xL yL inP
     = BlurPass8_unoptimized g ctx xL yL inP.
Proof.
  split.
  - apply blur_accumulate_skip_eq.
  - apply BlurPass_skip_eq.
Qed.

(* ===================================================================== *)
(** ** The render call                                                    *)
(* ===================================================================== *)

Lemma iterate_state_invariant {C S : Type} (P : S -> Prop) (d : PF_Pixel C)
    (src : PF_EffectWorld C) (f : Z -> Z -> PF_Pixel C -> S -> PF_Pixel C * S)
    (s : S) :
  P s -> (forall x y p s, P s -> P (snd (f x y p s))) ->
  P (snd (iterate d src f s)).
Proof.
  intros Hs Hf. unfold iterate, for_range.
  apply (fold_left_preserves (fun st => P (snd st))); [|exact Hs].
  intros yL st _ Hst.
  apply (fold_left_preserves (fun st => P (snd st))); [|exact Hst].
  intros xL st' _ Hst'.
  specialize (Hf xL yL (pixel_at d src xL yL) (snd st') Hst').
  destruct (f xL yL (pixel_at d src xL yL) (snd st')) as [p s']. exact Hf.
Qed.

Lemma FillAndMask_sampleBlur {C : Type} (ops : DepthOps C) isLineColor fillLine
    g ctx (info : ColorLinesInfo C) xL yL inP :
  sampleBlur (snd (FillAndMask ops isLineColor fillLine g ctx info xL yL inP))
  = sampleBlur info.
Proof.
  unfold FillAndMask. destruct (in_edge_margin ctx xL yL); reflexivity.
Qed.

(** The first pass writes the mask and nothing else of the info. *)
Lemma pass1_sampleBlur {C : Type} (ops : DepthOps C) isLineColor fillLine g
    (info : ColorLinesInfo C) input :
  sampleBlur (snd (pass1 ops (FillAndMask ops isLineColor fillLine) g info input))
  = sampleBlur info.
Proof.
  unfold pass1.
  destruct (InitProcessingContext g (setup_info info input)) as [g' ctx] eqn:E.
  pose proof (iterate_state_invariant
    (fun i : ColorLinesInfo C => sampleBlur i = sampleBlur info)
    (zero_pixel ops) input
    (fun xL yL inP info0 =>
       FillAndMask ops isLineColor fillLine g' ctx info0 xL yL inP)
    (setup_info info input)) as H.
  destruct (iterate _ _ _ _) as [out info1]. simpl in *.
  apply H; [reflexivity|].
  intros x y p s Hs. rewrite FillAndMask_sampleBlur. exact Hs.
Qed.

(** Every setting of the slider, which moves in tenths from 0.0 to 100.0:
    the radius is the integer part of a tenth of the setting. *)
Lemma tenths_grid_checked :
  forallb (fun k =>
    effective_blur_radius (FpLong_of_Z k / 10)%float =? k / 100)
    (range 0 1000) = true.
Proof. vm_compute. reflexivity. Qed.

(** Claim C6.  The effective blur radius is the integer part of
    [sampleBlur / 10]: 2 for 25, 0 for 9, and [k / 100] for the slider
    setting of [k] tenths.  The render runs the blur pass exactly when the
    radius is at least 1; with a radius below 1 its result is the result
    of the first pass. *)
Theorem blur_radius_gates_second_pass (exp : float -> float)
    (format : PF_PixelFormat) (g : WeightTables)
    (info : ColorLinesInfo (channel format))
    (input : PF_EffectWorld (channel format)) (k : Z) :
  0 <= k <= 1000 ->
  let radius := effective_blur_radius (sampleBlur info) in
  let first := pass1_format format g info input in
  effective_blur_radius 25 = 2
  /\ effective_blur_radius 9 = 0
  /\ effective_blur_radius (FpLong_of_Z k / 10)%float = k / 100
  /\ (radius < 1 ->
      SmartRender_format exp format g info input = fst first)
  /\ (1 <= radius ->
      SmartRender_format exp format g info input
      = pass2 exp (format_ops format) (BlurPass_Optimized format)
          (fst (fst first)) (snd first) (snd (fst first)) radius).
Proof.
  intros Hk radius first.
  pose proof (pass1_sampleBlur (format_ops format) (isLine_format format)
                (FillLinePixel_format format) g info input) as Hsb.
  subst first. unfold SmartRender_format, SmartRender, pass1_format.
  rewrite FillAndMask_Optimized_unfold in *.
  destruct (pass1 _ _ g info input) as [[g1 out1] info1]. simpl in Hsb.
  cbn [fst snd]. rewrite Hsb. fold radius.
  split; [vm_compute; reflexivity|].
  split; [vm_compute; reflexivity|].
  split.
  { pose proof tenths_grid_checked as H.
    rewrite forallb_forall in H. apply Z.eqb_eq. apply H.
    apply In_range. lia. }
  split; intros Hr.
  - destruct (1 <=? radius) eqn:E; [lia|reflexivity].
  - destruct (1 <=? radius) eqn:E; [reflexivity|lia].
Qed.

(** The slider at 25.0, i.e. 250 tenths. *)
Lemma blur_radius_witness :
  0 <= 250 <= 1000
  /\ effective_blur_radius (FpLong_of_Z 250 / 10)%float = 2.
Proof.
  split; [lia|].
  apply (blur_radius_gates_second_pass exp_series PF_PixelFormat_ARGB32
           initial_tables info_average_plain frame_red 250).
  lia.
Defined.

(* ===================================================================== *)
(** ** Colour adjuster                                                    *)
(* ===================================================================== *)

Lemma brightness_stage_within01 (adj : ColorAdjustParams)
    (c : float * float * float) :
  needsBrightness adj = true -> all_within01 (brightness_stage adj c).
Proof.
  intros H. destruct c as [[r g] b]. unfold brightness_stage. rewrite H.
  repeat split; apply Clamp01_within01.
Qed.

Lemma contrast_stage_within01 (adj : ColorAdjustParams)
    (c : float * float * float) :
  needsContrast adj = true -> all_within01 (contrast_stage adj c).
Proof.
  intros H. destruct c as [[r g] b]. unfold contrast_stage. rewrite H.
  repeat split; apply Clamp01_within01.
Qed.

(** Against claim C8 as stated: the float adjuster with brightness 50
    writes red 0.75 back as 1.25. *)
Lemma float_adjuster_writes_above_one :
  ~ float_write_clamped bright_float_pixel brightness_only.
Proof.
  unfold float_write_clamped. vm_compute. discriminate.
Qed.

(** Claim C8, amended.  The 8-bit and 16-bit adjusters run their
    brightness and contrast stages on normalised channels clamped to
    [0, 1] and clamp every channel they write to the native range,
    [0, 255] and [0, 32768].  The float adjuster clamps only the arguments
    of the HSL conversion: with the saturation stage off it writes the
    result of the brightness and contrast stages, rounded to a float and
    not clamped. *)
Theorem adjuster_clamps_integer_formats (adj : ColorAdjustParams)
    (p8 : PF_Pixel8) (p16 : PF_Pixel16) (pf : PF_PixelFloat)
    (c : float * float * float) :
  needsAdjustment adj = true ->
  (let q := ApplyColorAdjustments8Fast p8 adj in
   0 <= red q <= 255 /\ 0 <= green q <= 255 /\ 0 <= blue q <= 255)
  /\ (let q := ApplyColorAdjustments16Fast p16 adj in
      0 <= red q <= PF_MAX_CHAN16 /\ 0 <= green q <= PF_MAX_CHAN16
      /\ 0 <= blue q <= PF_MAX_CHAN16)
  /\ (needsBrightness adj = true -> all_within01 (brightness_stage adj c))
  /\ (needsContrast adj = true -> all_within01 (contrast_stage adj c))
  /\ (needsSaturation adj = false ->
      let q := ApplyColorAdjustmentsFloatFast pf adj in
      red q = to_FpShort (float_linear_stages adj (red pf))
      /\ green q = to_FpShort (float_linear_stages adj (green pf))
      /\ blue q = to_FpShort (float_linear_stages adj (blue pf))).
Proof.
  intros Hadj. split; [|split; [|split; [|split]]].
  - cbv zeta. unfold ApplyColorAdjustments8Fast. rewrite Hadj. cbn [negb].
    destruct (saturation_stage adj _) as [[r g] b]. cbn [red green blue].
    repeat split; apply ClampByte_range.
  - cbv zeta. unfold ApplyColorAdjustments16Fast. rewrite Hadj. cbn [negb].
    destruct (saturation_stage adj _) as [[r g] b]. cbn [red green blue].
    repeat split; apply Clamp16_range.
  - apply brightness_stage_within01.
  - apply contrast_stage_within01.
  - intros Hs. cbv zeta.
    unfold ApplyColorAdjustmentsFloatFast, float_linear_stages.
    rewrite Hadj, Hs. cbn [negb].
    destruct (needsBrightness adj); destruct (needsContrast adj);
      cbn [red green blue]; repeat split; reflexivity.
Qed.

(** Brightness 50 on the 8-bit pixel (200,0,0): written as (255,127,127),
    all within [0, 255]. *)
Lemma adjuster_clamps_witness :
  needsAdjustment brightness_only = true
  /\ (let q := ApplyColorAdjustments8Fast opaque_red brightness_only in
      0 <= red q <= 255 /\ 0 <= green q <= 255 /\ 0 <= blue q <= 255).
Proof.
  split; [reflexivity|].
  apply (adjuster_clamps_integer_formats brightness_only opaque_red opaque_red
           bright_float_pixel (0, 0, 0)%float).
  reflexivity.
Defined.

(* ===================================================================== *)
(** ** Gaussian weights and the weight of a masked pixel                  *)
(* ===================================================================== *)

(** The arguments [PrecomputeGaussianWeights] hands to [exp] for the radii
    1..50: [-0] at the centre, and never above 0. *)
Lemma gaussian_args_checked :
  forallb (fun r =>
    PrimFloat.Leibniz.eqb (gaussian_arg r 0) (-0)%float
    && forallb (fun d => (gaussian_arg r d <=? 0)%float) (range 0 (2 * r * r)))
    (range 1 MAX_WEIGHT_TABLE_RADIUS) = true.
Proof. vm_compute. reflexivity. Qed.

Lemma gaussian_arg_spec (radius d : Z) :
  1 <= radius <= MAX_WEIGHT_TABLE_RADIUS -> 0 <= d <= 2 * radius * radius ->
  gaussian_arg radius 0 = (-0)%float /\ (gaussian_arg radius d <=? 0)%float = true.
Proof.
  intros Hr Hd. pose proof gaussian_args_checked as H.
  rewrite forallb_forall in H.
  specialize (H radius ltac:(apply In_range; lia)).
  apply andb_true_iff in H as [H0 H1]. split.
  - now apply FloatAxioms.Leibniz.eqb_spec.
  - rewrite forallb_forall in H1. apply H1. apply In_range. lia.
Qed.

Lemma exp_series_sound : exp_sound exp_series.
Proof.
  split; [reflexivity|].
  intros x _. unfold exp_series.
  destruct (x <=? 0)%float.
  - destruct (0 <=? 1 / exp_terms 30 (- x) 1 1 1)%float eqn:E;
      [exact E|reflexivity].
  - destruct (0 <=? exp_terms 30 x 1 1 1)%float eqn:E; [exact E|reflexivity].
Qed.

Lemma initial_tables_cache_ok (exp : float -> float) :
  gaussian_cache_ok exp initial_tables.
Proof.
  split; [|left; reflexivity].
  unfold initial_tables. cbn [g_gaussianWeights]. apply length_replicate.
Qed.

Section GaussianFacts.

Variable exp : float -> float.
Hypothesis Hexp : exp_sound exp.

Lemma gaussian_weight_center (radius : Z) :
  1 <= radius <= MAX_WEIGHT_TABLE_RADIUS ->
  gaussian_weight exp radius 0 0 = 1%float.
Proof.
  intros Hr. unfold gaussian_weight. change (0 * 0 + 0 * 0) with 0.
  fold (gaussian_arg radius 0).
  destruct (gaussian_arg_spec radius 0 Hr ltac:(nia)) as [-> _].
  apply Hexp.
Qed.

Lemma gaussian_weight_nonneg (radius dx dy : Z) :
  1 <= radius <= MAX_WEIGHT_TABLE_RADIUS ->
  - radius <= dx <= radius -> - radius <= dy <= radius ->
  (0 <=? gaussian_weight exp radius dx dy)%float = true.
Proof.
  intros Hr Hx Hy. unfold gaussian_weight.
  fold (gaussian_arg radius (dx * dx + dy * dy)).
  apply Hexp. apply gaussian_arg_spec; [exact Hr|].
  assert (0 <= dx * dx <= radius * radius) by nia.
  assert (0 <= dy * dy <= radius * radius) by nia.
  lia.
Qed.

(** After [PrecomputeGaussianWeights] the cache records the radius asked
    for and the table holds its weights, whether the table was rebuilt or
    reused. *)
Lemma PrecomputeGaussianWeights_ok (radius : Z) (g : WeightTables) :
  gaussian_cache_ok exp g -> 1 <= radius <= MAX_WEIGHT_TABLE_RADIUS ->
  let g' := PrecomputeGaussianWeights exp radius g in
  g_currentBlurRadius g' = radius
  /\ gaussian_table_for exp radius (g_gaussianWeights g')
  /\ gaussian_cache_ok exp g'.
Proof.
  intros [Hlen Hc] Hr. unfold PrecomputeGaussianWeights.
  destruct (radius =? g_currentBlurRadius g) eqn:E.
  - apply Z.eqb_eq in E. cbn zeta.
    destruct Hc as [Hc|[Hc1 Hc2]]; [lia|].
    rewrite <- E in Hc2.
    split; [symmetry; exact E|]. split; [exact Hc2|].
    split; [exact Hlen|]. right. rewrite <- E. split; [exact Hr|exact Hc2].
  - cbn zeta.
    destruct (MAX_WEIGHT_TABLE_RADIUS <? radius) eqn:Em; [lia|].
    rewrite fill_loops_as_writes. cbn [g_currentBlurRadius g_gaussianWeights].
    assert (Ht : gaussian_table_for exp radius
                   (apply_writes (table_writes radius (gaussian_weight exp radius))
                      (g_gaussianWeights g))).
    { intros dx dy Hx Hy. apply filled_table_get; auto. lia. }
    split; [reflexivity|]. split; [exact Ht|].
    split; cbn [g_currentBlurRadius g_gaussianWeights].
    + rewrite length_apply_writes. exact Hlen.
    + right. split; [exact Hr|exact Ht].
Qed.

End GaussianFacts.

Section BlurWeight.

Context {C : Type}.
Variable exp : float -> float.
Variable ops : DepthOps C.
Variable g : WeightTables.
Variable ctx : BlurContext C.
Variables xL yL : Z.
Hypothesis Hexp : exp_sound exp.
Hypothesis Hradius : 1 <= blurRadius ctx <= MAX_WEIGHT_TABLE_RADIUS.
Hypothesis Hsize : blurSize ctx = blurRadius ctx * 2 + 1.
Hypothesis Htable :
  gaussian_table_for exp (blurRadius ctx) (g_gaussianWeights g).

(** A tap of the window adds nothing, or its pixel with the Gaussian
    weight of its offset. *)
Lemma blur_tap_cases (dy ny dx : Z) (acc : Acc) :
  - blurRadius ctx <= dx <= blurRadius ctx ->
  - blurRadius ctx <= dy <= blurRadius ctx ->
  blur_tap ops g ctx xL dy ny dx acc = acc
  \/ blur_tap ops g ctx xL dy ny dx acc
     = acc_add ops acc (pixel_at (zero_pixel ops) (tempWorld ctx) (xL + dx) ny)
         (gaussian_weight exp (blurRadius ctx) dx dy).
Proof.
  intros Hdx Hdy. unfold blur_tap.
  destruct ((xL + dx <? 0) || (xL + dx >=? maskWidth (blur_info ctx)));
    [left; reflexivity|].
  destruct (GetMaskAt (blur_info ctx) (xL + dx) ny =? 0); [left; reflexivity|].
  right. rewrite Hsize.
  replace ((dy + blurRadius ctx) * (blurRadius ctx * 2 + 1) + dx + blurRadius ctx)
    with (weight_index (blurRadius ctx) dx dy) by (unfold weight_index; lia).
  rewrite Htable by assumption. reflexivity.
Qed.

Lemma blur_tap_nonneg (dy ny dx : Z) (acc : Acc) :
  In dx (range (- blurRadius ctx) (blurRadius ctx)) ->
  - blurRadius ctx <= dy <= blurRadius ctx ->
  weight_nonneg acc -> weight_nonneg (blur_tap ops g ctx xL dy ny dx acc).
Proof.
  intros Hdx Hdy Hacc. apply In_range in Hdx.
  destruct (blur_tap_cases dy ny dx acc Hdx Hdy) as [->| ->]; [exact Hacc|].
  unfold weight_nonneg. cbn [acc_add totalWeight].
  apply float_add_nonneg; [exact Hacc|].
  now apply gaussian_weight_nonneg.
Qed.

Lemma blur_tap_ge1 (dy ny dx : Z) (acc : Acc) :
  In dx (range (- blurRadius ctx) (blurRadius ctx)) ->
  - blurRadius ctx <= dy <= blurRadius ctx ->
  weight_ge1 acc -> weight_ge1 (blur_tap ops g ctx xL dy ny dx acc).
Proof.
  intros Hdx Hdy Hacc. apply In_range in Hdx.
  destruct (blur_tap_cases dy ny dx acc Hdx Hdy) as [->| ->]; [exact Hacc|].
  unfold weight_ge1. cbn [acc_add totalWeight].
  apply float_add_ge1_l; [exact Hacc|].
  now apply gaussian_weight_nonneg.
Qed.

Lemma blur_row_nonneg (dy : Z) (acc : Acc) :
  In dy (range (- blurRadius ctx) (blurRadius ctx)) ->
  weight_nonneg acc -> weight_nonneg (blur_row ops g ctx xL yL dy acc).
Proof.
  intros Hdy Hacc. apply In_range in Hdy. unfold blur_row.
  destruct ((yL + dy <? 0) || (yL + dy >=? maskHeight (blur_info ctx)));
    [exact Hacc|].
  unfold for_range. apply fold_left_preserves; [|exact Hacc].
  intros dx s Hdx Hs. now apply blur_tap_nonneg.
Qed.

Lemma blur_row_ge1 (dy : Z) (acc : Acc) :
  In dy (range (- blurRadius ctx) (blurRadius ctx)) ->
  weight_ge1 acc -> weight_ge1 (blur_row ops g ctx xL yL dy acc).
Proof.
  intros Hdy Hacc. apply In_range in Hdy. unfold blur_row.
  destruct ((yL + dy <? 0) || (yL + dy >=? maskHeight (blur_info ctx)));
    [exact Hacc|].
  unfold for_range. apply fold_left_preserves; [|exact Hacc].
  intros dx s Hdx Hs. now apply blur_tap_ge1.
Qed.

Hypothesis Hmasked : GetMaskAt (blur_info ctx) xL yL <> 0.

(** The tap at offset (0,0): in bounds, masked, weight 1. *)
Lemma blur_tap_center (acc : Acc) :
  blur_tap ops g ctx xL 0 yL 0 acc
  = acc_add ops acc (pixel_at (zero_pixel ops) (tempWorld ctx) xL yL) 1%float.
Proof.
  destruct (GetMaskAt_nonzero_in_frame _ _ _ Hmasked) as [Hx _].
  unfold blur_tap. rewrite Z.add_0_r, Hx.
  destruct (GetMaskAt (blur_info ctx) xL yL =? 0) eqn:E;
    [apply Z.eqb_eq in E; contradiction|].
  rewrite Hsize.
  replace ((0 + blurRadius ctx) * (blurRadius ctx * 2 + 1) + 0 + blurRadius ctx)
    with (weight_index (blurRadius ctx) 0 0) by (unfold weight_index; lia).
  rewrite Htable by lia.
  rewrite (gaussian_weight_center exp Hexp) by assumption. reflexivity.
Qed.

Lemma blur_row_center (acc : Acc) :
  weight_nonneg acc -> weight_ge1 (blur_row ops g ctx xL yL 0 acc).
Proof.
  intros Hacc.
  destruct (GetMaskAt_nonzero_in_frame _ _ _ Hmasked) as [_ Hy].
  unfold blur_row. rewrite Z.add_0_r, Hy. unfold for_range.
  apply (fold_left_reaches weight_nonneg weight_ge1) with (c := 0).
  - intros dx s Hdx Hs. apply blur_tap_nonneg; [exact Hdx|lia|exact Hs].
  - intros dx s Hdx Hs. apply blur_tap_ge1; [exact Hdx|lia|exact Hs].
  - intros s Hs. rewrite blur_tap_center. unfold weight_ge1.
    cbn [acc_add totalWeight]. apply float_add_ge1_r; [exact Hs|reflexivity].
  - apply In_range. lia.
  - exact Hacc.
Qed.

Lemma blur_accumulate_ge1 : weight_ge1 (blur_accumulate ops g ctx xL yL).
Proof.
  unfold blur_accumulate, for_range.
  apply (fold_left_reaches weight_nonneg weight_ge1) with (c := 0).
  - intros dy s Hdy Hs. now apply blur_row_nonneg.
  - intros dy s Hdy Hs. now apply blur_row_ge1.
  - intros s Hs. now apply blur_row_center.
  - apply In_range. lia.
  - reflexivity.
Qed.

Lemma BlurPass_masked (inP : PF_Pixel C) :
  let acc := blur_accumulate ops g ctx xL yL in
  let invWeight := (1 / totalWeight acc)%float in
  BlurPass ops g ctx xL yL inP
  = mkPixel (chan_store ops (sumA acc * invWeight)%float)
      (chan_store ops (sumR acc * invWeight)%float)
      (chan_store ops (sumG acc * invWeight)%float)
      (chan_store ops (sumB acc * invWeight)%float).
Proof.
  cbn zeta. unfold BlurPass, acc_result.
  destruct (GetMaskAt (blur_info ctx) xL yL =? 0) eqn:E;
    [apply Z.eqb_eq in E; contradiction|].
  rewrite (float_ge1_positive _ blur_accumulate_ge1). reflexivity.
Qed.

End BlurWeight.

(** Claim C10.  In every format, for a pixel whose mask value is not 0,
    with the Gaussian table as [PrecomputeGaussianWeights] leaves it for a
    radius from 1 to 50: the tap at offset (0,0) is in bounds and masked
    and adds the pixel itself with weight [exp(-0) = 1]; the total weight
    is at least 1; and the callback writes the weighted mean, never the
    zero-weight fallback. *)
Theorem masked_pixel_weight_at_least_one (exp : float -> float)
    (format : PF_PixelFormat) (g0 : WeightTables)
    (ctx : BlurContext (channel format)) (xL yL : Z)
    (inP : PF_Pixel (channel format)) :
  exp_sound exp -> gaussian_cache_ok exp g0 ->
  1 <= blurRadius ctx <= MAX_WEIGHT_TABLE_RADIUS ->
  blurSize ctx = blurRadius ctx * 2 + 1 ->
  GetMaskAt (blur_info ctx) xL yL <> 0 ->
  let g := PrecomputeGaussianWeights exp (blurRadius ctx) g0 in
  let ops := format_ops format in
  let acc := blur_accumulate ops g ctx xL yL in
  let invWeight := (1 / totalWeight acc)%float in
  (forall a : Acc,
     blur_tap ops g ctx xL 0 yL 0 a
     = acc_add ops a (pixel_at (zero_pixel ops) (tempWorld ctx) xL yL) 1%float)
  /\ (1 <=? totalWeight acc)%float = true
  /\ BlurPass_Optimized format g ctx xL yL inP
     = mkPixel (chan_store ops (sumA acc * invWeight)%float)
         (chan_store ops (sumR acc * invWeight)%float)
         (chan_store ops (sumG acc * invWeight)%float)
         (chan_store ops (sumB acc * invWeight)%float).
Proof.
  intros Hexp Hcache Hr Hsize Hmask g ops acc invWeight.
  destruct (PrecomputeGaussianWeights_ok exp (blurRadius ctx) g0 Hcache Hr)
    as (_ & Htable & _).
  fold g in Htable. split; [|split].
  - intros a. now apply (blur_tap_center exp).
  - now apply (blur_accumulate_ge1 exp).
  - rewrite BlurPass_Optimized_unfold.
    now apply (BlurPass_masked exp).
Qed.

(** The centre pixel of the 3x3 example, the only masked one: its total
    weight is exactly 1 and it is written back as itself. *)
Lemma masked_pixel_weight_witness :
  let g := PrecomputeGaussianWeights exp_series 1 initial_tables in
  GetMaskAt (blur_info example_blur_ctx) 1 1 = 255
  /\ (1 <=? totalWeight (blur_accumulate ops8 g example_blur_ctx 1 1))%float
     = true.
Proof.
  cbv zeta. split; [reflexivity|].
  apply (masked_pixel_weight_at_least_one exp_series PF_PixelFormat_ARGB32
           initial_tables example_blur_ctx 1 1 opaque_red).
  - exact exp_series_sound.
  - apply initial_tables_cache_ok.
  - unfold MAX_WEIGHT_TABLE_RADIUS. simpl. lia.
  - reflexivity.
  - simpl. discriminate.
Defined.

(* ===================================================================== *)
(** ** RGB <-> HSL                                                        *)
(* ===================================================================== *)

(** With maximum and minimum channel less than 0.00001 apart, [RGBtoHSL]
    returns hue 0 and saturation 0, and [HSLtoRGB] sends the result to
    the grey of its lightness. *)
Lemma RGBtoHSL_achromatic (r g b : float) :
  let maxVal := (if g <? r then (if b <? r then r else b)
                 else (if b <? g then g else b))%float in
  let minVal := (if r <? g then (if r <? b then r else b)
                 else (if g <? b then g else b))%float in
  let l := ((maxVal + minVal) * 0.5)%float in
  (maxVal - minVal <? 0.00001)%float = true ->
  RGBtoHSL r g b = (0%float, 0%float, l)
  /\ HSLtoRGB 0 0 l = (l, l, l).
Proof.
  intros maxVal minVal l H. unfold RGBtoHSL. fold maxVal minVal.
  rewrite H. split; reflexivity.
Qed.

Example HSL_round_trip_orange :
  let '(h, s, l) := RGBtoHSL 0.9 0.5 0.1 in
  let '(r, g, b) := HSLtoRGB h s l in
  ((abs (r - 0.9) <=? 0.0001) && (abs (g - 0.5) <=? 0.0001)
   && (abs (b - 0.1) <=? 0.0001))%float = true.
Proof. vm_compute. reflexivity. Qed.

Example HSL_round_trip_violet :
  let '(h, s, l) := RGBtoHSL 0.6 0.2 1 in
  let '(r, g, b) := HSLtoRGB h s l in
  ((abs (r - 0.6) <=? 0.0001) && (abs (g - 0.2) <=? 0.0001)
   && (abs (b - 1) <=? 0.0001))%float = true.
Proof. vm_compute. reflexivity. Qed.

(** *** The constants of the conversions *)

Ltac approx_constant :=
  split; [exact I|apply Qle_bool_imp_le; vm_compute; reflexivity].

Lemma approx_0 : approx 0 0 0.
Proof. approx_constant. Qed.

Lemma approx_1 : approx 1 1 0.
Proof. approx_constant. Qed.

Lemma approx_2 : approx 2 2 0.
Proof. approx_constant. Qed.

Lemma approx_4 : approx 4 4 0.
Proof. approx_constant. Qed.

Lemma approx_6 : approx 6 6 0.
Proof. approx_constant. Qed.

Lemma approx_half : approx 0.5 (1 # 2) 0.
Proof. approx_constant. Qed.

Lemma approx_sixth : approx 0.166666667 (1 # 6) (4 # 10000000000).
Proof. approx_constant. Qed.

Lemma approx_third : approx 0.333333333 (1 # 3) (4 # 10000000000).
Proof. approx_constant. Qed.

Lemma approx_two_thirds : approx 0.666666667 (2 # 3) (4 # 10000000000).
Proof. approx_constant. Qed.

Lemma approx_threshold : approx 0.00001 (1 # 100000) (1 # 10000000000).
Proof. approx_constant. Qed.

Lemma approx_tolerance : approx 0.0001 (1 # 10000) (1 # 10000000000).
Proof. approx_constant. Qed.

Lemma operation_error_small : (operation_error <= 1 # 100000000000000)%Q.
Proof. apply Qle_bool_imp_le. vm_compute. reflexivity. Qed.

Lemma operation_error_nonneg : (0 <= operation_error)%Q.
Proof. apply Qle_bool_imp_le. vm_compute. reflexivity. Qed.
Ltac close_bound :=
  pose proof operation_error_small; pose proof operation_error_nonneg; lra.

Lemma approx_shift (x : float) (X X' e d : Q) :
  approx x X e -> (Qabs (X - X') <= d)%Q -> approx x X' (e + d).
Proof.
  intros [F H] Hd. split; [exact F|].
  apply Qabs_Qle_condition in H, Hd. apply Qabs_Qle_condition.
  destruct H, Hd. split; lra.
Qed.

Lemma approx_nonneg (x : float) (X e : Q) : approx x X e -> (0 <= e)%Q.
Proof. intros [_ H]. eapply Qle_trans; [apply Qabs_nonneg|exact H]. Qed.

(** *** The hue-to-channel function *)

Ltac weight_cases :=
  unfold hue_weight;
  repeat match goal with
         | |- context [Qlt_le_dec ?a ?b] => destruct (Qlt_le_dec a b)
         end;
  apply Qabs_Qle_condition; split; lra.

Lemma weight_rising (t t' v c : Q) :
  (- (1 # 3) <= t)%Q -> (t <= 4 # 3)%Q -> wrapped t t' ->
  (t' - (3 # 10000000) <= v)%Q -> (v <= t' + (3 # 10000000))%Q ->
  (c <= (1 # 6) + (4 # 10000000000))%Q -> (v < c)%Q ->
  (Qabs (6 * t' - hue_weight t) <= 4 # 1000000)%Q.
Proof.
  intros H1 H2 Hw Hv1 Hv2 Hc Hb.
  destruct Hw as [[E Hw]|[[E Hw]|[E [Hw1 Hw2]]]]; weight_cases.
Qed.

Lemma weight_top (t t' v c : Q) :
  (- (1 # 3) <= t)%Q -> (t <= 4 # 3)%Q -> wrapped t t' ->
  (t' - (3 # 10000000) <= v)%Q -> (v <= t' + (3 # 10000000))%Q ->
  ((1 # 6) - (4 # 10000000000) <= c)%Q -> (c <= v)%Q -> (v < 1 # 2)%Q ->
  (Qabs (1 - hue_weight t) <= 4 # 1000000)%Q.
Proof.
  intros H1 H2 Hw Hv1 Hv2 Hc Hb1 Hb2.
  destruct Hw as [[E Hw]|[[E Hw]|[E [Hw1 Hw2]]]]; weight_cases.
Qed.

Lemma weight_falling (t t' v c : Q) :
  (- (1 # 3) <= t)%Q -> (t <= 4 # 3)%Q -> wrapped t t' ->
  (t' - (3 # 10000000) <= v)%Q -> (v <= t' + (3 # 10000000))%Q ->
  (c <= (2 # 3) + (4 # 10000000000))%Q -> (1 # 2 <= v)%Q -> (v < c)%Q ->
  (Qabs (((2 # 3) - t') * 6 - hue_weight t) <= 4 # 1000000)%Q.
Proof.
  intros H1 H2 Hw Hv1 Hv2 Hc Hb1 Hb2.
  destruct Hw as [[E Hw]|[[E Hw]|[E [Hw1 Hw2]]]]; weight_cases.
Qed.

Lemma weight_bottom (t t' v c : Q) :
  (- (1 # 3) <= t)%Q -> (t <= 4 # 3)%Q -> wrapped t t' ->
  (t' - (3 # 10000000) <= v)%Q -> (v <= t' + (3 # 10000000))%Q ->
  ((2 # 3) - (4 # 10000000000) <= c)%Q -> (c <= v)%Q ->
  (Qabs (0 - hue_weight t) <= 4 # 1000000)%Q.
Proof.
  intros H1 H2 Hw Hv1 Hv2 Hc Hb.
  destruct Hw as [[E Hw]|[[E Hw]|[E [Hw1 Hw2]]]]; weight_cases.
Qed.

Lemma scaled_weight (m D w w' d : Q) :
  (0 <= D)%Q -> (D <= 1)%Q -> (Qabs (w - w') <= d)%Q ->
  (Qabs (m + D * w - (m + D * w')) <= d)%Q.
Proof.
  intros H0 H1 H. apply Qabs_Qle_condition in H. destruct H as [Ha Hb].
  assert (Hd : (0 <= d)%Q) by lra.
  assert (E : (m + D * w - (m + D * w') == D * (w - w'))%Q) by ring.
  rewrite E. apply Qabs_Qle_condition. split; nra.
Qed.
Lemma wrapped_range (t t' : Q) :
  (- (1 # 3) <= t)%Q -> (t <= 4 # 3)%Q -> wrapped t t' ->
  (- (3 # 10000000) <= t')%Q /\ (t' <= 1 + (3 # 10000000))%Q.
Proof.
  intros H1 H2 [[E Hw]|[[E Hw]|[E [Hw1 Hw2]]]]; split; lra.
Qed.

(** The four branches of [HueToRGB] on the wrapped hue [t']. *)
Lemma hue_branches (p q t' : float) (m M t tw : Q) :
  approx p m (2 # 10000000) -> approx q M (2 # 10000000) ->
  approx t' tw (3 # 10000000) ->
  (0 <= m)%Q -> (m <= M)%Q -> (M <= 1)%Q ->
  (- (1 # 3) <= t)%Q -> (t <= 4 # 3)%Q -> wrapped t tw ->
  approx (if t' <? 0.166666667 then p + (q - p) * 6 * t'
          else if t' <? 0.5 then q
          else if t' <? 0.666666667 then p + (q - p) * (0.666666667 - t') * 6
          else p)%float
    (m + (M - m) * hue_weight t) (2 # 100000).
Proof.
  intros Hp Hq Ht Hm0 HmM HM1 Ht1 Ht2 Hw.
  pose proof (wrapped_range t tw Ht1 Ht2 Hw) as [Hr1 Hr2].
  pose proof (approx_bounds _ _ _ Ht) as [Bt1 Bt2].
  pose proof (approx_bounds _ _ _ approx_sixth) as [B61 B62].
  pose proof (approx_bounds _ _ _ approx_half) as [Bh1 Bh2].
  pose proof (approx_bounds _ _ _ approx_two_thirds) as [B231 B232].
  assert (Ft : FpLong_finite t') by exact (proj1 Ht).
  assert (HD0 : (0 <= M - m)%Q) by lra.
  assert (HD1 : (M - m <= 1)%Q) by lra.
  pose proof (FpLong_ltb_Q t' 0.166666667 Ft (proj1 approx_sixth)) as C1.
  destruct (t' <? 0.166666667)%float.
  { (* rising *)
    pose proof (approx_sub q p M m _ _ Hq Hp ltac:(close_bound)
                  ltac:(close_bound)) as A1.
    apply (approx_weaken _ _ _ (5 # 10000000)) in A1; [|close_bound].
    pose proof (approx_mul (q - p) 6 (M - m) 6 1 6 _ _ A1 approx_6
                  ltac:(lra) ltac:(lra) ltac:(lra) ltac:(lra)
                  ltac:(lra)) as A2.
    apply (approx_weaken _ _ _ (4 # 1000000)) in A2; [|close_bound].
    pose proof (approx_mul ((q - p) * 6) t' ((M - m) * 6) tw 6 2 _ _ A2 Ht
                  ltac:(lra) ltac:(lra) ltac:(lra) ltac:(lra)
                  ltac:(lra)) as A3.
    apply (approx_weaken _ _ _ (1 # 100000)) in A3; [|close_bound].
    pose proof (approx_add p ((q - p) * 6 * t') m ((M - m) * 6 * tw) _ _ Hp A3)
      as A4.
    assert (Hmag : (-6 <= (M - m) * 6 * tw)%Q /\ ((M - m) * 6 * tw <= 8)%Q).
    { split; nra. }
    specialize (A4 ltac:(destruct Hmag; close_bound)
                   ltac:(destruct Hmag; close_bound)).
    apply (approx_proper _ _ (m + (M - m) * (6 * tw))) in A4; [|ring].
    pose proof (weight_rising t tw (FpLong_value t') (FpLong_value 0.166666667)
                  Ht1 Ht2 Hw Bt1 Bt2 ltac:(lra) C1) as W.
    pose proof (scaled_weight m (M - m) _ _ _ HD0 HD1 W) as S.
    apply (approx_weaken _ _ _ _ (approx_shift _ _ _ _ _ A4 S)).
    close_bound. }
  pose proof (FpLong_ltb_Q t' 0.5 Ft (proj1 approx_half)) as C2.
  destruct (t' <? 0.5)%float.
  { (* top *)
    apply (approx_proper _ _ (m + (M - m) * 1)) in Hq; [|ring].
    pose proof (weight_top t tw (FpLong_value t') (FpLong_value 0.166666667) Ht1 Ht2 Hw Bt1 Bt2 ltac:(lra) C1
                  ltac:(lra)) as W.
    pose proof (scaled_weight m (M - m) _ _ _ HD0 HD1 W) as S.
    apply (approx_weaken _ _ _ _ (approx_shift _ _ _ _ _ Hq S)). lra. }
  pose proof (FpLong_ltb_Q t' 0.666666667 Ft (proj1 approx_two_thirds)) as C3.
  destruct (t' <? 0.666666667)%float.
  { (* falling *)
    pose proof (approx_sub q p M m _ _ Hq Hp ltac:(close_bound)
                  ltac:(close_bound)) as A1.
    apply (approx_weaken _ _ _ (5 # 10000000)) in A1; [|close_bound].
    pose proof (approx_sub 0.666666667 t' (2 # 3) tw _ _ approx_two_thirds Ht
                  ltac:(close_bound) ltac:(close_bound)) as A2.
    apply (approx_weaken _ _ _ (4 # 10000000)) in A2; [|close_bound].
    pose proof (approx_mul (q - p) (0.666666667 - t') (M - m) ((2 # 3) - tw)
                  1 2 _ _ A1 A2
                  ltac:(lra) ltac:(lra) ltac:(lra) ltac:(lra)
                  ltac:(lra)) as A3.
    apply (approx_weaken _ _ _ (15 # 10000000)) in A3; [|close_bound].
    assert (Hmag : (-2 <= (M - m) * ((2 # 3) - tw))%Q
                   /\ ((M - m) * ((2 # 3) - tw) <= 2)%Q).
    { split; nra. }
    destruct Hmag as [Hmag1 Hmag2].
    pose proof (approx_mul ((q - p) * (0.666666667 - t')) 6
                  ((M - m) * ((2 # 3) - tw)) 6 2 6 _ _ A3 approx_6
                  ltac:(lra) ltac:(lra) ltac:(lra) ltac:(lra)
                  ltac:(lra)) as A4.
    apply (approx_weaken _ _ _ (1 # 100000)) in A4; [|close_bound].
    pose proof (approx_add p ((q - p) * (0.666666667 - t') * 6) m
                  ((M - m) * ((2 # 3) - tw) * 6) _ _ Hp A4) as A5.
    specialize (A5 ltac:(close_bound) ltac:(close_bound)).
    apply (approx_proper _ _ (m + (M - m) * (((2 # 3) - tw) * 6))) in A5;
      [|ring].
    pose proof (weight_falling t tw (FpLong_value t') (FpLong_value 0.666666667)
                  Ht1 Ht2 Hw Bt1 Bt2 ltac:(lra) ltac:(lra) C3) as W.
    pose proof (scaled_weight m (M - m) _ _ _ HD0 HD1 W) as S.
    apply (approx_weaken _ _ _ _ (approx_shift _ _ _ _ _ A5 S)).
    close_bound. }
  (* bottom *)
  apply (approx_proper _ _ (m + (M - m) * 0)) in Hp; [|ring].
  pose proof (weight_bottom t tw (FpLong_value t') (FpLong_value 0.666666667) Ht1 Ht2 Hw Bt1 Bt2 ltac:(lra) C3) as W.
  pose proof (scaled_weight m (M - m) _ _ _ HD0 HD1 W) as S.
  apply (approx_weaken _ _ _ _ (approx_shift _ _ _ _ _ Hp S)). lra.
Qed.

(** [HueToRGB] against the exact function: [p + (q - p) * hue_weight t]. *)
Lemma HueToRGB_approx (p q t : float) (m M tq : Q) :
  approx p m (2 # 10000000) -> approx q M (2 # 10000000) ->
  approx t tq (2 # 10000000) ->
  (0 <= m)%Q -> (m <= M)%Q -> (M <= 1)%Q ->
  (- (1 # 3) <= tq)%Q -> (tq <= 4 # 3)%Q ->
  approx (HueToRGB p q t) (m + (M - m) * hue_weight tq) (2 # 100000).
Proof.
  intros Hp Hq Ht Hm0 HmM HM1 Ht1 Ht2.
  pose proof (approx_bounds _ _ _ Ht) as [Bt1 Bt2].
  assert (Ft : FpLong_finite t) by exact (proj1 Ht).
  unfold HueToRGB.
  pose proof (FpLong_ltb_Q t 0 Ft (proj1 approx_0)) as C0.
  change (FpLong_value 0) with 0%Q in C0.
  destruct (t <? 0)%float.
  - pose proof (approx_add t 1 tq 1 _ _ Ht approx_1 ltac:(close_bound)
                  ltac:(close_bound)) as A.
    apply (approx_weaken _ _ _ (3 # 10000000)) in A; [|close_bound].
    apply (hue_branches p q (t + 1) m M tq (tq + 1)); try assumption.
    left. split; [reflexivity|lra].
  - pose proof (FpLong_ltb_Q 1 t (proj1 approx_1) Ft) as C1.
    assert (E1 : (FpLong_value 1 == 1)%Q) by (vm_compute; reflexivity).
    destruct (1 <? t)%float; rewrite E1 in C1.
    + pose proof (approx_sub t 1 tq 1 _ _ Ht approx_1 ltac:(close_bound)
                    ltac:(close_bound)) as A.
      apply (approx_weaken _ _ _ (3 # 10000000)) in A; [|close_bound].
      apply (hue_branches p q (t - 1) m M tq (tq - 1)); try assumption.
      right. left. split; [reflexivity|lra].
    + apply (approx_weaken _ _ _ (3 # 10000000)) in Ht; [|lra].
      apply (hue_branches p q t m M tq tq); try assumption.
      right. right. split; [reflexivity|]. split; lra.
Qed.

(** *** The exact round trip *)

Lemma quotient_bounds (H D N lo hi : Q) :
  (0 < D)%Q -> (H * D == N)%Q -> (lo * D <= N)%Q -> (N <= hi * D)%Q ->
  (lo <= H)%Q /\ (H <= hi)%Q.
Proof.
  intros HD E H1 H2. split.
  - apply Qmult_lt_0_le_reg_r with D; [exact HD|]. rewrite E. exact H1.
  - apply Qmult_lt_0_le_reg_r with D; [exact HD|]. rewrite E. exact H2.
Qed.

Ltac hue_cases :=
  unfold hue_weight;
  repeat match goal with
         | |- context [Qlt_le_dec ?a ?b] => destruct (Qlt_le_dec a b)
         end;
  try lra; try nra.

(** The largest channel is red: the hue lies in the first or in the last
    sixth of the circle. *)
Lemma hue_of_red_max (R G B m H K : Q) :
  (m <= G)%Q -> (m <= B)%Q -> (G <= R)%Q -> (B <= R)%Q ->
  (m == G \/ m == B)%Q -> (0 < R - m)%Q -> (H * (R - m) == G - B)%Q ->
  ((G < B)%Q /\ (K == 6)%Q \/ (B <= G)%Q /\ (K == 0)%Q) ->
  let t := ((H + K) * (1 # 6))%Q in
  (0 <= t)%Q /\ (t <= 1)%Q
  /\ (m + (R - m) * hue_weight (t + (1 # 3)) == R)%Q
  /\ (m + (R - m) * hue_weight t == G)%Q
  /\ (m + (R - m) * hue_weight (t - (1 # 3)) == B)%Q.
Proof.
  intros HmG HmB HGR HBR Hm HD E HK t. subst t.
  destruct (quotient_bounds H (R - m) (G - B) (-1) 1 HD E ltac:(lra) ltac:(lra))
    as [Hlo Hhi].
  destruct HK as [[Hlt HK]|[Hle HK]].
  - assert (Hm' : (m == G)%Q) by (destruct Hm; lra).
    destruct (quotient_bounds H (R - m) (G - B) (-1) 0 HD E ltac:(lra)
                ltac:(lra)) as [_ Hneg].
    split; [lra|]. split; [lra|]. repeat split; hue_cases.
  - assert (Hm' : (m == B)%Q) by (destruct Hm; lra).
    destruct (quotient_bounds H (R - m) (G - B) 0 1 HD E ltac:(lra)
                ltac:(lra)) as [Hpos _].
    split; [lra|]. split; [lra|]. repeat split; hue_cases.
Qed.

(** The largest channel is green: the hue lies in the second third. *)
Lemma hue_of_green_max (R G B m H : Q) :
  (m <= R)%Q -> (m <= B)%Q -> (R <= G)%Q -> (B <= G)%Q ->
  (m == R \/ m == B)%Q -> (0 < G - m)%Q -> (H * (G - m) == B - R)%Q ->
  let t := ((H + 2) * (1 # 6))%Q in
  (0 <= t)%Q /\ (t <= 1)%Q
  /\ (m + (G - m) * hue_weight (t + (1 # 3)) == R)%Q
  /\ (m + (G - m) * hue_weight t == G)%Q
  /\ (m + (G - m) * hue_weight (t - (1 # 3)) == B)%Q.
Proof.
  intros HmR HmB HRG HBG Hm HD E t. subst t.
  destruct (quotient_bounds H (G - m) (B - R) (-1) 1 HD E ltac:(lra) ltac:(lra))
    as [Hlo Hhi].
  destruct (Qlt_le_dec B R) as [Hlt|Hle].
  - assert (Hm' : (m == B)%Q) by (destruct Hm; lra).
    destruct (quotient_bounds H (G - m) (B - R) (-1) 0 HD E ltac:(lra)
                ltac:(lra)) as [_ Hneg].
    split; [lra|]. split; [lra|]. repeat split; hue_cases.
  - assert (Hm' : (m == R)%Q) by (destruct Hm; lra).
    destruct (quotient_bounds H (G - m) (B - R) 0 1 HD E ltac:(lra)
                ltac:(lra)) as [Hpos _].
    split; [lra|]. split; [lra|]. repeat split; hue_cases.
Qed.

(** The largest channel is blue: the hue lies in the last third but
    one sixth. *)
Lemma hue_of_blue_max (R G B m H : Q) :
  (m <= R)%Q -> (m <= G)%Q -> (R <= B)%Q -> (G <= B)%Q ->
  (m == R \/ m == G)%Q -> (0 < B - m)%Q -> (H * (B - m) == R - G)%Q ->
  let t := ((H + 4) * (1 # 6))%Q in
  (0 <= t)%Q /\ (t <= 1)%Q
  /\ (m + (B - m) * hue_weight (t + (1 # 3)) == R)%Q
  /\ (m + (B - m) * hue_weight t == G)%Q
  /\ (m + (B - m) * hue_weight (t - (1 # 3)) == B)%Q.
Proof.
  intros HmR HmG HRB HGB Hm HD E t. subst t.
  destruct (quotient_bounds H (B - m) (R - G) (-1) 1 HD E ltac:(lra) ltac:(lra))
    as [Hlo Hhi].
  destruct (Qlt_le_dec R G) as [Hlt|Hle].
  - assert (Hm' : (m == R)%Q) by (destruct Hm; lra).
    destruct (quotient_bounds H (B - m) (R - G) (-1) 0 HD E ltac:(lra)
                ltac:(lra)) as [_ Hneg].
    split; [lra|]. split; [lra|]. repeat split; hue_cases.
  - assert (Hm' : (m == G)%Q) by (destruct Hm; lra).
    destruct (quotient_bounds H (B - m) (R - G) 0 1 HD E ltac:(lra)
                ltac:(lra)) as [Hpos _].
    split; [lra|]. split; [lra|]. repeat split; hue_cases.
Qed.
(** *** The two conversions in binary64 *)

(** The largest and the smallest channel, as [RGBtoHSL] selects them. *)
Lemma channel_extremes (r g b : float) :
  FpLong_finite r -> FpLong_finite g -> FpLong_finite b ->
  let maxVal := (if g <? r then (if b <? r then r else b)
                 else (if b <? g then g else b))%float in
  let minVal := (if r <? g then (if r <? b then r else b)
                 else (if g <? b then g else b))%float in
  (maxVal = r \/ maxVal = g \/ maxVal = b)
  /\ (minVal = r \/ minVal = g \/ minVal = b)
  /\ (FpLong_value r <= FpLong_value maxVal)%Q
  /\ (FpLong_value g <= FpLong_value maxVal)%Q
  /\ (FpLong_value b <= FpLong_value maxVal)%Q
  /\ (FpLong_value minVal <= FpLong_value r)%Q
  /\ (FpLong_value minVal <= FpLong_value g)%Q
  /\ (FpLong_value minVal <= FpLong_value b)%Q.
Proof.
  intros Fr Fg Fb maxVal minVal. subst maxVal minVal.
  pose proof (FpLong_ltb_Q g r Fg Fr) as C1.
  pose proof (FpLong_ltb_Q b r Fb Fr) as C2.
  pose proof (FpLong_ltb_Q b g Fb Fg) as C3.
  pose proof (FpLong_ltb_Q r g Fr Fg) as C4.
  pose proof (FpLong_ltb_Q r b Fr Fb) as C5.
  pose proof (FpLong_ltb_Q g b Fg Fb) as C6.
  destruct (g <? r)%float, (b <? r)%float, (b <? g)%float, (r <? g)%float,
    (r <? b)%float, (g <? b)%float;
    repeat split; try lra; auto.
Qed.

(** The lightness. *)
Lemma lightness_approx (maxVal minVal : float) (M m : Q) :
  approx maxVal M 0 -> approx minVal m 0 ->
  (0 <= m)%Q -> (m <= M)%Q -> (M <= 1)%Q ->
  approx ((maxVal + minVal) * 0.5) ((M + m) * (1 # 2)) (1 # 10000000000000).
Proof.
  intros HM Hm H0 H1 H2.
  pose proof (approx_add maxVal minVal M m _ _ HM Hm ltac:(lra) ltac:(lra))
    as A1.
  apply (approx_weaken _ _ _ (1 # 100000000000000)) in A1; [|close_bound].
  pose proof (approx_mul (maxVal + minVal) 0.5 (M + m) (1 # 2) 2 (1 # 2) _ _
                A1 approx_half ltac:(lra) ltac:(lra) ltac:(lra) ltac:(lra)
                ltac:(lra)) as A2.
  apply (approx_weaken _ _ _ _ A2). close_bound.
Qed.

(** A grey result [(l, l, l)], when the channels are close together. *)
Lemma grey_close (l : float) (M m c : Q) :
  approx l ((M + m) * (1 # 2)) (1 # 10000000000000) ->
  (m <= c)%Q -> (c <= M)%Q -> (M - m <= 25 # 1000000)%Q ->
  approx l c (3 # 100000).
Proof.
  intros Hl H1 H2 H3.
  apply (approx_weaken _ _ ((1 # 10000000000000) + (25 # 1000000))).
  - apply (approx_shift _ _ _ _ _ Hl). apply Qabs_Qle_condition. split; lra.
  - lra.
Qed.

(** The saturation, and which of the two formulas gave it. *)
Lemma saturation_approx (maxVal minVal l : float) (M m : Q) :
  approx maxVal M 0 -> approx minVal m 0 ->
  (0 <= m)%Q -> (m <= M)%Q -> (M <= 1)%Q ->
  (9 # 1000000 <= M - m)%Q -> FpLong_finite l ->
  let delta := (maxVal - minVal)%float in
  let s := (if 0.5 <? l then delta / (2 - maxVal - minVal)
            else delta / (maxVal + minVal))%float in
  exists S : Q,
    approx s S (2 # 100000000) /\ (0 <= S)%Q /\ (S <= 1)%Q
    /\ ((S * (M + m) == M - m)%Q /\ (FpLong_value l <= 1 # 2)%Q
        \/ (S * (2 - (M + m)) == M - m)%Q /\ (1 # 2 < FpLong_value l)%Q).
Proof.
  intros HM Hm H0 H1 H2 HD Fl delta s. subst delta s.
  pose proof (approx_sub maxVal minVal M m _ _ HM Hm ltac:(lra) ltac:(lra))
    as AD.
  apply (approx_weaken _ _ _ (1 # 100000000000000)) in AD; [|close_bound].
  pose proof (FpLong_ltb_Q 0.5 l (proj1 approx_half) Fl) as C.
  assert (Eh : (FpLong_value 0.5 == 1 # 2)%Q) by (vm_compute; reflexivity).
  destruct (0.5 <? l)%float; rewrite Eh in C.
  - pose proof (approx_sub 2 maxVal 2 M _ _ approx_2 HM ltac:(lra) ltac:(lra))
      as A1.
    apply (approx_weaken _ _ _ (1 # 100000000000000)) in A1; [|close_bound].
    pose proof (approx_sub (2 - maxVal) minVal (2 - M) m _ _ A1 Hm ltac:(lra)
                  ltac:(lra)) as A2.
    apply (approx_weaken _ _ _ (3 # 100000000000000)) in A2; [|close_bound].
    set (S := ((M - m) / (2 - M - m))%Q).
    assert (HS : (S * (2 - M - m) == M - m)%Q).
    { subst S. field. lra. }
    destruct (quotient_bounds S (2 - M - m) (M - m) 0 1 ltac:(lra) HS
                ltac:(lra) ltac:(lra)) as [S0 S1].
    exists S.
    pose proof (approx_div (maxVal - minVal) (2 - maxVal - minVal) (M - m)
                  (2 - M - m) S (9 # 1000000) 1 _ _ (1 # 100000000)
                  AD A2 HS ltac:(lra) ltac:(lra) ltac:(lra) ltac:(lra)
                  ltac:(lra) ltac:(lra)) as A3.
    split; [apply (approx_weaken _ _ _ _ A3); close_bound|].
    split; [exact S0|]. split; [exact S1|]. right. split; [|exact C].
    rewrite <- HS. ring.
  - pose proof (approx_add maxVal minVal M m _ _ HM Hm ltac:(lra) ltac:(lra))
      as A1.
    apply (approx_weaken _ _ _ (1 # 100000000000000)) in A1; [|close_bound].
    set (S := ((M - m) / (M + m))%Q).
    assert (HS : (S * (M + m) == M - m)%Q).
    { subst S. field. lra. }
    destruct (quotient_bounds S (M + m) (M - m) 0 1 ltac:(lra) HS
                ltac:(lra) ltac:(lra)) as [S0 S1].
    exists S.
    pose proof (approx_div (maxVal - minVal) (maxVal + minVal) (M - m)
                  (M + m) S (9 # 1000000) 1 _ _ (1 # 100000000)
                  AD A1 HS ltac:(lra) ltac:(lra) ltac:(lra) ltac:(lra)
                  ltac:(lra) ltac:(lra)) as A3.
    split; [apply (approx_weaken _ _ _ _ A3); close_bound|].
    split; [exact S0|]. split; [exact S1|]. left. split; [exact HS|exact C].
Qed.
(** The two ends [q] and [p] of the channel range rebuilt by
    [HSLtoRGB]: the largest and the smallest channel. *)
Lemma chroma_ends (l s : float) (M m S : Q) :
  approx l ((M + m) * (1 # 2)) (1 # 10000000000000) ->
  approx s S (2 # 100000000) ->
  (0 <= m)%Q -> (m <= M)%Q -> (M <= 1)%Q -> (0 <= S)%Q -> (S <= 1)%Q ->
  ((S * (M + m) == M - m)%Q /\ (FpLong_value l <= 1 # 2)%Q
   \/ (S * (2 - (M + m)) == M - m)%Q /\ (1 # 2 < FpLong_value l)%Q) ->
  let q := (if l <? 0.5 then l * (1 + s) else l + s - l * s)%float in
  let p := (2 * l - q)%float in
  approx q M (1 # 10000000) /\ approx p m (2 # 10000000).
Proof.
  intros Hl Hs H0 H1 H2 S0 S1 Hbr q p.
  assert (Hq : approx q M (1 # 10000000)).
  { subst q.
    pose proof (FpLong_ltb_Q l 0.5 (proj1 Hl) (proj1 approx_half)) as C.
    assert (Eh : (FpLong_value 0.5 == 1 # 2)%Q) by (vm_compute; reflexivity).
    destruct (l <? 0.5)%float; rewrite Eh in C.
    - destruct Hbr as [[E Hle]|[E Hgt]]; [|lra].
      pose proof (approx_add 1 s 1 S _ _ approx_1 Hs ltac:(close_bound)
                    ltac:(close_bound)) as A1.
      apply (approx_weaken _ _ _ (3 # 100000000)) in A1; [|close_bound].
      pose proof (approx_mul l (1 + s) ((M + m) * (1 # 2)) (1 + S) 1 2 _ _
                    Hl A1 ltac:(lra) ltac:(lra) ltac:(lra) ltac:(lra)
                    ltac:(lra)) as A2.
      apply (approx_weaken _ _ _ (1 # 10000000)) in A2; [|close_bound].
      apply (approx_proper _ _ _ _ (ltac:(nra) : ((M + m) * (1 # 2) * (1 + S)
                                                 == M)%Q) A2).
    - pose proof (approx_add l s ((M + m) * (1 # 2)) S _ _ Hl Hs
                    ltac:(close_bound) ltac:(close_bound)) as A1.
      apply (approx_weaken _ _ _ (3 # 100000000)) in A1; [|close_bound].
      pose proof (approx_mul l s ((M + m) * (1 # 2)) S 1 1 _ _ Hl Hs
                    ltac:(lra) ltac:(lra) ltac:(lra) ltac:(lra) ltac:(lra))
        as A2.
      apply (approx_weaken _ _ _ (3 # 100000000)) in A2; [|close_bound].
      assert (Hprod : (0 <= (M + m) * (1 # 2) * S)%Q
                      /\ ((M + m) * (1 # 2) * S <= 1)%Q) by (split; nra).
      destruct Hprod as [Hp0 Hp1].
      pose proof (approx_sub (l + s) (l * s) ((M + m) * (1 # 2) + S)
                    ((M + m) * (1 # 2) * S) _ _ A1 A2 ltac:(close_bound)
                    ltac:(close_bound)) as A3.
      apply (approx_weaken _ _ _ (7 # 100000000)) in A3; [|close_bound].
      destruct Hbr as [[E Hle]|[E Hgt]].
      + (* the lightness is 0.5 itself *)
        pose proof (approx_bounds _ _ _ Hl) as [B1 B2].
        apply (approx_weaken _ _ ((7 # 100000000) + (1 # 100000000))); [|lra].
        apply (approx_shift _ _ _ _ _ A3).
        apply Qabs_Qle_condition. split; nra.
      + apply (approx_weaken _ _ (7 # 100000000)); [|lra].
        apply (approx_proper _ _ _ _
                 (ltac:(nra) : ((M + m) * (1 # 2) + S - (M + m) * (1 # 2) * S
                                == M)%Q) A3). }
  split; [exact Hq|]. subst p.
  pose proof (approx_mul 2 l 2 ((M + m) * (1 # 2)) 2 1 _ _ approx_2 Hl
                ltac:(lra) ltac:(lra) ltac:(lra) ltac:(lra) ltac:(lra)) as A1.
  apply (approx_weaken _ _ _ (1 # 1000000000000)) in A1; [|close_bound].
  pose proof (approx_sub (2 * l) q (2 * ((M + m) * (1 # 2))) M _ _ A1 Hq
                ltac:(close_bound) ltac:(close_bound)) as A2.
  apply (approx_weaken _ _ _ (2 # 10000000)) in A2; [|close_bound].
  apply (approx_proper _ _ _ _
           (ltac:(ring) : (2 * ((M + m) * (1 # 2)) - M == m)%Q) A2).
Qed.

(** The hue from the quotient of a channel difference by the chroma and
    the sector offset [k]. *)
Lemma hue_approx (x y delta kf : float) (X Y D K H : Q) :
  approx x X 0 -> approx y Y 0 ->
  approx delta D (1 # 100000000000000) -> approx kf K 0 ->
  (9 # 1000000 <= D)%Q -> (- D <= X - Y)%Q -> (X - Y <= D)%Q -> (D <= 1)%Q ->
  (0 <= X)%Q -> (X <= 1)%Q -> (0 <= Y)%Q -> (Y <= 1)%Q ->
  (0 <= K)%Q -> (K <= 6)%Q -> (H * D == X - Y)%Q ->
  approx (((x - y) / delta + kf) * 0.166666667) ((H + K) * (1 # 6))
    (1 # 100000000).
Proof.
  intros Hx Hy Hd Hk HD H1 H2 HD1 X0 X1 Y0 Y1 K0 K1 E.
  pose proof (approx_sub x y X Y _ _ Hx Hy ltac:(lra) ltac:(lra)) as A1.
  apply (approx_weaken _ _ _ (1 # 100000000000000)) in A1; [|close_bound].
  destruct (quotient_bounds H D (X - Y) (-1) 1 ltac:(lra) E ltac:(lra)
              ltac:(lra)) as [Hlo Hhi].
  pose proof (approx_div (x - y) delta (X - Y) D H (9 # 1000000) 1 _ _
                (1 # 100000000) A1 Hd E ltac:(lra) ltac:(lra) ltac:(lra)
                ltac:(lra) ltac:(lra) ltac:(lra)) as A2.
  apply (approx_weaken _ _ _ (2 # 100000000)) in A2; [|close_bound].
  pose proof (approx_add ((x - y) / delta) kf H K _ _ A2 Hk ltac:(lra)
                ltac:(lra)) as A3.
  apply (approx_weaken _ _ _ (3 # 100000000)) in A3; [|close_bound].
  pose proof (approx_mul ((x - y) / delta + kf) 0.166666667 (H + K) (1 # 6)
                7 (1 # 6) _ _ A3 approx_sixth ltac:(lra) ltac:(lra) ltac:(lra)
                ltac:(lra) ltac:(lra)) as A4.
  apply (approx_weaken _ _ _ _ A4). close_bound.
Qed.
(** The three channels [HSLtoRGB] computes from [p], [q] and the hue. *)
Lemma hue_outputs (p q h : float) (m M t : Q) :
  approx p m (2 # 10000000) -> approx q M (1 # 10000000) ->
  approx h t (1 # 100000000) ->
  (0 <= m)%Q -> (m <= M)%Q -> (M <= 1)%Q -> (0 <= t)%Q -> (t <= 1)%Q ->
  close_triple (HueToRGB p q (h + 0.333333333), HueToRGB p q h,
                HueToRGB p q (h - 0.333333333))
    (m + (M - m) * hue_weight (t + (1 # 3)))
    (m + (M - m) * hue_weight t)
    (m + (M - m) * hue_weight (t - (1 # 3))) (2 # 100000).
Proof.
  intros Hp Hq Hh H0 H1 H2 T0 T1.
  apply (approx_weaken _ _ _ (2 # 10000000)) in Hq; [|lra].
  pose proof (approx_add h 0.333333333 t (1 # 3) _ _ Hh approx_third
                ltac:(lra) ltac:(lra)) as A1.
  apply (approx_weaken _ _ _ (2 # 10000000)) in A1; [|close_bound].
  pose proof (approx_sub h 0.333333333 t (1 # 3) _ _ Hh approx_third
                ltac:(lra) ltac:(lra)) as A2.
  apply (approx_weaken _ _ _ (2 # 10000000)) in A2; [|close_bound].
  apply (approx_weaken _ _ _ (2 # 10000000)) in Hh; [|lra].
  unfold close_triple. cbn [fst snd]. split; [|split].
  - apply HueToRGB_approx; try assumption; lra.
  - apply HueToRGB_approx; try assumption; lra.
  - apply HueToRGB_approx; try assumption; lra.
Qed.

Lemma close_triple_proper (c : float * float * float) (R G B R' G' B' e e' : Q) :
  close_triple c R G B e -> (R == R')%Q -> (G == G')%Q -> (B == B')%Q ->
  (e <= e')%Q -> close_triple c R' G' B' e'.
Proof.
  intros (H1 & H2 & H3) ER EG EB He. unfold close_triple. split; [|split].
  - apply (approx_weaken _ _ e); [|exact He]. exact (approx_proper _ _ _ _ ER H1).
  - apply (approx_weaken _ _ e); [|exact He]. exact (approx_proper _ _ _ _ EG H2).
  - apply (approx_weaken _ _ e); [|exact He]. exact (approx_proper _ _ _ _ EB H3).
Qed.
Lemma grey_triple (l : float) (M m R G B : Q) :
  approx l ((M + m) * (1 # 2)) (1 # 10000000000000) ->
  (m <= R)%Q -> (R <= M)%Q -> (m <= G)%Q -> (G <= M)%Q ->
  (m <= B)%Q -> (B <= M)%Q -> (M - m <= 25 # 1000000)%Q ->
  close_triple (l, l, l) R G B (3 # 100000).
Proof.
  intros Hl HR1 HR2 HG1 HG2 HB1 HB2 HD. unfold close_triple. cbn [fst snd].
  split; [|split]; apply (grey_close l M m); assumption.
Qed.

(** [HSLtoRGB] after [RGBtoHSL] on a triple of [0, 1]: every channel
    comes back within 0.00003. *)
Lemma round_trip_close (r g b : float) :
  in_unit_interval r -> in_unit_interval g -> in_unit_interval b ->
  close_triple (let '(h, s, l) := RGBtoHSL r g b in HSLtoRGB h s l)
    (FpLong_value r) (FpLong_value g) (FpLong_value b) (3 # 100000).
Proof.
  intros Ir Ig Ib.
  destruct (unit_interval_value r Ir) as (Fr & R0 & R1).
  destruct (unit_interval_value g Ig) as (Fg & G0 & G1).
  destruct (unit_interval_value b Ib) as (Fb & B0 & B1).
  pose proof (channel_extremes r g b Fr Fg Fb) as Hext. cbv zeta in Hext.
  unfold RGBtoHSL. cbv zeta.
  set (maxVal := (if g <? r then (if b <? r then r else b)
                  else (if b <? g then g else b))%float) in *.
  set (minVal := (if r <? g then (if r <? b then r else b)
                  else (if g <? b then g else b))%float) in *.
  destruct Hext as (Hmax & Hmin & Mr & Mg & Mb & mr & mg & mb).
  set (R := FpLong_value r) in *. set (G := FpLong_value g) in *.
  set (B := FpLong_value b) in *.
  assert (FM : FpLong_finite maxVal)
    by (destruct Hmax as [-> | [-> | ->]]; assumption).
  assert (Fm : FpLong_finite minVal)
    by (destruct Hmin as [-> | [-> | ->]]; assumption).
  assert (HMv : (FpLong_value maxVal == R \/ FpLong_value maxVal == G
                 \/ FpLong_value maxVal == B)%Q).
  { destruct Hmax as [-> | [-> | ->]]; [left|right; left|right; right];
      reflexivity. }
  assert (Hmv : (FpLong_value minVal == R \/ FpLong_value minVal == G
                 \/ FpLong_value minVal == B)%Q).
  { destruct Hmin as [-> | [-> | ->]]; [left|right; left|right; right];
      reflexivity. }
  pose proof (approx_exact maxVal FM) as AM.
  pose proof (approx_exact minVal Fm) as Am.
  pose proof (approx_exact r Fr) as Ar. fold R in Ar.
  pose proof (approx_exact g Fg) as Ag. fold G in Ag.
  pose proof (approx_exact b Fb) as Ab. fold B in Ab.
  set (M := FpLong_value maxVal) in *. set (m := FpLong_value minVal) in *.
  assert (Hm0 : (0 <= m)%Q) by (destruct Hmv as [E|[E|E]]; lra).
  assert (HM1 : (M <= 1)%Q) by (destruct HMv as [E|[E|E]]; lra).
  assert (HmM : (m <= M)%Q) by lra.
  pose proof (lightness_approx maxVal minVal M m AM Am Hm0 HmM HM1) as Al.
  pose proof (approx_sub maxVal minVal M m _ _ AM Am ltac:(lra) ltac:(lra))
    as AD.
  apply (approx_weaken _ _ _ (1 # 100000000000000)) in AD; [|close_bound].
  pose proof (approx_bounds _ _ _ AD) as [BD1 BD2].
  pose proof (approx_bounds _ _ _ approx_threshold) as [BT1 BT2].
  pose proof (FpLong_ltb_Q (maxVal - minVal) 0.00001 (proj1 AD)
                (proj1 approx_threshold)) as CD.
  destruct (maxVal - minVal <? 0.00001)%float.
  { (* achromatic *)
    unfold HSLtoRGB. replace (0 <? 0.00001)%float with true by reflexivity.
    apply (grey_triple _ M m); try assumption. lra. }
  assert (HD : (9 # 1000000 <= M - m)%Q) by lra.
  destruct (saturation_approx maxVal minVal ((maxVal + minVal) * 0.5) M m
              AM Am Hm0 HmM HM1 HD (proj1 Al))
    as (S & As & S0 & S1 & Hbr).
  cbv zeta in As.
  set (s := (if 0.5 <? (maxVal + minVal) * 0.5
             then (maxVal - minVal) / (2 - maxVal - minVal)
             else (maxVal - minVal) / (maxVal + minVal))%float) in *.
  set (l := ((maxVal + minVal) * 0.5)%float) in *.
  set (h := ((if maxVal =? r
              then (g - b) / (maxVal - minVal) + (if g <? b then 6 else 0)
              else if maxVal =? g then (b - r) / (maxVal - minVal) + 2
                   else (r - g) / (maxVal - minVal) + 4) * 0.166666667)%float).
  unfold HSLtoRGB.
  pose proof (approx_bounds _ _ _ As) as [BS1 BS2].
  pose proof (FpLong_ltb_Q s 0.00001 (proj1 As) (proj1 approx_threshold)) as CS.
  destruct (s <? 0.00001)%float.
  { (* the saturation fell below the threshold *)
    apply (grey_triple _ M m); try assumption.
    destruct Hbr as [[E _]|[E _]]; nra. }
  cbv zeta.
  destruct (chroma_ends l s M m S Al As Hm0 HmM HM1 S0 S1 Hbr) as [Aq Ap].
  cbv zeta in Aq, Ap.
  set (q := (if l <? 0.5 then l * (1 + s) else l + s - l * s)%float) in *.
  set (p := (2 * l - q)%float) in *.
  assert (HDpos : (0 < M - m)%Q) by lra.
  assert (HD1 : (M - m <= 1)%Q) by lra.
  subst h.
  pose proof (FpLong_eqb_Q maxVal r FM Fr) as E1. fold M R in E1.
  destruct (maxVal =? r)%float.
  { (* red is the largest channel *)
    set (H := ((G - B) / (M - m))%Q).
    assert (HH : (H * (M - m) == G - B)%Q) by (subst H; field; lra).
    assert (Hm' : (m == G \/ m == B)%Q) by (destruct Hmv as [E|[E|E]]; [lra|left; exact E|right; exact E]).
    pose proof (FpLong_ltb_Q g b Fg Fb) as CK. fold G B in CK.
    destruct (g <? b)%float.
    - pose proof (hue_approx g b (maxVal - minVal) 6 G B (M - m) 6 H Ag Ab AD
                    approx_6 HD ltac:(lra) ltac:(lra) HD1 G0 G1 B0 B1
                    ltac:(lra) ltac:(lra) HH) as Ah.
      destruct (hue_of_red_max M G B m H 6 ltac:(lra) ltac:(lra) ltac:(lra)
                  ltac:(lra) Hm' HDpos HH ltac:(left; split; [exact CK|reflexivity]))
        as (T0 & T1 & IR & IG & IB).
      pose proof (hue_outputs p q _ m M _ Ap Aq Ah Hm0 HmM HM1 T0 T1) as Ho.
      apply (close_triple_proper _ _ _ _ _ _ _ _ _ Ho);
        [rewrite IR; exact E1|exact IG|exact IB|lra].
    - pose proof (hue_approx g b (maxVal - minVal) 0 G B (M - m) 0 H Ag Ab AD
                    approx_0 HD ltac:(lra) ltac:(lra) HD1 G0 G1 B0 B1
                    ltac:(lra) ltac:(lra) HH) as Ah.
      destruct (hue_of_red_max M G B m H 0 ltac:(lra) ltac:(lra) ltac:(lra)
                  ltac:(lra) Hm' HDpos HH ltac:(right; split; [exact CK|reflexivity]))
        as (T0 & T1 & IR & IG & IB).
      pose proof (hue_outputs p q _ m M _ Ap Aq Ah Hm0 HmM HM1 T0 T1) as Ho.
      apply (close_triple_proper _ _ _ _ _ _ _ _ _ Ho);
        [rewrite IR; exact E1|exact IG|exact IB|lra]. }
  pose proof (FpLong_eqb_Q maxVal g FM Fg) as E2. fold M G in E2.
  destruct (maxVal =? g)%float.
  { (* green is the largest channel *)
    set (H := ((B - R) / (M - m))%Q).
    assert (HH : (H * (M - m) == B - R)%Q) by (subst H; field; lra).
    assert (Hm' : (m == R \/ m == B)%Q) by (destruct Hmv as [E|[E|E]]; [left; exact E|lra|right; exact E]).
    pose proof (hue_approx b r (maxVal - minVal) 2 B R (M - m) 2 H Ab Ar AD
                  approx_2 HD ltac:(lra) ltac:(lra) HD1 B0 B1 R0 R1
                  ltac:(lra) ltac:(lra) HH) as Ah.
    destruct (hue_of_green_max R M B m H ltac:(lra) ltac:(lra) ltac:(lra)
                ltac:(lra) Hm' HDpos HH) as (T0 & T1 & IR & IG & IB).
    pose proof (hue_outputs p q _ m M _ Ap Aq Ah Hm0 HmM HM1 T0 T1) as Ho.
    apply (close_triple_proper _ _ _ _ _ _ _ _ _ Ho);
      [exact IR|rewrite IG; exact E2|exact IB|lra]. }
  (* blue is the largest channel *)
  assert (E3 : (M == B)%Q) by (destruct HMv as [E|[E|E]]; [contradiction|contradiction|exact E]).
  set (H := ((R - G) / (M - m))%Q).
  assert (HH : (H * (M - m) == R - G)%Q) by (subst H; field; lra).
  assert (Hm' : (m == R \/ m == G)%Q) by (destruct Hmv as [E|[E|E]]; [left; exact E|right; exact E|lra]).
  pose proof (hue_approx r g (maxVal - minVal) 4 R G (M - m) 4 H Ar Ag AD
                approx_4 HD ltac:(lra) ltac:(lra) HD1 R0 R1 G0 G1
                ltac:(lra) ltac:(lra) HH) as Ah.
  destruct (hue_of_blue_max R G M m H ltac:(lra) ltac:(lra) ltac:(lra)
              ltac:(lra) Hm' HDpos HH) as (T0 & T1 & IR & IG & IB).
  pose proof (hue_outputs p q _ m M _ Ap Aq Ah Hm0 HmM HM1 T0 T1) as Ho.
  apply (close_triple_proper _ _ _ _ _ _ _ _ _ Ho);
    [exact IR|exact IG|rewrite IB; exact E3|lra].
Qed.
Lemma channel_close (x' x : float) (X : Q) :
  approx x' X (3 # 100000) -> approx x X 0 ->
  (abs (x' - x) <=? 0.0001)%float = true.
Proof.
  intros H' H.
  pose proof (approx_bounds _ _ _ approx_tolerance) as [T1 T2].
  pose proof (approx_sub x' x X X _ _ H' H ltac:(lra) ltac:(lra)) as A.
  apply (abs_leb_true _ _ ((3 # 100000) + 0 + operation_error));
    [|exact (proj1 approx_tolerance)|close_bound].
  apply (approx_proper _ _ _ _ (ltac:(ring) : (X - X == 0)%Q) A).
Qed.

Lemma largest_channel_unfold (r g b : float) :
  largest_channel r g b
  = (if g <? r then (if b <? r then r else b)
     else (if b <? g then g else b))%float.
Proof.
  unfold largest_channel, larger. destruct (g <? r)%float; reflexivity.
Qed.

Lemma smallest_channel_unfold (r g b : float) :
  smallest_channel r g b
  = (if r <? g then (if r <? b then r else b)
     else (if g <? b then g else b))%float.
Proof.
  unfold smallest_channel, smaller. destruct (r <? g)%float; reflexivity.
Qed.

(** Claim C9.  For every triple of doubles of [0, 1], [HSLtoRGB] applied
    to the result of [RGBtoHSL] gives back each channel within 0.0001;
    and when the largest and the smallest channel are less than 0.00001
    apart, as [RGBtoHSL] measures it, the hue and the saturation it
    returns are both 0. *)
Theorem HSL_round_trip (r g b : float) :
  (in_unit_interval r -> in_unit_interval g -> in_unit_interval b ->
   let '(h, s, l) := RGBtoHSL r g b in
   let '(r', g', b') := HSLtoRGB h s l in
   ((abs (r' - r) <=? 0.0001) && (abs (g' - g) <=? 0.0001)
    && (abs (b' - b) <=? 0.0001))%float = true)
  /\ ((largest_channel r g b - smallest_channel r g b <? 0.00001)%float = true ->
      let '(h, s, l) := RGBtoHSL r g b in h = 0%float /\ s = 0%float).
Proof.
  split.
  - intros Ir Ig Ib.
    pose proof (round_trip_close r g b Ir Ig Ib) as H.
    destruct (unit_interval_value r Ir) as (Fr & _).
    destruct (unit_interval_value g Ig) as (Fg & _).
    destruct (unit_interval_value b Ib) as (Fb & _).
    destruct (RGBtoHSL r g b) as [[h s] l].
    destruct (HSLtoRGB h s l) as [[r' g'] b'].
    destruct H as (Hr & Hg & Hb). cbn [fst snd] in Hr, Hg, Hb.
    rewrite (channel_close r' r _ Hr (approx_exact r Fr)).
    rewrite (channel_close g' g _ Hg (approx_exact g Fg)).
    rewrite (channel_close b' b _ Hb (approx_exact b Fb)).
    reflexivity.
  - intros H. rewrite largest_channel_unfold, smallest_channel_unfold in H.
    pose proof (RGBtoHSL_achromatic r g b) as A. cbv zeta in A.
    destruct (A H) as [E _]. rewrite E. split; reflexivity.
Qed.

(** An orange triple comes back within the tolerance; a grey with a tint
    below the threshold has hue 0 and saturation 0. *)
Lemma HSL_round_trip_witness :
  (let '(h, s, l) := RGBtoHSL 0.9 0.5 0.1 in
   let '(r', g', b') := HSLtoRGB h s l in
   ((abs (r' - 0.9) <=? 0.0001) && (abs (g' - 0.5) <=? 0.0001)
    && (abs (b' - 0.1) <=? 0.0001))%float = true)
  /\ (let '(h, s, l) := RGBtoHSL 0.5 0.500001 0.5 in
      h = 0%float /\ s = 0%float).
Proof.
  assert (I9 : in_unit_interval 0.9) by (split; reflexivity).
  assert (I5 : in_unit_interval 0.5) by (split; reflexivity).
  assert (I1 : in_unit_interval 0.1) by (split; reflexivity).
  split.
  - exact (proj1 (HSL_round_trip 0.9 0.5 0.1) I9 I5 I1).
  - exact (proj2 (HSL_round_trip 0.5 0.500001 0.5) eq_refl).
Defined.

(* ===================================================================== *)
(** * Further properties of the engine                                    *)
(* ===================================================================== *)

(* ===================================================================== *)
(** ** The loop over the pixels of a frame                                *)
(* ===================================================================== *)

Lemma nested_fold {A : Type} (F : Z -> Z -> A -> A) (rows cols : list Z) (a : A) :
  fold_left (fun st y => fold_left (fun st x => F x y st) cols st) rows a
  = fold_left (fun st c => F (fst c) (snd c) st)
      (flat_map (fun y => map (fun x => (x, y)) cols) rows) a.
Proof.
  revert a. induction rows as [|y rows IH]; intros a;
    cbn [fold_left flat_map]; [reflexivity|].
  rewrite IH, fold_left_app. f_equal.
  clear IH. revert a. induction cols as [|x cols IHc]; intros a;
    cbn [fold_left map]; [reflexivity|]. apply IHc.
Qed.

(** [iterate] as one loop over the pixels of the frame. *)
Lemma iterate_as_fold {C S : Type} (d : PF_Pixel C) (src : PF_EffectWorld C)
    (f : Z -> Z -> PF_Pixel C -> S -> PF_Pixel C * S) (s : S) :
  iterate d src f s
  = fold_left (fun st c =>
      let '(p, s') :=
        f (fst c) (snd c) (pixel_at d src (fst c) (snd c)) (snd st) in
      (fst st ++ [p], s'))
      (frame_coords (world_width src) (world_height src)) ([], s).
Proof.
  unfold iterate, for_range, frame_coords.
  apply (nested_fold (fun xL yL st =>
           let '(p, s') := f xL yL (pixel_at d src xL yL) (snd st) in
           (fst st ++ [p], s'))).
Qed.

(** A callback without state: the output is the callback mapped over the
    frame. *)
Lemma iterate_stateless {C : Type} (d : PF_Pixel C) (src : PF_EffectWorld C)
    (f : Z -> Z -> PF_Pixel C -> PF_Pixel C) :
  fst (iterate d src (fun xL yL inP (_ : unit) => (f xL yL inP, tt)) tt)
  = map (fun c => f (fst c) (snd c) (pixel_at d src (fst c) (snd c)))
      (frame_coords (world_width src) (world_height src)).
Proof.
  rewrite iterate_as_fold.
  generalize (frame_coords (world_width src) (world_height src)) as l.
  assert (H : forall l out,
    fst (fold_left (fun (st : list (PF_Pixel C) * unit) c =>
           let '(p, s') := (f (fst c) (snd c) (pixel_at d src (fst c) (snd c)), tt) in
           (fst st ++ [p], s')) l (out, tt))
    = out ++ map (fun c => f (fst c) (snd c) (pixel_at d src (fst c) (snd c))) l).
  { induction l as [|c l IH]; intros out; cbn [fold_left map].
    - rewrite app_nil_r. reflexivity.
    - cbn [fst snd]. rewrite IH, <- app_assoc. reflexivity. }
  intros l. apply (H l []).
Qed.

Lemma flat_map_lookup_uniform {A B : Type} (h : A -> list B) (l : list A)
    (n i j : nat) :
  (forall a, length (h a) = n) -> (j < n)%nat ->
  flat_map h l !! (i * n + j)%nat = l !! i ≫= (fun a => h a !! j).
Proof.
  intros Hn Hj. revert i. induction l as [|a l IH]; intros i; [reflexivity|].
  cbn [flat_map]. destruct i as [|i].
  - cbn. rewrite lookup_app_l by (rewrite Hn; lia). reflexivity.
  - rewrite lookup_app_r by (rewrite Hn; lia). rewrite Hn.
    replace (S i * n + j - n)%nat with (i * n + j)%nat by lia.
    rewrite IH. reflexivity.
Qed.

(** The pixel [(x, y)] is visited at position [y * W + x]. *)
Lemma frame_coords_lookup (W H x y : Z) :
  0 <= x < W -> 0 <= y < H ->
  frame_coords W H !! Z.to_nat (y * W + x) = Some (x, y).
Proof.
  intros Hx Hy. unfold frame_coords, range.
  replace (Z.to_nat (y * W + x)) with (Z.to_nat y * Z.to_nat W + Z.to_nat x)%nat
    by nia.
  rewrite (flat_map_lookup_uniform _ _ (Z.to_nat W)).
  - rewrite lookup_seqZ_lt by lia. cbn.
    rewrite list_lookup_fmap, lookup_seqZ_lt by lia. cbn.
    f_equal. f_equal; lia.
  - intros a. rewrite length_map, length_seqZ. lia.
  - lia.
Qed.

Lemma In_frame_coords (W H x y : Z) :
  In (x, y) (frame_coords W H) <-> 0 <= x < W /\ 0 <= y < H.
Proof.
  unfold frame_coords. rewrite in_flat_map. split.
  - intros (y' & Hy & Hin). apply in_map_iff in Hin as (x' & Heq & Hx).
    apply In_range in Hy, Hx. inversion Heq; subst. lia.
  - intros [Hx Hy]. exists y. split; [apply In_range; lia|].
    apply in_map_iff. exists x. split; [reflexivity|apply In_range; lia].
Qed.

(** Two pixels of a frame do not share a cell. *)
Lemma frame_index_inj (W x y x' y' : Z) :
  0 <= x < W -> 0 <= x' < W -> y' * W + x' = y * W + x -> x' = x /\ y' = y.
Proof.
  intros Hx Hx' Heq.
  assert (Hy : y' = y).
  { destruct (Z.lt_trichotomy y' y) as [Hlt|[Heq'|Hgt]]; [|exact Heq'|].
    - assert (y' * W + W <= y * W) by nia. lia.
    - assert (y * W + W <= y' * W) by nia. lia. }
  subst y'. lia.
Qed.

(** The pixel of a frame of mapped pixels. *)
Lemma pixel_at_map_frame {C : Type} (d : PF_Pixel C) (W H : Z)
    (P : Z * Z -> PF_Pixel C) (x y : Z) :
  0 <= x < W -> 0 <= y < H ->
  pixel_at d (mkWorld W H (map P (frame_coords W H))) x y = P (x, y).
Proof.
  intros Hx Hy. unfold pixel_at, array_get. cbn [world_data world_width].
  destruct (y * W + x <? 0) eqn:E; [nia|].
  rewrite list_lookup_fmap, (frame_coords_lookup _ _ x y Hx Hy). reflexivity.
Qed.

Lemma length_frame_coords (W H : Z) :
  0 <= W -> 0 <= H -> length (frame_coords W H) = Z.to_nat (W * H).
Proof.
  intros HW HH. unfold frame_coords, range.
  replace (H - 1 - 0 + 1) with H by lia.
  replace (W - 1 - 0 + 1) with W by lia.
  assert (Hrow : forall l : list Z,
            length (flat_map (fun y => map (fun x => (x, y)) (seqZ 0 W)) l)
            = (length l * Z.to_nat W)%nat).
  { induction l as [|a l IH]; [reflexivity|].
    cbn [flat_map]. rewrite length_app, IH, length_map, length_seqZ.
    cbn [length]. lia. }
  rewrite Hrow, length_seqZ. nia.
Qed.

(* ===================================================================== *)
(** ** The first pass over a frame                                        *)
(* ===================================================================== *)

(** The fill reads the frame and the settings, never the mask. *)
Lemma FillLinePixel_format_mask_indep (format : PF_PixelFormat)
    (g : WeightTables) (info : ColorLinesInfo (channel format)) (m : list Z)
    (x y : Z) (inP : PF_Pixel (channel format)) (ctx : ProcessingContext) :
  FillLinePixel_format format g (set_lineMask info m) x y inP ctx
  = FillLinePixel_format format g info x y inP ctx.
Proof.
  destruct format; cbn [FillLinePixel_format];
    unfold FillLinePixel8, FillLinePixel16, FillLinePixelFloat; reflexivity.
Qed.

Section Pass1Frame.

Context {C : Type}.
Variable ops : DepthOps C.
Variable isLineColor : ProcessingContext -> PF_Pixel C -> bool.
Variable fillLine :
  WeightTables -> ColorLinesInfo C -> Z -> Z -> PF_Pixel C ->
  ProcessingContext -> PF_Pixel C.
Hypothesis fillLine_mask_indep : forall g info m x y p ctx,
  fillLine g (set_lineMask info m) x y p ctx = fillLine g info x y p ctx.

(** One callback: the pixel it writes does not depend on the mask, and
    of the info it changes one cell of the mask. *)
Lemma FillAndMask_step (g : WeightTables) (ctx : ProcessingContext)
    (info : ColorLinesInfo C) (m : list Z) (xL yL : Z) (inP : PF_Pixel C) :
  FillAndMask ops isLineColor fillLine g ctx (set_lineMask info m) xL yL inP
  = (fst (FillAndMask ops isLineColor fillLine g ctx info xL yL inP),
     set_lineMask info
       (array_set m (yL * maskRowBytes info + xL)
          (mask_value isLineColor ctx xL yL inP))).
Proof.
  unfold FillAndMask, mask_value, SetMaskAtFast.
  destruct (in_edge_margin ctx xL yL); [reflexivity|].
  cbn [fst snd outputMode set_lineMask lineMask maskRowBytes].
  change (set_lineMask (set_lineMask info m) ?a) with (set_lineMask info a).
  rewrite !fillLine_mask_indep. reflexivity.
Qed.

Lemma pass1_fold (g : WeightTables) (ctx : ProcessingContext)
    (info : ColorLinesInfo C) (src : PF_EffectWorld C) (l : list (Z * Z))
    (out : list (PF_Pixel C)) (m : list Z) :
  fold_left (fun st c =>
      let '(p, s') :=
        FillAndMask ops isLineColor fillLine g ctx (snd st) (fst c) (snd c)
          (pixel_at (zero_pixel ops) src (fst c) (snd c)) in
      (fst st ++ [p], s')) l (out, set_lineMask info m)
  = (out ++ map (pass1_pixel ops isLineColor fillLine g ctx info src) l,
     set_lineMask info
       (apply_writes (map (pass1_write ops isLineColor ctx info src) l) m)).
Proof.
  revert out m. induction l as [|c l IH]; intros out m; cbn [fold_left map].
  - rewrite app_nil_r. reflexivity.
  - cbn [snd fst]. rewrite FillAndMask_step. rewrite IH.
    rewrite <- app_assoc. reflexivity.
Qed.

Variable g : WeightTables.
Variable info : ColorLinesInfo C.
Variable input : PF_EffectWorld C.

(** The first pass as a whole: the output frame is the callback's pixel
    at every pixel of the input, the mask the run of the callbacks'
    writes on the zeroed mask. *)
Lemma pass1_unfold :
  pass1 ops (FillAndMask ops isLineColor fillLine) g info input
  = pass1_frame ops isLineColor fillLine g info input.
Proof.
  unfold pass1, pass1_frame, pass1_tables, pass1_ctx.
  rewrite (surjective_pairing (InitProcessingContext g (setup_info info input))).
  rewrite iterate_as_fold.
  change (setup_info info input)
    with (set_lineMask (setup_info info input)
            (lineMask (setup_info info input))) at 3.
  rewrite pass1_fold. reflexivity.
Qed.

Lemma pass1_output_pixel (x y : Z) :
  0 <= x < world_width input -> 0 <= y < world_height input ->
  pixel_at (zero_pixel ops)
    (snd (fst (pass1 ops (FillAndMask ops isLineColor fillLine) g info input)))
    x y
  = fst (FillAndMask ops isLineColor fillLine (pass1_tables g info input)
           (pass1_ctx g info input) (setup_info info input) x y
           (pixel_at (zero_pixel ops) input x y)).
Proof.
  intros Hx Hy. rewrite pass1_unfold. unfold pass1_frame. cbn [fst snd].
  rewrite pixel_at_map_frame by assumption. reflexivity.
Qed.

Lemma pass1_mask_cell (x y : Z) :
  0 <= x < world_width input -> 0 <= y < world_height input ->
  GetMaskAt (snd (pass1 ops (FillAndMask ops isLineColor fillLine) g info input))
    x y
  = mask_value isLineColor (pass1_ctx g info input) x y
      (pixel_at (zero_pixel ops) input x y).
Proof.
  intros Hx Hy. rewrite pass1_unfold. unfold pass1_frame. cbn [fst snd].
  unfold GetMaskAt.
  cbn [maskWidth maskHeight maskRowBytes lineMask set_lineMask setup_info].
  replace ((x <? 0) || (x >=? world_width input) || (y <? 0)
           || (y >=? world_height input)) with false
    by (symmetry; rewrite !orb_false_iff; repeat split; lia).
  apply apply_writes_get.
  - apply in_map_iff. exists (x, y). split; [reflexivity|].
    apply In_frame_coords. split; assumption.
  - intros v' Hv'. apply in_map_iff in Hv' as ([x' y'] & Heq & Hin).
    apply In_frame_coords in Hin as [Hx' Hy'].
    unfold pass1_write in Heq. cbn [fst snd maskRowBytes setup_info] in Heq.
    inversion Heq as [[Hidx Hval]].
    destruct (frame_index_inj _ _ _ _ _ Hx Hx' Hidx) as [-> ->]. reflexivity.
  - rewrite length_replicate. split; [nia|]. rewrite Z2Nat.id by nia. nia.
Qed.

End Pass1Frame.

(** Property X1.  Storing a value in the mask cell of a pixel of the
    frame and then reading the mask with the bounds-checked [GetMaskAt]:
    the stored value at that pixel, the old answer everywhere else
    (outside the frame included, where the answer is 0). *)
Theorem mask_store_then_lookup {C : Type} (info : ColorLinesInfo C)
    (x y v x' y' : Z) :
  mask_wf info -> in_frame info x y ->
  GetMaskAt (SetMaskAtFast info x y v) x' y'
  = if (x' =? x) && (y' =? y) then v else GetMaskAt info x' y'.
Proof.
  intros Hwf Hin.
  pose proof (mask_index_bound info x y Hwf Hin) as Hidx.
  destruct Hwf as [Hs Hl]. destruct Hin as [Hx Hy].
  unfold GetMaskAt, SetMaskAtFast.
  cbn [maskWidth maskHeight maskRowBytes lineMask set_lineMask].
  destruct ((x' <? 0) || (x' >=? maskWidth info) || (y' <? 0)
            || (y' >=? maskHeight info)) eqn:Eout.
  - destruct ((x' =? x) && (y' =? y)) eqn:E; [|reflexivity].
    apply andb_true_iff in E as [Ex Ey].
    apply Z.eqb_eq in Ex, Ey. subst x' y'.
    rewrite !orb_true_iff in Eout. lia.
  - rewrite !orb_false_iff in Eout. destruct Eout as [[[H1 H2] H3] H4].
    destruct ((x' =? x) && (y' =? y)) eqn:E.
    + apply andb_true_iff in E as [Ex Ey].
      apply Z.eqb_eq in Ex, Ey. subst x' y'.
      apply array_get_set_eq. exact Hidx.
    + apply array_get_set_ne; [|rewrite Hs; nia].
      intros Heq. rewrite Hs in Heq.
      assert (Hx' : 0 <= x' < maskWidth info) by lia.
      destruct (frame_index_inj _ _ _ _ _ Hx' Hx Heq) as [-> ->].
      rewrite !Z.eqb_refl in E. discriminate.
Qed.

(** A 3x3 mask: 255 stored at the centre is read back there, the corner
    still reads 0. *)
Lemma mask_store_then_lookup_witness :
  GetMaskAt (SetMaskAtFast info_average_plain 1 1 255) 1 1 = 255
  /\ GetMaskAt (SetMaskAtFast info_average_plain 1 1 255) 0 0 = 0.
Proof.
  assert (Hin : in_frame info_average_plain 1 1).
  { unfold in_frame. simpl. lia. }
  split.
  - exact (mask_store_then_lookup info_average_plain 1 1 255 1 1
             (example_mask_wf _ _ _ _) Hin).
  - exact (mask_store_then_lookup info_average_plain 1 1 255 0 0
             (example_mask_wf _ _ _ _) Hin).
Defined.

(** Property X2.  The pixel the first-pass callback writes does not
    depend on the contents of the mask, and of the info the callback
    changes one thing: the mask cell of its own pixel, which becomes 0 in
    the edge margin and otherwise 255 or 0 as the input pixel matches the
    target colour or not. *)
Theorem first_pass_callback_step (format : PF_PixelFormat) (g : WeightTables)
    (ctx : ProcessingContext) (info : ColorLinesInfo (channel format))
    (m : list Z) (xL yL : Z) (inP : PF_Pixel (channel format)) :
  FillAndMask_Optimized format g ctx (set_lineMask info m) xL yL inP
  = (fst (FillAndMask_Optimized format g ctx info xL yL inP),
     set_lineMask info
       (array_set m (yL * maskRowBytes info + xL)
          (if in_edge_margin ctx xL yL then 0
           else if isLine_format format ctx inP then 255 else 0))).
Proof.
  rewrite FillAndMask_Optimized_unfold.
  apply FillAndMask_step. intros. apply FillLinePixel_format_mask_indep.
Qed.

(** The mask after the first pass, cell by cell. *)
Lemma pass1_format_mask (format : PF_PixelFormat) (g : WeightTables)
    (info : ColorLinesInfo (channel format))
    (input : PF_EffectWorld (channel format)) (x y : Z) :
  in_world input x y ->
  GetMaskAt (snd (pass1_format format g info input)) x y
  = mask_value (isLine_format format) (pass1_ctx g info input) x y
      (pixel_at (zero_pixel (format_ops format)) input x y).
Proof.
  intros [Hx Hy]. unfold pass1_format.
  rewrite FillAndMask_Optimized_unfold.
  apply pass1_mask_cell; [|assumption|assumption].
  intros. apply FillLinePixel_format_mask_indep.
Qed.

(** Property X3.  After the first pass over a frame, the mask cell of a
    pixel of the frame is 0 in the edge margin and otherwise 255 or 0 as
    the input pixel at that place matches the target colour or not. *)
Theorem first_pass_mask (format : PF_PixelFormat) (g : WeightTables)
    (info : ColorLinesInfo (channel format))
    (input : PF_EffectWorld (channel format)) (x y : Z) :
  in_world input x y ->
  let ctx := pass1_ctx g info input in
  let inP := pixel_at (zero_pixel (format_ops format)) input x y in
  GetMaskAt (snd (pass1_format format g info input)) x y
  = if in_edge_margin ctx x y then 0
    else if isLine_format format ctx inP then 255 else 0.
Proof.
  intros [Hx Hy] ctx inP. subst ctx inP. unfold pass1_format.
  rewrite FillAndMask_Optimized_unfold.
  rewrite (pass1_mask_cell (format_ops format) (isLine_format format)
             (FillLinePixel_format format));
    [reflexivity| |assumption|assumption].
  intros. apply FillLinePixel_format_mask_indep.
Qed.

(** The 3x3 red frame with the red target: the centre pixel is outside
    the margin of radius 1 and matches, the corner is in the margin. *)
Lemma first_pass_mask_witness :
  let r := pass1_format PF_PixelFormat_ARGB32 initial_tables info_average_plain
             frame_red in
  in_world frame_red 1 1 /\ GetMaskAt (snd r) 1 1 = 255.
Proof.
  cbv zeta.
  assert (Hin : in_world frame_red 1 1) by (unfold in_world; simpl; lia).
  split; [exact Hin|].
  exact (first_pass_mask PF_PixelFormat_ARGB32 initial_tables
           info_average_plain frame_red 1 1 Hin).
Defined.

Lemma pass1_format_unfold (format : PF_PixelFormat) (g : WeightTables)
    (info : ColorLinesInfo (channel format))
    (input : PF_EffectWorld (channel format)) :
  pass1_format format g info input
  = pass1_frame (format_ops format) (isLine_format format)
      (FillLinePixel_format format) g info input.
Proof.
  unfold pass1_format. rewrite FillAndMask_Optimized_unfold.
  apply pass1_unfold. intros. apply FillLinePixel_format_mask_indep.
Qed.

(** The pixel of the first pass's output at a pixel of the frame. *)
Lemma pass1_format_pixel (format : PF_PixelFormat) (g : WeightTables)
    (info : ColorLinesInfo (channel format))
    (input : PF_EffectWorld (channel format)) (x y : Z) :
  in_world input x y ->
  pixel_at (zero_pixel (format_ops format))
    (snd (fst (pass1_format format g info input))) x y
  = fst (FillAndMask (format_ops format) (isLine_format format)
           (FillLinePixel_format format) (pass1_tables g info input)
           (pass1_ctx g info input) (setup_info info input) x y
           (pixel_at (zero_pixel (format_ops format)) input x y)).
Proof.
  intros [Hx Hy]. unfold pass1_format. rewrite FillAndMask_Optimized_unfold.
  apply pass1_output_pixel; [|assumption|assumption].
  intros. apply FillLinePixel_format_mask_indep.
Qed.

(** Property X4.  After the first pass over a frame: in LineOnly mode a
    pixel with mask value 255 is fully opaque and one outside the edge
    margin with mask value 0 has all four channels 0; in BackgroundOnly
    mode a pixel with mask value 255 has all four channels 0. *)
Theorem first_pass_output_modes (format : PF_PixelFormat) (g : WeightTables)
    (info : ColorLinesInfo (channel format))
    (input : PF_EffectWorld (channel format)) (x y : Z) :
  in_world input x y ->
  let r := pass1_format format g info input in
  let ops := format_ops format in
  let outP := pixel_at (zero_pixel ops) (snd (fst r)) x y in
  (outputMode info = OUTPUT_MODE_LINE_ONLY ->
   GetMaskAt (snd r) x y = 255 -> alpha outP = chan_max ops)
  /\ (outputMode info = OUTPUT_MODE_LINE_ONLY ->
      in_edge_margin (pass1_ctx g info input) x y = false ->
      GetMaskAt (snd r) x y = 0 -> outP = zero_pixel ops)
  /\ (outputMode info = OUTPUT_MODE_BG_ONLY ->
      GetMaskAt (snd r) x y = 255 -> outP = zero_pixel ops).
Proof.
  intros Hin r ops outP. subst r ops outP.
  rewrite (pass1_format_mask format g info input x y Hin).
  rewrite (pass1_format_pixel format g info input x y Hin).
  unfold FillAndMask, mask_value.
  destruct (in_edge_margin (pass1_ctx g info input) x y).
  - repeat split; intros; discriminate.
  - cbn [fst snd outputMode SetMaskAtFast set_lineMask setup_info].
    destruct (isLine_format format (pass1_ctx g info input)
                (pixel_at (zero_pixel (format_ops format)) input x y)).
    + split; [|split].
      * intros Hm _. rewrite Hm. reflexivity.
      * intros; discriminate.
      * intros Hm _. rewrite Hm. reflexivity.
    + split; [|split].
      * intros; discriminate.
      * intros Hm _ _. rewrite Hm. reflexivity.
      * intros; discriminate.
Qed.

(** LineOnly mode over the 3x3 red frame with the red target: the centre
    pixel is a line pixel and comes out opaque. *)
Lemma first_pass_output_modes_witness :
  let info := example_info FILL_MODE_AVERAGE OUTPUT_MODE_LINE_ONLY 0 frame_red in
  let r := pass1_format PF_PixelFormat_ARGB32 initial_tables info frame_red in
  GetMaskAt (snd r) 1 1 = 255
  /\ alpha (pixel_at (zero_pixel ops8) (snd (fst r)) 1 1) = 255.
Proof.
  cbv zeta. split; [reflexivity|].
  assert (Hin : in_world frame_red 1 1) by (unfold in_world; simpl; lia).
  exact (proj1 (first_pass_output_modes PF_PixelFormat_ARGB32 initial_tables
                  (example_info FILL_MODE_AVERAGE OUTPUT_MODE_LINE_ONLY 0
                     frame_red) frame_red 1 1 Hin) eq_refl eq_refl).
Defined.

(* ===================================================================== *)
(** ** The render call over a frame                                       *)
(* ===================================================================== *)

(** The second pass as a whole: the blur callback at every pixel of the
    first pass's output. *)
Lemma pass2_output_pixel {C : Type} (exp : float -> float) (ops : DepthOps C)
    (blurPass : WeightTables -> BlurContext C -> Z -> Z -> PF_Pixel C ->
                PF_Pixel C)
    (g : WeightTables) (info : ColorLinesInfo C) (output : PF_EffectWorld C)
    (radius x y : Z) :
  in_world output x y ->
  pixel_at (zero_pixel ops) (snd (pass2 exp ops blurPass g info output radius))
    x y
  = blurPass (PrecomputeGaussianWeights exp radius g)
      (mkBlurCtx info output radius (radius * 2 + 1)) x y
      (pixel_at (zero_pixel ops) output x y).
Proof.
  intros [Hx Hy]. unfold pass2.
  rewrite (surjective_pairing (iterate _ _ _ _)). cbn [snd].
  rewrite iterate_stateless.
  rewrite pixel_at_map_frame by assumption. reflexivity.
Qed.

(** Property X6.  In every output mode but LineOnly, a pixel of the frame
    whose mask value is 0 after the first pass (the pixels of the edge
    margin and those that do not match the target colour) leaves the
    render as it came in, whether the blur pass runs or not. *)
Theorem unmasked_pixels_pass_through (exp : float -> float)
    (format : PF_PixelFormat) (g : WeightTables)
    (info : ColorLinesInfo (channel format))
    (input : PF_EffectWorld (channel format)) (x y : Z) :
  in_world input x y ->
  outputMode info <> OUTPUT_MODE_LINE_ONLY ->
  GetMaskAt (snd (pass1_format format g info input)) x y = 0 ->
  pixel_at (zero_pixel (format_ops format))
    (snd (SmartRender_format exp format g info input)) x y
  = pixel_at (zero_pixel (format_ops format)) input x y.
Proof.
  intros Hin Hmode Hz.
  assert (H1 : pixel_at (zero_pixel (format_ops format))
                 (snd (fst (pass1_format format g info input))) x y
               = pixel_at (zero_pixel (format_ops format)) input x y).
  { rewrite (pass1_format_mask format g info input x y Hin) in Hz.
    rewrite (pass1_format_pixel format g info input x y Hin).
    unfold FillAndMask. unfold mask_value in Hz.
    destruct (in_edge_margin (pass1_ctx g info input) x y); [reflexivity|].
    cbn [fst snd outputMode SetMaskAtFast set_lineMask setup_info].
    destruct (isLine_format format (pass1_ctx g info input)
                (pixel_at (zero_pixel (format_ops format)) input x y));
      [discriminate|].
    destruct (outputMode info =? OUTPUT_MODE_FULL); [reflexivity|].
    destruct (outputMode info =? OUTPUT_MODE_LINE_ONLY) eqn:E;
      [apply Z.eqb_eq in E; contradiction|].
    destruct (outputMode info =? OUTPUT_MODE_BG_ONLY); reflexivity. }
  assert (Hin1 : in_world (snd (fst (pass1_format format g info input))) x y).
  { rewrite pass1_format_unfold. exact Hin. }
  unfold SmartRender_format, SmartRender.
  fold (pass1_format format g info input).
  destruct (pass1_format format g info input) as [[g1 out1] info1].
  cbn [fst snd] in *.
  destruct (1 <=? effective_blur_radius (sampleBlur info1)); [|exact H1].
  rewrite pass2_output_pixel by exact Hin1.
  rewrite BlurPass_Optimized_unfold, BlurPass_unmasked by exact Hz.
  exact H1.
Qed.

(** Blur 25 over the 3x3 red frame with the red target, Full mode: the
    corner pixel lies in the edge margin and is not touched. *)
Lemma unmasked_pixels_pass_through_witness :
  let info := mkInfo (mkPixel 255 200 0 0) 10 FILL_MODE_AVERAGE 1 true 25 0 0 0
                OUTPUT_MODE_FULL frame_red [] 0 0 0 in
  effective_blur_radius (sampleBlur info) = 2
  /\ pixel_at (zero_pixel ops8)
       (snd (SmartRender_format exp_series PF_PixelFormat_ARGB32
               initial_tables info frame_red)) 0 0
     = opaque_red.
Proof.
  cbv zeta. split; [vm_compute; reflexivity|].
  assert (Hin : in_world frame_red 0 0) by (unfold in_world; simpl; lia).
  apply (unmasked_pixels_pass_through exp_series PF_PixelFormat_ARGB32
           initial_tables _ frame_red 0 0 Hin).
  - discriminate.
  - reflexivity.
Defined.

(* ===================================================================== *)
(** ** Exact binary64 arithmetic on whole numbers and powers of two       *)
(* ===================================================================== *)

(** The product of two numbers of the shape [SFdyadic], when it is below
    [2^53] too. *)
Lemma SFmul_dyadic (a : positive) (j : Z) (b : positive) (k : Z) :
  Zpos a * Zpos b < 2 ^ 53 -> -1000 <= j + k <= 900 ->
  SF64mul (SFdyadic a j) (SFdyadic b k) = SFdyadic (a * b) (j + k).
Proof.
  intros Hab Hjk.
  assert (Ha : Zpos a < 2 ^ 53) by nia.
  assert (Hb : Zpos b < 2 ^ 53) by nia.
  destruct (dyadic_mantissa a Ha) as (Hda & Hva & Ha53).
  destruct (dyadic_mantissa b Hb) as (Hdb & Hvb & Hb53).
  destruct (dyadic_mantissa (a * b) ltac:(lia)) as (Hdab & Hvab & Hab53).
  cbv zeta in *. unfold SFdyadic, SF64mul, SFmul. cbn [xorb].
  set (da := Zpos (digits2_pos a)) in *.
  set (db := Zpos (digits2_pos b)) in *.
  set (dab := Zpos (digits2_pos (a * b))) in *.
  set (Ka := Z.to_pos (Zpos a * 2 ^ (53 - da))) in *.
  set (Kb := Z.to_pos (Zpos b * 2 ^ (53 - db))) in *.
  set (Kab := Z.to_pos (Zpos (a * b) * 2 ^ (53 - dab))) in *.
  pose proof (digits2_pos_bounds a) as [Hla Hua]. fold da in Hla, Hua.
  pose proof (digits2_pos_bounds b) as [Hlb Hub]. fold db in Hlb, Hub.
  pose proof (digits2_pos_bounds (a * b)) as [Hlab Huab].
  fold dab in Hlab, Huab. rewrite Pos2Z.inj_mul in Hlab, Huab.
  assert (Hlow : da + db - 1 <= dab).
  { assert (2 ^ (da - 1 + (db - 1)) < 2 ^ dab).
    { rewrite Z.pow_add_r by lia.
      assert (0 < 2 ^ (da - 1)) by (apply Z.pow_pos_nonneg; lia).
      assert (0 < 2 ^ (db - 1)) by (apply Z.pow_pos_nonneg; lia). nia. }
    assert (da - 1 + (db - 1) < dab)
      by (apply (Z.pow_lt_mono_r_iff 2); lia). lia. }
  assert (Hhigh : dab <= da + db).
  { assert (2 ^ (dab - 1) < 2 ^ (da + db)).
    { rewrite (Z.pow_add_r 2 da db) by lia. nia. }
    assert (dab - 1 < da + db) by (apply (Z.pow_lt_mono_r_iff 2); lia). lia. }
  replace (dab - 53 + (j + k))
    with ((da - 53 + j + (db - 53 + k)) + (53 + dab - da - db)) by lia.
  apply binary_round_aux_shift; [exact Hab53|lia| |lia].
  assert (Hpow : 2 ^ (53 - da) * 2 ^ (53 - db)
                = 2 ^ (53 - dab) * 2 ^ (53 + dab - da - db))
    by (rewrite <- !Z.pow_add_r by lia; f_equal; lia).
  rewrite Pos2Z.inj_mul, Hva, Hvb, Hvab, Pos2Z.inj_mul.
  replace (Zpos a * 2 ^ (53 - da) * (Zpos b * 2 ^ (53 - db)))
    with (Zpos a * Zpos b * (2 ^ (53 - da) * 2 ^ (53 - db))) by ring.
  rewrite Hpow. ring.
Qed.

(** The sum of such a number with itself. *)
Lemma SFadd_dyadic_self (a : positive) (j : Z) :
  Zpos a < 2 ^ 53 -> -1000 <= j <= 900 ->
  SF64add (SFdyadic a j) (SFdyadic a j) = SFdyadic a (j + 1).
Proof.
  intros Ha Hj. destruct (dyadic_mantissa a Ha) as (Hda & Hva & Ha53).
  cbv zeta in *. unfold SFdyadic, SF64add, SFadd. cbn [cond_Zopp].
  set (da := Zpos (digits2_pos a)) in *.
  set (Ka := Z.to_pos (Zpos a * 2 ^ (53 - da))) in *.
  change (IntDef.Z.min (da - 53 + j) (da - 53 + j))
    with (Z.min (da - 53 + j) (da - 53 + j)).
  rewrite Z.min_id.
  pose proof (shl_align_value Ka (da - 53 + j) (da - 53 + j) ltac:(lia)) as Hs.
  rewrite Z.sub_diag, Z.pow_0_r, Z.mul_1_r in Hs. rewrite Hs.
  change (Zpos Ka + Zpos Ka) with (Zpos (Ka + Ka)).
  cbn [binary_normalize]. unfold binary_round.
  assert (Hd2 : Zpos (digits2_pos (Ka + Ka)) = 53 + 1).
  { apply digits2_pos_unique.
    pose proof (digits2_pos_bounds Ka) as [Hl Hu]. rewrite Ha53 in Hl, Hu.
    rewrite Pos2Z.inj_add. change (2 ^ (53 + 1 - 1)) with (2 ^ 52 * 2).
    change (2 ^ (53 + 1)) with (2 ^ 53 * 2).
    change (2 ^ (53 - 1)) with (2 ^ 52) in Hl. lia. }
  rewrite Hd2.
  replace (53 + 1 + (da - 53 + j)) with (53 + (da - 53 + j + 1)) by lia.
  rewrite fexp_normal by lia.
  unfold shl_align.
  replace (da - 53 + j + 1 - (da - 53 + j)) with 1 by lia. cbv iota.
  replace (da - 53 + (j + 1)) with (da - 53 + j + 1) by lia.
  apply binary_round_aux_shift; [exact Ha53|lia| |lia].
  rewrite Pos2Z.inj_add. change (2 ^ 1) with 2. lia.
Qed.

(** Truncation of such a number times [2^0] gives the whole number
    back. *)
Lemma FpLong_to_Z_dyadic (x : float) (n : positive) :
  Zpos n < 2 ^ 53 -> Prim2SF x = SFdyadic n 0 -> FpLong_to_Z x = Zpos n.
Proof.
  intros Hn Hx. unfold FpLong_to_Z. rewrite Hx. unfold SFdyadic.
  destruct (dyadic_mantissa n Hn) as (Hd & Hv & _). cbv zeta in *.
  set (d := Zpos (digits2_pos n)) in *. rewrite Hv.
  destruct (d - 53 + 0) as [|p|p] eqn:E; [|lia|].
  - replace (53 - d) with 0 by lia. lia.
  - replace (53 - d) with (Zpos p) by lia.
    change (- Zneg p) with (Zpos p).
    apply Z.div_mul. apply Z.pow_nonzero; lia.
Qed.

(** [Clamp16] of a whole number of 1..32768 held in a [PF_FpLong]. *)
Lemma Clamp16_dyadic (x : float) (n : positive) :
  Zpos n <= PF_MAX_CHAN16 -> Prim2SF x = SFdyadic n 0 -> Clamp16 x = Zpos n.
Proof.
  unfold PF_MAX_CHAN16. intros Hn Hx.
  assert (Hn53 : Zpos n < 2 ^ 53) by (change (2 ^ 53) with 9007199254740992; lia).
  destruct (dyadic_mantissa n Hn53) as (Hd & Hv & _). cbv zeta in *.
  assert (Hlt0 : (x <? 0)%float = false).
  { rewrite FloatAxioms.ltb_spec, Hx. reflexivity. }
  assert (Hhi : (FpLong_of_Z 32768 <? x)%float = false).
  { rewrite FloatAxioms.ltb_spec, Hx.
    change (Prim2SF (FpLong_of_Z 32768))
      with (S754_finite false 4503599627370496 (-37)).
    unfold SFdyadic, SFltb, SFcompare.
    set (d := Zpos (digits2_pos n)) in *.
    assert (Hd16 : d <= 16).
    { pose proof (digits2_pos_bounds n) as [Hl _]. fold d in Hl.
      assert (d - 1 < 16).
      { apply (Z.pow_lt_mono_r_iff 2); [lia|lia|].
        change (2 ^ 16) with 65536. lia. }
      lia. }
    destruct (Z.compare_spec (-37) (d - 53 + 0)) as [E|E|E];
      [|lia|reflexivity].
    assert (Hd' : d = 16) by lia.
    assert (Hle : Zpos (Z.to_pos (Zpos n * 2 ^ (53 - d))) <= 4503599627370496).
    { rewrite Hv, Hd'. change (2 ^ (53 - 16)) with 137438953472. lia. }
    change (PosDef.Pos.compare_cont Eq 4503599627370496
              (Z.to_pos (Zpos n * 2 ^ (53 - d))))
      with (4503599627370496 ?= Z.to_pos (Zpos n * 2 ^ (53 - d)))%positive.
    destruct (Pos.compare_spec 4503599627370496
                (Z.to_pos (Zpos n * 2 ^ (53 - d)))) as [C|C|C];
      [reflexivity|lia|reflexivity]. }
  unfold Clamp16, PF_MAX_CHAN16. rewrite Hlt0, Hhi.
  rewrite (FpLong_to_Z_dyadic x n Hn53 Hx).
  unfold A_u_short_of. apply Z.mod_small. lia.
Qed.
(** 0 plus such a number, and such a number minus itself. *)
Lemma SFadd_zero_dyadic (a : positive) (j : Z) :
  SF64add (S754_zero false) (SFdyadic a j) = SFdyadic a j.
Proof. reflexivity. Qed.

Lemma SFsub_dyadic_self (a : positive) (j : Z) :
  SF64sub (SFdyadic a j) (SFdyadic a j) = S754_zero false.
Proof.
  unfold SFdyadic, SF64sub, SFsub. cbn [cond_Zopp].
  rewrite Z.sub_diag. reflexivity.
Qed.

(** A 16-bit channel value promoted to [PF_FpLong] and clamped back. *)
Lemma short_channel_exact (n : Z) :
  0 <= n <= PF_MAX_CHAN16 -> Clamp16 (FpLong_of_Z n) = n.
Proof.
  intros Hn. destruct n as [|q|q]; [vm_compute; reflexivity| |lia].
  apply Clamp16_dyadic; [lia|]. apply FpLong_of_Z_dyadic.
  unfold PF_MAX_CHAN16 in Hn. change (2 ^ 53) with 9007199254740992. lia.
Qed.

(** The mean of one sample of weight 1, as the blur computes it, in a
    16-bit channel. *)
Lemma single_sample_short (n : Z) :
  0 <= n <= PF_MAX_CHAN16 ->
  Clamp16 ((0 + FpLong_of_Z n * 1) * (1 / (0 + 1)))%float = n.
Proof.
  intros Hn. destruct n as [|q|q]; [vm_compute; reflexivity| |lia].
  assert (Hq : Zpos q < 2 ^ 53)
    by (unfold PF_MAX_CHAN16 in Hn; change (2 ^ 53) with 9007199254740992; lia).
  change (1 / (0 + 1))%float with 1%float.
  apply Clamp16_dyadic; [lia|].
  rewrite FloatAxioms.mul_spec, FloatAxioms.add_spec, FloatAxioms.mul_spec.
  rewrite (FpLong_of_Z_dyadic q Hq).
  change (Prim2SF 1) with (SFdyadic 1 0).
  change (Prim2SF 0) with (S754_zero false).
  rewrite (SFmul_dyadic q 0 1 0) by lia.
  rewrite Pos.mul_1_r. change (0 + 0) with 0.
  rewrite SFadd_zero_dyadic.
  rewrite (SFmul_dyadic q 0 1 0) by lia.
  rewrite Pos.mul_1_r. reflexivity.
Qed.

(** A grey 16-bit channel value, normalised: its spread is below the
    achromatic threshold, and its lightness stored back is the value. *)
Lemma grey_short (n : Z) :
  0 <= n <= PF_MAX_CHAN16 ->
  let c := (FpLong_of_Z n * (1 / FpLong_of_Z PF_MAX_CHAN16))%float in
  (c - c <? 0.00001)%float = true
  /\ Clamp16 ((c + c) * 0.5 * FpLong_of_Z PF_MAX_CHAN16)%float = n
  /\ Clamp16 (c * FpLong_of_Z PF_MAX_CHAN16)%float = n.
Proof.
  intros Hn. destruct n as [|q|q]; [| |lia].
  { cbv zeta. repeat split; vm_compute; reflexivity. }
  intros c.
  assert (Hq : Zpos q <= 32768)
    by (unfold PF_MAX_CHAN16 in *; lia).
  clear Hn.
  assert (Hq53 : Zpos q < 2 ^ 53)
    by (change (2 ^ 53) with 9007199254740992; lia).
  assert (Hc : Prim2SF c = SFdyadic q (-15)).
  { subst c. rewrite FloatAxioms.mul_spec, (FpLong_of_Z_dyadic q Hq53).
    change (Prim2SF (1 / FpLong_of_Z PF_MAX_CHAN16)) with (SFdyadic 1 (-15)).
    rewrite (SFmul_dyadic q 0 1 (-15)) by lia.
    rewrite Pos.mul_1_r. reflexivity. }
  assert (Hmax : Prim2SF (FpLong_of_Z PF_MAX_CHAN16) = SFdyadic 1 15)
    by reflexivity.
  clearbody c. split; [|split].
  - rewrite FloatAxioms.ltb_spec, FloatAxioms.sub_spec, Hc, SFsub_dyadic_self.
    reflexivity.
  - apply Clamp16_dyadic; [unfold PF_MAX_CHAN16; lia|].
    rewrite !FloatAxioms.mul_spec, FloatAxioms.add_spec, Hc, Hmax.
    change (Prim2SF 0.5) with (SFdyadic 1 (-1)).
    rewrite SFadd_dyadic_self by lia.
    rewrite (SFmul_dyadic q (-15 + 1) 1 (-1)) by lia.
    rewrite Pos.mul_1_r.
    rewrite (SFmul_dyadic q (-15 + 1 + -1) 1 15) by lia.
    rewrite Pos.mul_1_r. reflexivity.
  - apply Clamp16_dyadic; [unfold PF_MAX_CHAN16; lia|].
    rewrite FloatAxioms.mul_spec, Hc, Hmax.
    rewrite (SFmul_dyadic q (-15) 1 15) by lia.
    rewrite Pos.mul_1_r. reflexivity.
Qed.
(** Rounding a whole multiple [S * 2^u] of a power of two, for [S] below
    [2^53]: nothing is lost. *)
Lemma binary_round_dyadic (D S : positive) (ez u : Z) :
  Zpos D = Zpos S * 2 ^ u -> 0 <= u -> Zpos S < 2 ^ 53 ->
  -1000 <= ez + u <= 900 ->
  binary_round prec emax false D ez = SFdyadic S (ez + u).
Proof.
  intros HD Hu HS Hr.
  destruct (dyadic_mantissa S HS) as (Hd & Hv & H53). cbv zeta in *.
  unfold SFdyadic, binary_round.
  set (d := Zpos (digits2_pos S)) in *.
  set (K := Z.to_pos (Zpos S * 2 ^ (53 - d))) in *.
  pose proof (digits2_pos_bounds S) as [Hl Hh]. fold d in Hl, Hh.
  assert (Hpu : 0 < 2 ^ u) by (apply Z.pow_pos_nonneg; lia).
  assert (HdD : Zpos (digits2_pos D) = d + u).
  { apply digits2_pos_unique. rewrite HD.
    replace (d + u - 1) with (d - 1 + u) by lia.
    rewrite !Z.pow_add_r by lia. nia. }
  rewrite HdD.
  replace (d + u + ez) with (53 + (d - 53 + (ez + u))) by lia.
  rewrite fexp_normal by lia.
  destruct (Z_lt_le_dec (d - 53 + (ez + u)) ez) as [Hlt|Hge].
  - pose proof (shl_align_value D ez (d - 53 + (ez + u)) ltac:(lia)) as Ha.
    pose proof (shl_align_exponent D ez (d - 53 + (ez + u)) ltac:(lia)) as He.
    destruct (shl_align D ez (d - 53 + (ez + u))) as [mz e']. cbn [fst snd] in *.
    subst e'.
    assert (mz = K).
    { apply Pos2Z.inj. rewrite Ha, Hv, HD, <- Z.mul_assoc.
      rewrite <- Z.pow_add_r by lia. f_equal. f_equal. lia. }
    subst mz. apply binary_round_aux_exact; lia.
  - unfold shl_align.
    destruct (d - 53 + (ez + u) - ez) as [|p|p] eqn:Ep; [| |lia].
    + replace (d - 53 + (ez + u)) with ez by lia.
      assert (D = K).
      { apply Pos2Z.inj. rewrite Hv, HD. f_equal. f_equal. lia. }
      subst D. apply binary_round_aux_exact; lia.
    + replace (d - 53 + (ez + u)) with (ez + Zpos p) by lia.
      apply binary_round_aux_shift; [exact H53|lia| |lia].
      rewrite Hv, HD, <- Z.mul_assoc, <- Z.pow_add_r by lia.
      f_equal. f_equal. lia.
Qed.

(** The sum of two such numbers, when it is below [2^53] at the smaller
    of the two exponents. *)
Lemma SFadd_dyadic (a : positive) (j : Z) (b : positive) (k : Z) (S : positive) :
  Zpos a < 2 ^ 53 -> Zpos b < 2 ^ 53 ->
  Zpos S = Zpos a * 2 ^ (j - Z.min j k) + Zpos b * 2 ^ (k - Z.min j k) ->
  Zpos S < 2 ^ 53 -> -900 <= j <= 900 -> -900 <= k <= 900 ->
  SF64add (SFdyadic a j) (SFdyadic b k) = SFdyadic S (Z.min j k).
Proof.
  intros Ha Hb HS HS53 Hj Hk.
  destruct (dyadic_mantissa a Ha) as (Hda & Hva & _).
  destruct (dyadic_mantissa b Hb) as (Hdb & Hvb & _). cbv zeta in *.
  unfold SFdyadic at 1 2. cbv zeta. unfold SF64add, SFadd. cbn [cond_Zopp].
  set (da := Zpos (digits2_pos a)) in *.
  set (db := Zpos (digits2_pos b)) in *.
  change (IntDef.Z.min (da - 53 + j) (db - 53 + k))
    with (Z.min (da - 53 + j) (db - 53 + k)).
  set (ez := Z.min (da - 53 + j) (db - 53 + k)).
  set (t := Z.min j k) in *.
  rewrite (shl_align_value _ (da - 53 + j) ez), (shl_align_value _ (db - 53 + k) ez)
    by (subst ez; lia).
  rewrite Hva, Hvb.
  assert (Hez : ez <= t) by (subst ez t; lia).
  assert (Hsum : Zpos a * 2 ^ (53 - da) * 2 ^ (da - 53 + j - ez)
                 + Zpos b * 2 ^ (53 - db) * 2 ^ (db - 53 + k - ez)
                 = Zpos S * 2 ^ (t - ez)).
  { rewrite HS, Z.mul_add_distr_r, <- !Z.mul_assoc.
    rewrite <- !Z.pow_add_r by (subst ez t; lia).
    f_equal; f_equal; f_equal; lia. }
  rewrite Hsum.
  assert (Hpos : 0 < Zpos S * 2 ^ (t - ez))
    by (apply Z.mul_pos_pos; [lia|apply Z.pow_pos_nonneg; lia]).
  destruct (Zpos S * 2 ^ (t - ez)) as [|D|D] eqn:ED; try lia.
  cbn [binary_normalize].
  rewrite (binary_round_dyadic D S ez (t - ez));
    [f_equal; lia|symmetry; exact ED|lia|exact HS53|subst t; lia].
Qed.

(** Such a number divided by a power of two. *)
Lemma SFdiv_dyadic_pow2 (a : positive) (j k : Z) :
  Zpos a < 2 ^ 53 -> -400 <= j <= 400 -> -400 <= k <= 400 ->
  SF64div (SFdyadic a j) (SFdyadic 1 k) = SFdyadic a (j - k).
Proof.
  intros Ha Hj Hk.
  destruct (dyadic_mantissa a Ha) as (Hda & Hva & Ha53). cbv zeta in *.
  unfold SFdyadic at 1 2. cbv zeta. unfold SF64div, SFdiv. cbn [xorb].
  change (Zpos (digits2_pos 1)) with 1.
  change (Z.to_pos (1 * 2 ^ (53 - 1))) with 4503599627370496%positive.
  set (da := Zpos (digits2_pos a)) in *.
  set (Ka := Z.to_pos (Zpos a * 2 ^ (53 - da))) in *.
  unfold SFdiv_core_binary. cbn [Zdigits2]. rewrite Ha53.
  change (Zpos (digits2_pos 4503599627370496)) with 53.
  replace (53 + (da - 53 + j) - (53 + (1 - 53 + k)))
    with (53 + (da - 53 + j - (1 - 53 + k) - 53)) by lia.
  rewrite fexp_normal by lia.
  change (IntDef.Z.min (da - 53 + j - (1 - 53 + k) - 53)
            (da - 53 + j - (1 - 53 + k)))
    with (Z.min (da - 53 + j - (1 - 53 + k) - 53) (da - 53 + j - (1 - 53 + k))).
  rewrite Z.min_l by lia.
  replace (da - 53 + j - (1 - 53 + k) - (da - 53 + j - (1 - 53 + k) - 53))
    with 53 by lia.
  cbv zeta iota.
  change (IntDef.Z.shiftl (Zpos Ka) 53) with (Z.shiftl (Zpos Ka) 53).
  rewrite Z.shiftl_mul_pow2 by lia.
  change (IntDef.Z.div_eucl (Zpos Ka * 2 ^ 53) 4503599627370496)
    with (Z.div_eucl (Zpos Ka * 2 ^ 53) 4503599627370496).
  assert (Hq : Z.div_eucl (Zpos Ka * 2 ^ 53) 4503599627370496
               = (Zpos Ka * 2, 0)).
  { pose proof (Z.div_eucl_eq (Zpos Ka * 2 ^ 53) 4503599627370496 ltac:(lia))
      as He.
    pose proof (Z.mod_pos_bound (Zpos Ka * 2 ^ 53) 4503599627370496 ltac:(lia))
      as Hm.
    unfold Z.modulo in Hm.
    destruct (Z.div_eucl (Zpos Ka * 2 ^ 53) 4503599627370496) as [q r].
    change (2 ^ 53) with (4503599627370496 * 2) in He.
    assert (r = 0) by lia. subst r. f_equal. lia. }
  rewrite Hq. cbv iota beta.
  change (new_location 4503599627370496 0) with loc_Exact.
  replace (Zpos Ka * 2) with (Zpos (Ka~0)) by lia.
  unfold SFdyadic. cbv zeta. fold da. fold Ka.
  replace (da - 53 + (j - k))
    with (da - 53 + j - (1 - 53 + k) - 53 + 1) by lia.
  apply binary_round_aux_shift;
    [exact Ha53|lia|change (2 ^ 1) with 2; lia|lia].
Qed.

(** Truncation of such a number with an exponent of at most 0. *)
Lemma FpLong_to_Z_dyadic_div (x : float) (n : positive) (j : Z) :
  Zpos n < 2 ^ 53 -> j <= 0 -> Prim2SF x = SFdyadic n j ->
  FpLong_to_Z x = Zpos n / 2 ^ (- j).
Proof.
  intros Hn Hj Hx. unfold FpLong_to_Z. rewrite Hx. unfold SFdyadic.
  destruct (dyadic_mantissa n Hn) as (Hd & Hv & _). cbv zeta in *.
  set (d := Zpos (digits2_pos n)) in *. rewrite Hv.
  destruct (d - 53 + j) as [|p|p] eqn:E; [|lia|].
  - replace (53 - d) with 0 by lia. replace (- j) with 0 by lia.
    rewrite Z.pow_0_r, Z.mul_1_r, Z.div_1_r. reflexivity.
  - change (- Zneg p) with (Zpos p).
    replace (Zpos p) with (- j + (53 - d)) by lia.
    rewrite Z.pow_add_r by lia.
    apply Z.div_mul_cancel_r; apply Z.pow_nonzero; lia.
Qed.

(* ===================================================================== *)
(** ** Rectangles                                                         *)
(* ===================================================================== *)

(** Property X7.  [UnionLRect] leaves in [dst] the smallest rectangle
    that contains both rectangles: each edge is the outer one of the two.
    There is no special case for an empty rectangle. *)
Theorem UnionLRect_is_bounding_box (src dst : LRect.t) :
  let u := UnionLRect src dst in
  LRect.left u = Z.min (LRect.left src) (LRect.left dst)
  /\ LRect.top u = Z.min (LRect.top src) (LRect.top dst)
  /\ LRect.right u = Z.max (LRect.right src) (LRect.right dst)
  /\ LRect.bottom u = Z.max (LRect.bottom src) (LRect.bottom dst).
Proof.
  destruct src as [l1 t1 r1 b1], dst as [l2 t2 r2 b2].
  cbv zeta. unfold UnionLRect. cbn.
  destruct (l1 <? l2) eqn:E1; cbn; destruct (t1 <? t2) eqn:E2; cbn;
    destruct (r2 <? r1) eqn:E3; cbn; destruct (b2 <? b1) eqn:E4; cbn; lia.
Qed.

(* ===================================================================== *)
(** ** Clamps and channel conversions                                     *)
(* ===================================================================== *)

Lemma byte_channels_checked :
  all_below 8 0 (fun n => ClampByte (FpLong_of_Z n) =? n) = true.
Proof. vm_compute. reflexivity. Qed.

(** A number above a positive bound is not below 0. *)
Lemma ltb_above_not_negative (hi v : float) (m : positive) (e : Z) :
  Prim2SF hi = S754_finite false m e ->
  (hi <? v)%float = true -> (v <? 0)%float = false.
Proof.
  intros Hhi H. rewrite FloatAxioms.ltb_spec in *. rewrite Hhi in H.
  change (Prim2SF 0) with (S754_zero false).
  unfold SFltb, SFcompare in *.
  destruct (Prim2SF v) as [s|s| |s m' e']; try discriminate.
  - destruct s; [discriminate|reflexivity].
  - destruct s; [discriminate|reflexivity].
Qed.

(** Property X8.  A channel value promoted to [PF_FpLong] and clamped
    back is unchanged: [ClampByte] on 0..255 and [Clamp16] on 0..32768
    are the identity.  A value above the maximum is clamped to the
    maximum and one below 0 to 0 before the narrowing cast, which
    therefore never wraps. *)
Theorem clamp_of_channel (n : Z) (v : float) :
  (0 <= n <= 255 -> ClampByte (FpLong_of_Z n) = n)
  /\ (0 <= n <= PF_MAX_CHAN16 -> Clamp16 (FpLong_of_Z n) = n)
  /\ ((255 <? v)%float = true -> ClampByte v = 255)
  /\ ((FpLong_of_Z PF_MAX_CHAN16 <? v)%float = true ->
      Clamp16 v = PF_MAX_CHAN16)
  /\ ((v <? 0)%float = true -> ClampByte v = 0 /\ Clamp16 v = 0).
Proof.
  split; [|split; [|split; [|split]]].
  - intros Hn. apply Z.eqb_eq.
    apply (all_below_spec 8 0 _ byte_channels_checked).
    change (2 ^ Z.of_nat 8) with 256. lia.
  - apply short_channel_exact.
  - intros H. unfold ClampByte.
    rewrite (ltb_above_not_negative 255 v _ _ eq_refl H), H.
    vm_compute; reflexivity.
  - intros H. unfold Clamp16.
    assert (Hhi : Prim2SF (FpLong_of_Z PF_MAX_CHAN16)
                  = S754_finite false 4503599627370496 (-37))
      by (vm_compute; reflexivity).
    rewrite (ltb_above_not_negative _ v _ _ Hhi H), H.
    vm_compute; reflexivity.
  - intros H. unfold ClampByte, Clamp16. rewrite H.
    split; vm_compute; reflexivity.
Qed.

(** Channel value 200, and the [PF_FpLong] 300.5 that lies above the
    8-bit range. *)
Lemma clamp_of_channel_witness :
  ClampByte (FpLong_of_Z 200) = 200 /\ ClampByte 300.5 = 255.
Proof.
  split.
  - apply (proj1 (clamp_of_channel 200 0)). lia.
  - apply (proj1 (proj2 (proj2 (clamp_of_channel 0 300.5)))). reflexivity.
Defined.

(* ===================================================================== *)
(** ** Colour adjuster and matcher: what they leave alone                 *)
(* ===================================================================== *)

(** Property X9.  The colour adjuster of every format leaves the alpha
    channel as it is, whatever the adjustment factors. *)
Theorem adjuster_keeps_alpha (format : PF_PixelFormat)
    (pixel : PF_Pixel (channel format)) (adj : ColorAdjustParams) :
  alpha (ApplyColorAdjustmentsFast format pixel adj) = alpha pixel.
Proof.
  destruct format; cbn [ApplyColorAdjustmentsFast channel] in *.
  - unfold ApplyColorAdjustments8Fast.
    destruct (negb (needsAdjustment adj)); [reflexivity|].
    destruct (saturation_stage _ _) as [[r g] b]. reflexivity.
  - unfold ApplyColorAdjustments16Fast.
    destruct (negb (needsAdjustment adj)); [reflexivity|].
    destruct (saturation_stage _ _) as [[r g] b]. reflexivity.
  - unfold ApplyColorAdjustmentsFloatFast.
    destruct (negb (needsAdjustment adj)); [reflexivity|].
    destruct (needsBrightness adj), (needsContrast adj),
      (needsSaturation adj); cbn;
      repeat match goal with
             | |- context [let '(_, _) := ?t in _] =>
                 destruct t as [[? ?] ?] eqn:?
             end; reflexivity.
Qed.

(** Property X10.  With brightness, contrast and saturation all at 0
    (of either sign) the adjusters called with the settings of the effect
    return the pixel unchanged, in every format: no channel goes through
    the normalise-and-store conversion. *)
Theorem adjuster_off_is_identity (format : PF_PixelFormat)
    (pixel : PF_Pixel (channel format))
    (info : ColorLinesInfo (channel format)) :
  (brightness info =? 0)%float = true ->
  (contrast info =? 0)%float = true ->
  (saturation info =? 0)%float = true ->
  ApplyColorAdjustments_format format pixel info = pixel.
Proof.
  intros Hb Hc Hs.
  assert (Hoff : needsAdjustment (InitColorAdjustParams info) = false).
  { unfold InitColorAdjustParams. cbn [needsAdjustment].
    rewrite Hb, Hc, Hs. reflexivity. }
  destruct format; cbn [ApplyColorAdjustments_format channel] in *.
  - unfold ApplyColorAdjustments8, ApplyColorAdjustments8Fast.
    rewrite Hoff. reflexivity.
  - unfold ApplyColorAdjustments16, ApplyColorAdjustments16Fast.
    rewrite Hoff. reflexivity.
  - unfold ApplyColorAdjustmentsFloat, ApplyColorAdjustmentsFloatFast.
    rewrite Hoff. reflexivity.
Qed.

Lemma adjuster_off_is_identity_witness :
  ApplyColorAdjustments_format PF_PixelFormat_ARGB32 opaque_red
    info_average_plain = opaque_red.
Proof.
  apply (adjuster_off_is_identity PF_PixelFormat_ARGB32 opaque_red
           info_average_plain); reflexivity.
Defined.

(** Property X11.  The matcher the first-pass callback runs on the
    context of [InitProcessingContext] gives the answer of the legacy
    matcher, which scales target and tolerance itself, in every format. *)
Theorem context_matcher_is_legacy_matcher (format : PF_PixelFormat)
    (g : WeightTables) (info : ColorLinesInfo (channel format))
    (pixel : PF_Pixel (channel format)) :
  isLine_format format (snd (InitProcessingContext g info)) pixel
  = IsTargetColor_format format pixel (targetColor info) (tolerance info).
Proof.
  destruct format; cbn [isLine_format IsTargetColor_format channel] in *.
  - unfold isLine8, IsTargetColor8, InitProcessingContext.
    cbn [snd targetR8 targetG8 targetB8 toleranceSq8]. reflexivity.
  - unfold isLine16, IsTargetColor16, InitProcessingContext.
    cbn [snd targetR16 targetG16 targetB16 toleranceSq16]. reflexivity.
  - unfold isLineFloat, IsTargetColorFloat, InitProcessingContext.
    cbn [snd targetRF targetGF targetBF toleranceSqF]. reflexivity.
Qed.

(* ===================================================================== *)
(** ** Signs of binary64 results                                          *)
(* ===================================================================== *)

Lemma shr_fexp_nonneg (m e : Z) (l : location) :
  0 <= m -> 0 <= shr_m (fst (shr_fexp prec emax m e l)).
Proof.
  intros Hm. unfold shr_fexp, shr.
  destruct (fexp prec emax (Zdigits2 m + e) - e) as [|p|p]; cbn [fst].
  - rewrite shr_m_shr_record_of_loc. exact Hm.
  - rewrite shr_m_iter_pos by (rewrite shr_m_shr_record_of_loc; exact Hm).
    rewrite shr_m_shr_record_of_loc. apply Z.div_pos; lia.
  - rewrite shr_m_shr_record_of_loc. exact Hm.
Qed.

Lemma round_nearest_even_nonneg (m : Z) (l : location) :
  0 <= m -> 0 <= round_nearest_even m l.
Proof.
  intros Hm. unfold round_nearest_even.
  destruct l as [|[| |]]; try lia. destruct (IntDef.Z.even m); lia.
Qed.

(** A rounded product or sum keeps the sign it was given: it is a zero,
    a finite number or an infinity of that sign, never NaN. *)
Lemma binary_round_aux_sign (s : bool) (m : positive) (e : Z) (l : location) :
  let r := binary_round_aux prec emax s (Zpos m) e l in
  r = S754_zero s \/ r = S754_infinity s
  \/ exists m' e', r = S754_finite s m' e'.
Proof.
  cbv zeta. unfold binary_round_aux.
  pose proof (shr_fexp_nonneg (Zpos m) e l ltac:(lia)) as H1.
  destruct (shr_fexp prec emax (Zpos m) e l) as [mrs1 e1]. cbn [fst] in H1.
  pose proof (round_nearest_even_nonneg (shr_m mrs1) (loc_of_shr_record mrs1) H1)
    as H2.
  pose proof (shr_fexp_nonneg _ e1 loc_Exact H2) as H3.
  destruct (shr_fexp prec emax _ e1 loc_Exact) as [mrs2 e2]. cbn [fst] in H3.
  destruct (shr_m mrs2) as [|m2|m2]; [left; reflexivity| |lia].
  destruct (e2 <=? emax - prec); [|right; left; reflexivity].
  right; right. exists m2, e2. reflexivity.
Qed.

Lemma not_nan_shape (x : float) :
  (x =? x)%float = true <-> Prim2SF x <> S754_nan.
Proof.
  rewrite FloatAxioms.eqb_spec. unfold SFeqb.
  destruct (Prim2SF x) as [s|s| |s m e]; cbn.
  - split; [discriminate|reflexivity].
  - destruct s; split; try discriminate; reflexivity.
  - split; [discriminate|congruence].
  - rewrite Z.compare_refl.
    assert (Hm : PosDef.Pos.compare_cont Eq m m = Eq) by apply Pos.compare_refl.
    rewrite Hm. destruct s; split; try discriminate; reflexivity.
Qed.

(** A product of two numbers is NaN only if a factor is NaN or the
    factors are a zero and an infinity. *)
Lemma SFmul_finite_not_nan (x : spec_float) (s : bool) (m : positive) (e : Z) :
  x <> S754_nan -> SF64mul x (S754_finite s m e) <> S754_nan.
Proof.
  intros Hx. destruct x as [sx|sx| |sx mx ex]; cbn; try discriminate;
    [congruence|].
  pose proof (binary_round_aux_sign (xorb sx s) (mx * m) (ex + e) loc_Exact)
    as H. cbv zeta in H.
  destruct H as [H|[H|(m' & e' & H)]]; rewrite H; discriminate.
Qed.

(** The square of a number that is not NaN is at least 0. *)
Lemma float_square_nonneg (x : float) :
  (x =? x)%float = true -> (0 <=? x * x)%float = true.
Proof.
  intros Hx. apply not_nan_shape in Hx. apply leb_zero_shape.
  rewrite FloatAxioms.mul_spec.
  destruct (Prim2SF x) as [s|s| |s m e]; cbn.
  - destruct s; constructor.
  - destruct s; constructor.
  - congruence.
  - pose proof (binary_round_aux_sign (xorb s s) (m * m) (e + e) loc_Exact)
      as H. cbv zeta in H. replace (xorb s s) with false in * by (destruct s; reflexivity).
    destruct H as [H|[H|(m' & e' & H)]]; rewrite H; constructor.
Qed.

(** A positive integer below [2^63] promoted to [PF_FpLong] is above 0. *)
Lemma FpLong_of_Z_positive (d : Z) :
  0 < d < 2 ^ 63 -> (FpLong_of_Z d <=? 0)%float = false.
Proof.
  intros Hd. unfold FpLong_of_Z.
  destruct (d <? 0) eqn:E; [lia|].
  rewrite FloatAxioms.leb_spec, FloatAxioms.of_uint63_spec, Uint63.of_Z_spec.
  rewrite Z.mod_small by (change wB with (2 ^ 63); lia).
  destruct d as [|p|p]; try lia. cbn [binary_normalize].
  assert (Hmag : -1074 < Zpos (digits2_pos p) + 0) by lia.
  destruct (binary_round_positive p 0 Hmag) as [H|(m & e & H & _)];
    rewrite H; reflexivity.
Qed.

(* ===================================================================== *)
(** ** The 8-bit matcher on the target colour itself                      *)
(* ===================================================================== *)

(** Property X12.  In 8-bit frames, with tolerance 0 (the default of the
    effect) a pixel is a line pixel exactly when its red, green and blue
    are those of the target colour; and a pixel of the target colour is a
    line pixel for every tolerance that is a number. *)
Theorem exact_colour_is_line_8bit (pixel : PF_Pixel8) (target : PF_Pixel Z)
    (tolerance : float) :
  byte_range pixel -> byte_range target ->
  let same := red pixel = red target /\ green pixel = green target
              /\ blue pixel = blue target in
  (IsTargetColor8 pixel target 0 = true <-> same)
  /\ ((tolerance =? tolerance)%float = true -> same ->
      IsTargetColor8 pixel target tolerance = true).
Proof.
  intros Hp Ht same. subst same.
  pose proof Hp as (Hr & Hg & Hb). pose proof Ht as (Hr' & Hg' & Hb').
  unfold IsTargetColor8, IsTargetColor8Fast.
  rewrite distSq8_exact by assumption.
  set (d := (red pixel - red target) ^ 2 + (green pixel - green target) ^ 2
            + (blue pixel - blue target) ^ 2).
  assert (Hd : 0 <= d < 2 ^ 63).
  { pose proof (sq_bound (red pixel - red target) ltac:(lia)).
    pose proof (sq_bound (green pixel - green target) ltac:(lia)).
    pose proof (sq_bound (blue pixel - blue target) ltac:(lia)).
    subst d. rewrite !Z.pow_2_r. lia. }
  assert (Hzero : d = 0 <-> red pixel = red target /\ green pixel = green target
                            /\ blue pixel = blue target).
  { subst d. rewrite !Z.pow_2_r. split.
    - intros H.
      pose proof (Z.square_nonneg (red pixel - red target)).
      pose proof (Z.square_nonneg (green pixel - green target)).
      pose proof (Z.square_nonneg (blue pixel - blue target)).
      assert (E1 : (red pixel - red target) * (red pixel - red target) = 0) by lia.
      assert (E2 : (green pixel - green target) * (green pixel - green target) = 0)
        by lia.
      assert (E3 : (blue pixel - blue target) * (blue pixel - blue target) = 0)
        by lia.
      apply Z.mul_eq_0 in E1, E2, E3. lia.
    - intros (-> & -> & ->). rewrite !Z.sub_diag. reflexivity. }
  split.
  - change (0 * 4.4167 * (0 * 4.4167))%float with 0%float.
    rewrite <- Hzero. split.
    + intros H. destruct (Z.eq_dec d 0) as [E|E]; [exact E|].
      rewrite FpLong_of_Z_positive in H by lia. discriminate.
    + intros ->. reflexivity.
  - intros Hnan Hsame. apply Hzero in Hsame. rewrite Hsame.
    change (FpLong_of_Z 0) with 0%float.
    apply float_square_nonneg. apply not_nan_shape.
    rewrite FloatAxioms.mul_spec.
    change (Prim2SF 4.4167) with (S754_finite false 4972762118551817 (-50)).
    apply SFmul_finite_not_nan. apply not_nan_shape. exact Hnan.
Qed.

(** The target colour (200,0,0) itself, at tolerance 0 and at
    tolerance 10. *)
Lemma exact_colour_is_line_8bit_witness :
  IsTargetColor8 opaque_red (mkPixel 255 200 0 0) 0 = true
  /\ IsTargetColor8 opaque_red (mkPixel 255 200 0 0) 10 = true.
Proof.
  assert (Hp : byte_range opaque_red) by (unfold byte_range; simpl; lia).
  pose proof (exact_colour_is_line_8bit opaque_red (mkPixel 255 200 0 0) 10
                Hp example_target_in_bytes) as [H0 H1].
  split.
  - apply H0. repeat split.
  - apply H1; [reflexivity|repeat split].
Defined.

(* ===================================================================== *)
(** ** The weight tables between render calls                             *)
(* ===================================================================== *)

Lemma PrecomputeInvDistWeights_ok (radius : Z) (g : WeightTables) :
  invDist_cache_ok g -> 1 <= radius <= MAX_WEIGHT_TABLE_RADIUS ->
  let g' := PrecomputeInvDistWeights radius g in
  g_currentWeightRadius g' = radius
  /\ invDist_table_for radius (g_invDistWeights g')
  /\ invDist_cache_ok g'.
Proof.
  intros [Hlen Hc] Hr. unfold PrecomputeInvDistWeights.
  destruct (radius =? g_currentWeightRadius g) eqn:E.
  - apply Z.eqb_eq in E. cbn zeta.
    destruct Hc as [Hc|[Hc1 Hc2]]; [lia|].
    rewrite <- E in Hc2.
    split; [symmetry; exact E|]. split; [exact Hc2|].
    split; [exact Hlen|]. right. rewrite <- E. split; [exact Hr|exact Hc2].
  - cbn zeta.
    destruct (MAX_WEIGHT_TABLE_RADIUS <? radius) eqn:Em; [lia|].
    rewrite fill_loops_as_writes.
    cbn [g_currentWeightRadius g_invDistWeights].
    assert (Ht : invDist_table_for radius
                   (apply_writes (table_writes radius invDist_weight)
                      (g_invDistWeights g))).
    { intros dx dy Hx Hy. apply filled_table_get; auto. lia. }
    split; [reflexivity|]. split; [exact Ht|].
    split; cbn [g_currentWeightRadius g_invDistWeights].
    + rewrite length_apply_writes. exact Hlen.
    + right. split; [exact Hr|exact Ht].
Qed.

Lemma initial_tables_invDist_ok : invDist_cache_ok initial_tables.
Proof.
  split; [|left; reflexivity].
  unfold initial_tables. cbn [g_invDistWeights]. apply length_replicate.
Qed.

(** Property X13.  In Weighted fill mode with a search radius of 1 to 50,
    after [InitProcessingContext] the weight the fill reads for the offset
    [(dx, dy)] of its window is [1 / (sqrt (dx^2 + dy^2) + 0.1)], and 0 at
    the offset [(0, 0)], whether the table was rebuilt or the cached one
    reused; the table is therefore symmetric under the four reflections of
    the window.  The Gaussian table is left as it was. *)
Theorem weighted_fill_reads_inverse_distance {C : Type} (g : WeightTables)
    (info : ColorLinesInfo C) (dx dy : Z) :
  invDist_cache_ok g ->
  fillMode info = FILL_MODE_WEIGHTED ->
  1 <= searchRadius info <= MAX_WEIGHT_TABLE_RADIUS ->
  - searchRadius info <= dx <= searchRadius info ->
  - searchRadius info <= dy <= searchRadius info ->
  let g' := fst (InitProcessingContext g info) in
  let radius := searchRadius info in
  let weight_at dx dy :=
    array_get 0%float (g_invDistWeights g')
      ((dy + radius) * (radius * 2 + 1) + dx + radius) in
  weight_at dx dy
  = (if (dx =? 0) && (dy =? 0) then 0%float
     else (1 / (PrimFloat.sqrt (FpLong_of_Z (dx * dx + dy * dy)) + 0.1))%float)
  /\ weight_at (- dx) dy = weight_at dx dy
  /\ weight_at dx (- dy) = weight_at dx dy
  /\ weight_at dy dx = weight_at dx dy
  /\ invDist_cache_ok g'
  /\ g_gaussianWeights g' = g_gaussianWeights g
  /\ g_currentBlurRadius g' = g_currentBlurRadius g.
Proof.
  intros Hok Hmode Hr Hx Hy. cbv zeta.
  unfold InitProcessingContext. cbn [fst]. rewrite Hmode, Z.eqb_refl.
  destruct (PrecomputeInvDistWeights_ok (searchRadius info) g Hok Hr)
    as (_ & Ht & Hok').
  assert (Hidx : forall a b,
            (b + searchRadius info) * (searchRadius info * 2 + 1) + a
            + searchRadius info = weight_index (searchRadius info) a b).
  { intros a b. unfold weight_index. lia. }
  rewrite !Hidx, !Ht by lia.
  split; [reflexivity|].
  assert (Hsym : forall a b a' b', a' * a' + b' * b' = a * a + b * b ->
            ((a' =? 0) && (b' =? 0)) = ((a =? 0) && (b =? 0)) ->
            invDist_weight a' b' = invDist_weight a b).
  { intros a b a' b' Hs Hz. unfold invDist_weight. rewrite Hs, Hz. reflexivity. }
  split; [|split; [|split]].
  - apply Hsym; [lia|].
    destruct (Z.eqb_spec dx 0), (Z.eqb_spec (- dx) 0); try lia; reflexivity.
  - apply Hsym; [lia|].
    destruct (Z.eqb_spec dy 0), (Z.eqb_spec (- dy) 0); try lia; reflexivity.
  - apply Hsym; [lia|]. apply andb_comm.
  - split; [exact Hok'|].
    unfold PrecomputeInvDistWeights.
    destruct (searchRadius info =? g_currentWeightRadius g); split; reflexivity.
Qed.

(** Radius 1 on the untouched tables: the weight of a direct neighbour is
    [1 / (sqrt 1 + 0.1)]. *)
Lemma weighted_fill_reads_inverse_distance_witness :
  let info := example_info FILL_MODE_WEIGHTED OUTPUT_MODE_FULL 0 frame_red in
  array_get 0%float
    (g_invDistWeights (fst (InitProcessingContext initial_tables info)))
    ((0 + 1) * (1 * 2 + 1) + 1 + 1)
  = (1 / (PrimFloat.sqrt 1 + 0.1))%float.
Proof.
  cbv zeta.
  refine (proj1 (weighted_fill_reads_inverse_distance initial_tables
                   (example_info FILL_MODE_WEIGHTED OUTPUT_MODE_FULL 0 frame_red)
                   1 0 initial_tables_invDist_ok eq_refl _ _ _));
    simpl; unfold MAX_WEIGHT_TABLE_RADIUS; lia.
Defined.

(** Property X14.  For a blur radius of 1 to 50, after
    [PrecomputeGaussianWeights] the weight the blur reads for the offset
    [(dx, dy)] of its window is [exp (- (dx^2 + dy^2) / (2 r^2))], whether
    the table was rebuilt or the cached one reused; the table is symmetric
    under the reflections of the window, and the inverse-distance table is
    left as it was. *)
Theorem blur_reads_gaussian (exp : float -> float) (g : WeightTables)
    (radius dx dy : Z) :
  gaussian_cache_ok exp g ->
  1 <= radius <= MAX_WEIGHT_TABLE_RADIUS ->
  - radius <= dx <= radius -> - radius <= dy <= radius ->
  let g' := PrecomputeGaussianWeights exp radius g in
  let weight_at dx dy :=
    array_get 0%float (g_gaussianWeights g')
      ((dy + radius) * (radius * 2 + 1) + dx + radius) in
  weight_at dx dy
  = exp (- FpLong_of_Z (dx * dx + dy * dy)
         / (2 * FpLong_of_Z radius * FpLong_of_Z radius))%float
  /\ weight_at (- dx) dy = weight_at dx dy
  /\ weight_at dx (- dy) = weight_at dx dy
  /\ weight_at dy dx = weight_at dx dy
  /\ gaussian_cache_ok exp g'
  /\ g_invDistWeights g' = g_invDistWeights g
  /\ g_currentWeightRadius g' = g_currentWeightRadius g.
Proof.
  intros Hok Hr Hx Hy. cbv zeta.
  destruct (PrecomputeGaussianWeights_ok exp radius g Hok Hr)
    as (_ & Ht & Hok').
  assert (Hidx : forall a b,
            (b + radius) * (radius * 2 + 1) + a + radius
            = weight_index radius a b).
  { intros a b. unfold weight_index. lia. }
  rewrite !Hidx, !Ht by lia.
  split; [reflexivity|].
  assert (Hsym : forall a b a' b', a' * a' + b' * b' = a * a + b * b ->
            gaussian_weight exp radius a' b' = gaussian_weight exp radius a b).
  { intros a b a' b' Hs. unfold gaussian_weight. rewrite Hs. reflexivity. }
  split; [apply Hsym; lia|]. split; [apply Hsym; lia|].
  split; [apply Hsym; lia|]. split; [exact Hok'|].
  unfold PrecomputeGaussianWeights.
  destruct (radius =? g_currentBlurRadius g); split; reflexivity.
Qed.

(** Radius 1 on the untouched tables, with the series for [exp]: the
    centre weight is 1. *)
Lemma blur_reads_gaussian_witness :
  array_get 0%float
    (g_gaussianWeights (PrecomputeGaussianWeights exp_series 1 initial_tables))
    ((0 + 1) * (1 * 2 + 1) + 0 + 1)
  = 1%float.
Proof.
  refine (eq_trans
            (proj1 (blur_reads_gaussian exp_series initial_tables 1 0 0
                      (initial_tables_cache_ok exp_series) _ _ _)) _).
  - unfold MAX_WEIGHT_TABLE_RADIUS. lia.
  - lia.
  - lia.
  - vm_compute. reflexivity.
Defined.

(** Property X15.  A render call keeps both weight caches consistent:
    if each table is untouched or holds the weights of the radius recorded
    for it, then with a search radius of 1 to 50 and a blur radius of at
    most 50 the same is true of the tables the render leaves behind. *)
Theorem render_keeps_weight_caches (exp : float -> float)
    (format : PF_PixelFormat) (g : WeightTables)
    (info : ColorLinesInfo (channel format))
    (input : PF_EffectWorld (channel format)) :
  invDist_cache_ok g -> gaussian_cache_ok exp g ->
  1 <= searchRadius info <= MAX_WEIGHT_TABLE_RADIUS ->
  effective_blur_radius (sampleBlur info) <= MAX_WEIGHT_TABLE_RADIUS ->
  let g' := fst (SmartRender_format exp format g info input) in
  invDist_cache_ok g' /\ gaussian_cache_ok exp g'.
Proof.
  intros Hi Hg Hr Hb. cbv zeta.
  unfold SmartRender_format, SmartRender.
  fold (pass1_format format g info input).
  rewrite pass1_format_unfold. unfold pass1_frame.
  cbn [sampleBlur set_lineMask setup_info].
  assert (H1 : invDist_cache_ok (pass1_tables g info input)
               /\ gaussian_cache_ok exp (pass1_tables g info input)).
  { unfold pass1_tables, InitProcessingContext.
    cbn [fst fillMode searchRadius setup_info].
    destruct (fillMode info =? FILL_MODE_WEIGHTED); [|split; assumption].
    destruct (PrecomputeInvDistWeights_ok (searchRadius info) g Hi Hr)
      as (_ & _ & Hok).
    split; [exact Hok|].
    unfold PrecomputeInvDistWeights.
    destruct (searchRadius info =? g_currentWeightRadius g); exact Hg. }
  destruct H1 as [Hi1 Hg1].
  destruct (1 <=? effective_blur_radius (sampleBlur info)) eqn:E;
    [|split; assumption].
  apply Z.leb_le in E. unfold pass2.
  rewrite (surjective_pairing (iterate _ _ _ _)). cbn [fst].
  destruct (PrecomputeGaussianWeights_ok exp
              (effective_blur_radius (sampleBlur info))
              (pass1_tables g info input) Hg1 ltac:(lia)) as (_ & _ & Hok).
  split; [|exact Hok].
  unfold PrecomputeGaussianWeights.
  destruct (_ =? g_currentBlurRadius (pass1_tables g info input)); exact Hi1.
Qed.

(** The first render of a process, Weighted fill of radius 1 and blur 25,
    starts from the untouched tables. *)
Lemma render_keeps_weight_caches_witness :
  let info := mkInfo (mkPixel 255 200 0 0) 10 FILL_MODE_WEIGHTED 1 true 25 0 0 0
                OUTPUT_MODE_FULL frame_red [] 0 0 0 in
  let g' := fst (SmartRender_format exp_series PF_PixelFormat_ARGB32
                   initial_tables info frame_red) in
  invDist_cache_ok g' /\ gaussian_cache_ok exp_series g'.
Proof.
  cbv zeta.
  apply (render_keeps_weight_caches exp_series PF_PixelFormat_ARGB32
           initial_tables _ frame_red initial_tables_invDist_ok
           (initial_tables_cache_ok exp_series)).
  - simpl. unfold MAX_WEIGHT_TABLE_RADIUS. lia.
  - vm_compute. discriminate.
Defined.

(* ===================================================================== *)
(** ** Average and weighted fill with a usable neighbour                  *)
(* ===================================================================== *)

Lemma ltb_zero_shape (x : float) :
  (0 <? x)%float = true <-> SFpositive (Prim2SF x).
Proof.
  rewrite FloatAxioms.ltb_spec. change (Prim2SF 0) with (S754_zero false).
  unfold SFpositive.
  destruct (Prim2SF x) as [s|[|]| |[|] m e]; cbn; split; intros H;
    try discriminate; try reflexivity; try contradiction; exact I.
Qed.

Lemma SFpositive_nonneg (x : spec_float) : SFpositive x -> SFnonneg x.
Proof.
  destruct x as [s|[|]| |[|] m e]; cbn; intros H; try contradiction;
    constructor.
Qed.

Lemma SFpositive_from_positive (a : Z) (x : spec_float) :
  SFpositive_from a x -> SFpositive x.
Proof. intros [->|(m & e & -> & _)]; exact I. Qed.

Lemma SFadd_positive_l (x w : float) :
  SFpositive (Prim2SF x) -> SFnonneg (Prim2SF w) ->
  SFpositive (SF64add (Prim2SF x) (Prim2SF w)).
Proof.
  intros Hx Hw.
  pose proof (valid_exponent_floor x) as Vx.
  pose proof (valid_exponent_floor w) as Vw.
  destruct (Prim2SF x) as [s|[|]| |[|] m e]; cbn in Hx; try contradiction.
  - destruct Hw as [sw| |mw ew]; exact I.
  - destruct Hw as [sw| |mw ew]; [destruct sw; exact I|exact I|].
    eapply SFpositive_from_positive. apply SFadd_finite_positive; eauto.
Qed.

Lemma SFadd_positive_r (x w : float) :
  SFnonneg (Prim2SF x) -> SFpositive (Prim2SF w) ->
  SFpositive (SF64add (Prim2SF x) (Prim2SF w)).
Proof.
  intros Hx Hw.
  pose proof (valid_exponent_floor x) as Vx.
  pose proof (valid_exponent_floor w) as Vw.
  destruct (Prim2SF w) as [s|[|]| |[|] m e]; cbn in Hw; try contradiction.
  - destruct Hx as [sx| |mx ex]; exact I.
  - destruct Hx as [sx| |mx ex]; [destruct sx; exact I|exact I|].
    eapply SFpositive_from_positive. apply SFadd_finite_positive; eauto.
Qed.

Lemma float_add_positive_l (x w : float) :
  (0 <? x)%float = true -> (0 <? w)%float = true -> (0 <? x + w)%float = true.
Proof.
  rewrite !ltb_zero_shape, FloatAxioms.add_spec. intros Hx Hw.
  apply SFadd_positive_l; [exact Hx|apply SFpositive_nonneg; exact Hw].
Qed.

Lemma float_add_positive_r (x w : float) :
  (0 <=? x)%float = true -> (0 <? w)%float = true -> (0 <? x + w)%float = true.
Proof.
  rewrite leb_zero_shape, !ltb_zero_shape, FloatAxioms.add_spec.
  apply SFadd_positive_r.
Qed.

Lemma float_positive_nonneg (x : float) :
  (0 <? x)%float = true -> (0 <=? x)%float = true.
Proof.
  rewrite ltb_zero_shape, leb_zero_shape. apply SFpositive_nonneg.
Qed.

(** Every inverse-distance weight of a window of radius up to 50 but the
    centre's is above 0: the squared distances run from 1 to 5000. *)
Lemma invDist_weights_checked :
  all_below 13 0 (fun d =>
    (d =? 0)
    || (0 <? 1 / (PrimFloat.sqrt (FpLong_of_Z d) + 0.1))%float) = true.
Proof. vm_compute. reflexivity. Qed.

Lemma invDist_weight_positive (radius dx dy : Z) :
  0 <= radius <= MAX_WEIGHT_TABLE_RADIUS ->
  - radius <= dx <= radius -> - radius <= dy <= radius ->
  (dx =? 0) && (dy =? 0) = false ->
  (0 <? invDist_weight dx dy)%float = true.
Proof.
  intros Hr Hx Hy Hne. unfold invDist_weight. rewrite Hne.
  unfold MAX_WEIGHT_TABLE_RADIUS in Hr.
  assert (Hxx : 0 <= dx * dx <= 2500) by nia.
  assert (Hyy : 0 <= dy * dy <= 2500) by nia.
  assert (Hd : 0 < dx * dx + dy * dy).
  { apply andb_false_iff in Hne as [H|H]; apply Z.eqb_neq in H; nia. }
  pose proof (all_below_spec 13 0 _ invDist_weights_checked
                (dx * dx + dy * dy)) as H.
  cbv beta in H. change (2 ^ Z.of_nat 13) with 8192 in H.
  specialize (H ltac:(lia)). apply orb_true_iff in H as [H|H]; [|exact H].
  apply Z.eqb_eq in H. lia.
Qed.

Section FillWeightFacts.

Context {C : Type}.
Variable ops : DepthOps C.
Variable isTarget : PF_Pixel C -> bool.
Variable g : WeightTables.
Variable info : ColorLinesInfo C.
Variables x y : Z.

Hypothesis Hmode :
  fillMode info = FILL_MODE_AVERAGE
  \/ (fillMode info = FILL_MODE_WEIGHTED
      /\ 1 <= searchRadius info <= MAX_WEIGHT_TABLE_RADIUS
      /\ invDist_table_for (searchRadius info) (g_invDistWeights g)).

(** The weight of a tap that is not the centre is above 0. *)
Lemma fill_weight_positive (isAverage : bool) (dx dy : Z) :
  isAverage = (fillMode info =? FILL_MODE_AVERAGE) ->
  - searchRadius info <= dx <= searchRadius info ->
  - searchRadius info <= dy <= searchRadius info ->
  (dx =? 0) && (dy =? 0) = false ->
  (0 <? (if isAverage then 1
         else array_get 0 (g_invDistWeights g)
                ((dy + searchRadius info) * (searchRadius info * 2 + 1)
                 + dx + searchRadius info)))%float = true.
Proof.
  intros -> Hx Hy Hne.
  destruct Hmode as [Hm|(Hm & Hr & Ht)]; rewrite Hm; cbn; [reflexivity|].
  replace ((dy + searchRadius info) * (searchRadius info * 2 + 1) + dx
           + searchRadius info)
    with (weight_index (searchRadius info) dx dy) by (unfold weight_index; lia).
  rewrite Ht by assumption.
  apply (invDist_weight_positive (searchRadius info)); auto. lia.
Qed.

(** A tap adds nothing, or its pixel with a weight above 0. *)
Lemma fill_tap_cases (isAverage : bool) (dy ny dx : Z) (acc : Acc) :
  isAverage = (fillMode info =? FILL_MODE_AVERAGE) ->
  - searchRadius info <= dx <= searchRadius info ->
  - searchRadius info <= dy <= searchRadius info ->
  fill_tap ops isTarget g info x isAverage dy ny dx acc = acc
  \/ exists w, (0 <? w)%float = true
       /\ fill_tap ops isTarget g info x isAverage dy ny dx acc
          = acc_add ops acc
              (pixel_at (zero_pixel ops) (srcWorld info) (x + dx) ny) w.
Proof.
  intros Ha Hx Hy. unfold fill_tap.
  destruct ((dx =? 0) && (dy =? 0)) eqn:E0; [left; reflexivity|].
  destruct ((x + dx <? 0) || (x + dx >=? world_width (srcWorld info)));
    [left; reflexivity|].
  destruct (disqualified ops isTarget info (x + dx) ny); [left; reflexivity|].
  right. eexists. split; [|reflexivity].
  now apply fill_weight_positive.
Qed.

Lemma fill_tap_nonneg (isAverage : bool) (dy ny dx : Z) (acc : Acc) :
  isAverage = (fillMode info =? FILL_MODE_AVERAGE) ->
  In dx (range (- searchRadius info) (searchRadius info)) ->
  - searchRadius info <= dy <= searchRadius info ->
  weight_nonneg acc ->
  weight_nonneg (fill_tap ops isTarget g info x isAverage dy ny dx acc).
Proof.
  intros Ha Hx Hy Hacc. apply In_range in Hx.
  destruct (fill_tap_cases isAverage dy ny dx acc Ha Hx Hy)
    as [->|(w & Hw & ->)]; [exact Hacc|].
  unfold weight_nonneg. cbn [acc_add totalWeight].
  apply float_add_nonneg; [exact Hacc|apply float_positive_nonneg; exact Hw].
Qed.

Lemma fill_tap_positive (isAverage : bool) (dy ny dx : Z) (acc : Acc) :
  isAverage = (fillMode info =? FILL_MODE_AVERAGE) ->
  In dx (range (- searchRadius info) (searchRadius info)) ->
  - searchRadius info <= dy <= searchRadius info ->
  weight_positive acc ->
  weight_positive (fill_tap ops isTarget g info x isAverage dy ny dx acc).
Proof.
  intros Ha Hx Hy Hacc. apply In_range in Hx.
  destruct (fill_tap_cases isAverage dy ny dx acc Ha Hx Hy)
    as [->|(w & Hw & ->)]; [exact Hacc|].
  unfold weight_positive. cbn [acc_add totalWeight].
  apply float_add_positive_l; assumption.
Qed.

Lemma fill_row_nonneg (isAverage : bool) (dy : Z) (acc : Acc) :
  isAverage = (fillMode info =? FILL_MODE_AVERAGE) ->
  In dy (range (- searchRadius info) (searchRadius info)) ->
  weight_nonneg acc ->
  weight_nonneg (fill_row ops isTarget g info x y isAverage dy acc).
Proof.
  intros Ha Hy Hacc. apply In_range in Hy. unfold fill_row.
  destruct ((y + dy <? 0) || (y + dy >=? world_height (srcWorld info)));
    [exact Hacc|].
  unfold for_range. apply fold_left_preserves; [|exact Hacc].
  intros dx s Hdx Hs. now apply fill_tap_nonneg.
Qed.

Lemma fill_row_positive (isAverage : bool) (dy : Z) (acc : Acc) :
  isAverage = (fillMode info =? FILL_MODE_AVERAGE) ->
  In dy (range (- searchRadius info) (searchRadius info)) ->
  weight_positive acc ->
  weight_positive (fill_row ops isTarget g info x y isAverage dy acc).
Proof.
  intros Ha Hy Hacc. apply In_range in Hy. unfold fill_row.
  destruct ((y + dy <? 0) || (y + dy >=? world_height (srcWorld info)));
    [exact Hacc|].
  unfold for_range. apply fold_left_preserves; [|exact Hacc].
  intros dx s Hdx Hs. now apply fill_tap_positive.
Qed.

(** A usable neighbour in the window. *)
Variables dx0 dy0 : Z.
Hypothesis Hdx0 : - searchRadius info <= dx0 <= searchRadius info.
Hypothesis Hdy0 : - searchRadius info <= dy0 <= searchRadius info.
Hypothesis Hoff : (dx0, dy0) <> (0, 0).
Hypothesis Husable : unusable ops isTarget info (x + dx0) (y + dy0) = false.

Lemma fill_row_usable (isAverage : bool) (acc : Acc) :
  isAverage = (fillMode info =? FILL_MODE_AVERAGE) ->
  weight_nonneg acc ->
  weight_positive (fill_row ops isTarget g info x y isAverage dy0 acc).
Proof.
  intros Ha Hacc. unfold unusable in Husable.
  rewrite !orb_false_iff in Husable.
  destruct Husable as [[[[Hx1 Hx2] Hy1] Hy2] Hq].
  unfold fill_row. rewrite Hy1, Hy2. cbn [orb]. unfold for_range.
  apply (fold_left_reaches weight_nonneg weight_positive) with (c := dx0).
  - intros dx s Hdx Hs. now apply fill_tap_nonneg.
  - intros dx s Hdx Hs. now apply fill_tap_positive.
  - intros s Hs. unfold fill_tap.
    assert (E0 : (dx0 =? 0) && (dy0 =? 0) = false).
    { apply andb_false_iff.
      destruct (Z.eqb_spec dx0 0) as [->|]; [|left; reflexivity].
      destruct (Z.eqb_spec dy0 0) as [->|]; [|right; reflexivity].
      contradiction. }
    rewrite E0, Hx1, Hx2, Hq. cbn [orb].
    unfold weight_positive. cbn [acc_add totalWeight].
    apply float_add_positive_r; [exact Hs|].
    now apply fill_weight_positive.
  - apply In_range. exact Hdx0.
  - exact Hacc.
Qed.

Lemma fill_accumulate_positive :
  weight_positive (fill_accumulate ops isTarget g info x y).
Proof.
  unfold fill_accumulate, for_range.
  apply (fold_left_reaches weight_nonneg weight_positive) with (c := dy0).
  - intros dy s Hdy Hs. now apply fill_row_nonneg.
  - intros dy s Hdy Hs. now apply fill_row_positive.
  - intros s Hs. now apply fill_row_usable.
  - apply In_range. exact Hdy0.
  - reflexivity.
Qed.

Lemma raw_fill_mean (inP : PF_Pixel C) :
  let acc := fill_accumulate ops isTarget g info x y in
  let invWeight := (1 / totalWeight acc)%float in
  raw_fill ops isTarget g info x y inP
  = mkPixel (chan_store ops (sumA acc * invWeight)%float)
      (chan_store ops (sumR acc * invWeight)%float)
      (chan_store ops (sumG acc * invWeight)%float)
      (chan_store ops (sumB acc * invWeight)%float).
Proof.
  cbv zeta. unfold raw_fill, acc_result.
  assert (Hn : (fillMode info =? FILL_MODE_NEAREST) = false).
  { destruct Hmode as [Hm|(Hm & _)]; rewrite Hm; reflexivity. }
  rewrite Hn. pose proof fill_accumulate_positive as Hp.
  unfold weight_positive in Hp. rewrite Hp. reflexivity.
Qed.

End FillWeightFacts.

(** Property X16.  In Average fill mode, and in Weighted fill mode with a
    search radius of 1 to 50 and the inverse-distance table of that
    radius, as soon as one neighbour of the window qualifies (inside the
    frame, opaque under the ignore-transparent filter, not of the target
    colour) the total weight is above 0 and the fill writes the weighted
    mean of the qualifying neighbours, colour-adjusted: the fallback to
    the input pixel is not taken. *)
Theorem fill_with_usable_neighbor_is_mean (format : PF_PixelFormat)
    (g : WeightTables) (ctx : ProcessingContext)
    (info : ColorLinesInfo (channel format)) (x y dx dy : Z)
    (inP : PF_Pixel (channel format)) :
  fillMode info = FILL_MODE_AVERAGE
  \/ (fillMode info = FILL_MODE_WEIGHTED
      /\ 1 <= searchRadius info <= MAX_WEIGHT_TABLE_RADIUS
      /\ invDist_table_for (searchRadius info) (g_invDistWeights g)) ->
  - searchRadius info <= dx <= searchRadius info ->
  - searchRadius info <= dy <= searchRadius info ->
  (dx, dy) <> (0, 0) ->
  neighbor_unusable format ctx info (x + dx) (y + dy) = false ->
  let ops := format_ops format in
  let acc := fill_accumulate ops (isLine_format format ctx) g info x y in
  let invWeight := (1 / totalWeight acc)%float in
  (0 <? totalWeight acc)%float = true
  /\ FillLinePixel_format format g info x y inP ctx
     = ApplyColorAdjustmentsFast format
         (mkPixel (chan_store ops (sumA acc * invWeight)%float)
            (chan_store ops (sumR acc * invWeight)%float)
            (chan_store ops (sumG acc * invWeight)%float)
            (chan_store ops (sumB acc * invWeight)%float))
         (colorAdj ctx).
Proof.
  intros Hmode Hx Hy Hoff Hu. cbv zeta. split.
  - exact (fill_accumulate_positive (format_ops format)
             (isLine_format format ctx) g info x y Hmode dx dy Hx Hy Hoff Hu).
  - rewrite FillLinePixel_format_unfold. f_equal.
    exact (raw_fill_mean (format_ops format) (isLine_format format ctx) g info
             x y Hmode dx dy Hx Hy Hoff Hu inP).
Qed.

(** The red dot in the middle of the green 3x3 frame, Average mode: the
    mean of its eight green neighbours is green. *)
Lemma fill_with_usable_neighbor_is_mean_witness :
  let info := info_dot FILL_MODE_AVERAGE in
  let ctx := snd (InitProcessingContext initial_tables info) in
  neighbor_unusable PF_PixelFormat_ARGB32 ctx info (1 + 1) (1 + 0) = false
  /\ FillLinePixel_format PF_PixelFormat_ARGB32 initial_tables info 1 1
       opaque_red ctx = opaque_green.
Proof.
  cbv zeta. split; [reflexivity|].
  assert (H1 : - searchRadius (info_dot FILL_MODE_AVERAGE) <= 1
               <= searchRadius (info_dot FILL_MODE_AVERAGE)) by (simpl; lia).
  assert (H0 : - searchRadius (info_dot FILL_MODE_AVERAGE) <= 0
               <= searchRadius (info_dot FILL_MODE_AVERAGE)) by (simpl; lia).
  assert (Hne : (1, 0) <> (0, 0)) by discriminate.
  rewrite (proj2 (fill_with_usable_neighbor_is_mean PF_PixelFormat_ARGB32
                    initial_tables
                    (snd (InitProcessingContext initial_tables
                            (info_dot FILL_MODE_AVERAGE)))
                    (info_dot FILL_MODE_AVERAGE) 1 1 1 0 opaque_red
                    (or_introl eq_refl) H1 H0 Hne eq_refl)).
  vm_compute. reflexivity.
Defined.

(* ===================================================================== *)
(** ** Nearest fill                                                       *)
(* ===================================================================== *)

(** Rule for a loop that may be left early: [P] on the rest of the range
    while the loop runs, [Q] once it is left. *)
Lemma for_ctl_rule {S : Type} (P : list Z -> S -> Prop) (Q : S -> Prop)
    (body : Z -> S -> ctl S) (l : list Z) (s : S) :
  (forall i l' s, P (i :: l') s ->
     match body i s with Go s' => P l' s' | Stop s' => Q s' end) ->
  P l s ->
  match for_ctl l body s with Go s' => P [] s' | Stop s' => Q s' end.
Proof.
  intros Hstep. revert s. induction l as [|i l IH]; intros s Hs; cbn.
  - exact Hs.
  - specialize (Hstep i l s Hs). destruct (body i s) as [s'|s'].
    + apply IH. exact Hstep.
    + exact Hstep.
Qed.

Lemma range_cons (lo hi : Z) : lo <= hi -> range lo hi = lo :: range (lo + 1) hi.
Proof.
  intros H. unfold range. rewrite seqZ_cons by lia.
  f_equal. f_equal; lia.
Qed.

Lemma range_nil (lo hi : Z) : hi < lo -> range lo hi = [].
Proof. intros H. unfold range. apply seqZ_nil. lia. Qed.

Lemma range_inv (lo hi i : Z) (l : list Z) :
  range lo hi = i :: l -> i = lo /\ lo <= hi /\ l = range (lo + 1) hi.
Proof.
  intros H. destruct (Z_le_gt_dec lo hi) as [Hle|Hgt].
  - rewrite range_cons in H by exact Hle. injection H as <- <-.
    repeat split. exact Hle.
  - rewrite range_nil in H by lia. discriminate.
Qed.

Lemma ring_of_square (dx dy : Z) :
  ring_of dx dy * ring_of dx dy <= dx * dx + dy * dy.
Proof. unfold ring_of. nia. Qed.

Lemma ring_of_le (dx dy k : Z) :
  ring_of dx dy <= k <-> - k <= dx <= k /\ - k <= dy <= k.
Proof. unfold ring_of. lia. Qed.

Section NearestFacts.

Context {C : Type}.
Variable ops : DepthOps C.
Variable isTarget : PF_Pixel C -> bool.
Variable info : ColorLinesInfo C.
Variables x y : Z.
Hypothesis Hradius : searchRadius info <= MAX_WEIGHT_TABLE_RADIUS.

Lemma candidate_distance (dx dy : Z) :
  fill_candidate ops isTarget info x y dx dy ->
  1 <= dx * dx + dy * dy <= 5000.
Proof.
  intros (Hx & Hy & Hne & _). unfold MAX_WEIGHT_TABLE_RADIUS in Hradius.
  assert (dx <> 0 \/ dy <> 0).
  { destruct (Z.eq_dec dx 0) as [->|]; [|left; assumption].
    destruct (Z.eq_dec dy 0) as [->|]; [contradiction|right; assumption]. }
  nia.
Qed.

(** Fewer offsets to beat, or offsets that are no candidates. *)
Lemma nearest_among_weaken (S S' : Z -> Z -> Prop)
    (st : Z * option (PF_Pixel C)) :
  (forall dx dy, fill_candidate ops isTarget info x y dx dy ->
     S' dx dy -> S dx dy) ->
  nearest_among ops isTarget info x y S st ->
  nearest_among ops isTarget info x y S' st.
Proof.
  intros Hsub [(H1 & H2 & H3)|(dx0 & dy0 & Hc & H1 & H2 & H3)].
  - left. refine (conj H1 (conj H2 _)).
    intros dx dy Hcd HS'. apply (H3 dx dy Hcd). now apply Hsub.
  - right. exists dx0, dy0. refine (conj Hc (conj H1 (conj H2 _))).
    intros dx dy Hcd HS'. apply H3; [exact Hcd|now apply Hsub].
Qed.

(** A state at distance 1, or at a distance no ring still to come can
    beat, is final. *)
Lemma nearest_among_final (S : Z -> Z -> Prop) (k : Z)
    (st : Z * option (PF_Pixel C)) :
  nearest_among ops isTarget info x y S st ->
  (forall dx dy, fill_candidate ops isTarget info x y dx dy ->
     S dx dy \/ k <= ring_of dx dy) ->
  fst st <= 1 \/ fst st <= k * k -> 0 <= k <= searchRadius info ->
  nearest_among ops isTarget info x y (fun _ _ => True) st.
Proof.
  intros [(H1 & H2 & H3)|(dx0 & dy0 & Hc & H1 & H2 & H3)] Hrest Hk Hk0.
  - exfalso. rewrite H1 in Hk. unfold MAX_WEIGHT_TABLE_RADIUS in Hradius.
    destruct Hk as [Hk|Hk]; [lia|nia].
  - right. exists dx0, dy0. refine (conj Hc (conj H1 (conj H2 _))).
    intros dx dy Hcd _.
    destruct (Hrest dx dy Hcd) as [HS|Hring]; [now apply H3|].
    pose proof (candidate_distance dx dy Hcd) as Hd.
    pose proof (ring_of_square dx dy) as Hsq.
    destruct Hk as [Hk|Hk]; [lia|].
    assert (k * k <= ring_of dx dy * ring_of dx dy) by nia. lia.
Qed.

(** One tap of ring [k]: the state stays nearest among the offsets seen
    so far and the tap's own, or the search ends with a nearest
    candidate of the whole window. *)
Lemma nearest_tap_step (S : Z -> Z -> Prop) (k dy dx : Z)
    (st : Z * option (PF_Pixel C)) :
  1 <= k <= searchRadius info -> - k <= dy <= k -> - k <= dx <= k ->
  (y + dy <? 0) || (y + dy >=? world_height (srcWorld info)) = false ->
  nearest_among ops isTarget info x y S st ->
  match nearest_tap ops isTarget info x k dy (y + dy) dx st with
  | Go st' =>
      nearest_among ops isTarget info x y
        (fun a b => S a b \/ (a = dx /\ b = dy /\ ring_of a b = k)) st'
  | Stop st' => nearest_among ops isTarget info x y (fun _ _ => True) st'
  end.
Proof.
  intros Hk Hdy Hdx Hrow Hbest. unfold nearest_tap.
  destruct (negb (dy =? - k) && negb (dy =? k) && negb (dx =? - k)
            && negb (dx =? k)) eqn:Einner.
  { (* inside the ring: not an offset of ring k *)
    apply (nearest_among_weaken S); [|exact Hbest].
    intros a b _ [HS|(-> & -> & Hring)]; [exact HS|].
    exfalso. rewrite !andb_true_iff, !negb_true_iff, !Z.eqb_neq in Einner.
    unfold ring_of in Hring. lia. }
  destruct ((x + dx <? 0) || (x + dx >=? world_width (srcWorld info))) eqn:Ex.
  { apply (nearest_among_weaken S); [|exact Hbest].
    intros a b (_ & _ & _ & Hu) [HS|(-> & -> & _)]; [exact HS|].
    exfalso. unfold unusable in Hu. rewrite !orb_false_iff in Hu.
    rewrite orb_true_iff in Ex. destruct Hu as [[[[? ?] ?] ?] ?].
    destruct Ex; congruence. }
  destruct (disqualified ops isTarget info (x + dx) (y + dy)) eqn:Eq.
  { apply (nearest_among_weaken S); [|exact Hbest].
    intros a b (_ & _ & _ & Hu) [HS|(-> & -> & _)]; [exact HS|].
    exfalso. unfold unusable in Hu. rewrite !orb_false_iff in Hu.
    destruct Hu as [_ Hu]. congruence. }
  (* a candidate *)
  assert (Hring : ring_of dx dy = k).
  { rewrite !andb_false_iff, !negb_false_iff, !Z.eqb_eq in Einner.
    unfold ring_of. lia. }
  assert (Hc : fill_candidate ops isTarget info x y dx dy).
  { split; [lia|]. split; [lia|]. split.
    - intros Heq. injection Heq as Hx0 Hy0. unfold ring_of in Hring. lia.
    - unfold unusable. apply orb_false_elim in Ex as [Ex1 Ex2].
      apply orb_false_elim in Hrow as [Ey1 Ey2].
      rewrite Ex1, Ex2, Ey1, Ey2, Eq. reflexivity. }
  pose proof (candidate_distance dx dy Hc) as Hd.
  destruct (dx * dx + dy * dy <? fst st) eqn:Elt.
  - apply Z.ltb_lt in Elt.
    assert (Hnew : nearest_among ops isTarget info x y
                     (fun a b => S a b \/ (a = dx /\ b = dy /\ ring_of a b = k))
                     (dx * dx + dy * dy,
                      Some (pixel_at (zero_pixel ops) (srcWorld info)
                              (x + dx) (y + dy)))).
    { right. exists dx, dy. refine (conj Hc (conj eq_refl (conj eq_refl _))).
      intros a b Hab [HS|(-> & -> & _)]; [|lia].
      destruct Hbest as [(_ & _ & H3)|(dx0 & dy0 & _ & H1 & _ & H3)].
      - exfalso. exact (H3 a b Hab HS).
      - specialize (H3 a b Hab HS). lia. }
    destruct (dx * dx + dy * dy =? 1) eqn:E1; [|exact Hnew].
    apply Z.eqb_eq in E1.
    apply (nearest_among_final _ 0 _ Hnew); cbn [fst]; [|lia|lia].
    intros a b Hab. right. unfold ring_of. lia.
  - apply Z.ltb_ge in Elt.
    destruct Hbest as [(H1 & _ & _)|(dx0 & dy0 & Hc0 & H1 & H2 & H3)];
      [lia|].
    right. exists dx0, dy0. refine (conj Hc0 (conj H1 (conj H2 _))).
    intros a b Hab [HS|(-> & -> & _)]; [now apply H3|lia].
Qed.

(** One row of ring [k]. *)
Lemma nearest_row_step (k dy : Z) (st : Z * option (PF_Pixel C)) :
  1 <= k <= searchRadius info -> - k <= dy <= k ->
  nearest_among ops isTarget info x y (ring_seen k dy (- k)) st ->
  match nearest_row ops isTarget info x y k dy st with
  | Go st' => nearest_among ops isTarget info x y (ring_seen k (dy + 1) (- k)) st'
  | Stop st' => nearest_among ops isTarget info x y (fun _ _ => True) st'
  end.
Proof.
  intros Hk Hdy Hbest. unfold nearest_row.
  destruct ((y + dy <? 0) || (y + dy >=? world_height (srcWorld info))) eqn:Ey.
  { (* the row lies outside the frame: none of its offsets is a
       candidate *)
    apply (nearest_among_weaken (ring_seen k dy (- k))); [|exact Hbest].
    intros a b (_ & _ & _ & Hu) Hs. unfold ring_seen in *.
    destruct Hs as [Hs|(Hr & [Hb|(Hb & Ha)])]; [left; exact Hs| |].
    - destruct (Z_lt_le_dec b dy) as [Hlt|Hge]; [right; lia|].
      assert (b = dy) by lia. subst b. exfalso.
      unfold unusable in Hu. rewrite !orb_false_iff in Hu.
      rewrite orb_true_iff in Ey. destruct Hu as [[[[? ?] ?] ?] ?].
      destruct Ey; congruence.
    - unfold ring_of in Hr. lia. }
  pose proof (for_ctl_rule
    (fun rem st => exists i, - k <= i /\ rem = range i k
       /\ nearest_among ops isTarget info x y (ring_seen k dy i) st)
    (nearest_among ops isTarget info x y (fun _ _ => True))
    (nearest_tap ops isTarget info x k dy (y + dy))
    (range (- k) k) st) as Hloop.
  cbv beta in Hloop.
  assert (Hend : match for_ctl (range (- k) k)
                         (nearest_tap ops isTarget info x k dy (y + dy)) st with
                 | Go s' => exists i, - k <= i /\ [] = range i k
                     /\ nearest_among ops isTarget info x y (ring_seen k dy i) s'
                 | Stop s' =>
                     nearest_among ops isTarget info x y (fun _ _ => True) s'
                 end).
  { apply Hloop;
      [|exists (- k); split; [lia|split; [reflexivity|exact Hbest]]].
    intros i l' s (i0 & Hi0 & Hrem & Hs).
    symmetry in Hrem. apply range_inv in Hrem as (-> & Hle & ->).
    pose proof (nearest_tap_step (ring_seen k dy i0) k dy i0 s Hk Hdy ltac:(lia)
                  Ey Hs) as Hstep.
    destruct (nearest_tap ops isTarget info x k dy (y + dy) i0 s) as [s'|s'];
      [|exact Hstep].
    exists (i0 + 1). split; [lia|]. split; [reflexivity|].
    eapply nearest_among_weaken; [|exact Hstep].
    intros a b _ Hab. unfold ring_seen in *. cbv beta. lia. }
  destruct (for_ctl _ _ st) as [s'|s']; [|exact Hend].
  destruct Hend as (i & Hi & Hnil & Hs).
  apply (nearest_among_weaken (ring_seen k dy i)); [|exact Hs].
  intros a b (Ha & Hb & _) Hseen. unfold ring_seen in *.
  assert (Hki : k < i).
  { destruct (Z_lt_le_dec k i) as [|Hle]; [assumption|].
    rewrite range_cons in Hnil by lia. discriminate. }
  destruct Hseen as [Hlt|(Hr & [Hlt|(H1 & H2)])]; [left; exact Hlt| |];
    unfold ring_of in *; right; lia.
Qed.

(** One ring. *)
Lemma nearest_ring_step (k : Z) (st : Z * option (PF_Pixel C)) :
  1 <= k <= searchRadius info ->
  nearest_among ops isTarget info x y (fun a b => ring_of a b < k) st ->
  match nearest_ring ops isTarget info x y k st with
  | Go st' =>
      nearest_among ops isTarget info x y (fun a b => ring_of a b < k + 1) st'
  | Stop st' => nearest_among ops isTarget info x y (fun _ _ => True) st'
  end.
Proof.
  intros Hk Hbest. unfold nearest_ring.
  destruct (negb (1 <? fst st)) eqn:E1.
  { apply negb_true_iff, Z.ltb_ge in E1.
    apply (nearest_among_final _ 0 _ Hbest); [|lia|lia].
    intros a b _. right. unfold ring_of. lia. }
  destruct (k * k >=? fst st) eqn:E2.
  { apply Z.geb_le in E2.
    apply (nearest_among_final _ k _ Hbest); [|lia|lia].
    intros a b _. lia. }
  pose proof (for_ctl_rule
    (fun rem st => exists j, - k <= j /\ rem = range j k
       /\ nearest_among ops isTarget info x y (ring_seen k j (- k)) st)
    (nearest_among ops isTarget info x y (fun _ _ => True))
    (nearest_row ops isTarget info x y k)
    (range (- k) k) st) as Hloop.
  cbv beta in Hloop.
  assert (Hend : match for_ctl (range (- k) k)
                         (nearest_row ops isTarget info x y k) st with
                 | Go s' => exists j, - k <= j /\ [] = range j k
                     /\ nearest_among ops isTarget info x y
                          (ring_seen k j (- k)) s'
                 | Stop s' =>
                     nearest_among ops isTarget info x y (fun _ _ => True) s'
                 end).
  { apply Hloop.
    - intros j l' s (j0 & Hj0 & Hrem & Hs).
      symmetry in Hrem. apply range_inv in Hrem as (-> & Hle & ->).
      pose proof (nearest_row_step k j0 s Hk ltac:(lia) Hs) as Hstep.
      destruct (nearest_row ops isTarget info x y k j0 s) as [s'|s'];
        [|exact Hstep].
      exists (j0 + 1). split; [lia|]. split; [reflexivity|exact Hstep].
    - exists (- k). split; [lia|]. split; [reflexivity|].
      apply (nearest_among_weaken (fun a b => ring_of a b < k)); [|exact Hbest].
      intros a b _ Hab. unfold ring_seen, ring_of in *. lia. }
  destruct (for_ctl _ _ st) as [s'|s']; [|exact Hend].
  destruct Hend as (j & Hj & Hnil & Hs).
  apply (nearest_among_weaken (ring_seen k j (- k))); [|exact Hs].
  intros a b _ Hab. unfold ring_seen.
  assert (Hkj : k < j).
  { destruct (Z_lt_le_dec k j) as [|Hle]; [assumption|].
    rewrite range_cons in Hnil by lia. discriminate. }
  unfold ring_of in *. lia.
Qed.

(** The whole search. *)
Lemma nearest_search_result :
  nearest_among ops isTarget info x y (fun _ _ => True)
    (ctl_state
       (for_ctl (range 1 (searchRadius info))
          (nearest_ring ops isTarget info x y) (999999, None))).
Proof.
  pose proof (for_ctl_rule
    (fun rem st => exists k, 1 <= k /\ rem = range k (searchRadius info)
       /\ nearest_among ops isTarget info x y (fun a b => ring_of a b < k) st)
    (nearest_among ops isTarget info x y (fun _ _ => True))
    (nearest_ring ops isTarget info x y)
    (range 1 (searchRadius info)) (999999, None)) as Hloop.
  cbv beta in Hloop.
  assert (Hend : match for_ctl (range 1 (searchRadius info))
                         (nearest_ring ops isTarget info x y) (999999, None) with
                 | Go s' => exists k, 1 <= k /\ [] = range k (searchRadius info)
                     /\ nearest_among ops isTarget info x y
                          (fun a b => ring_of a b < k) s'
                 | Stop s' =>
                     nearest_among ops isTarget info x y (fun _ _ => True) s'
                 end).
  { apply Hloop.
    - intros k l' s (k0 & Hk0 & Hrem & Hs).
      symmetry in Hrem. apply range_inv in Hrem as (-> & Hle & ->).
      pose proof (nearest_ring_step k0 s ltac:(lia) Hs) as Hstep.
      destruct (nearest_ring ops isTarget info x y k0 s) as [s'|s'];
        [|exact Hstep].
      exists (k0 + 1). split; [lia|]. split; [reflexivity|exact Hstep].
    - exists 1. split; [lia|]. split; [reflexivity|].
      left. refine (conj eq_refl (conj eq_refl _)).
      intros a b (_ & _ & Hne & _) Hab. apply Hne.
      unfold ring_of in Hab. f_equal; lia. }
  destruct (for_ctl _ _ _) as [s'|s']; cbn [ctl_state]; [|exact Hend].
  destruct Hend as (k & Hk & Hnil & Hs).
  apply (nearest_among_weaken (fun a b => ring_of a b < k)); [|exact Hs].
  intros a b (Ha & Hb & _) _.
  assert (Hkr : searchRadius info < k).
  { destruct (Z_lt_le_dec (searchRadius info) k) as [|Hle]; [assumption|].
    rewrite range_cons in Hnil by lia. discriminate. }
  unfold ring_of. lia.
Qed.

Lemma nearest_fill_result (inP : PF_Pixel C) :
  (nearest_fill ops isTarget info x y inP = inP
   /\ forall dx dy, ~ fill_candidate ops isTarget info x y dx dy)
  \/ exists dx0 dy0,
       fill_candidate ops isTarget info x y dx0 dy0
       /\ nearest_fill ops isTarget info x y inP
          = pixel_at (zero_pixel ops) (srcWorld info) (x + dx0) (y + dy0)
       /\ forall dx dy, fill_candidate ops isTarget info x y dx dy ->
            dx0 * dx0 + dy0 * dy0 <= dx * dx + dy * dy.
Proof.
  unfold nearest_fill.
  destruct nearest_search_result
    as [(_ & H2 & H3)|(dx0 & dy0 & Hc & _ & H2 & H3)]; rewrite H2.
  - left. split; [reflexivity|]. intros dx dy Hcd. exact (H3 dx dy Hcd I).
  - right. exists dx0, dy0. refine (conj Hc (conj eq_refl _)).
    intros dx dy Hcd. exact (H3 dx dy Hcd I).
Qed.

End NearestFacts.

(** Property X17.  In Nearest fill mode with a search radius of at most
    50, the fill writes, colour-adjusted, the pixel of a qualifying
    neighbour (inside the frame and the window, not the centre, opaque
    under the ignore-transparent filter, not of the target colour) whose
    Euclidean distance to the pixel is the smallest among all qualifying
    neighbours of the window; when no neighbour qualifies it writes the
    colour-adjusted input pixel. *)
Theorem nearest_fill_takes_nearest (format : PF_PixelFormat)
    (g : WeightTables) (ctx : ProcessingContext)
    (info : ColorLinesInfo (channel format)) (x y : Z)
    (inP : PF_Pixel (channel format)) :
  fillMode info = FILL_MODE_NEAREST ->
  searchRadius info <= MAX_WEIGHT_TABLE_RADIUS ->
  let ops := format_ops format in
  let candidate := fill_candidate ops (isLine_format format ctx) info x y in
  exists source,
    FillLinePixel_format format g info x y inP ctx
    = ApplyColorAdjustmentsFast format source (colorAdj ctx)
    /\ ((source = inP /\ forall dx dy, ~ candidate dx dy)
        \/ exists dx0 dy0,
             candidate dx0 dy0
             /\ source
                = pixel_at (zero_pixel ops) (srcWorld info) (x + dx0) (y + dy0)
             /\ forall dx dy, candidate dx dy ->
                  dx0 * dx0 + dy0 * dy0 <= dx * dx + dy * dy).
Proof.
  intros Hmode Hr. cbv zeta.
  exists (nearest_fill (format_ops format) (isLine_format format ctx) info x y
            inP).
  split.
  - rewrite FillLinePixel_format_unfold. unfold raw_fill.
    rewrite Hmode. reflexivity.
  - apply nearest_fill_result. exact Hr.
Qed.

(** The red dot in the middle of the green 3x3 frame: its eight
    neighbours qualify, and a nearest one is written. *)
Lemma nearest_fill_takes_nearest_witness :
  let info := info_dot FILL_MODE_NEAREST in
  let ctx := snd (InitProcessingContext initial_tables info) in
  FillLinePixel_format PF_PixelFormat_ARGB32 initial_tables info 1 1
    opaque_red ctx = opaque_green
  /\ exists source,
       FillLinePixel_format PF_PixelFormat_ARGB32 initial_tables info 1 1
         opaque_red ctx
       = ApplyColorAdjustmentsFast PF_PixelFormat_ARGB32 source (colorAdj ctx).
Proof.
  cbv zeta. split; [vm_compute; reflexivity|].
  assert (Hr : searchRadius (info_dot FILL_MODE_NEAREST)
               <= MAX_WEIGHT_TABLE_RADIUS)
    by (unfold MAX_WEIGHT_TABLE_RADIUS; simpl; lia).
  destruct (nearest_fill_takes_nearest PF_PixelFormat_ARGB32 initial_tables
              (snd (InitProcessingContext initial_tables
                      (info_dot FILL_MODE_NEAREST)))
              (info_dot FILL_MODE_NEAREST) 1 1 opaque_red eq_refl Hr)
    as (source & Hfill & _).
  exists source. exact Hfill.
Defined.

(* ===================================================================== *)
(** ** Blur of a line pixel with no line pixel around it                  *)
(* ===================================================================== *)

(** A loop in which one index alone changes the state. *)
Lemma fold_left_single {A : Type} (f : A -> Z -> A) (lo hi c : Z) (a : A) :
  lo <= c <= hi ->
  (forall i s, lo <= i <= hi -> i <> c -> f s i = s) ->
  fold_left f (range lo hi) a = f a c.
Proof.
  intros Hc Hid.
  assert (Hsplit : range lo hi = range lo (c - 1) ++ c :: range (c + 1) hi).
  { unfold range.
    replace (hi - lo + 1) with ((c - 1 - lo + 1) + (hi - c + 1)) by lia.
    rewrite seqZ_app by lia. f_equal.
    replace (lo + (c - 1 - lo + 1)) with c by lia.
    rewrite seqZ_cons by lia. f_equal. f_equal; lia. }
  rewrite Hsplit, fold_left_app. cbn [fold_left].
  rewrite (fold_left_id f (range lo (c - 1))).
  - apply fold_left_id. intros i s Hi. apply In_range in Hi.
    apply Hid; lia.
  - intros i s Hi. apply In_range in Hi. apply Hid; lia.
Qed.

(** The mean of one sample of weight 1 is the sample, in 8-bit and in
    16-bit channels. *)
Lemma single_sample_byte_checked :
  all_below 8 0 (fun n =>
    ClampByte ((0 + FpLong_of_Z n * 1) * (1 / (0 + 1)))%float =? n) = true.
Proof. vm_compute. reflexivity. Qed.

Lemma single_sample_channel (format : PF_PixelFormat) (n : Z) :
  match format with
  | PF_PixelFormat_ARGB32 =>
      0 <= n <= 255 ->
      ClampByte ((0 + FpLong_of_Z n * 1) * (1 / (0 + 1)))%float = n
  | _ =>
      0 <= n <= PF_MAX_CHAN16 ->
      Clamp16 ((0 + FpLong_of_Z n * 1) * (1 / (0 + 1)))%float = n
  end.
Proof.
  destruct format; intros Hn.
  - apply Z.eqb_eq.
    apply (all_below_spec 8 0 _ single_sample_byte_checked).
    change (2 ^ Z.of_nat 8) with 256. lia.
  - apply single_sample_short. exact Hn.
  - apply single_sample_short. exact Hn.
Qed.

Section BlurAlone.

Context {C : Type}.
Variable exp : float -> float.
Variable ops : DepthOps C.
Variable g : WeightTables.
Variable ctx : BlurContext C.
Variables xL yL : Z.
Hypothesis Hexp : exp_sound exp.
Hypothesis Hradius : 1 <= blurRadius ctx <= MAX_WEIGHT_TABLE_RADIUS.
Hypothesis Hsize : blurSize ctx = blurRadius ctx * 2 + 1.
Hypothesis Htable :
  gaussian_table_for exp (blurRadius ctx) (g_gaussianWeights g).
Hypothesis Hmasked : GetMaskAt (blur_info ctx) xL yL <> 0.
Hypothesis Halone : alone_in_window ctx xL yL.

Lemma blur_row_alone (dy : Z) (acc : Acc) :
  - blurRadius ctx <= dy <= blurRadius ctx -> dy <> 0 ->
  blur_row ops g ctx xL yL dy acc = acc.
Proof.
  intros Hdy Hne. unfold blur_row.
  destruct ((yL + dy <? 0) || (yL + dy >=? maskHeight (blur_info ctx)));
    [reflexivity|].
  unfold for_range. apply fold_left_id.
  intros dx s Hdx. apply In_range in Hdx.
  apply blur_tap_unmasked. apply Halone; [exact Hdx|exact Hdy|].
  intros Heq. injection Heq as _ H0. contradiction.
Qed.

Lemma blur_row_center_alone (acc : Acc) :
  blur_row ops g ctx xL yL 0 acc
  = acc_add ops acc (pixel_at (zero_pixel ops) (tempWorld ctx) xL yL) 1%float.
Proof.
  destruct (GetMaskAt_nonzero_in_frame _ _ _ Hmasked) as [_ Hy].
  unfold blur_row. rewrite Z.add_0_r, Hy. unfold for_range.
  rewrite (fold_left_single _ _ _ 0).
  - apply (blur_tap_center exp ops g ctx xL yL Hexp Hradius Hsize Htable
             Hmasked).
  - lia.
  - intros dx s Hdx Hne. apply blur_tap_unmasked.
    pose proof (Halone dx 0 Hdx ltac:(lia)) as H0.
    rewrite Z.add_0_r in H0. apply H0.
    intros Heq. injection Heq as Hx0. contradiction.
Qed.

Lemma blur_accumulate_alone :
  blur_accumulate ops g ctx xL yL
  = acc_add ops acc_zero (pixel_at (zero_pixel ops) (tempWorld ctx) xL yL)
      1%float.
Proof.
  unfold blur_accumulate, for_range.
  rewrite (fold_left_single _ _ _ 0).
  - apply blur_row_center_alone.
  - lia.
  - intros dy s Hdy Hne. apply blur_row_alone; assumption.
Qed.

End BlurAlone.

(** Property X18.  In 8-bit and 16-bit frames, a line pixel with no
    other line pixel inside its blur window, and whose pixel in the first
    pass's output has its four channels in the native range of the format
    (0..255, 0..32768), comes out of the blur pass as that pixel: the mean
    of the one sample of weight [exp(-0) = 1] is the sample itself,
    channel by channel. *)
Theorem lone_line_pixel_keeps_its_colour (exp : float -> float)
    (format : PF_PixelFormat) (g : WeightTables)
    (ctx : BlurContext (channel format)) (xL yL : Z)
    (inP : PF_Pixel (channel format)) :
  exp_sound exp ->
  1 <= blurRadius ctx <= MAX_WEIGHT_TABLE_RADIUS ->
  blurSize ctx = blurRadius ctx * 2 + 1 ->
  gaussian_table_for exp (blurRadius ctx) (g_gaussianWeights g) ->
  GetMaskAt (blur_info ctx) xL yL <> 0 ->
  alone_in_window ctx xL yL ->
  let p := pixel_at (zero_pixel (format_ops format)) (tempWorld ctx) xL yL in
  integer_pixel_in_range format p ->
  BlurPass_Optimized format g ctx xL yL inP = p.
Proof.
  intros Hexp Hr Hsize Htable Hmasked Halone p Hp. subst p.
  rewrite BlurPass_Optimized_unfold.
  rewrite (BlurPass_masked exp (format_ops format) g ctx xL yL Hexp Hr Hsize
             Htable Hmasked).
  rewrite (blur_accumulate_alone exp (format_ops format) g ctx xL yL Hexp Hr
             Hsize Htable Hmasked Halone).
  cbn [acc_add acc_zero sumA sumR sumG sumB totalWeight].
  destruct format; [| |contradiction];
    cbn [format_ops channel chan_store chan_fp ops8 ops16
         integer_pixel_in_range] in *;
    destruct Hp as (Ha & Hr' & Hg & Hb);
    set (q := pixel_at _ (tempWorld ctx) xL yL) in *.
  - rewrite (single_sample_channel PF_PixelFormat_ARGB32 (alpha q) Ha),
      (single_sample_channel PF_PixelFormat_ARGB32 (red q) Hr'),
      (single_sample_channel PF_PixelFormat_ARGB32 (green q) Hg),
      (single_sample_channel PF_PixelFormat_ARGB32 (blue q) Hb).
    destruct q; reflexivity.
  - rewrite (single_sample_channel PF_PixelFormat_ARGB64 (alpha q) Ha),
      (single_sample_channel PF_PixelFormat_ARGB64 (red q) Hr'),
      (single_sample_channel PF_PixelFormat_ARGB64 (green q) Hg),
      (single_sample_channel PF_PixelFormat_ARGB64 (blue q) Hb).
    destruct q; reflexivity.
Qed.

(** Radius 1 over the 3x3 red frame whose mask marks the centre only. *)
Lemma lone_line_pixel_keeps_its_colour_witness :
  let g := PrecomputeGaussianWeights exp_series 1 initial_tables in
  GetMaskAt (blur_info example_blur_ctx) 1 1 = 255
  /\ BlurPass_Optimized PF_PixelFormat_ARGB32 g example_blur_ctx 1 1 opaque_red
     = opaque_red.
Proof.
  cbv zeta. split; [reflexivity|].
  assert (Hr : 1 <= blurRadius example_blur_ctx <= MAX_WEIGHT_TABLE_RADIUS)
    by (unfold MAX_WEIGHT_TABLE_RADIUS; simpl; lia).
  assert (Halone : alone_in_window example_blur_ctx 1 1).
  { intros dx dy Hx Hy Hne. cbn [blurRadius example_blur_ctx] in Hx, Hy.
    assert (Hdx : dx = -1 \/ dx = 0 \/ dx = 1) by lia.
    assert (Hdy : dy = -1 \/ dy = 0 \/ dy = 1) by lia.
    destruct Hdx as [->|[->| ->]]; destruct Hdy as [->|[->| ->]];
      try reflexivity; contradiction. }
  apply (lone_line_pixel_keeps_its_colour exp_series PF_PixelFormat_ARGB32
           _ example_blur_ctx 1 1 opaque_red exp_series_sound Hr eq_refl).
  - apply (PrecomputeGaussianWeights_ok exp_series 1 initial_tables
             (initial_tables_cache_ok exp_series)).
    unfold MAX_WEIGHT_TABLE_RADIUS. lia.
  - discriminate.
  - exact Halone.
  - change (integer_pixel_in_range PF_PixelFormat_ARGB32 opaque_red).
    cbn. lia.
Defined.

(* ===================================================================== *)
(** ** Saturation of a grey pixel                                         *)
(* ===================================================================== *)

Lemma is_finite_shape (f : float) :
  is_finite f = true ->
  (exists s, Prim2SF f = S754_zero s)
  \/ exists s m e, Prim2SF f = S754_finite s m e.
Proof.
  unfold is_finite, is_nan, is_infinity. intros H.
  apply negb_true_iff, orb_false_iff in H as [Hnan Hinf].
  apply negb_false_iff, not_nan_shape in Hnan.
  rewrite FloatAxioms.eqb_spec, abs_spec in Hinf.
  change (Prim2SF infinity) with (S754_infinity false) in Hinf.
  destruct (Prim2SF f) as [s|s| |s m e]; eauto; [|congruence].
  cbn in Hinf. discriminate.
Qed.

(** Saturation 0 scaled by a finite factor is still below the threshold
    under which [HSLtoRGB] takes the colour for a grey. *)
Lemma scaled_zero_saturation (f : float) :
  is_finite f = true -> (Clamp01 (0 * f) <? 0.00001)%float = true.
Proof.
  intros Hf.
  assert (Hz : exists s, Prim2SF (0 * f) = S754_zero s).
  { rewrite FloatAxioms.mul_spec. change (Prim2SF 0) with (S754_zero false).
    destruct (is_finite_shape f Hf) as [(s & ->)|(s & m & e & ->)];
      cbn; eauto. }
  destruct Hz as (s & Hz). unfold Clamp01.
  assert (H0 : (0 * f <? 0)%float = false).
  { rewrite FloatAxioms.ltb_spec, Hz. reflexivity. }
  assert (H1 : (1 <? 0 * f)%float = false).
  { rewrite FloatAxioms.ltb_spec, Hz. reflexivity. }
  rewrite H0, H1. rewrite FloatAxioms.ltb_spec, Hz. reflexivity.
Qed.

(** A grey 8-bit channel value, normalised: the spread of the
    grey is below the achromatic threshold, and its lightness stored back
    is the value. *)
Lemma grey_byte_checked :
  all_below 8 0 (fun n =>
    let c := (FpLong_of_Z n * 0.00392156863)%float in
    (c - c <? 0.00001)%float
    && (ClampByte ((c + c) * 0.5 * 255)%float =? n)
    && (ClampByte (c * 255)%float =? n)) = true.
Proof. vm_compute. reflexivity. Qed.

Lemma grey_byte (n : Z) :
  0 <= n <= 255 ->
  let c := (FpLong_of_Z n * 0.00392156863)%float in
  (c - c <? 0.00001)%float = true
  /\ ClampByte ((c + c) * 0.5 * 255)%float = n
  /\ ClampByte (c * 255)%float = n.
Proof.
  intros Hn.
  pose proof (all_below_spec 8 0 _ grey_byte_checked n) as H.
  change (2 ^ Z.of_nat 8) with 256 in H. specialize (H ltac:(lia)).
  cbv zeta in *. rewrite !andb_true_iff, !Z.eqb_eq in H. tauto.
Qed.

(** The saturation stage on a grey whose spread is below the threshold:
    the grey of its lightness. *)
Lemma saturation_stage_grey (adj : ColorAdjustParams) (c : float) :
  is_finite (saturationFactor adj) = true ->
  (c - c <? 0.00001)%float = true ->
  saturation_stage adj (c, c, c)
  = if needsSaturation adj
    then ((c + c) * 0.5, (c + c) * 0.5, (c + c) * 0.5)%float
    else (c, c, c).
Proof.
  intros Hf Hc. unfold saturation_stage.
  destruct (needsSaturation adj); [|reflexivity].
  unfold RGBtoHSL. destruct (c <? c)%float; rewrite Hc;
    unfold HSLtoRGB; rewrite (scaled_zero_saturation _ Hf); reflexivity.
Qed.

(** Property X19.  With brightness and contrast off and a finite
    saturation factor, the 8-bit and 16-bit adjusters leave a grey pixel
    (red = green = blue, channels in the native range) exactly as it is,
    whatever the saturation: the grey has saturation 0, and normalising
    and storing back a channel loses nothing. *)
Theorem saturation_keeps_grey (format : PF_PixelFormat)
    (pixel : PF_Pixel (channel format)) (adj : ColorAdjustParams) :
  needsBrightness adj = false -> needsContrast adj = false ->
  is_finite (saturationFactor adj) = true ->
  integer_pixel_in_range format pixel ->
  red pixel = green pixel -> green pixel = blue pixel ->
  ApplyColorAdjustmentsFast format pixel adj = pixel.
Proof.
  intros Hb Hc Hf Hp Hrg Hgb.
  destruct format; [| |contradiction];
    cbn [ApplyColorAdjustmentsFast channel integer_pixel_in_range] in *;
    destruct pixel as [a r g b]; cbn [alpha red green blue] in *;
    subst g b; destruct Hp as (_ & Hr & _ & _).
  - unfold ApplyColorAdjustments8Fast. cbn [alpha red green blue].
    destruct (negb (needsAdjustment adj)); [reflexivity|].
    unfold brightness_stage, contrast_stage. rewrite Hb, Hc.
    destruct (grey_byte r Hr) as (H1 & H2 & H3). cbv zeta in H1, H2, H3.
    rewrite (saturation_stage_grey adj _ Hf H1).
    destruct (needsSaturation adj); rewrite ?H2, ?H3; reflexivity.
  - unfold ApplyColorAdjustments16Fast. cbn [alpha red green blue].
    destruct (negb (needsAdjustment adj)); [reflexivity|].
    unfold brightness_stage, contrast_stage. rewrite Hb, Hc.
    destruct (grey_short r Hr) as (H1 & H2 & H3). cbv zeta in H1, H2, H3.
    cbv zeta. rewrite (saturation_stage_grey adj _ Hf H1).
    destruct (needsSaturation adj); rewrite ?H2, ?H3; reflexivity.
Qed.

(** Saturation +50 on the grey (255, 128, 128, 128). *)
Lemma saturation_keeps_grey_witness :
  let adj := InitColorAdjustParams
               (mkInfo (mkPixel 255 200 0 0) 10 FILL_MODE_AVERAGE 1 true 0 0 0
                  50 OUTPUT_MODE_FULL frame_red [] 0 0 0) in
  needsSaturation adj = true
  /\ ApplyColorAdjustments8Fast (mkPixel 255 128 128 128) adj
     = mkPixel 255 128 128 128.
Proof.
  cbv zeta. split; [reflexivity|].
  apply (saturation_keeps_grey PF_PixelFormat_ARGB32 (mkPixel 255 128 128 128));
    try reflexivity.
  cbn. lia.
Defined.

(* ===================================================================== *)
(** ** What the blur reads                                                *)
(* ===================================================================== *)

Section BlurReads.

Context {C : Type}.
Variable ops : DepthOps C.
Variable g : WeightTables.
Variable info : ColorLinesInfo C.
Variables temp temp' : PF_EffectWorld C.
Variables radius size : Z.
Variables xL yL : Z.

Hypothesis Hsame : forall dx dy,
  - radius <= dx <= radius -> - radius <= dy <= radius ->
  GetMaskAt info (xL + dx) (yL + dy) <> 0 ->
  pixel_at (zero_pixel ops) temp (xL + dx) (yL + dy)
  = pixel_at (zero_pixel ops) temp' (xL + dx) (yL + dy).

Lemma blur_accumulate_reads_mask_only :
  blur_accumulate ops g (mkBlurCtx info temp radius size) xL yL
  = blur_accumulate ops g (mkBlurCtx info temp' radius size) xL yL.
Proof.
  unfold blur_accumulate, for_range. cbn [blurRadius].
  apply fold_left_ext_in. intros dy acc Hdy. apply In_range in Hdy.
  unfold blur_row. cbn [blur_info blurRadius].
  destruct ((yL + dy <? 0) || (yL + dy >=? maskHeight info)); [reflexivity|].
  unfold for_range. apply fold_left_ext_in.
  intros dx acc' Hdx. apply In_range in Hdx.
  unfold blur_tap. cbn [blur_info blurRadius blurSize tempWorld].
  destruct ((xL + dx <? 0) || (xL + dx >=? maskWidth info)); [reflexivity|].
  destruct (GetMaskAt info (xL + dx) (yL + dy) =? 0) eqn:E; [reflexivity|].
  apply Z.eqb_neq in E. rewrite (Hsame dx dy Hdx Hdy E). reflexivity.
Qed.

End BlurReads.

(** Property X20.  The blur of a pixel reads the first pass's output at
    line pixels only: two snapshots that agree at the line pixels of the
    window give the same blurred pixel, whatever they hold elsewhere.  No
    colour of a pixel that is not a line pixel is mixed in. *)
Theorem blur_reads_line_pixels_only (format : PF_PixelFormat)
    (g : WeightTables) (info : ColorLinesInfo (channel format))
    (temp temp' : PF_EffectWorld (channel format)) (radius size xL yL : Z)
    (inP : PF_Pixel (channel format)) :
  (forall dx dy,
     - radius <= dx <= radius -> - radius <= dy <= radius ->
     GetMaskAt info (xL + dx) (yL + dy) <> 0 ->
     pixel_at (zero_pixel (format_ops format)) temp (xL + dx) (yL + dy)
     = pixel_at (zero_pixel (format_ops format)) temp' (xL + dx) (yL + dy)) ->
  BlurPass_Optimized format g (mkBlurCtx info temp radius size) xL yL inP
  = BlurPass_Optimized format g (mkBlurCtx info temp' radius size) xL yL inP.
Proof.
  intros Hsame. rewrite !BlurPass_Optimized_unfold. unfold BlurPass.
  cbn [blur_info].
  rewrite (blur_accumulate_reads_mask_only (format_ops format) g info temp
             temp' radius size xL yL Hsame).
  reflexivity.
Qed.

(** The mask of [example_blur_ctx] marks the centre only, where
    [frame_red] and [frame_dot] agree: the blur of the centre is the same
    over both. *)
Lemma blur_reads_line_pixels_only_witness :
  BlurPass_Optimized PF_PixelFormat_ARGB32 initial_tables
    (mkBlurCtx (blur_info example_blur_ctx) frame_red 1 3) 1 1 opaque_red
  = BlurPass_Optimized PF_PixelFormat_ARGB32 initial_tables
      (mkBlurCtx (blur_info example_blur_ctx) frame_dot 1 3) 1 1 opaque_red.
Proof.
  apply (blur_reads_line_pixels_only PF_PixelFormat_ARGB32 initial_tables
           (blur_info example_blur_ctx) frame_red frame_dot 1 3 1 1
           opaque_red).
  intros dx dy Hdx Hdy Hm.
  assert (Cx : dx = -1 \/ dx = 0 \/ dx = 1) by lia.
  assert (Cy : dy = -1 \/ dy = 0 \/ dy = 1) by lia.
  destruct Cx as [ -> | [ -> | -> ] ]; destruct Cy as [ -> | [ -> | -> ] ];
    first [ reflexivity | exfalso; apply Hm; reflexivity ].
Defined.

(* ===================================================================== *)
(** ** Indices into the weight tables                                     *)
(* ===================================================================== *)

(** Property X21.  For a radius of 0 to 50, the index
    [(dy + radius) * (radius * 2 + 1) + (dx + radius)] of every tap of the
    window lies inside the weight table, and two different taps have
    different indices: filling the table writes no cell twice and the
    fill and the blur read inside the table. *)
Theorem weight_table_index_ok (radius dx dy dx' dy' : Z) :
  0 <= radius <= MAX_WEIGHT_TABLE_RADIUS ->
  - radius <= dx <= radius -> - radius <= dy <= radius ->
  - radius <= dx' <= radius -> - radius <= dy' <= radius ->
  let idx a b := (b + radius) * (radius * 2 + 1) + (a + radius) in
  0 <= idx dx dy < WEIGHT_TABLE_SIZE
  /\ (idx dx dy = idx dx' dy' -> dx = dx' /\ dy = dy').
Proof.
  intros Hr Hx Hy Hx' Hy'. cbv zeta. split.
  - pose proof (weight_index_bound radius dx dy Hr Hx Hy) as H.
    unfold weight_index in H. exact H.
  - intros Heq. apply (weight_index_inj radius); auto.
Qed.

Lemma weight_table_index_ok_witness :
  0 <= (50 + 50) * (50 * 2 + 1) + (50 + 50) < WEIGHT_TABLE_SIZE.
Proof.
  refine (proj1 (weight_table_index_ok 50 50 50 50 50 _ _ _ _ _));
    unfold MAX_WEIGHT_TABLE_RADIUS; lia.
Defined.

(* ===================================================================== *)
(** ** The matchers at the ends of the tolerance slider                   *)
(* ===================================================================== *)

(** At tolerance 100 the 8-bit threshold [(100 * 4.4167)^2] lies between
    195072 and 195073, checked on every squared distance up to
    [3 * 255^2 = 195075]. *)
Lemma tolerance_100_checked :
  all_below 18 0 (fun d =>
    (195075 <? d)
    || Bool.eqb (FpLong_of_Z d <=? 100 * 4.4167 * (100 * 4.4167))%float
         (d <=? 195072)) = true.
Proof. vm_compute. reflexivity. Qed.

(** Property X22.  In 8-bit frames, at tolerance 100 (the top of the
    slider) a pixel matches the target colour unless its red, green and
    blue all differ from the target's by the full 255: the one colour at
    the opposite corner of the colour cube is not matched. *)
Theorem full_tolerance_8bit (pixel : PF_Pixel8) (target : PF_Pixel Z) :
  byte_range pixel -> byte_range target ->
  IsTargetColor8 pixel target 100 = false
  <-> Z.abs (red pixel - red target) = 255
      /\ Z.abs (green pixel - green target) = 255
      /\ Z.abs (blue pixel - blue target) = 255.
Proof.
  intros Hp Ht.
  pose proof Hp as (Hr & Hg & Hb). pose proof Ht as (Hr' & Hg' & Hb').
  unfold IsTargetColor8, IsTargetColor8Fast.
  rewrite distSq8_exact by assumption. rewrite !Z.pow_2_r.
  set (dr := red pixel - red target). set (dg := green pixel - green target).
  set (db := blue pixel - blue target).
  assert (Br : - 255 <= dr <= 255) by (subst dr; lia).
  assert (Bg : - 255 <= dg <= 255) by (subst dg; lia).
  assert (Bb : - 255 <= db <= 255) by (subst db; lia).
  clearbody dr dg db.
  pose proof (sq_bound dr Br) as Sr. pose proof (sq_bound dg Bg) as Sg.
  pose proof (sq_bound db Bb) as Sb.
  pose proof (all_below_spec 18 0 _ tolerance_100_checked
                (dr * dr + dg * dg + db * db)) as Hc.
  cbv beta in Hc.
  assert (Hin : 0 * 2 ^ Z.of_nat 18 <= dr * dr + dg * dg + db * db
                < (0 + 1) * 2 ^ Z.of_nat 18)
    by (change (2 ^ Z.of_nat 18) with 262144; lia).
  specialize (Hc Hin).
  destruct (195075 <? dr * dr + dg * dg + db * db) eqn:E;
    [apply Z.ltb_lt in E; lia|].
  cbn [orb] in Hc. apply eqb_prop in Hc. rewrite Hc.
  assert (Hfull : forall d, - 255 <= d <= 255 ->
            (Z.abs d = 255 <-> d * d = 65025) /\ (Z.abs d <> 255 -> d * d <= 64516)).
  { intros d Hd. split; [split|].
    - intros H. destruct (Z.abs_spec d) as [[_ Ha]|[_ Ha]]; rewrite Ha in H.
      + subst d. reflexivity.
      + replace d with (-255) by lia. reflexivity.
    - intros H. destruct (Z.eq_dec (Z.abs d) 255) as [Ha|Ha]; [exact Ha|].
      exfalso.
      pose proof (Z.mul_nonneg_nonneg (254 - d) (254 + d)
                    ltac:(lia) ltac:(lia)). lia.
    - intros Ha.
      pose proof (Z.mul_nonneg_nonneg (254 - d) (254 + d)
                    ltac:(lia) ltac:(lia)). lia. }
  destruct (Hfull dr Br) as [Fr Nr]. destruct (Hfull dg Bg) as [Fg Ng].
  destruct (Hfull db Bb) as [Fb Nb].
  rewrite Z.leb_gt. rewrite Fr, Fg, Fb.
  assert (Cr : dr * dr = 65025 \/ dr * dr <= 64516)
    by (destruct (Z.eq_dec (Z.abs dr) 255) as [A|A];
        [left; apply Fr; exact A|right; exact (Nr A)]).
  assert (Cg : dg * dg = 65025 \/ dg * dg <= 64516)
    by (destruct (Z.eq_dec (Z.abs dg) 255) as [A|A];
        [left; apply Fg; exact A|right; exact (Ng A)]).
  assert (Cb : db * db = 65025 \/ db * db <= 64516)
    by (destruct (Z.eq_dec (Z.abs db) 255) as [A|A];
        [left; apply Fb; exact A|right; exact (Nb A)]).
  clear Fr Nr Fg Ng Fb Nb Hfull Hc Hin E.
  generalize dependent (dr * dr). generalize dependent (dg * dg).
  generalize dependent (db * db). intros c Sc Cc b Sb Cb a Sa Ca. lia.
Qed.

(** White against a black target is not matched; mid grey is. *)
Lemma full_tolerance_8bit_witness :
  IsTargetColor8 (mkPixel 255 255 255 255) (mkPixel 255 0 0 0) 100 = false.
Proof.
  apply (full_tolerance_8bit (mkPixel 255 255 255 255) (mkPixel 255 0 0 0)).
  - unfold byte_range; simpl; lia.
  - unfold byte_range; simpl; lia.
  - simpl. repeat split.
Defined.

(** *** Differences and squares of binary64 numbers *)

(** Rounding a mantissa that is not 0 gives a number that is not 0, of
    at least the magnitude of the input, whatever the sign. *)
Lemma binary_round_aux_nonzero (s : bool) (m : positive) (e : Z)
    (l : location) :
  -1074 < Zpos (digits2_pos m) + e ->
  SFnonzero_from (Zpos (digits2_pos m) + e)
    (binary_round_aux prec emax s (Zpos m) e l).
Proof.
  intros Hmag. unfold binary_round_aux.
  destruct (shr_fexp_positive m e l Hmag) as (m1 & r1 & s1 & e1 & H1 & Hd1).
  rewrite H1. cbn [shr_m].
  destruct (round_nearest_even_positive m1
              (loc_of_shr_record (Build_shr_record (Zpos m1) r1 s1)))
    as (m2 & H2 & Hle).
  rewrite H2. pose proof (digits2_pos_mono m1 m2 Hle) as Hd2.
  destruct (shr_fexp_positive m2 e1 loc_Exact ltac:(lia))
    as (m3 & r3 & s3 & e3 & H3 & Hd3).
  rewrite H3. cbn [shr_m].
  destruct (e3 <=? emax - prec).
  - right. exists s, m3, e3. split; [reflexivity|lia].
  - left. exists s. reflexivity.
Qed.

Lemma binary_round_nonzero (s : bool) (m : positive) (e : Z) :
  -1074 < Zpos (digits2_pos m) + e ->
  SFnonzero_from (Zpos (digits2_pos m) + e) (binary_round prec emax s m e).
Proof.
  intros Hmag. unfold binary_round.
  pose proof (shl_align_magnitude m e
                (fexp prec emax (Zpos (digits2_pos m) + e))) as Hs.
  destruct (shl_align m e (fexp prec emax (Zpos (digits2_pos m) + e)))
    as [mz ez]. cbn [fst snd] in Hs. rewrite <- Hs.
  apply binary_round_aux_nonzero. lia.
Qed.

Lemma SFnonzero_from_weaken (a b : Z) (x : spec_float) :
  b <= a -> SFnonzero_from a x -> SFnonzero_from b x.
Proof.
  intros Hab [H|(s & m & e & H & Hm)]; [left; exact H|].
  right. exists s, m, e. split; [exact H|lia].
Qed.

(** The difference of two positive finite numbers of different values is
    not 0. *)
Lemma SFsub_finite_nonzero (mx : positive) (ex : Z) (mt : positive) (et : Z) :
  -1074 <= ex -> -1074 <= et ->
  Zpos mx * 2 ^ (ex - Z.min ex et) <> Zpos mt * 2 ^ (et - Z.min ex et) ->
  SFnonzero_from (1 + Z.min ex et)
    (SF64sub (S754_finite false mx ex) (S754_finite false mt et)).
Proof.
  intros Hex Het Hne. unfold SF64sub, SFsub. cbn [cond_Zopp].
  change (IntDef.Z.min ex et) with (Z.min ex et).
  set (ez := Z.min ex et) in *.
  rewrite (shl_align_value mx ex ez), (shl_align_value mt et ez)
    by (subst ez; lia).
  destruct (Zpos mx * 2 ^ (ex - ez) - Zpos mt * 2 ^ (et - ez))
    as [|q|q] eqn:E; [lia| |]; cbn [binary_normalize];
    (eapply SFnonzero_from_weaken;
     [|apply binary_round_nonzero; subst ez; lia]; lia).
Qed.

Lemma digits2_pos_square (m : positive) :
  2 * Zpos (digits2_pos m) - 1 <= Zpos (digits2_pos (m * m)).
Proof.
  pose proof (digits2_pos_bounds m) as [Hl _].
  pose proof (digits2_pos_bounds (m * m)) as [_ Hu].
  assert (Hd : 0 < Zpos (digits2_pos m)) by lia.
  assert (Hsq : 2 ^ (2 * (Zpos (digits2_pos m) - 1)) <= Zpos (m * m)).
  { replace (2 * (Zpos (digits2_pos m) - 1))
      with ((Zpos (digits2_pos m) - 1) + (Zpos (digits2_pos m) - 1)) by lia.
    rewrite Z.pow_add_r by lia. rewrite Pos2Z.inj_mul.
    apply Z.mul_le_mono_nonneg; try lia; apply Z.pow_nonneg; lia. }
  assert (2 * (Zpos (digits2_pos m) - 1) < Zpos (digits2_pos (m * m))).
  { apply (Z.pow_lt_mono_r_iff 2); lia. }
  lia.
Qed.

(** The square of a number that is not 0 and not too small is above
    0. *)
Lemma SFmul_square_positive (a : Z) (x : spec_float) :
  -536 <= a -> SFnonzero_from a x -> SFpositive (SF64mul x x).
Proof.
  intros Ha [(s & ->)|(s & m & e & -> & Hm)].
  - cbn. destruct s; exact I.
  - unfold SF64mul, SFmul.
    replace (xorb s s) with false by (destruct s; reflexivity).
    pose proof (digits2_pos_square m) as Hsq.
    eapply SFpositive_from_positive.
    apply binary_round_aux_positive. lia.
Qed.

(** Two aligned mantissas of equal value: if one number is whole, so is
    the other. *)
Lemma aligned_whole (mx : positive) (ex : Z) (mt : positive) (et : Z) :
  whole_shape mx ex = true -> et < 0 ->
  Zpos mx * 2 ^ (ex - Z.min ex et) = Zpos mt * 2 ^ (et - Z.min ex et) ->
  Zpos mt mod 2 ^ (- et) = 0.
Proof.
  intros Hw Het Heq. set (ez := Z.min ex et) in *.
  assert (Hez : ez <= et /\ ez <= ex /\ ez < 0) by (subst ez; lia).
  assert (HK : exists K, Zpos mx * 2 ^ (ex - ez) = K * 2 ^ (- ez)).
  { unfold whole_shape in Hw. apply orb_true_iff in Hw as [Hw|Hw].
    - apply Z.leb_le in Hw. exists (Zpos mx * 2 ^ ex).
      replace (ex - ez) with (ex + - ez) by lia.
      rewrite Z.pow_add_r by lia. lia.
    - apply Z.eqb_eq in Hw.
      destruct (Z_lt_le_dec ex 0) as [Hneg|Hpos].
      + apply Z.mod_divide in Hw; [|apply Z.pow_nonzero; lia].
        destruct Hw as [k Hk]. exists k. rewrite Hk.
        replace (- ez) with (- ex + (ex - ez)) by lia.
        rewrite Z.pow_add_r by lia. lia.
      + exists (Zpos mx * 2 ^ ex).
        replace (ex - ez) with (ex + - ez) by lia.
        rewrite Z.pow_add_r by lia. lia. }
  destruct HK as [K HK]. rewrite HK in Heq.
  replace (- ez) with (- et + (et - ez)) in Heq by lia.
  rewrite Z.pow_add_r in Heq by lia.
  assert (Hp : 0 < 2 ^ (et - ez)) by (apply Z.pow_pos_nonneg; lia).
  assert (Hmt : Zpos mt = K * 2 ^ (- et)) by nia.
  rewrite Hmt. apply Z_mod_mult.
Qed.

(** *** The scaled targets and the promoted channels *)

(** A positive whole number below [2^53] promoted to [PF_FpLong] is
    that whole number. *)
Lemma FpLong_of_Z_shape (p : Z) :
  0 < p < 2 ^ 53 ->
  exists (m : positive) (e : Z),
    Prim2SF (FpLong_of_Z p) = S754_finite false m e
    /\ -52 <= e /\ whole_shape m e = true.
Proof.
  intros Hp. unfold FpLong_of_Z. destruct (p <? 0) eqn:E; [lia|].
  rewrite FloatAxioms.of_uint63_spec, Uint63.of_Z_spec.
  rewrite Z.mod_small by (change wB with (2 ^ 63); lia).
  destruct p as [|q|q]; try lia. cbn [binary_normalize]. unfold binary_round.
  pose proof (digits2_pos_bounds q) as [Hl Hu].
  assert (Hd : 1 <= Zpos (digits2_pos q) <= 53).
  { split; [lia|].
    assert (Zpos (digits2_pos q) - 1 < 53)
      by (apply (Z.pow_lt_mono_r_iff 2); lia).
    lia. }
  assert (Hf : fexp prec emax (Zpos (digits2_pos q) + 0)
               = Zpos (digits2_pos q) - 53).
  { unfold fexp, SpecFloat.emin, prec, emax.
    change (IntDef.Z.max (Zpos (digits2_pos q) + 0 - 53) (3 - 1024 - 53))
      with (Z.max (Zpos (digits2_pos q) + 0 - 53) (3 - 1024 - 53)). lia. }
  rewrite Hf. unfold shl_align.
  destruct (Zpos (digits2_pos q) - 53 - 0) as [|k|k] eqn:Ek; [|lia|].
  - exists q, 0. rewrite binary_round_aux_exact by lia.
    split; [reflexivity|]. split; [lia|reflexivity].
  - exists (Pos.iter xO q k), (Zpos (digits2_pos q) - 53).
    rewrite binary_round_aux_exact
      by (try rewrite digits2_pos_iter_xO; lia).
    split; [reflexivity|]. split; [lia|].
    unfold whole_shape. apply orb_true_iff. right. apply Z.eqb_eq.
    rewrite iter_xO_value.
    replace (- (Zpos (digits2_pos q) - 53)) with (Zpos k) by lia.
    apply Z_mod_mult.
Qed.

(** The target values 1..254 scaled by [PF_MAX_CHAN16 / 255.0] are
    positive numbers that are no whole numbers. *)
Lemma scaled_target_checked :
  all_below 8 0 (fun t =>
    (t =? 0) || (255 <=? t)
    || match Prim2SF (FpLong_of_Z t * (FpLong_of_Z PF_MAX_CHAN16 / 255)) with
       | S754_finite false m e =>
           (-500 <=? e) && (e <? 0) && negb (Zpos m mod 2 ^ (- e) =? 0)
       | _ => false
       end) = true.
Proof. vm_compute. reflexivity. Qed.

(** On the target values 0 and 255, which are scaled to 0 and 32768, the
    squared difference is 0 on the channel values 0 and 32768 and above 0
    on the others. *)
Lemma end_targets_checked :
  all_below 16 0 (fun p =>
    (0 <=? channel_sq16 p 0)%float
    && (exact16b p 0 || (0 <? channel_sq16 p 0)%float)
    && (0 <=? channel_sq16 p 255)%float
    && (exact16b p 255 || (0 <? channel_sq16 p 255)%float)) = true.
Proof. vm_compute. reflexivity. Qed.

(** The squared difference of a channel from a scaled target of 1..254
    is above 0. *)
Lemma channel_sq16_positive (p t : Z) :
  0 <= p <= 65535 -> 0 < t < 255 -> (0 <? channel_sq16 p t)%float = true.
Proof.
  intros Hp Ht.
  pose proof (all_below_spec 8 0 _ scaled_target_checked t) as HT.
  cbv beta in HT.
  specialize (HT ltac:(change (2 ^ Z.of_nat 8) with 256; lia)).
  destruct (t =? 0) eqn:E0; [apply Z.eqb_eq in E0; lia|].
  destruct (255 <=? t) eqn:E1; [apply Z.leb_le in E1; lia|].
  cbn [orb] in HT.
  apply ltb_zero_shape. unfold channel_sq16. cbv zeta.
  rewrite FloatAxioms.mul_spec, FloatAxioms.sub_spec.
  pose proof (valid_exponent_floor
                (FpLong_of_Z t * (FpLong_of_Z PF_MAX_CHAN16 / 255))) as Vt.
  destruct (Prim2SF (FpLong_of_Z t * (FpLong_of_Z PF_MAX_CHAN16 / 255)))
    as [st|st| |[|] mt et]; try discriminate.
  apply andb_true_iff in HT as [HT Hfrac].
  apply andb_true_iff in HT as [Het Hneg].
  apply Z.leb_le in Het. apply Z.ltb_lt in Hneg.
  apply negb_true_iff, Z.eqb_neq in Hfrac.
  destruct (Z.eq_dec p 0) as [->|Hp0].
  - change (Prim2SF (FpLong_of_Z 0)) with (S754_zero false).
    apply (SFmul_square_positive (-500)); [lia|].
    right. exists true, mt, et. split; [reflexivity|lia].
  - destruct (FpLong_of_Z_shape p ltac:(lia)) as (mp & ep & -> & Hep & Hw).
    apply (SFmul_square_positive (1 + Z.min ep et)); [lia|].
    apply SFsub_finite_nonzero; [lia|lia|].
    intros Heq. apply Hfrac.
    exact (aligned_whole mp ep mt et Hw Hneg Heq).
Qed.

Lemma channel_sq16_sign (p t : Z) :
  0 <= p <= 65535 -> 0 <= t <= 255 ->
  (0 <=? channel_sq16 p t)%float = true
  /\ (exact16b p t = false -> (0 <? channel_sq16 p t)%float = true).
Proof.
  intros Hp Ht.
  pose proof (all_below_spec 16 0 _ end_targets_checked p) as HE.
  cbv beta in HE.
  specialize (HE ltac:(change (2 ^ Z.of_nat 16) with 65536; lia)).
  apply andb_true_iff in HE as [HE H255]. apply andb_true_iff in HE as [HE N255].
  apply andb_true_iff in HE as [N0 H0].
  destruct (Z.eq_dec t 0) as [->|Hn0].
  { split; [exact N0|]. intros E. rewrite E in H0. exact H0. }
  destruct (Z.eq_dec t 255) as [->|Hn255].
  { split; [exact N255|]. intros E. rewrite E in H255. exact H255. }
  pose proof (channel_sq16_positive p t Hp ltac:(lia)) as Hpos.
  split; [apply float_positive_nonneg; exact Hpos|]. intros _. exact Hpos.
Qed.

Lemma channel_sq16_exact (p t : Z) :
  exact16b p t = true -> channel_sq16 p t = 0%float.
Proof.
  unfold exact16b. intros H. apply orb_true_iff in H as [H|H];
    apply andb_true_iff in H as [Ht Hp];
    apply Z.eqb_eq in Ht, Hp; subst; vm_compute; reflexivity.
Qed.

Lemma exact16b_spec (p t : Z) :
  exact16b p t = true
  <-> (t = 0 /\ p = 0) \/ (t = 255 /\ p = PF_MAX_CHAN16).
Proof.
  unfold exact16b.
  rewrite orb_true_iff, !andb_true_iff, !Z.eqb_eq. reflexivity.
Qed.

Lemma float_add_positive_nonneg (x w : float) :
  (0 <? x)%float = true -> (0 <=? w)%float = true -> (0 <? x + w)%float = true.
Proof.
  rewrite leb_zero_shape, !ltb_zero_shape, FloatAxioms.add_spec.
  apply SFadd_positive_l.
Qed.

Lemma float_positive_not_le_zero (x : float) :
  (0 <? x)%float = true -> (x <=? 0)%float = false.
Proof.
  rewrite FloatAxioms.ltb_spec, FloatAxioms.leb_spec.
  change (Prim2SF 0) with (S754_zero false).
  destruct (Prim2SF x) as [s|[|]| |[|] m e]; cbn; intros H;
    try discriminate; reflexivity.
Qed.

(** Property X23.  In 16-bit frames, with tolerance 0 (the default of the
    effect) a pixel is a line pixel only when each of red, green and blue
    is 0 on a target value 0 or 32768 on a target value 255.  A target
    colour with a channel from 1 to 254 is scaled to a number that is no
    whole number, and no 16-bit pixel matches it. *)
Theorem exact_match_16bit (pixel : PF_Pixel16) (target : PF_Pixel Z) :
  ushort_rgb pixel -> byte_range target ->
  let exact p t := (t = 0 /\ p = 0) \/ (t = 255 /\ p = PF_MAX_CHAN16) in
  IsTargetColor16 pixel target 0 = true
  <-> exact (red pixel) (red target) /\ exact (green pixel) (green target)
      /\ exact (blue pixel) (blue target).
Proof.
  intros (Hr & Hg & Hb) (Hr' & Hg' & Hb') exact. subst exact. cbv beta.
  rewrite <- !exact16b_spec.
  unfold IsTargetColor16, IsTargetColor16Fast, distSqFp. cbv zeta.
  change (0 * 4.4167 * (FpLong_of_Z PF_MAX_CHAN16 / 255)
          * (0 * 4.4167 * (FpLong_of_Z PF_MAX_CHAN16 / 255)))%float
    with 0%float.
  fold (channel_sq16 (red pixel) (red target)).
  fold (channel_sq16 (green pixel) (green target)).
  fold (channel_sq16 (blue pixel) (blue target)).
  destruct (channel_sq16_sign (red pixel) (red target) Hr Hr') as [Nr Pr].
  destruct (channel_sq16_sign (green pixel) (green target) Hg Hg') as [Ng Pg].
  destruct (channel_sq16_sign (blue pixel) (blue target) Hb Hb') as [Nb Pb].
  split.
  - intros H.
    destruct (exact16b (red pixel) (red target)) eqn:Er.
    2:{ specialize (Pr eq_refl).
        pose proof (float_add_positive_nonneg _ _ Pr Ng) as P1.
        pose proof (float_add_positive_nonneg _ _ P1 Nb) as P2.
        rewrite (float_positive_not_le_zero _ P2) in H. discriminate. }
    destruct (exact16b (green pixel) (green target)) eqn:Eg.
    2:{ specialize (Pg eq_refl).
        pose proof (float_add_positive_r _ _ Nr Pg) as P1.
        pose proof (float_add_positive_nonneg _ _ P1 Nb) as P2.
        rewrite (float_positive_not_le_zero _ P2) in H. discriminate. }
    destruct (exact16b (blue pixel) (blue target)) eqn:Eb.
    2:{ specialize (Pb eq_refl).
        pose proof (float_add_nonneg _ _ Nr Ng) as N1.
        pose proof (float_add_positive_r _ _ N1 Pb) as P2.
        rewrite (float_positive_not_le_zero _ P2) in H. discriminate. }
    auto.
  - intros (Er & Eg & Eb).
    rewrite (channel_sq16_exact _ _ Er), (channel_sq16_exact _ _ Eg),
      (channel_sq16_exact _ _ Eb).
    vm_compute. reflexivity.
Qed.

(** The target colour (200,0,0) scaled to 16 bits is about
    (25700.39,0,0): no 16-bit red equals it, and the nearest pixel is not
    matched.  Pure red (255,0,0) is matched by (32768,0,0). *)
Lemma exact_match_16bit_witness :
  IsTargetColor16 (mkPixel 32768 25700 0 0) (mkPixel 255 200 0 0) 0 <> true
  /\ IsTargetColor16 (mkPixel 32768 32768 0 0) (mkPixel 255 255 0 0) 0 = true.
Proof.
  split.
  - intros H.
    apply (exact_match_16bit (mkPixel 32768 25700 0 0) (mkPixel 255 200 0 0))
      in H; [|unfold ushort_rgb; simpl; lia|unfold byte_range; simpl; lia].
    cbn in H. lia.
  - apply (exact_match_16bit (mkPixel 32768 32768 0 0) (mkPixel 255 255 0 0));
      [unfold ushort_rgb; simpl; lia|unfold byte_range; simpl; lia|].
    cbn. unfold PF_MAX_CHAN16. lia.
Defined.

(* ===================================================================== *)
(** ** The shared matchers of CXCommon.h                                  *)
(* ===================================================================== *)

(** On the whole-number tolerances 0..100 the threshold is the square of
    [n * 4.4167] rounded half up, computed exactly. *)
Lemma tolerance_to_distSq_checked :
  all_below 7 0 (fun n =>
    (100 <? n)
    || (CX_ToleranceToDistSq (FpLong_of_Z n)
        =? ((n * 44167 + 5000) / 10000) * ((n * 44167 + 5000) / 10000)))
  = true.
Proof. vm_compute. reflexivity. Qed.

(** On the 16-bit channel values 0..32768 the conversion to 8-bit space
    is [c * 255 / 32768] rounded half up: the division by 32768, the
    product with 255 and the sum with 0.5 are exact in [double]. *)
Lemma channel16_to_8_exact (c : Z) :
  0 <= c <= PF_MAX_CHAN16 ->
  CX_channel16_to_8 c = (c * 255 + 16384) / 32768
  /\ 0 <= CX_channel16_to_8 c <= 255.
Proof.
  unfold PF_MAX_CHAN16. intros Hc.
  assert (E : CX_channel16_to_8 c = (c * 255 + 16384) / 32768).
  { destruct c as [|q|q]; [vm_compute; reflexivity| |lia].
    assert (Hq : Zpos q < 2 ^ 53)
      by (change (2 ^ 53) with 9007199254740992; lia).
    unfold CX_channel16_to_8.
    rewrite (FpLong_to_Z_dyadic_div _ (q * 255 + 16384) (-15)).
    - change (2 ^ (- -15)) with 32768.
      rewrite Pos2Z.inj_add, Pos2Z.inj_mul. apply wrap32_small.
      assert (0 <= (Zpos q * 255 + 16384) / 32768 < 256).
      { split; [apply Z.div_pos; lia|apply Z.div_lt_upper_bound; lia]. }
      change (Zpos 255) with 255. change (Zpos 16384) with 16384.
      change (2 ^ 31) with 2147483648. lia.
    - change (2 ^ 53) with 9007199254740992. lia.
    - lia.
    - rewrite FloatAxioms.add_spec, FloatAxioms.mul_spec, FloatAxioms.div_spec.
      rewrite (FpLong_of_Z_dyadic q Hq).
      change (Prim2SF (FpLong_of_Z PF_MAX_CHAN16)) with (SFdyadic 1 15).
      change (Prim2SF (FpLong_of_Z PF_MAX_CHAN8)) with (SFdyadic 255 0).
      change (Prim2SF 0.5) with (SFdyadic 1 (-1)).
      rewrite (SFdiv_dyadic_pow2 q 0 15) by lia.
      rewrite (SFmul_dyadic q (0 - 15) 255 0)
        by (change (2 ^ 53) with 9007199254740992; lia).
      change (0 - 15 + 0) with (-15).
      apply (SFadd_dyadic (q * 255) (-15) 1 (-1) (q * 255 + 16384));
        change (2 ^ 53) with 9007199254740992; try lia.
      change (Z.min (-15) (-1)) with (-15).
      change (2 ^ (-15 - -15)) with 1. change (2 ^ (-1 - -15)) with 16384.
      lia. }
  split; [exact E|]. rewrite E. split.
  - apply Z.div_pos; lia.
  - assert ((c * 255 + 16384) / 32768 < 256)
      by (apply Z.div_lt_upper_bound; lia).
    lia.
Qed.

(** Property X24.  With the threshold [CX_ToleranceToDistSq] gives for a
    whole-number tolerance [n] of 0..100, the shared 8-bit matcher accepts
    a pixel exactly when its squared RGB distance to the target is at most
    the square of [n * 4.4167] rounded half up.  At tolerance 100 that
    bound is [442^2], above every distance of two 8-bit colours: every
    pixel matches. *)
Theorem shared_matcher_threshold (pixel : PF_Pixel8) (target : PF_Pixel Z)
    (n : Z) :
  byte_range pixel -> byte_range target -> 0 <= n <= 100 ->
  let accepts tolerance :=
    CX_IsTargetColor8 pixel (red target) (green target) (blue target)
      (CX_ToleranceToDistSq tolerance) in
  (accepts (FpLong_of_Z n) = true
   <-> (red pixel - red target) ^ 2 + (green pixel - green target) ^ 2
       + (blue pixel - blue target) ^ 2
       <= ((n * 44167 + 5000) / 10000) ^ 2)
  /\ accepts 100%float = true.
Proof.
  intros Hp Ht Hn accepts. subst accepts. cbv beta.
  pose proof Ht as (Hr' & Hg' & Hb').
  assert (Hthr : forall k, 0 <= k <= 100 ->
            CX_ToleranceToDistSq (FpLong_of_Z k)
            = ((k * 44167 + 5000) / 10000) ^ 2).
  { intros k Hk. rewrite Z.pow_2_r.
    pose proof (all_below_spec 7 0 _ tolerance_to_distSq_checked k) as H.
    cbv beta in H.
    specialize (H ltac:(change (2 ^ Z.of_nat 7) with 128; lia)).
    destruct (100 <? k) eqn:E; [apply Z.ltb_lt in E; lia|].
    apply Z.eqb_eq. exact H. }
  unfold CX_IsTargetColor8.
  rewrite distSq8_exact by assumption.
  split.
  - rewrite (Hthr n Hn). apply Z.leb_le.
  - change 100%float with (FpLong_of_Z 100).
    rewrite (Hthr 100 ltac:(lia)). apply Z.leb_le.
    destruct Hp as (Hr & Hg & Hb).
    pose proof (sq_bound (red pixel - red target) ltac:(lia)).
    pose proof (sq_bound (green pixel - green target) ltac:(lia)).
    pose proof (sq_bound (blue pixel - blue target) ltac:(lia)).
    rewrite !Z.pow_2_r.
    change ((100 * 44167 + 5000) / 10000 * ((100 * 44167 + 5000) / 10000))
      with 195364.
    lia.
Qed.

(** White against a black target: rejected at tolerance 50, where the
    bound is [221^2], and accepted at tolerance 100. *)
Lemma shared_matcher_threshold_witness :
  CX_IsTargetColor8 (mkPixel 255 255 255 255) 0 0 0
    (CX_ToleranceToDistSq (FpLong_of_Z 50)) <> true
  /\ CX_IsTargetColor8 (mkPixel 255 255 255 255) 0 0 0
       (CX_ToleranceToDistSq 100) = true.
Proof.
  assert (Hp : byte_range (mkPixel 255 255 255 255))
    by (unfold byte_range; simpl; lia).
  assert (Ht : byte_range (mkPixel 255 0 0 0))
    by (unfold byte_range; simpl; lia).
  destruct (shared_matcher_threshold (mkPixel 255 255 255 255)
              (mkPixel 255 0 0 0) 50 Hp Ht ltac:(lia)) as [H50 H100].
  split; [|exact H100].
  intros H. apply H50 in H. simpl in H.
  change ((50 * 44167 + 5000) / 10000) with 221 in H. lia.
Defined.

(** Property X25.  The shared 16-bit matcher answers as the shared 8-bit
    matcher does on the pixel taken to 8-bit space, where a channel [c] of
    0..32768 becomes [c * 255 / 32768] rounded half up, a value of
    0..255: the floating-point conversion is exact on every channel
    value. *)
Theorem shared_matcher_16bit_in_8bit_space (pixel : PF_Pixel16)
    (targetR8 targetG8 targetB8 toleranceSq8 : Z) :
  integer_pixel_in_range PF_PixelFormat_ARGB64 pixel ->
  let to8 c := (c * 255 + 16384) / 32768 in
  let pixel8 := mkPixel (to8 (alpha pixel)) (to8 (red pixel))
                  (to8 (green pixel)) (to8 (blue pixel)) in
  integer_pixel_in_range PF_PixelFormat_ARGB32 pixel8
  /\ CX_IsTargetColor16 pixel targetR8 targetG8 targetB8 toleranceSq8
     = CX_IsTargetColor8 pixel8 targetR8 targetG8 targetB8 toleranceSq8.
Proof.
  intros (Ha & Hr & Hg & Hb) to8 pixel8. subst to8 pixel8.
  change (channel PF_PixelFormat_ARGB64) with Z in *.
  destruct (channel16_to_8_exact _ Ha) as [Ea Ba].
  destruct (channel16_to_8_exact _ Hr) as [Er Br].
  destruct (channel16_to_8_exact _ Hg) as [Eg Bg].
  destruct (channel16_to_8_exact _ Hb) as [Eb Bb].
  split.
  - rewrite Ea in Ba. rewrite Er in Br. rewrite Eg in Bg. rewrite Eb in Bb.
    unfold integer_pixel_in_range. cbn [alpha red green blue]. auto.
  - unfold CX_IsTargetColor16, CX_IsTargetColor8, distSq8. cbv zeta.
    cbn [red green blue]. rewrite Er, Eg, Eb. reflexivity.
Qed.

(** Half of the 16-bit range becomes 128 in 8-bit space. *)
Lemma shared_matcher_16bit_in_8bit_space_witness :
  CX_IsTargetColor16 (mkPixel 32768 16384 0 32768) 128 0 255 0 = true.
Proof.
  refine (eq_trans
    (proj2 (shared_matcher_16bit_in_8bit_space
              (mkPixel 32768 16384 0 32768) 128 0 255 0 _)) _).
  - cbn. unfold PF_MAX_CHAN16. lia.
  - reflexivity.
Defined.
